(** * A lazy combinator evaluator: expression graph, forcing, application

    The repository evaluates programs of a small untyped combinator language.
    Expressions form a graph whose suspended nodes (thunks) are mutable
    objects: forcing one runs its recipe, stores the value and drops the
    recipe.  The repository has the evaluator twice: a functional variant
    (free functions [evaluate], [makeApply], [isNil], [exprToStaticData])
    and an object-oriented variant (methods [apply], [uncons], [isNil] and an
    [Evaluator] class).  Both are embedded here, each in its own module,
    with their built-in functions and their standard environment.  Of the
    functional variant, the expression parser ([parseExpr]) and the printer
    [debugString] are embedded as well.  [parseDefines], the drivers,
    [staticDataString] and [makePoint] are left out.

    Embedding choices, shared by both variants.
    - [bigint] is [Z]; BigInt division truncates toward zero ([Z.quot]) and
      raises on a zero divisor.
    - A thunk is a mutable object, so an expression holds its address [loc]
      in the store [thunks]; two expressions holding the same address alias
      the same node.
    - The host closures [(a: Expr) => Expr] and the recipes [() => Value]
      are defunctionalised: one constructor per lambda of the source, holding
      the captured variables.
    - A [Map<string, Expr>] is a mutable object too: an [Environment] holds
      the address of its map and (immutably) its parent.
    - Exceptions are results [Throw]; possible non-termination is handled
      with a fuel argument, [Timeout] meaning that the fuel ran out.  A
      statement that some call returns is proved for enough fuel
      ([finishes]) or for every amount of fuel above a given one. *)

From Stdlib Require Import ZArith String Ascii List Lia.
From Stdlib Require Import DecimalString DecimalZ DecimalPos.
From stdpp Require Import base option list gmap strings.

Set Warnings "-register-all".

Definition loc := nat.

(** The [kind] discriminant of the tagged union. *)
Inductive Kind := KNumber | KFunc | KNil | KCons | KThunk.

(** Everything the source throws.  The comments give the message of the
    source and the name the specification uses for it. *)
Inductive Error :=
| BrokenThunk                              (* 'Broken thunk': InternalInvariantViolation *)
| InvalidFunctionCall                      (* 'Invalid function call: number': NotApplicable *)
| NotAFunc                                 (* 'Not a func' (object-oriented variant): NotApplicable *)
| NotACons                                 (* 'Not a cons' (object-oriented variant) *)
| NotNilCons                               (* 'Not nil/cons', 'Not a nil/cons': AmbiguousValue *)
| NotModulatable                           (* 'Not modulatable' (object-oriented variant) *)
| UndefinedReference (name : string)       (* `Undefined reference ${name}` *)
| DuplicatedDefinition (name : string)     (* `Duplicated definition: ${name}` *)
| WrongTypes (op : string) (kinds : list Kind)  (* `${op}: wrong types: ${kinds}`: TypeMismatch *)
| ReduceOfEmptyArray                       (* TypeError of Array.prototype.reduce[Right] *)
| DivisionByZero.                          (* RangeError of BigInt division *)

(** An environment: the address of its (mutable) map of definitions and its
    parent, which is fixed at construction. *)
Inductive Environment := Env (defs_ : loc) (parent_ : option Environment).

(** Static representation of modulatable data. *)
Inductive StaticData :=
| NumberData (number : Z)
| ListData (elems : list StaticData)
| ConsData (car cdr : StaticData).

(** [elems.reduceRight((cdr, car) => f(car, cdr))] without an initial value:
    the last element starts the accumulation; an empty array is a TypeError. *)
Definition reduceRight {A} (f : A -> A -> A) (elems : list A) : option A :=
  match rev elems with
  | [] => None
  | last :: before => Some (fold_left (fun cdr car => f car cdr) before last)
  end.

Fixpoint staticDataEqual (a b : StaticData) : bool :=
  match a with
  | NumberData x =>
      match b with
      | NumberData y => Z.eqb x y
      | _ => false
      end
  | ListData xs =>
      match b with
      | ListData ys =>
          if negb (Nat.eqb (length xs) (length ys)) then false
          else (fix loop (xs ys : list StaticData) : bool :=
                  match xs, ys with
                  | x :: xs', y :: ys' =>
                      if staticDataEqual x y then loop xs' ys' else false
                  | _, _ => true
                  end) xs ys
      | _ => false
      end
  | ConsData car cdr =>
      match b with
      | ConsData car' cdr' => staticDataEqual car car' && staticDataEqual cdr cdr'
      | _ => false
      end
  end.

(** ** Results of running the program

    A computation runs on a store [St] and returns a value with the new
    store, throws (the store keeps what was written before the throw), or
    runs out of fuel. *)
Inductive Res (St A : Type) :=
| Ret (a : A) (s : St)
| Throw (e : Error) (s : St)
| Timeout.
Arguments Ret {St A} a s.
Arguments Throw {St A} e s.
Arguments Timeout {St A}.

Definition M (St A : Type) := St -> Res St A.

Definition ret {St A} (a : A) : M St A := fun s => Ret a s.
Definition throw {St A} (e : Error) : M St A := fun s => Throw e s.
Definition timeout {St A} : M St A := fun _ => Timeout.
Definition bind {St A B} (m : M St A) (k : A -> M St B) : M St B :=
  fun s =>
    match m s with
    | Ret a s' => k a s'
    | Throw e s' => Throw e s'
    | Timeout => Timeout
    end.

Notation "'let*' x ':=' m 'in' k" := (bind m (fun x => k))
  (at level 10, x name, m at level 100, k at level 200).

(** [args.reduce(f)] started from [acc], the callback running in the store. *)
Definition reduce {St A B} (f : B -> A -> M St B) : list A -> B -> M St B :=
  fix go (l : list A) (acc : B) : M St B :=
    match l with
    | [] => ret acc
    | x :: l' => let* acc' := f acc x in go l' acc'
    end.

(** [m'] does whatever [m] does, unless [m] runs out of fuel. *)
Definition approx {St A} (m m' : M St A) : Prop :=
  forall s, m s = Timeout \/ m s = m' s.

(** The store in which a computation finishes, normally or by a throw. *)
Definition finalStore {St A} (r : Res St A) : option St :=
  match r with
  | Ret _ s | Throw _ s => Some s
  | Timeout => None
  end.

(** [m] moves every store to an [R]-related one. *)
Definition preserves {St A} (R : St -> St -> Prop) (m : M St A) : Prop :=
  forall s s', finalStore (m s) = Some s' -> R s s'.

(** [m] throws nothing but errors in [P]. *)
Definition throwsOnly {St A} (P : Error -> Prop) (m : M St A) : Prop :=
  forall s e s', m s = Throw e s' -> P e.

(** A fuel-indexed computation finishes with [r] from [s]: some amount of fuel
    yields [r], a value or a throw. *)
Definition finishes {St A} (m : nat -> M St A) (s : St) (r : Res St A) : Prop :=
  r <> Timeout /\ exists fuel, m fuel s = r.

(** More fuel never changes what a computation did with less. *)
Definition monotone {St A} (m : nat -> M St A) : Prop :=
  forall fuel, approx (m fuel) (m (S fuel)).

(** The data that a graph of tagged Number, Nil and Cons values denotes. *)
Inductive Tagged :=
| TNumber (n : Z)
| TNil
| TCons (car cdr : Tagged).

(** The canonical tree of tagged data: a nil-terminated spine is a list, a
    number-terminated spine is a right-nested chain of pairs. *)
Definition prepend (x d : StaticData) : StaticData :=
  match d with
  | ListData elems => ListData (x :: elems)
  | _ => ConsData x d
  end.

Fixpoint canon (t : Tagged) : StaticData :=
  match t with
  | TNumber n => NumberData n
  | TNil => ListData []
  | TCons car cdr => prepend (canon car) (canon cdr)
  end.

(** The tagged data of a chain of pairs of the numbers [zs] that ends in
    [last]. *)
Fixpoint taggedChain (zs : list Z) (last : Tagged) : Tagged :=
  match zs with
  | [] => last
  | z :: zs' => TCons (TNumber z) (taggedChain zs' last)
  end.

(** The elements walked so far, put in front of the tree of the rest. *)
Definition onto (elems : list StaticData) (d : StaticData) : StaticData :=
  match d with
  | ListData rest => ListData (elems ++ rest)
  | _ => fold_right ConsData d elems
  end.

(** ** Strings

    A string is the sequence of its UTF-16 code units, each below 256 (the
    programs and the tokens are ASCII). *)

(** [String(n)] of a bigint: its decimal numeral, with a minus sign when
    negative. *)
Definition bigintToString (n : Z) : string := NilZero.string_of_int (Z.to_int n).

(** The digits of a nonempty string of decimal digits. *)
Definition digitsOf (s : string) : option Decimal.uint :=
  match s with
  | EmptyString => None
  | _ => NilEmpty.uint_of_string s
  end.

(** [/^-?\d+$/.test(token)] and, when the token matches, [BigInt(token)]. *)
Definition numberOf (token : string) : option Z :=
  match token with
  | String "-" rest => option_map (fun d => Z.opp (Z.of_uint d)) (digitsOf rest)
  | _ => option_map Z.of_uint (digitsOf token)
  end.

(** White space and line terminators, among the code units below 256. *)
Definition isWhiteSpace (c : ascii) : bool :=
  match nat_of_ascii c with
  | 9 | 10 | 11 | 12 | 13 | 32 | 160 => true
  | _ => false
  end.

Fixpoint trimStart (s : string) : string :=
  match s with
  | EmptyString => EmptyString
  | String c rest => if isWhiteSpace c then trimStart rest else s
  end.

Fixpoint reverse (s acc : string) : string :=
  match s with
  | EmptyString => acc
  | String c rest => reverse rest (String c acc)
  end.

Definition trimEnd (s : string) : string :=
  reverse (trimStart (reverse s EmptyString)) EmptyString.

(** [code.trim()] *)
Definition trim (s : string) : string := trimEnd (trimStart s).

(** [s.split(/ /)]: the pieces between the spaces, at least one. *)
Fixpoint splitSpaces (s : string) : list string :=
  match s with
  | EmptyString => [EmptyString]
  | String c rest =>
      if Ascii.eqb c " " then EmptyString :: splitSpaces rest
      else
        match splitSpaces rest with
        | piece :: pieces => String c piece :: pieces
        | [] => [String c EmptyString]
        end
  end.

(** Predicates on the characters of a string, and on its two ends. *)
Definition isDigit (c : ascii) : bool :=
  match nat_of_ascii c with
  | 48 | 49 | 50 | 51 | 52 | 53 | 54 | 55 | 56 | 57 => true
  | _ => false
  end.

Definition isNumeralChar (c : ascii) : bool := isDigit c || Ascii.eqb c "-".

Definition notSpace (c : ascii) : bool := negb (Ascii.eqb c " ").

Fixpoint allChars (p : ascii -> bool) (s : string) : bool :=
  match s with
  | EmptyString => true
  | String c rest => p c && allChars p rest
  end.

Definition startsNonWhite (s : string) : bool :=
  match s with
  | EmptyString => false
  | String c _ => negb (isWhiteSpace c)
  end.

Definition endsNonWhite (s : string) : bool := startsNonWhite (reverse s EmptyString).

(** How [parseExpr] and [parseExprIter] end when they do not return a parsed
    expression.  ['Excess token'] is the error that [parseExpr] throws.
    [NoToken]: the array of tokens was exhausted.  (The source then reads
    [tokens[0]], which is [undefined], and goes on with a reference to the
    name [undefined], which is no string and which no definition binds; the
    embedding, whose names are strings, stops there.) *)
Inductive ParseFailure := ExcessToken | NoToken.

Inductive Parse (A : Type) :=
| Parsed (a : A)
| Failed (why : ParseFailure).
Arguments Parsed {A} a.
Arguments Failed {A} why.

(** Terms in prefix notation, their tokens and the data they denote. *)
Inductive Term :=
| TAp (f x : Term)
| TNum (n : Z)
| TRef (name : string).

Fixpoint tokensOf (t : Term) : list string :=
  match t with
  | TAp f x => "ap"%string :: tokensOf f ++ tokensOf x
  | TNum n => [bigintToString n]
  | TRef name => [name]
  end.

(** What [debugString] prints for tagged data. *)
Fixpoint render (t : Tagged) : string :=
  match t with
  | TNumber n => bigintToString n
  | TNil => "nil"
  | TCons car cdr =>
      String.append "ap ap cons "
        (String.append (render car) (String.append " " (render cdr)))
  end.

(** The term that [render] writes. *)
Fixpoint termOf (t : Tagged) : Term :=
  match t with
  | TNumber n => TNum n
  | TNil => TRef "nil"
  | TCons car cdr => TAp (TAp (TRef "cons") (termOf car)) (termOf cdr)
  end.

(** The result of a parse that follows a computation [r] and leaves the
    tokens [rest]. *)
Definition leaving {St A} (rest : list string) (r : Res St A) : Res St (Parse (A * list string)) :=
  match r with
  | Ret a s => Ret (Parsed (a, rest)) s
  | Throw e s => Throw e s
  | Timeout => Timeout
  end.

(** A computation returns nothing but values in [Q]. *)
Definition returnsOnly {St A} (Q : A -> Prop) (m : M St A) : Prop :=
  forall s a s', m s = Ret a s' -> Q a.

(** Static data in canonical form: the cdr of a pair is never a list, so a
    spine that ends in nil is a list and nothing else. *)
Fixpoint canonical (d : StaticData) : bool :=
  match d with
  | NumberData _ => true
  | ListData elems => forallb canonical elems
  | ConsData car cdr =>
      canonical car && canonical cdr &&
      match cdr with
      | ListData _ => false
      | _ => true
      end
  end.

(** * The functional variant *)
Module Fn.

(** The host functions that the source passes to [makeFunc], [makeFunc2]
    and [makeFunc3]. *)
Inductive Fun1 :=
| FInc | FDec | FNeg | FI | FCar | FCdr | FIsNil.

Inductive Fun2 :=
| FAdd | FMul | FDiv | FEq | FLt | FCons
| FFirst      (* (a, b) => a, the body of theTrue *)
| FSecond     (* (a, b) => b, the body of theFalse *)
| FProbe.     (* (a, b) => makeBoolean(false), built by isNilSlow *)

Inductive Fun3 :=
| FS | FC | FB.

Inductive Value :=
| NumberValue (number : Z)
| FuncValue (func : Closure)
| NilValue
| ConsValue (car cdr : Expr)
with Expr :=
| Val (v : Value)
| Thunk (l : loc)
with Closure :=
| Lam1 (f : Fun1)                      (* makeFunc(f) *)
| Lam2 (f : Fun2)                      (* (a) => makeFunc((b) => f(a, b)) *)
| Lam2a (f : Fun2) (a : Expr)          (* (b) => f(a, b) *)
| Lam3 (f : Fun3)                      (* (a) => makeFunc((b) => makeFunc((c) => f(a, b, c))) *)
| Lam3a (f : Fun3) (a : Expr)          (* (b) => makeFunc((c) => f(a, b, c)) *)
| Lam3ab (f : Fun3) (a b : Expr).      (* (c) => f(a, b, c) *)

Coercion Val : Value >-> Expr.

(** The recipes [() => Value] handed to [makeThunk]. *)
Inductive Recipe :=
| RApply (lhs rhs : Expr)                      (* () => apply(lhs, rhs), in makeApply *)
| RReference (env : Environment) (name : string)   (* in makeReference *)
| RInc (a : Expr)
| RDec (a : Expr)
| RAdd (a b : Expr)
| RMul (a b : Expr)
| RDiv (a b : Expr)
| REq (a b : Expr)
| RLt (a b : Expr)
| RNeg (a : Expr)
| RS (a b c : Expr)
| RIsNil (a : Expr).

(** The two optional fields of a thunk object. *)
Record ThunkCell := { func : option Recipe; cache : option Value }.

Record State := {
  thunks : list ThunkCell;            (* the thunk objects, by address *)
  maps : list (gmap string Expr);     (* the Map objects of the environments *)
  evalCounter : nat;
}.

Definition kind (v : Value) : Kind :=
  match v with
  | NumberValue _ => KNumber
  | FuncValue _ => KFunc
  | NilValue => KNil
  | ConsValue _ _ => KCons
  end.

Definition M := M State.

(** Basic constructors. *)
Definition makeNumber (i : Z) : Value := NumberValue i.
Definition makeFunc (f : Fun1) : Value := FuncValue (Lam1 f).
Definition makeFunc2 (f : Fun2) : Value := FuncValue (Lam2 f).
Definition makeFunc3 (f : Fun3) : Value := FuncValue (Lam3 f).
Definition makeNil : Value := NilValue.
Definition makeCons (car cdr : Expr) : Value := ConsValue car cdr.

(** [makeThunk] allocates a thunk object holding the recipe and no cache. *)
Definition makeThunk (f : Recipe) : M Expr :=
  fun s =>
    Ret (Thunk (length (thunks s)))
        {| thunks := thunks s ++ [{| func := Some f; cache := None |}];
           maps := maps s;
           evalCounter := evalCounter s |}.

(** Reading and writing the fields of the thunk object at an address.  An
    address outside the store reads as an object with neither field. *)
Definition thunkAt (s : State) (l : loc) : ThunkCell :=
  default {| func := None; cache := None |} (thunks s !! l).

Definition readThunk (l : loc) : M ThunkCell := fun s => Ret (thunkAt s l) s.

Definition writeThunk (l : loc) (c : ThunkCell) : M unit :=
  fun s =>
    Ret tt {| thunks := <[l := c]> (thunks s);
              maps := maps s;
              evalCounter := evalCounter s |}.

(** [evalCounter++] *)
Definition incrEvalCounter : M unit :=
  fun s =>
    Ret tt {| thunks := thunks s; maps := maps s; evalCounter := S (evalCounter s) |}.

Definition theTrue : Value := makeFunc2 FFirst.
Definition theFalse : Value := makeFunc2 FSecond.
Definition makeBoolean (b : bool) : Value := if b then theTrue else theFalse.

(** ** Environment *)

(** The Map object at an address.  [new Environment] allocates the map of the
    environment it returns, so the environments of a program have theirs in
    the store; an address outside the store reads as the empty map. *)
Definition mapAt (s : State) (l : loc) : gmap string Expr :=
  default ∅ (maps s !! l).

Fixpoint lookup (env : Environment) (name : string) (s : State) : option Expr :=
  match env with
  | Env defs_ parent_ =>
      match mapAt s defs_ !! name with
      | Some expr => Some expr
      | None =>
          match parent_ with
          | Some parent => lookup parent name s
          | None => None
          end
      end
  end.

(** [new Environment(parent)] *)
Definition newEnvironment (parent_ : option Environment) : M Environment :=
  fun s =>
    Ret (Env (length (maps s)) parent_)
        {| thunks := thunks s; maps := maps s ++ [∅]; evalCounter := evalCounter s |}.

Definition define (env : Environment) (name : string) (expr : Expr) : M unit :=
  fun s =>
    match env with
    | Env defs_ _ =>
        match mapAt s defs_ !! name with
        | Some _ => Throw (DuplicatedDefinition name) s
        | None =>
            Ret tt {| thunks := thunks s;
                      maps := <[defs_ := <[name := expr]> (mapAt s defs_)]> (maps s);
                      evalCounter := evalCounter s |}
        end
    end.

(** The [Defines] handed to [defineAll].  [defs.entries()] goes through a Map
    in insertion order: the argument is the list of its entries in that
    order.  The keys of a Map are distinct. *)
Definition Defines := list (string * Expr).

Fixpoint defineAll (env : Environment) (defs : Defines) : M unit :=
  match defs with
  | [] => ret tt
  | (name, expr) :: rest =>
      let* _ := define env name expr in
      defineAll env rest
  end.

(** [env.lookup(name)] as a step of a computation: it only reads the store. *)
Definition envLookup (env : Environment) (name : string) : M (option Expr) :=
  fun s => Ret (lookup env name s) s.

Definition makeReference (env : Environment) (name : string) : M Expr :=
  let* resolved := envLookup env name in
  match resolved with
  | Some resolved => ret resolved
  | None => makeThunk (RReference env name)
  end.

(** ** Thunk evaluation and function application

    [makeApply] calls itself through the host closures, and [evaluate] calls
    itself through the recipes.  The functions are first written over their
    recursive calls (module [Open]), as they read in the source, and closed
    afterwards by recursion on a fuel argument. *)
Module Open.

Section Build.
  (** The recursive calls of [makeApply]. *)
Variable makeApply : list Expr -> M Expr.

Definition makeCar (e : Expr) : M Expr := makeApply [e; Val (makeBoolean true)].
Definition makeCdr (e : Expr) : M Expr := makeApply [e; Val (makeBoolean false)].

Definition builtinInc (a : Expr) : M Expr := makeThunk (RInc a).
Definition builtinDec (a : Expr) : M Expr := makeThunk (RDec a).
Definition builtinAdd (a b : Expr) : M Expr := makeThunk (RAdd a b).
Definition builtinMul (a b : Expr) : M Expr := makeThunk (RMul a b).
Definition builtinDiv (a b : Expr) : M Expr := makeThunk (RDiv a b).
Definition builtinEq (a b : Expr) : M Expr := makeThunk (REq a b).
Definition builtinLt (a b : Expr) : M Expr := makeThunk (RLt a b).
Definition builtinNeg (a : Expr) : M Expr := makeThunk (RNeg a).
Definition builtinS (a b c : Expr) : M Expr := makeThunk (RS a b c).
Definition builtinC (a b c : Expr) : M Expr := makeApply [a; c; b].
Definition builtinB (a b c : Expr) : M Expr :=
    let* bc := makeApply [b; c] in
    makeApply [a; bc].
Definition builtinI (a : Expr) : M Expr := ret a.
Definition builtinIsNil (a : Expr) : M Expr := makeThunk (RIsNil a).

  (** The host functions by name. *)
Definition call1 (f : Fun1) (a : Expr) : M Expr :=
    match f with
    | FInc => builtinInc a
    | FDec => builtinDec a
    | FNeg => builtinNeg a
    | FI => builtinI a
    | FCar => makeCar a
    | FCdr => makeCdr a
    | FIsNil => builtinIsNil a
    end.

Definition call2 (f : Fun2) (a b : Expr) : M Expr :=
    match f with
    | FAdd => builtinAdd a b
    | FMul => builtinMul a b
    | FDiv => builtinDiv a b
    | FEq => builtinEq a b
    | FLt => builtinLt a b
    | FCons => ret (Val (makeCons a b))
    | FFirst => ret a
    | FSecond => ret b
    | FProbe => ret (Val (makeBoolean false))
    end.

Definition call3 (f : Fun3) (a b c : Expr) : M Expr :=
    match f with
    | FS => builtinS a b c
    | FC => builtinC a b c
    | FB => builtinB a b c
    end.

  (** [f.func(a)] *)
Definition callFunc (f : Closure) (a : Expr) : M Expr :=
    match f with
    | Lam1 g => call1 g a
    | Lam2 g => ret (Val (FuncValue (Lam2a g a)))
    | Lam2a g x => call2 g x a
    | Lam3 g => ret (Val (FuncValue (Lam3a g a)))
    | Lam3a g x => ret (Val (FuncValue (Lam3ab g x a)))
    | Lam3ab g x y => call3 g x y a
    end.

  (** The callback that [makeApply] hands to [reduce]. *)
Definition makeApplyStep (lhs rhs : Expr) : M Expr :=
    match lhs with
    | Val (NumberValue _) => throw InvalidFunctionCall
    | Val NilValue => ret (Val (makeBoolean true))
    | Val (ConsValue car cdr) => makeApply [rhs; car; cdr]
    | Val (FuncValue f) => callFunc f rhs
    | Thunk _ => makeThunk (RApply lhs rhs)
    end.

  (** [makeApply(...args)] is [args.reduce(...)] without an initial value. *)
Definition makeApplyBody (args : list Expr) : M Expr :=
    match args with
    | [] => throw ReduceOfEmptyArray
    | first :: rest => reduce makeApplyStep rest first
    end.
End Build.

Definition arith1 (op : string) (f : Z -> Value) (x : Value) : M Value :=
  match x with
  | NumberValue n => ret (f n)
  | _ => throw (WrongTypes op [kind x])
  end.

Definition arith2 (op : string) (f : Z -> Z -> M Value) (x y : Value) : M Value :=
  match x, y with
  | NumberValue n, NumberValue m => f n m
  | _, _ => throw (WrongTypes op [kind x; kind y])
  end.

(** [x.number / y.number] on bigints. *)
Definition bigintDiv (x y : Z) : M Value :=
  if Z.eqb y 0 then throw DivisionByZero else ret (makeNumber (Z.quot x y)).

Section Force.
Variable makeApply : list Expr -> M Expr.
  (** The recursive calls of [evaluate]. *)
Variable evaluate : Expr -> M Value.

Definition apply (lhs rhs : Expr) : M Value :=
    let* func := evaluate lhs in
    match func with
    | NumberValue _ => throw InvalidFunctionCall
    | NilValue => ret (makeBoolean true)
    | ConsValue car cdr =>
        let* e := makeApply [rhs; car; cdr] in
        evaluate e
    | FuncValue f =>
        let* e := callFunc makeApply f rhs in
        evaluate e
    end.

Definition isNilSlow (value : Value) : M bool :=
    let* bool := evaluate (Val (makeFunc2 FProbe)) in
    let trueValue := 123%Z in
    let falseValue := 456%Z in
    let* e := makeApply [Val value; Val bool;
                         Val (makeNumber trueValue); Val (makeNumber falseValue)] in
    let* result := evaluate e in
    match result with
    | NumberValue n =>
        if Z.eqb n trueValue then ret true
        else if Z.eqb n falseValue then ret false
        else throw NotNilCons
    | _ => throw NotNilCons
    end.

Definition isNil (expr : Expr) : M bool :=
    let* value := evaluate expr in
    match value with
    | NilValue => ret true
    | ConsValue _ _ | NumberValue _ => ret false
    | FuncValue _ =>
        (* This is a tricky case. Follow the definition to test. *)
        isNilSlow value
    end.

  (** [expr.func()] for each recipe of the source. *)
Definition runRecipe (f : Recipe) : M Value :=
    match f with
    | RApply lhs rhs => apply lhs rhs
    | RReference env name =>
        let* resolved := envLookup env name in
        match resolved with
        | None => throw (UndefinedReference name)
        | Some resolved => evaluate resolved
        end
    | RInc a =>
        let* x := evaluate a in
        arith1 "inc" (fun n => makeNumber (n + 1)) x
    | RDec a =>
        let* x := evaluate a in
        arith1 "dec" (fun n => makeNumber (n - 1)) x
    | RAdd a b =>
        let* x := evaluate a in
        let* y := evaluate b in
        arith2 "add" (fun n m => ret (makeNumber (n + m))) x y
    | RMul a b =>
        let* x := evaluate a in
        let* y := evaluate b in
        arith2 "mul" (fun n m => ret (makeNumber (n * m))) x y
    | RDiv a b =>
        let* x := evaluate a in
        let* y := evaluate b in
        arith2 "div" bigintDiv x y
    | REq a b =>
        let* x := evaluate a in
        let* y := evaluate b in
        arith2 "eq" (fun n m => ret (makeBoolean (Z.eqb n m))) x y
    | RLt a b =>
        let* x := evaluate a in
        let* y := evaluate b in
        arith2 "lt" (fun n m => ret (makeBoolean (Z.ltb n m))) x y
    | RNeg a =>
        let* x := evaluate a in
        arith1 "neg" (fun n => makeNumber (- n)) x
    | RS a b c =>
        let* ac := makeApply [a; c] in
        let* bc := makeApply [b; c] in
        let* e := makeApply [ac; bc] in
        evaluate e
    | RIsNil a =>
        let* r := isNil a in
        ret (makeBoolean r)
    end.

Definition evaluateBody (expr : Expr) : M Value :=
    match expr with
    | Val v => ret v
    | Thunk l =>
        let* t := readThunk l in
        match cache t with
        | Some v => ret v
        | None =>
            match func t with
            | None => throw BrokenThunk
            | Some f =>
                let* _ := incrEvalCounter in
                let* value := runRecipe f in
                let* _ := writeThunk l {| func := None; cache := Some value |} in
                ret value
            end
        end
    end.
End Force.

(** Static representation of modulatable data. *)
Definition finishCons (elems : list StaticData) : M StaticData :=
  match reduceRight ConsData elems with
  | Some d => ret d
  | None => throw ReduceOfEmptyArray
  end.

Section Static.
Variable makeApply : list Expr -> M Expr.
Variable evaluate : Expr -> M Value.
  (** The next iteration of the [while (true)] loop of [exprToStaticData],
      with the loop's variables [elems] and [cur]. *)
Variable loop : list StaticData -> Value -> M StaticData.

Definition exprToStaticData (expr : Expr) : M StaticData :=
    let* value := evaluate expr in
    match value with
    | NumberValue n => ret (NumberData n)
    | _ => loop [] value
    end.

Definition exprToStaticDataLoop (elems : list StaticData) (cur : Value)
    : M StaticData :=
    match cur with
    | NumberValue _ =>
        let* d := exprToStaticData (Val cur) in
        finishCons (elems ++ [d])
    | _ =>
        let* nil := isNil makeApply evaluate (Val cur) in
        if nil then ret (ListData elems)
        else
          let* car := makeCar makeApply (Val cur) in
          let* d := exprToStaticData car in
          let* cdr := makeCdr makeApply (Val cur) in
          let* next := evaluate cdr in
          loop (elems ++ [d]) next
    end.
End Static.

Section Lists.
Variable makeApply : list Expr -> M Expr.
Variable evaluate : Expr -> M Value.
  (** The next round of the [for] loop of [parseList]: the test, the body
      and the update, with the loop's variables [elems] and [cur]. *)
Variable loop : list Expr -> Expr -> M (list Expr).

Definition parseListLoop (elems : list Expr) (cur : Expr) : M (list Expr) :=
    let* nil := isNil makeApply evaluate cur in
    if nil then ret elems
    else
      let* car := makeCar makeApply cur in
      let* cdr := makeCdr makeApply cur in
      loop (elems ++ [car]) cdr.
End Lists.

Section Printing.
Variable makeApply : list Expr -> M Expr.
Variable evaluate : Expr -> M Value.
  (** The recursive calls of [debugString]. *)
Variable debugString : Expr -> M string.

Definition debugStringBody (expr : Expr) : M string :=
    let* value := evaluate expr in
    match value with
    | NumberValue n => ret (bigintToString n)
    | _ =>
        let* nil := isNil makeApply evaluate (Val value) in
        if nil then ret "nil"%string
        else
          let* car := makeCar makeApply (Val value) in
          let* a := debugString car in
          let* cdr := makeCdr makeApply (Val value) in
          let* b := debugString cdr in
          ret (String.append "ap ap cons "
                 (String.append a (String.append " " b)))
    end.
End Printing.

End Open.

(** The functions of the source, closed by recursion on the fuel. *)
Fixpoint makeApply (fuel : nat) : list Expr -> M Expr :=
  match fuel with
  | O => fun _ => timeout
  | S fuel => Open.makeApplyBody (makeApply fuel)
  end.

Fixpoint evaluate (fuel : nat) : Expr -> M Value :=
  match fuel with
  | O => fun _ => timeout
  | S fuel => Open.evaluateBody (makeApply fuel) (evaluate fuel)
  end.

Fixpoint exprToStaticDataLoop (fuel : nat) : list StaticData -> Value -> M StaticData :=
  match fuel with
  | O => fun _ _ => timeout
  | S fuel =>
      Open.exprToStaticDataLoop (makeApply fuel) (evaluate fuel)
        (exprToStaticDataLoop fuel)
  end.

Definition makeCar (fuel : nat) := Open.makeCar (makeApply fuel).
Definition makeCdr (fuel : nat) := Open.makeCdr (makeApply fuel).
Definition callFunc (fuel : nat) := Open.callFunc (makeApply fuel).
Definition makeApplyStep (fuel : nat) := Open.makeApplyStep (makeApply fuel).
Definition apply (fuel : nat) := Open.apply (makeApply fuel) (evaluate fuel).
Definition runRecipe (fuel : nat) := Open.runRecipe (makeApply fuel) (evaluate fuel).
Definition isNil (fuel : nat) := Open.isNil (makeApply fuel) (evaluate fuel).
Definition isNilSlow (fuel : nat) := Open.isNilSlow (makeApply fuel) (evaluate fuel).
Definition exprToStaticData (fuel : nat) :=
  Open.exprToStaticData (evaluate fuel) (exprToStaticDataLoop fuel).

Fixpoint parseListLoop (fuel : nat) : list Expr -> Expr -> M (list Expr) :=
  match fuel with
  | O => fun _ _ => timeout
  | S fuel => Open.parseListLoop (makeApply fuel) (evaluate fuel) (parseListLoop fuel)
  end.

(** [parseList(expr)]: the loop entered with no element and [cur = expr]. *)
Definition parseList (fuel : nat) (expr : Expr) : M (list Expr) :=
  parseListLoop fuel [] expr.

Fixpoint debugString (fuel : nat) : Expr -> M string :=
  match fuel with
  | O => fun _ => timeout
  | S fuel => Open.debugStringBody (makeApply fuel) (evaluate fuel) (debugString fuel)
  end.

(** ** The parser *)

Fixpoint parseExprIter (fuel : nat) (env : Environment) (tokens : list string)
  : M (Parse (Expr * list string)) :=
  match fuel with
  | O => timeout
  | S fuel =>
      match tokens with
      | [] => ret (Failed NoToken)
      | token :: rest =>
          if String.eqb token "ap" then
            let* r1 := parseExprIter fuel env rest in
            match r1 with
            | Failed why => ret (Failed why)
            | Parsed (lhs, rest1) =>
                let* r2 := parseExprIter fuel env rest1 in
                match r2 with
                | Failed why => ret (Failed why)
                | Parsed (rhs, rest2) =>
                    let* e := makeApply fuel [lhs; rhs] in
                    ret (Parsed (e, rest2))
                end
            end
          else
            match numberOf token with
            | Some n => ret (Parsed (Val (makeNumber n), rest))
            | None =>
                let* e := makeReference env token in
                ret (Parsed (e, rest))
            end
      end
  end.

(** [parseExpr]; its error 'Excess token' is the result [Failed ExcessToken],
    returned in the store that the parse left. *)
Definition parseExpr (fuel : nat) (env : Environment) (code : string) : M (Parse Expr) :=
  let tokens := splitSpaces (trim code) in
  let* r := parseExprIter fuel env tokens in
  match r with
  | Failed why => ret (Failed why)
  | Parsed (expr, rest) =>
      match rest with
      | [] => ret (Parsed expr)
      | _ :: _ => ret (Failed ExcessToken)
      end
  end.

(** ** The standard environment *)

Definition newStandardEnvironment : M Environment :=
  let* env := newEnvironment None in
  let* _ := define env "inc" (makeFunc FInc) in
  let* _ := define env "dec" (makeFunc FDec) in
  let* _ := define env "add" (makeFunc2 FAdd) in
  let* _ := define env "mul" (makeFunc2 FMul) in
  let* _ := define env "div" (makeFunc2 FDiv) in
  let* _ := define env "eq" (makeFunc2 FEq) in
  let* _ := define env "lt" (makeFunc2 FLt) in
  let* _ := define env "neg" (makeFunc FNeg) in
  let* _ := define env "s" (makeFunc3 FS) in
  let* _ := define env "c" (makeFunc3 FC) in
  let* _ := define env "b" (makeFunc3 FB) in
  let* _ := define env "t" (makeBoolean true) in
  let* _ := define env "f" (makeBoolean false) in
  let* _ := define env "i" (makeFunc FI) in
  let* _ := define env "cons" (makeFunc2 FCons) in
  let* _ := define env "car" (makeFunc FCar) in
  let* _ := define env "cdr" (makeFunc FCdr) in
  let* _ := define env "nil" makeNil in
  let* _ := define env "isnil" (makeFunc FIsNil) in
  ret env.

(** The store when the program starts: nothing allocated, counter at 0. *)
Definition emptyState : State := {| thunks := []; maps := []; evalCounter := 0 |}.

(** [stdEnv] and the store once the module that exports it is loaded. *)
Definition stdEnv : Environment := Env 0 None.

Definition stdState : State :=
  match newStandardEnvironment emptyState with
  | Ret _ s => s
  | _ => emptyState
  end.

(** ** Vocabulary of the statements *)

(** A thunk object as [makeThunk] creates it, and as [evaluate] leaves it. *)
Definition suspended (f : Recipe) : ThunkCell := {| func := Some f; cache := None |}.
Definition forced (v : Value) : ThunkCell := {| func := None; cache := Some v |}.

(** The Map object of [env] is in the store. *)
Definition envAllocated (s : State) (env : Environment) : Prop :=
  match env with
  | Env defs_ _ => defs_ < length (maps s)
  end.

(** Thunk objects that hold a cache are the same objects in [s']. *)
Definition frozen (s s' : State) : Prop :=
  forall l c, thunks s !! l = Some c -> is_Some (cache c) -> thunks s' !! l = Some c.

(** What every step of the evaluator respects: thunk objects are never
    removed, the counter never decreases, forced thunks stay as they are. *)
Definition evolves (s s' : State) : Prop :=
  length (thunks s) <= length (thunks s') /\
  evalCounter s <= evalCounter s' /\
  frozen s s'.

(** One call of a function of this module, from outside, finished or thrown. *)
Inductive step : State -> State -> Prop :=
| step_evaluate fuel e s s' :
    finalStore (evaluate fuel e s) = Some s' -> step s s'
| step_makeApply fuel args s s' :
    finalStore (makeApply fuel args s) = Some s' -> step s s'
| step_isNil fuel e s s' :
    finalStore (isNil fuel e s) = Some s' -> step s s'
| step_exprToStaticData fuel e s s' :
    finalStore (exprToStaticData fuel e s) = Some s' -> step s s'
| step_makeReference env name s s' :
    finalStore (makeReference env name s) = Some s' -> step s s'
| step_newEnvironment parent s s' :
    finalStore (newEnvironment parent s) = Some s' -> step s s'
| step_define env name e s s' :
    finalStore (define env name e s) = Some s' -> step s s'.

(** The probe of [isNilSlow]:
    [evaluate(makeApply(value, bool, makeNumber(123), makeNumber(456)))]. *)
Definition isNilProbe (fuel : nat) (value : Value) : M Value :=
  let* e := makeApply fuel [Val value; Val (makeFunc2 FProbe);
                            Val (makeNumber 123); Val (makeNumber 456)] in
  evaluate fuel e.

(** The chain [makeCons(z1, makeCons(z2, ... last))]. *)
Fixpoint chain (zs : list Z) (last : Expr) : Expr :=
  match zs with
  | [] => last
  | z :: zs' => Val (makeCons (Val (makeNumber z)) (chain zs' last))
  end.

(** A store that holds one thunk, not yet forced. *)
Definition oneThunk (f : Recipe) : State :=
  {| thunks := [suspended f]; maps := []; evalCounter := 0 |}.

(** Tagged data built with the constructors alone, without a thunk. *)
Fixpoint embed (t : Tagged) : Expr :=
  match t with
  | TNumber n => Val (makeNumber n)
  | TNil => Val makeNil
  | TCons car cdr => Val (makeCons (embed car) (embed cdr))
  end.

(** Forcing [e] from [s], then the car and the cdr of every Cons reached, in
    the order of the canonicalization walk, meets only tagged numbers, nils
    and conses, which make up [t]; the walk ends in [s']. *)
Inductive forcesTo : State -> Expr -> Tagged -> State -> Prop :=
| forces_number s e n s' :
    finishes (fun fuel => evaluate fuel e) s (Ret (NumberValue n) s') ->
    forcesTo s e (TNumber n) s'
| forces_nil s e s' :
    finishes (fun fuel => evaluate fuel e) s (Ret NilValue s') ->
    forcesTo s e TNil s'
| forces_cons s e car cdr s1 tcar s2 tcdr s3 :
    finishes (fun fuel => evaluate fuel e) s (Ret (ConsValue car cdr) s1) ->
    forcesTo s1 car tcar s2 ->
    forcesTo s2 cdr tcdr s3 ->
    forcesTo s e (TCons tcar tcdr) s3.

(** The Map objects of [env] and of its ancestors are among the first [n] of
    the store. *)
Fixpoint envWithin (n : nat) (env : Environment) : Prop :=
  match env with
  | Env defs_ parent_ =>
      defs_ < n /\
      match parent_ with
      | Some parent => envWithin n parent
      | None => True
      end
  end.

(** No Map object was written. *)
Definition sameMaps (s s' : State) : Prop := maps s' = maps s.

(** The bindings of every Map object are still there. *)
Definition bindingsKept (s s' : State) : Prop :=
  forall d name e, mapAt s d !! name = Some e -> mapAt s' d !! name = Some e.

(** [evaluate(makeApply(...args))] *)
Definition evaluateApply (fuel : nat) (args : list Expr) : M Value :=
  let* e := makeApply fuel args in
  evaluate fuel e.

(** The store once [makeThunk(f)] has allocated its thunk and [evaluate] has
    entered it: the thunk is the last one, the counter is stepped. *)
Definition entered (s : State) (f : Recipe) : State :=
  {| thunks := thunks s ++ [suspended f]; maps := maps s;
     evalCounter := S (evalCounter s) |}.

(** The store once [evaluate] has stored the value [v] in the thunk at [l]. *)
Definition settled (l : loc) (v : Value) (s : State) : State :=
  {| thunks := <[l := forced v]> (thunks s); maps := maps s;
     evalCounter := evalCounter s |}.

(** What [evaluate] makes of the result [r] of the recipe of the thunk at
    [l]: a value is stored in the thunk, a throw goes through. *)
Definition outcome (l : loc) (r : Res State Value) : Res State Value :=
  match r with
  | Ret v s => Ret v (settled l v s)
  | _ => r
  end.

(** The recipe of [builtinS]: [evaluate(makeApply(makeApply(a, c), makeApply(b, c)))]. *)
Definition sBody (fuel : nat) (a b c : Expr) : M Value :=
  let* ac := makeApply fuel [a; c] in
  let* bc := makeApply fuel [b; c] in
  let* e := makeApply fuel [ac; bc] in
  evaluate fuel e.

(** The pairs [makeCons(e1, makeCons(e2, ... last))]. *)
Definition spine (es : list Expr) (last : Expr) : Expr :=
  fold_right (fun e rest => Val (makeCons e rest)) last es.

(** Every thunk address in a value, an expression or a host closure is below
    [n]. *)
Fixpoint closedValue (n : nat) (v : Value) : bool :=
  match v with
  | NumberValue _ | NilValue => true
  | FuncValue f => closedClosure n f
  | ConsValue car cdr => closedExpr n car && closedExpr n cdr
  end
with closedExpr (n : nat) (e : Expr) : bool :=
  match e with
  | Val v => closedValue n v
  | Thunk l => Nat.ltb l n
  end
with closedClosure (n : nat) (c : Closure) : bool :=
  match c with
  | Lam1 _ | Lam2 _ | Lam3 _ => true
  | Lam2a _ a | Lam3a _ a => closedExpr n a
  | Lam3ab _ a b => closedExpr n a && closedExpr n b
  end.

Definition closedRecipe (n : nat) (f : Recipe) : bool :=
  match f with
  | RReference _ _ => true
  | RInc a | RDec a | RNeg a | RIsNil a => closedExpr n a
  | RApply a b | RAdd a b | RMul a b | RDiv a b | REq a b | RLt a b =>
      closedExpr n a && closedExpr n b
  | RS a b c => closedExpr n a && closedExpr n b && closedExpr n c
  end.

Definition closedOption (n : nat) (o : option Expr) : bool :=
  match o with
  | Some e => closedExpr n e
  | None => true
  end.

Definition closedList (n : nat) (es : list Expr) : bool := forallb (closedExpr n) es.

(** A thunk object holds its recipe or its value, never both and never
    neither. *)
Definition cellOk (n : nat) (c : ThunkCell) : bool :=
  match func c, cache c with
  | Some f, None => closedRecipe n f
  | None, Some v => closedValue n v
  | _, _ => false
  end.

(** The stores that the functions of this module build: every thunk object is
    as [makeThunk] or [evaluate] leaves it, and every address held by a thunk
    object or bound in a Map is the address of a thunk object.  (In the
    source an address is a reference to an object, which cannot dangle.) *)
Definition wellFormed (s : State) : Prop :=
  Forall (fun c => cellOk (length (thunks s)) c = true) (thunks s) /\
  Forall (map_Forall (fun _ e => closedExpr (length (thunks s)) e = true)) (maps s).

(** From a well-formed store that holds the addresses below [n], [m] ends in
    a well-formed store that lost no thunk; what it returns satisfies [C] in
    that store, and what it throws is not 'Broken thunk'. *)
Definition safe {A} (C : nat -> A -> bool) (n : nat) (m : M A) : Prop :=
  forall s, wellFormed s -> n <= length (thunks s) ->
    match m s with
    | Ret a s' =>
        wellFormed s' /\ length (thunks s) <= length (thunks s') /\
        C (length (thunks s')) a = true
    | Throw e s' =>
        wellFormed s' /\ length (thunks s) <= length (thunks s') /\ e <> BrokenThunk
    | Timeout => True
    end.

Definition anything {A} (_ : nat) (_ : A) : bool := true.

(** What the parser builds for a term: the operator before the operand, each
    number a Number, each name a reference. *)
Fixpoint build (fuel : nat) (env : Environment) (t : Term) : M Expr :=
  match t with
  | TAp f x =>
      let* lhs := build fuel env f in
      let* rhs := build fuel env x in
      makeApply fuel [lhs; rhs]
  | TNum n => ret (Val (makeNumber n))
  | TRef name => makeReference env name
  end.

(** A name that the parser reads as a reference. *)
Definition isName (token : string) : Prop :=
  token <> "ap"%string /\ numberOf token = None.

Fixpoint namesOk (t : Term) : Prop :=
  match t with
  | TAp f x => namesOk f /\ namesOk x
  | TNum _ => True
  | TRef name => isName name
  end.



End Fn.

(** * The object-oriented variant *)
Module OO.

Inductive Fun1 :=
| FInc | FDec | FNeg | FI | FCar | FCdr | FIsNil.

Inductive Fun2 :=
| FAdd | FMul | FDiv | FEq | FLt | FCons
| FFirst      (* (a, _) => a, the body of theTrue *)
| FSecond.    (* (_, b) => b, the body of theFalse *)

Inductive Fun3 :=
| FS | FC | FB.

Inductive Value :=
| NumberValue (number : Z)
| FuncValue (func : Closure)
| NilValue
| ConsValue (car cdr : Expr)
with Expr :=
| Val (v : Value)
| Thunk (l : loc)
with Closure :=
| Lam1 (f : Fun1)                      (* new FuncValue(f) *)
| Lam2 (f : Fun2)                      (* FuncValue.make2(f) *)
| Lam2a (f : Fun2) (a : Expr)          (* (b) => f(a, b) *)
| Lam3 (f : Fun3)                      (* FuncValue.make3(f) *)
| Lam3a (f : Fun3) (a : Expr)          (* (b) => new FuncValue((c) => f(a, b, c)) *)
| Lam3ab (f : Fun3) (a b : Expr).      (* (c) => f(a, b, c) *)

Coercion Val : Value >-> Expr.

(** The recipes [(ev) => Value] handed to [new Thunk]. *)
Inductive Recipe :=
| RApply (this : loc) (arg : Expr)     (* ev.forceValue(ev.forceValue(this).apply(arg)) *)
| RUncons0 (this : loc)                (* ev.forceValue(ev.forceValue(this).uncons()[0]) *)
| RUncons1 (this : loc)                (* ev.forceValue(ev.forceValue(this).uncons()[1]) *)
| RReference (env : Environment) (name : string)
| RInc (a : Expr)
| RDec (a : Expr)
| RAdd (a b : Expr)
| RMul (a b : Expr)
| RDiv (a b : Expr)
| REq (a b : Expr)
| RLt (a b : Expr)
| RNeg (a : Expr)
| RS (a b c : Expr)
| RIsNil (a : Expr).

Record ThunkCell := { func : option Recipe; cache : option Value }.

(** The store; [counter] is the field of the [Evaluator] object in use. *)
Record State := {
  thunks : list ThunkCell;
  maps : list (gmap string Expr);
  counter : nat;
}.

Definition kind (v : Value) : Kind :=
  match v with
  | NumberValue _ => KNumber
  | FuncValue _ => KFunc
  | NilValue => KNil
  | ConsValue _ _ => KCons
  end.

Definition M := M State.

(** [new Thunk(func)] *)
Definition newThunk (f : Recipe) : M Expr :=
  fun s =>
    Ret (Thunk (length (thunks s)))
        {| thunks := thunks s ++ [{| func := Some f; cache := None |}];
           maps := maps s;
           counter := counter s |}.

Definition thunkAt (s : State) (l : loc) : ThunkCell :=
  default {| func := None; cache := None |} (thunks s !! l).

Definition readThunk (l : loc) : M ThunkCell := fun s => Ret (thunkAt s l) s.

Definition writeThunk (l : loc) (c : ThunkCell) : M unit :=
  fun s =>
    Ret tt {| thunks := <[l := c]> (thunks s);
              maps := maps s;
              counter := counter s |}.

(** [this.counter++] *)
Definition incrCounter : M unit :=
  fun s =>
    Ret tt {| thunks := thunks s; maps := maps s; counter := S (counter s) |}.

Definition theTrue : Value := FuncValue (Lam2 FFirst).
Definition theFalse : Value := FuncValue (Lam2 FSecond).
Definition makeBoolean (b : bool) : Value := if b then theTrue else theFalse.

(** ** Environment *)

Definition mapAt (s : State) (l : loc) : gmap string Expr :=
  default ∅ (maps s !! l).

Fixpoint lookup (env : Environment) (name : string) (s : State) : option Expr :=
  match env with
  | Env defs_ parent_ =>
      match mapAt s defs_ !! name with
      | Some expr => Some expr
      | None =>
          match parent_ with
          | Some parent => lookup parent name s
          | None => None
          end
      end
  end.

Definition newEnvironment (parent_ : option Environment) : M Environment :=
  fun s =>
    Ret (Env (length (maps s)) parent_)
        {| thunks := thunks s; maps := maps s ++ [∅]; counter := counter s |}.

Definition define (env : Environment) (name : string) (expr : Expr) : M unit :=
  fun s =>
    match env with
    | Env defs_ _ =>
        match mapAt s defs_ !! name with
        | Some _ => Throw (DuplicatedDefinition name) s
        | None =>
            Ret tt {| thunks := thunks s;
                      maps := <[defs_ := <[name := expr]> (mapAt s defs_)]> (maps s);
                      counter := counter s |}
        end
    end.

(** As in the functional variant: the entries of the Map, in insertion
    order. *)
Definition Defines := list (string * Expr).

Fixpoint defineAll (env : Environment) (defs : Defines) : M unit :=
  match defs with
  | [] => ret tt
  | (name, expr) :: rest =>
      let* _ := define env name expr in
      defineAll env rest
  end.

Definition envLookup (env : Environment) (name : string) : M (option Expr) :=
  fun s => Ret (lookup env name s) s.

Definition makeReference (env : Environment) (name : string) : M Expr :=
  let* resolved := envLookup env name in
  match resolved with
  | Some resolved => ret resolved
  | None => newThunk (RReference env name)
  end.

(** Static representation of modulatable data. *)
Inductive Modulatable :=
| NumberModulatable (number : Z)
| ListModulatable (elems : list Modulatable)
| ConsModulatable (car cdr : Modulatable).

Definition finishCons (elems : list Modulatable) : M Modulatable :=
  match reduceRight ConsModulatable elems with
  | Some d => ret d
  | None => throw ReduceOfEmptyArray
  end.

(** ** The methods [apply], [uncons] and [isNil], and the evaluator *)
Module Open.

(** [uncons()] of the four value classes. *)
Definition valueUncons (v : Value) : M (Expr * Expr) :=
  match v with
  | ConsValue car cdr => ret (car, cdr)
  | _ => throw NotACons
  end.

(** [uncons()] by dynamic dispatch; on a thunk without a cache it allocates
    the two projections. *)
Definition uncons (e : Expr) : M (Expr * Expr) :=
  match e with
  | Val v => valueUncons v
  | Thunk l =>
      let* t := readThunk l in
      match cache t with
      | Some v => valueUncons v
      | None =>
          let* first := newThunk (RUncons0 l) in
          let* second := newThunk (RUncons1 l) in
          ret (first, second)
      end
  end.

(** [isNil()] of the four value classes. *)
Definition valueIsNil (v : Value) : M bool :=
  match v with
  | NilValue => ret true
  | ConsValue _ _ => ret false
  | NumberValue _ | FuncValue _ => throw NotNilCons
  end.

Section Build.
(** The recursive calls of the method [apply]: [applyTo e arg] is
    [e.apply(arg)]. *)
Variable applyTo : Expr -> Expr -> M Expr.

Definition builtinInc (a : Expr) : M Expr := newThunk (RInc a).
Definition builtinDec (a : Expr) : M Expr := newThunk (RDec a).
Definition builtinAdd (a b : Expr) : M Expr := newThunk (RAdd a b).
Definition builtinMul (a b : Expr) : M Expr := newThunk (RMul a b).
Definition builtinDiv (a b : Expr) : M Expr := newThunk (RDiv a b).
Definition builtinEq (a b : Expr) : M Expr := newThunk (REq a b).
Definition builtinLt (a b : Expr) : M Expr := newThunk (RLt a b).
Definition builtinNeg (a : Expr) : M Expr := newThunk (RNeg a).
Definition builtinS (a b c : Expr) : M Expr := newThunk (RS a b c).
Definition builtinC (a b c : Expr) : M Expr :=
  let* ac := applyTo a c in
  applyTo ac b.
Definition builtinB (a b c : Expr) : M Expr :=
  let* bc := applyTo b c in
  applyTo a bc.
Definition builtinI (a : Expr) : M Expr := ret a.
Definition builtinCons (car cdr : Expr) : M Expr := ret (Val (ConsValue car cdr)).
Definition builtinCar (a : Expr) : M Expr :=
  let* p := uncons a in
  ret (fst p).
Definition builtinCdr (a : Expr) : M Expr :=
  let* p := uncons a in
  ret (snd p).
Definition builtinIsNil (a : Expr) : M Expr := newThunk (RIsNil a).

Definition call1 (f : Fun1) (a : Expr) : M Expr :=
  match f with
  | FInc => builtinInc a
  | FDec => builtinDec a
  | FNeg => builtinNeg a
  | FI => builtinI a
  | FCar => builtinCar a
  | FCdr => builtinCdr a
  | FIsNil => builtinIsNil a
  end.

Definition call2 (f : Fun2) (a b : Expr) : M Expr :=
  match f with
  | FAdd => builtinAdd a b
  | FMul => builtinMul a b
  | FDiv => builtinDiv a b
  | FEq => builtinEq a b
  | FLt => builtinLt a b
  | FCons => builtinCons a b
  | FFirst => ret a
  | FSecond => ret b
  end.

Definition call3 (f : Fun3) (a b c : Expr) : M Expr :=
  match f with
  | FS => builtinS a b c
  | FC => builtinC a b c
  | FB => builtinB a b c
  end.

(** [this.func(arg)] *)
Definition callFunc (f : Closure) (a : Expr) : M Expr :=
  match f with
  | Lam1 g => call1 g a
  | Lam2 g => ret (Val (FuncValue (Lam2a g a)))
  | Lam2a g x => call2 g x a
  | Lam3 g => ret (Val (FuncValue (Lam3a g a)))
  | Lam3a g x => ret (Val (FuncValue (Lam3ab g x a)))
  | Lam3ab g x y => call3 g x y a
  end.

(** [apply(arg)] of the four value classes. *)
Definition valueApply (v : Value) (arg : Expr) : M Expr :=
  match v with
  | NumberValue _ => throw NotAFunc
  | NilValue => ret (Val (makeBoolean true))
  | ConsValue car cdr =>
      let* x := applyTo arg car in
      applyTo x cdr
  | FuncValue f => callFunc f arg
  end.

(** [apply(arg)] by dynamic dispatch, [Thunk.apply] included. *)
Definition applyBody (e arg : Expr) : M Expr :=
  match e with
  | Val v => valueApply v arg
  | Thunk l =>
      let* t := readThunk l in
      match cache t with
      | Some v => valueApply v arg
      | None => newThunk (RApply l arg)
      end
  end.
End Build.

Definition arith1 (op : string) (f : Z -> Value) (x : Value) : M Value :=
  match x with
  | NumberValue n => ret (f n)
  | _ => throw (WrongTypes op [kind x])
  end.

Definition arith2 (op : string) (f : Z -> Z -> M Value) (x y : Value) : M Value :=
  match x, y with
  | NumberValue n, NumberValue m => f n m
  | _, _ => throw (WrongTypes op [kind x; kind y])
  end.

Definition bigintDiv (x y : Z) : M Value :=
  if Z.eqb y 0 then throw DivisionByZero else ret (NumberValue (Z.quot x y)).

Section Force.
Variable applyTo : Expr -> Expr -> M Expr.
(** The recursive calls of [Evaluator.forceValue]. *)
Variable forceValue : Expr -> M Value.

(** [expr.func(this)] for each recipe of the source. *)
Definition runRecipe (f : Recipe) : M Value :=
  match f with
  | RApply this arg =>
      let* v := forceValue (Thunk this) in
      let* e := valueApply applyTo v arg in
      forceValue e
  | RUncons0 this =>
      let* v := forceValue (Thunk this) in
      let* p := valueUncons v in
      forceValue (fst p)
  | RUncons1 this =>
      let* v := forceValue (Thunk this) in
      let* p := valueUncons v in
      forceValue (snd p)
  | RReference env name =>
      let* resolved := envLookup env name in
      match resolved with
      | None => throw (UndefinedReference name)
      | Some resolved => forceValue resolved
      end
  | RInc a =>
      let* x := forceValue a in
      arith1 "inc" (fun n => NumberValue (n + 1)) x
  | RDec a =>
      let* x := forceValue a in
      arith1 "dec" (fun n => NumberValue (n - 1)) x
  | RAdd a b =>
      let* x := forceValue a in
      let* y := forceValue b in
      arith2 "add" (fun n m => ret (NumberValue (n + m))) x y
  | RMul a b =>
      let* x := forceValue a in
      let* y := forceValue b in
      arith2 "mul" (fun n m => ret (NumberValue (n * m))) x y
  | RDiv a b =>
      let* x := forceValue a in
      let* y := forceValue b in
      arith2 "div" bigintDiv x y
  | REq a b =>
      let* x := forceValue a in
      let* y := forceValue b in
      arith2 "eq" (fun n m => ret (makeBoolean (Z.eqb n m))) x y
  | RLt a b =>
      let* x := forceValue a in
      let* y := forceValue b in
      arith2 "lt" (fun n m => ret (makeBoolean (Z.ltb n m))) x y
  | RNeg a =>
      let* x := forceValue a in
      arith1 "neg" (fun n => NumberValue (- n)) x
  | RS a b c =>
      let* ac := applyTo a c in
      let* bc := applyTo b c in
      let* e := applyTo ac bc in
      forceValue e
  | RIsNil a =>
      let* v := forceValue a in
      let* r := valueIsNil v in
      ret (makeBoolean r)
  end.

Definition forceValueBody (expr : Expr) : M Value :=
  match expr with
  | Val v => ret v
  | Thunk l =>
      let* t := readThunk l in
      match cache t with
      | Some v => ret v
      | None =>
          match func t with
          | None => throw BrokenThunk
          | Some f =>
              let* _ := incrCounter in
              let* value := runRecipe f in
              let* _ := writeThunk l {| func := None; cache := Some value |} in
              ret value
          end
      end
  end.
End Force.

Section Static.
Variable forceValue : Expr -> M Value.
(** The next iteration of the [while (true)] loop of [forceModulatable],
    with the loop's variables [elems] and [cur]. *)
Variable loop : list Modulatable -> Value -> M Modulatable.

Definition forceModulatable (expr : Expr) : M Modulatable :=
  let* cur := forceValue expr in
  loop [] cur.

Definition forceModulatableLoop (elems : list Modulatable) (cur : Value)
  : M Modulatable :=
  match cur with
  | NumberValue n => finishCons (elems ++ [NumberModulatable n])
  | NilValue => ret (ListModulatable elems)
  | ConsValue _ _ =>
      let* p := valueUncons cur in
      let* d := forceModulatable (fst p) in
      let* next := forceValue (snd p) in
      loop (elems ++ [d]) next
  | FuncValue _ => throw NotModulatable
  end.
End Static.

Section Lists.
Variable forceValue : Expr -> M Value.
(** The next round of the [for] loop of [forceList]: the test, the body and
    the update, with the loop's variables [elems] and [cur]. *)
Variable loop : list Expr -> Value -> M (list Expr).

Definition forceListLoop (elems : list Expr) (cur : Value) : M (list Expr) :=
  let* nil := valueIsNil cur in
  if nil then ret elems
  else
    let* p := valueUncons cur in
    let* q := valueUncons cur in
    let* next := forceValue (snd q) in
    loop (elems ++ [fst p]) next.

Definition forceList (expr : Expr) : M (list Expr) :=
  let* cur := forceValue expr in
  loop [] cur.
End Lists.

End Open.

(** The methods of the source, closed by recursion on the fuel. *)
Fixpoint applyTo (fuel : nat) : Expr -> Expr -> M Expr :=
  match fuel with
  | O => fun _ _ => timeout
  | S fuel => Open.applyBody (applyTo fuel)
  end.

Fixpoint forceValue (fuel : nat) : Expr -> M Value :=
  match fuel with
  | O => fun _ => timeout
  | S fuel => Open.forceValueBody (applyTo fuel) (forceValue fuel)
  end.

Fixpoint forceModulatableLoop (fuel : nat) : list Modulatable -> Value -> M Modulatable :=
  match fuel with
  | O => fun _ _ => timeout
  | S fuel =>
      Open.forceModulatableLoop (forceValue fuel) (forceModulatableLoop fuel)
  end.

Definition callFunc (fuel : nat) := Open.callFunc (applyTo fuel).
Definition valueApply (fuel : nat) := Open.valueApply (applyTo fuel).
Definition runRecipe (fuel : nat) := Open.runRecipe (applyTo fuel) (forceValue fuel).
Definition forceModulatable (fuel : nat) :=
  Open.forceModulatable (forceValue fuel) (forceModulatableLoop fuel).

Fixpoint forceListLoop (fuel : nat) : list Expr -> Value -> M (list Expr) :=
  match fuel with
  | O => fun _ _ => timeout
  | S fuel => Open.forceListLoop (forceValue fuel) (forceListLoop fuel)
  end.

Definition forceList (fuel : nat) :=
  Open.forceList (forceValue fuel) (forceListLoop fuel).

(** A [Modulatable] has the fields of a [StaticData]: TypeScript's structural
    typing lets [staticDataEqual] of the functional variant read one. *)
Fixpoint asStaticData (m : Modulatable) : StaticData :=
  match m with
  | NumberModulatable n => NumberData n
  | ListModulatable elems => ListData (map asStaticData elems)
  | ConsModulatable car cdr => ConsData (asStaticData car) (asStaticData cdr)
  end.

(** ** The standard environment *)

Definition newStandardEnvironment : M Environment :=
  let* env := newEnvironment None in
  let* _ := define env "inc" (FuncValue (Lam1 FInc)) in
  let* _ := define env "dec" (FuncValue (Lam1 FDec)) in
  let* _ := define env "add" (FuncValue (Lam2 FAdd)) in
  let* _ := define env "mul" (FuncValue (Lam2 FMul)) in
  let* _ := define env "div" (FuncValue (Lam2 FDiv)) in
  let* _ := define env "eq" (FuncValue (Lam2 FEq)) in
  let* _ := define env "lt" (FuncValue (Lam2 FLt)) in
  let* _ := define env "neg" (FuncValue (Lam1 FNeg)) in
  let* _ := define env "s" (FuncValue (Lam3 FS)) in
  let* _ := define env "c" (FuncValue (Lam3 FC)) in
  let* _ := define env "b" (FuncValue (Lam3 FB)) in
  let* _ := define env "t" (makeBoolean true) in
  let* _ := define env "f" (makeBoolean false) in
  let* _ := define env "i" (FuncValue (Lam1 FI)) in
  let* _ := define env "cons" (FuncValue (Lam2 FCons)) in
  let* _ := define env "car" (FuncValue (Lam1 FCar)) in
  let* _ := define env "cdr" (FuncValue (Lam1 FCdr)) in
  let* _ := define env "nil" NilValue in
  let* _ := define env "isnil" (FuncValue (Lam1 FIsNil)) in
  ret env.

Definition emptyState : State := {| thunks := []; maps := []; counter := 0 |}.

Definition stdEnv : Environment := Env 0 None.

Definition stdState : State :=
  match newStandardEnvironment emptyState with
  | Ret _ s => s
  | _ => emptyState
  end.

(** ** Vocabulary of the statements *)

Definition suspended (f : Recipe) : ThunkCell := {| func := Some f; cache := None |}.
Definition forced (v : Value) : ThunkCell := {| func := None; cache := Some v |}.

Definition envAllocated (s : State) (env : Environment) : Prop :=
  match env with
  | Env defs_ _ => defs_ < length (maps s)
  end.

(** Thunk objects that hold a cache are the same objects in [s']. *)
Definition frozen (s s' : State) : Prop :=
  forall l c, thunks s !! l = Some c -> is_Some (cache c) -> thunks s' !! l = Some c.

Definition evolves (s s' : State) : Prop :=
  length (thunks s) <= length (thunks s') /\
  counter s <= counter s' /\
  frozen s s'.

(** One call of a method or function of this module, from outside. *)
Inductive step : State -> State -> Prop :=
| step_forceValue fuel e s s' :
    finalStore (forceValue fuel e s) = Some s' -> step s s'
| step_applyTo fuel e arg s s' :
    finalStore (applyTo fuel e arg s) = Some s' -> step s s'
| step_uncons e s s' :
    finalStore (Open.uncons e s) = Some s' -> step s s'
| step_forceModulatable fuel e s s' :
    finalStore (forceModulatable fuel e s) = Some s' -> step s s'
| step_makeReference env name s s' :
    finalStore (makeReference env name s) = Some s' -> step s s'
| step_newEnvironment parent s s' :
    finalStore (newEnvironment parent s) = Some s' -> step s s'
| step_define env name e s s' :
    finalStore (define env name e s) = Some s' -> step s s'.

(** The canonical tree of tagged data, as a [Modulatable]. *)
Definition prependModulatable (x d : Modulatable) : Modulatable :=
  match d with
  | ListModulatable elems => ListModulatable (x :: elems)
  | _ => ConsModulatable x d
  end.

Fixpoint canonModulatable (t : Tagged) : Modulatable :=
  match t with
  | TNumber n => NumberModulatable n
  | TNil => ListModulatable []
  | TCons car cdr => prependModulatable (canonModulatable car) (canonModulatable cdr)
  end.

Definition ontoModulatable (elems : list Modulatable) (d : Modulatable) : Modulatable :=
  match d with
  | ListModulatable rest => ListModulatable (elems ++ rest)
  | _ => fold_right ConsModulatable d elems
  end.

(** The chain [new ConsValue(z1, new ConsValue(z2, ... last))]. *)
Fixpoint chain (zs : list Z) (last : Expr) : Expr :=
  match zs with
  | [] => last
  | z :: zs' => Val (ConsValue (Val (NumberValue z)) (chain zs' last))
  end.

Definition oneThunk (f : Recipe) : State :=
  {| thunks := [suspended f]; maps := []; counter := 0 |}.

Fixpoint embed (t : Tagged) : Expr :=
  match t with
  | TNumber n => Val (NumberValue n)
  | TNil => Val NilValue
  | TCons car cdr => Val (ConsValue (embed car) (embed cdr))
  end.

(** As in the functional variant: the walk of [forceModulatable] from [e]
    meets only tagged numbers, nils and conses, which make up [t]. *)
Inductive forcesTo : State -> Expr -> Tagged -> State -> Prop :=
| forces_number s e n s' :
    finishes (fun fuel => forceValue fuel e) s (Ret (NumberValue n) s') ->
    forcesTo s e (TNumber n) s'
| forces_nil s e s' :
    finishes (fun fuel => forceValue fuel e) s (Ret NilValue s') ->
    forcesTo s e TNil s'
| forces_cons s e car cdr s1 tcar s2 tcdr s3 :
    finishes (fun fuel => forceValue fuel e) s (Ret (ConsValue car cdr) s1) ->
    forcesTo s1 car tcar s2 ->
    forcesTo s2 cdr tcdr s3 ->
    forcesTo s e (TCons tcar tcdr) s3.

(** The Map objects of [env] and of its ancestors are among the first [n] of
    the store. *)
Fixpoint envWithin (n : nat) (env : Environment) : Prop :=
  match env with
  | Env defs_ parent_ =>
      defs_ < n /\
      match parent_ with
      | Some parent => envWithin n parent
      | None => True
      end
  end.

(** No Map object was written. *)
Definition sameMaps (s s' : State) : Prop := maps s' = maps s.

(** The bindings of every Map object are still there. *)
Definition bindingsKept (s s' : State) : Prop :=
  forall d name e, mapAt s d !! name = Some e -> mapAt s' d !! name = Some e.

(** [f.apply(a1).apply(a2)...] *)
Definition applyAll (fuel : nat) (f : Expr) (args : list Expr) : M Expr :=
  reduce (applyTo fuel) args f.

(** [ev.forceValue(f.apply(a1).apply(a2)...)] *)
Definition forceApply (fuel : nat) (f : Expr) (args : list Expr) : M Value :=
  let* e := applyAll fuel f args in
  forceValue fuel e.

(** The store once [new Thunk(f)] has allocated its thunk and [forceValue]
    has entered it: the thunk is the last one, the counter is stepped. *)
Definition entered (s : State) (f : Recipe) : State :=
  {| thunks := thunks s ++ [suspended f]; maps := maps s; counter := S (counter s) |}.

(** The store once [forceValue] has stored the value [v] in the thunk at [l]. *)
Definition settled (l : loc) (v : Value) (s : State) : State :=
  {| thunks := <[l := forced v]> (thunks s); maps := maps s; counter := counter s |}.

Definition outcome (l : loc) (r : Res State Value) : Res State Value :=
  match r with
  | Ret v s => Ret v (settled l v s)
  | _ => r
  end.

(** The recipe of [builtinS]: [ev.forceValue(a.apply(c).apply(b.apply(c)))]. *)
Definition sBody (fuel : nat) (a b c : Expr) : M Value :=
  let* ac := applyTo fuel a c in
  let* bc := applyTo fuel b c in
  let* e := applyTo fuel ac bc in
  forceValue fuel e.

(** The pairs [new ConsValue(e1, new ConsValue(e2, ... last))]. *)
Definition spine (es : list Expr) (last : Expr) : Expr :=
  fold_right (fun e rest => Val (ConsValue e rest)) last es.

(** The walk of [forceList] from the forced value [v]: it forces the cdr of
    each pair, collects the cars [es] as they are, and stops at [last], the
    first value that is not a pair. *)
Inductive spineWalk : State -> Value -> list Expr -> Value -> State -> Prop :=
| walk_end s v : kind v <> KCons -> spineWalk s v [] v s
| walk_cons s car cdr next s1 es last s2 :
    finishes (fun fuel => forceValue fuel cdr) s (Ret next s1) ->
    spineWalk s1 next es last s2 ->
    spineWalk s (ConsValue car cdr) (car :: es) last s2.

(** What [forceList] does at the end of the walk: [isNil()] of the last
    value. *)
Definition forceListResult (es : list Expr) (last : Value) (s : State)
  : Res State (list Expr) :=
  match last with
  | NilValue => Ret es s
  | _ => Throw NotNilCons s
  end.

Definition canonicalModulatable (m : Modulatable) : Prop :=
  canonical (asStaticData m) = true.

(** Every thunk address in a value, an expression or a host closure is below
    [n]. *)
Fixpoint closedValue (n : nat) (v : Value) : bool :=
  match v with
  | NumberValue _ | NilValue => true
  | FuncValue f => closedClosure n f
  | ConsValue car cdr => closedExpr n car && closedExpr n cdr
  end
with closedExpr (n : nat) (e : Expr) : bool :=
  match e with
  | Val v => closedValue n v
  | Thunk l => Nat.ltb l n
  end
with closedClosure (n : nat) (c : Closure) : bool :=
  match c with
  | Lam1 _ | Lam2 _ | Lam3 _ => true
  | Lam2a _ a | Lam3a _ a => closedExpr n a
  | Lam3ab _ a b => closedExpr n a && closedExpr n b
  end.

Definition closedRecipe (n : nat) (f : Recipe) : bool :=
  match f with
  | RReference _ _ => true
  | RInc a | RDec a | RNeg a | RIsNil a => closedExpr n a
  | RApply this arg => Nat.ltb this n && closedExpr n arg
  | RUncons0 this | RUncons1 this => Nat.ltb this n
  | RAdd a b | RMul a b | RDiv a b | REq a b | RLt a b =>
      closedExpr n a && closedExpr n b
  | RS a b c => closedExpr n a && closedExpr n b && closedExpr n c
  end.

Definition closedOption (n : nat) (o : option Expr) : bool :=
  match o with
  | Some e => closedExpr n e
  | None => true
  end.

Definition closedList (n : nat) (es : list Expr) : bool := forallb (closedExpr n) es.

Definition closedPair (n : nat) (p : Expr * Expr) : bool :=
  closedExpr n (fst p) && closedExpr n (snd p).

(** A thunk object holds its recipe or its value, never both and never
    neither. *)
Definition cellOk (n : nat) (c : ThunkCell) : bool :=
  match func c, cache c with
  | Some f, None => closedRecipe n f
  | None, Some v => closedValue n v
  | _, _ => false
  end.

(** As in the functional variant: the stores that the methods and functions
    of this module build. *)
Definition wellFormed (s : State) : Prop :=
  Forall (fun c => cellOk (length (thunks s)) c = true) (thunks s) /\
  Forall (map_Forall (fun _ e => closedExpr (length (thunks s)) e = true)) (maps s).

Definition safe {A} (C : nat -> A -> bool) (n : nat) (m : M A) : Prop :=
  forall s, wellFormed s -> n <= length (thunks s) ->
    match m s with
    | Ret a s' =>
        wellFormed s' /\ length (thunks s) <= length (thunks s') /\
        C (length (thunks s')) a = true
    | Throw e s' =>
        wellFormed s' /\ length (thunks s) <= length (thunks s') /\ e <> BrokenThunk
    | Timeout => True
    end.

Definition anything {A} (_ : nat) (_ : A) : bool := true.

End OO.

(** * Properties *)

(** ** Facts about computations *)
Section MonadFacts.
Context {St : Type}.

Lemma approx_refl {A} (m : M St A) : approx m m.
Proof. intros s. now right. Qed.

Lemma approx_timeout {A} (m : M St A) : approx timeout m.
Proof. intros s. now left. Qed.

Lemma approx_trans {A} (m1 m2 m3 : M St A) :
  approx m1 m2 -> approx m2 m3 -> approx m1 m3.
Proof.
  intros H12 H23 s. destruct (H12 s) as [H | H]; [now left |].
  rewrite H. apply H23.
Qed.

Lemma approx_bind {A B} (m m' : M St A) (k k' : A -> M St B) :
  approx m m' -> (forall a, approx (k a) (k' a)) ->
  approx (bind m k) (bind m' k').
Proof.
  intros Hm Hk s. unfold bind.
  destruct (Hm s) as [H | H]; rewrite H; [now left |].
  destruct (m' s) as [a s' | e s' |]; [apply Hk | now right | now right].
Qed.

Lemma approx_reduce {A B} (f f' : B -> A -> M St B) (l : list A) :
  (forall b a, approx (f b a) (f' b a)) ->
  forall acc, approx (reduce f l acc) (reduce f' l acc).
Proof.
  intros Hf. induction l as [| x l IH]; intros acc; simpl.
  - apply approx_refl.
  - apply approx_bind; [apply Hf | apply IH].
Qed.

Lemma bind_assoc {A B C} (m : M St A) (k : A -> M St B) (h : B -> M St C) s :
  bind (bind m k) h s = bind m (fun a => bind (k a) h) s.
Proof. unfold bind. now destruct (m s). Qed.

Lemma bind_cong_l {A B} (m m' : M St A) (k : A -> M St B) s :
  m s = m' s -> bind m k s = bind m' k s.
Proof. unfold bind. now intros ->. Qed.

Lemma approx_run {A} (m m' : M St A) s r :
  approx m m' -> m s = r -> r <> Timeout -> m' s = r.
Proof. intros H Hr Hne. destruct (H s) as [E | E]; congruence. Qed.

Section Preserves.
Variable R : St -> St -> Prop.
Hypothesis R_refl : forall s, R s s.
Hypothesis R_trans : forall s1 s2 s3, R s1 s2 -> R s2 s3 -> R s1 s3.

Lemma preserves_ret {A} (a : A) : preserves R (ret a).
Proof. intros s s' [= <-]. apply R_refl. Qed.

Lemma preserves_throw {A} e : preserves R (@throw St A e).
Proof. intros s s' [= <-]. apply R_refl. Qed.

Lemma preserves_timeout {A} : preserves R (@timeout St A).
Proof. intros s s' [=]. Qed.

Lemma preserves_bind {A B} (m : M St A) (k : A -> M St B) :
  preserves R m -> (forall a, preserves R (k a)) -> preserves R (bind m k).
Proof.
  intros Hm Hk s s'. unfold bind.
  destruct (m s) as [a s1 | e s1 |] eqn:E; simpl; intros H.
  - eapply R_trans; [apply Hm; rewrite E; reflexivity | eapply Hk, H].
  - injection H as <-. apply Hm. now rewrite E.
  - discriminate.
Qed.

Lemma preserves_reduce {A B} (f : B -> A -> M St B) (l : list A) :
  (forall b a, preserves R (f b a)) ->
  forall acc, preserves R (reduce f l acc).
Proof.
  intros Hf. induction l as [| x l IH]; intros acc; simpl.
  - apply preserves_ret.
  - apply preserves_bind; [apply Hf | apply IH].
Qed.
End Preserves.

Section ThrowsOnly.
Variable P : Error -> Prop.

Lemma throwsOnly_ret {A} (a : A) : throwsOnly P (@ret St A a).
Proof. intros s e s' [=]. Qed.

Lemma throwsOnly_timeout {A} : throwsOnly P (@timeout St A).
Proof. intros s e s' [=]. Qed.

Lemma throwsOnly_throw {A} e : P e -> throwsOnly P (@throw St A e).
Proof. intros He s e' s' [= <- _]. exact He. Qed.

Lemma throwsOnly_bind {A B} (m : M St A) (k : A -> M St B) :
  throwsOnly P m -> (forall a, throwsOnly P (k a)) -> throwsOnly P (bind m k).
Proof.
  intros Hm Hk s e s'. unfold bind.
  destruct (m s) as [a s1 | e1 s1 |] eqn:E; intros H.
  - eapply Hk, H.
  - injection H as <- _. eapply Hm, E.
  - discriminate.
Qed.

Lemma throwsOnly_reduce {A B} (f : B -> A -> M St B) (l : list A) :
  (forall b a, throwsOnly P (f b a)) ->
  forall acc, throwsOnly P (reduce f l acc).
Proof.
  intros Hf. induction l as [| x l IH]; intros acc; simpl.
  - apply throwsOnly_ret.
  - apply throwsOnly_bind; [apply Hf | apply IH].
Qed.
End ThrowsOnly.

Lemma monotone_le {A} (m : nat -> M St A) fuel fuel' :
  monotone m -> fuel <= fuel' -> approx (m fuel) (m fuel').
Proof.
  intros Hm. induction 1 as [| k _ IH]; [apply approx_refl |].
  eapply approx_trans; [exact IH | apply Hm].
Qed.

Lemma monotone_bind {A B} (m : nat -> M St A) (k : A -> nat -> M St B) :
  monotone m -> (forall a, monotone (k a)) ->
  monotone (fun fuel => bind (m fuel) (fun a => k a fuel)).
Proof. intros Hm Hk fuel. apply approx_bind; [apply Hm | intros a; apply Hk]. Qed.

Lemma finishes_at {A} (m : nat -> M St A) s r fuel :
  m fuel s = r -> r <> Timeout -> finishes m s r.
Proof. intros H Hne. split; [exact Hne | now exists fuel]. Qed.

(** From some amount of fuel on, a monotone computation that finishes gives
    its result. *)
Lemma finishes_from {A} (m : nat -> M St A) s r :
  monotone m -> finishes m s r -> exists fuel0, forall fuel, fuel0 <= fuel -> m fuel s = r.
Proof.
  intros Hm [Hne [n Hn]]. exists n. intros fuel Hle.
  eapply approx_run; [apply monotone_le; eassumption | exact Hn | exact Hne].
Qed.

Lemma finishes_unique {A} (m : nat -> M St A) s r r' :
  monotone m -> finishes m s r -> finishes m s r' -> r = r'.
Proof.
  intros Hm H H'.
  destruct (finishes_from m s r Hm H) as [n Hn].
  destruct (finishes_from m s r' Hm H') as [n' Hn'].
  rewrite <- (Hn (Nat.max n n')), <- (Hn' (Nat.max n n')); [reflexivity | lia | lia].
Qed.
End MonadFacts.

Create HintDb approx.
#[export] Hint Resolve approx_refl approx_timeout : approx.

(** Splits a goal [approx m m'] along the structure shared by [m] and [m']. *)
Ltac approx_tac :=
  repeat first
    [ solve [auto with approx]
    | apply approx_bind; [| intros ?]
    | apply approx_reduce; intros ? ?
    | match goal with
      | |- approx (match ?x with _ => _ end) _ => destruct x
      | |- approx (if ?x then _ else _) _ => destruct x
      end ].

(** ** The store as a list *)

Lemma lookup_snoc {A} (l : list A) (x : A) : (l ++ [x]) !! length l = Some x.
Proof. now apply list_lookup_middle. Qed.

Lemma insert_snoc {A} (l : list A) (x y : A) : <[length l := y]> (l ++ [x]) = l ++ [y].
Proof.
  rewrite insert_app_r_alt by lia. now rewrite Nat.sub_diag.
Qed.

(** ** Canonical trees *)

Lemma reduceRight_snoc {A} (f : A -> A -> A) (l : list A) (x : A) :
  reduceRight f (l ++ [x]) = Some (fold_right f x l).
Proof.
  unfold reduceRight. rewrite rev_app_distr. simpl.
  rewrite <- fold_left_rev_right, rev_involutive. reflexivity.
Qed.

Lemma onto_nil d : onto [] d = d.
Proof. now destruct d. Qed.

Lemma onto_prepend elems x d : onto (elems ++ [x]) d = onto elems (prepend x d).
Proof.
  destruct d as [n | rest | car cdr]; simpl.
  - now rewrite fold_right_app.
  - now rewrite <- app_assoc.
  - now rewrite fold_right_app.
Qed.

Lemma canon_spine_nil ts : canon (fold_right TCons TNil ts) = ListData (map canon ts).
Proof.
  induction ts as [| t ts IH]; simpl; [reflexivity |]. now rewrite IH.
Qed.

Lemma canon_spine_number ts n :
  canon (fold_right TCons (TNumber n) ts) =
  fold_right ConsData (NumberData n) (map canon ts).
Proof.
  induction ts as [| t ts IH]; simpl; [reflexivity |]. rewrite IH.
  now destruct ts.
Qed.

Lemma taggedChain_spine zs last :
  taggedChain zs last = fold_right TCons last (map TNumber zs).
Proof. induction zs as [| z zs IH]; simpl; [reflexivity |]. now rewrite IH. Qed.

Lemma canon_taggedChain_nil zs : canon (taggedChain zs TNil) = ListData (map NumberData zs).
Proof.
  rewrite taggedChain_spine, canon_spine_nil, map_map. reflexivity.
Qed.

Lemma canon_taggedChain_number zs n :
  canon (taggedChain zs (TNumber n)) =
  fold_right ConsData (NumberData n) (map NumberData zs).
Proof.
  rewrite taggedChain_spine, canon_spine_number, map_map. reflexivity.
Qed.

Lemma staticDataEqual_refl d : staticDataEqual d d = true.
Proof.
  revert d. fix IH 1. intros [n | elems | car cdr]; simpl.
  - apply Z.eqb_refl.
  - rewrite Nat.eqb_refl. simpl.
    induction elems as [| x elems IHl]; [reflexivity |].
    now rewrite IH.
  - now rewrite !IH.
Qed.

(** ** The functional variant *)
Module FnProps.
Import Fn.

Section BuildMono.
Variables ma ma' : list Expr -> M Expr.
Hypothesis Hma : forall args, approx (ma args) (ma' args).
#[local] Hint Resolve Hma : approx.

Lemma callFunc_approx f a : approx (Open.callFunc ma f a) (Open.callFunc ma' f a).
Proof.
  destruct f as [[]|g|[] x|g|g x|[] x y];
    cbv [Open.callFunc Open.call1 Open.call2 Open.call3 Open.makeCar Open.makeCdr
         Open.builtinC Open.builtinB];
    approx_tac.
Qed.
#[local] Hint Resolve callFunc_approx : approx.

Lemma makeApplyStep_approx lhs rhs :
  approx (Open.makeApplyStep ma lhs rhs) (Open.makeApplyStep ma' lhs rhs).
Proof. unfold Open.makeApplyStep. approx_tac. Qed.
#[local] Hint Resolve makeApplyStep_approx : approx.

Lemma makeApplyBody_approx args :
  approx (Open.makeApplyBody ma args) (Open.makeApplyBody ma' args).
Proof. unfold Open.makeApplyBody. approx_tac. Qed.
End BuildMono.

Lemma makeApply_mono_S fuel args : approx (makeApply fuel args) (makeApply (S fuel) args).
Proof.
  revert args. induction fuel as [| n IH]; intros args.
  - apply approx_timeout.
  - apply makeApplyBody_approx, IH.
Qed.

Lemma makeApply_mono fuel fuel' args :
  fuel <= fuel' -> approx (makeApply fuel args) (makeApply fuel' args).
Proof.
  induction 1 as [| m _ IH]; [apply approx_refl |].
  eapply approx_trans; [apply IH | apply makeApply_mono_S].
Qed.
#[export] Hint Resolve callFunc_approx makeApplyStep_approx makeApplyBody_approx : approx.

Section ForceMono.
Variables ma ma' : list Expr -> M Expr.
Variables ev ev' : Expr -> M Value.
Hypothesis Hma : forall args, approx (ma args) (ma' args).
Hypothesis Hev : forall e, approx (ev e) (ev' e).
#[local] Hint Resolve Hma Hev : approx.

Lemma apply_approx lhs rhs : approx (Open.apply ma ev lhs rhs) (Open.apply ma' ev' lhs rhs).
Proof. unfold Open.apply. approx_tac. Qed.

Lemma isNilSlow_approx v : approx (Open.isNilSlow ma ev v) (Open.isNilSlow ma' ev' v).
Proof. unfold Open.isNilSlow. approx_tac. Qed.
#[local] Hint Resolve apply_approx isNilSlow_approx : approx.

Lemma isNil_approx e : approx (Open.isNil ma ev e) (Open.isNil ma' ev' e).
Proof. unfold Open.isNil. approx_tac. Qed.
#[local] Hint Resolve isNil_approx : approx.

Lemma runRecipe_approx f : approx (Open.runRecipe ma ev f) (Open.runRecipe ma' ev' f).
Proof. destruct f; unfold Open.runRecipe; approx_tac. Qed.
#[local] Hint Resolve runRecipe_approx : approx.

Lemma evaluateBody_approx e : approx (Open.evaluateBody ma ev e) (Open.evaluateBody ma' ev' e).
Proof. unfold Open.evaluateBody. approx_tac. Qed.
End ForceMono.
#[export] Hint Resolve apply_approx isNilSlow_approx isNil_approx runRecipe_approx
  evaluateBody_approx : approx.

Lemma evaluate_mono_S fuel e : approx (evaluate fuel e) (evaluate (S fuel) e).
Proof.
  revert e. induction fuel as [| n IH]; intros e.
  - apply approx_timeout.
  - apply evaluateBody_approx; [apply makeApply_mono_S | apply IH].
Qed.

Lemma evaluate_mono fuel fuel' e :
  fuel <= fuel' -> approx (evaluate fuel e) (evaluate fuel' e).
Proof.
  induction 1 as [| m _ IH]; [apply approx_refl |].
  eapply approx_trans; [apply IH | apply evaluate_mono_S].
Qed.

Lemma isNil_mono fuel fuel' e :
  fuel <= fuel' -> approx (isNil fuel e) (isNil fuel' e).
Proof. intros H. apply isNil_approx; intros; [apply makeApply_mono | apply evaluate_mono]; exact H. Qed.

Lemma callFunc_mono fuel fuel' f a :
  fuel <= fuel' -> approx (callFunc fuel f a) (callFunc fuel' f a).
Proof. intros H. apply callFunc_approx; intros; apply makeApply_mono, H. Qed.

Lemma makeApply_fuel fuel fuel' args s r :
  makeApply fuel args s = r -> r <> Timeout -> fuel <= fuel' -> makeApply fuel' args s = r.
Proof. intros Hr Hne Hle. eapply approx_run; [apply makeApply_mono, Hle | exact Hr | exact Hne]. Qed.

Lemma evaluate_fuel fuel fuel' e s r :
  evaluate fuel e s = r -> r <> Timeout -> fuel <= fuel' -> evaluate fuel' e s = r.
Proof. intros Hr Hne Hle. eapply approx_run; [apply evaluate_mono, Hle | exact Hr | exact Hne]. Qed.

Lemma isNil_fuel fuel fuel' e s r :
  isNil fuel e s = r -> r <> Timeout -> fuel <= fuel' -> isNil fuel' e s = r.
Proof. intros Hr Hne Hle. eapply approx_run; [apply isNil_mono, Hle | exact Hr | exact Hne]. Qed.

(** ** Application *)

Lemma makeApply_nil fuel f s :
  makeApply (S fuel) [Val makeNil; f] s = Ret (Val (makeBoolean true)) s.
Proof. reflexivity. Qed.

Lemma makeApply_true fuel x y s :
  makeApply (S fuel) [Val (makeBoolean true); x; y] s = Ret x s.
Proof. reflexivity. Qed.

Lemma makeApply_false fuel x y s :
  makeApply (S fuel) [Val (makeBoolean false); x; y] s = Ret y s.
Proof. reflexivity. Qed.

Lemma makeApply_number fuel k rhs s :
  makeApply (S fuel) [Val (NumberValue k); rhs] s = Throw InvalidFunctionCall s.
Proof. reflexivity. Qed.

(** A two-element application is the reducer's step. *)
Lemma makeApply_pair fuel lhs rhs s :
  makeApply (S fuel) [lhs; rhs] s = makeApplyStep fuel lhs rhs s.
Proof.
  change (bind (makeApplyStep fuel lhs rhs) ret s = makeApplyStep fuel lhs rhs s).
  unfold bind. now destruct (makeApplyStep fuel lhs rhs s).
Qed.

Lemma makeCar_cons fuel a b s : makeCar (S (S fuel)) (Val (ConsValue a b)) s = Ret a s.
Proof. reflexivity. Qed.

Lemma makeCdr_cons fuel a b s : makeCdr (S (S fuel)) (Val (ConsValue a b)) s = Ret b s.
Proof. reflexivity. Qed.

Lemma makeThunk_throws P f : throwsOnly P (makeThunk f).
Proof. intros s e s' [=]. Qed.

(** Splits a goal [throwsOnly P m] along the structure of [m]. *)
Ltac throws_tac :=
  repeat first
    [ apply throwsOnly_ret
    | apply makeThunk_throws
    | apply throwsOnly_throw; reflexivity
    | apply throwsOnly_bind; [| intros ?]
    | apply throwsOnly_reduce; intros ? ?
    | match goal with
      | H : forall args, args <> [] -> throwsOnly _ (?ma args) |- throwsOnly _ (?ma _) =>
          apply H; discriminate
      | |- throwsOnly _ (match ?x with _ => _ end) => destruct x
      end ].

Section BuildThrows.
Variable ma : list Expr -> M Expr.
Hypothesis Hma : forall args, args <> [] -> throwsOnly (eq InvalidFunctionCall) (ma args).

Lemma callFunc_throws f a : throwsOnly (eq InvalidFunctionCall) (Open.callFunc ma f a).
Proof.
  destruct f as [[]|g|[] x|g|g x|[] x y];
    cbv [Open.callFunc Open.call1 Open.call2 Open.call3 Open.makeCar Open.makeCdr
         Open.builtinC Open.builtinB Open.builtinInc Open.builtinDec Open.builtinNeg
         Open.builtinI Open.builtinIsNil Open.builtinAdd Open.builtinMul Open.builtinDiv
         Open.builtinEq Open.builtinLt Open.builtinS];
    throws_tac.
Qed.

Lemma makeApplyStep_throws lhs rhs :
  throwsOnly (eq InvalidFunctionCall) (Open.makeApplyStep ma lhs rhs).
Proof. unfold Open.makeApplyStep. throws_tac. apply callFunc_throws. Qed.

Lemma makeApplyBody_throws args :
  args <> [] -> throwsOnly (eq InvalidFunctionCall) (Open.makeApplyBody ma args).
Proof.
  intros Hne. destruct args as [| first rest]; [congruence |].
  apply throwsOnly_reduce. intros. apply makeApplyStep_throws.
Qed.
End BuildThrows.

(** Building an application fails in one way only: a Number stands where a
    function is expected. *)
Lemma makeApply_throws fuel args :
  args <> [] -> throwsOnly (eq InvalidFunctionCall) (makeApply fuel args).
Proof.
  revert args. induction fuel as [| n IH]; intros args Hne.
  - apply throwsOnly_timeout.
  - apply makeApplyBody_throws; [exact IH | exact Hne].
Qed.

(** ** Forced thunks are never touched again *)

Lemma evolves_refl s : evolves s s.
Proof. repeat split; [lia | lia | intros l c H _; exact H]. Qed.

Lemma evolves_trans s1 s2 s3 : evolves s1 s2 -> evolves s2 s3 -> evolves s1 s3.
Proof.
  intros (L12 & C12 & F12) (L23 & C23 & F23). repeat split; [lia | lia |].
  intros l c H Hc. apply F23; [apply F12 |]; assumption.
Qed.

Lemma makeThunk_evolves f : preserves evolves (makeThunk f).
Proof.
  intros s s' [= <-]. repeat split; simpl.
  - rewrite length_app. lia.
  - lia.
  - intros l c H _. simpl. rewrite lookup_app_l; [exact H |].
    eapply lookup_lt_Some, H.
Qed.

Lemma readThunk_evolves l : preserves evolves (readThunk l).
Proof. intros s s' [= <-]. apply evolves_refl. Qed.

Lemma envLookup_evolves env name : preserves evolves (envLookup env name).
Proof. intros s s' [= <-]. apply evolves_refl. Qed.

Lemma incrEvalCounter_evolves : preserves evolves incrEvalCounter.
Proof.
  intros s s' [= <-]. repeat split; simpl; [lia | lia | intros l c H _; exact H].
Qed.

Lemma arith1_evolves op f x : preserves evolves (Open.arith1 op f x).
Proof.
  destruct x; first [apply preserves_ret | apply preserves_throw]; apply evolves_refl.
Qed.

Lemma arith2_evolves op f x y :
  (forall n m, preserves evolves (f n m)) -> preserves evolves (Open.arith2 op f x y).
Proof.
  intros Hf. destruct x, y; simpl;
    first [apply Hf | apply preserves_throw; apply evolves_refl].
Qed.

Lemma bigintDiv_evolves x y : preserves evolves (Open.bigintDiv x y).
Proof.
  unfold Open.bigintDiv. destruct (Z.eqb y 0);
    first [apply preserves_ret | apply preserves_throw]; apply evolves_refl.
Qed.

Create HintDb evolves.
#[export] Hint Resolve makeThunk_evolves readThunk_evolves envLookup_evolves
  incrEvalCounter_evolves arith1_evolves bigintDiv_evolves : evolves.

(** Splits a goal [preserves evolves m] along the structure of [m]. *)
Ltac evolves_tac :=
  repeat first
    [ solve [auto with evolves]
    | apply preserves_ret; apply evolves_refl
    | apply preserves_throw; apply evolves_refl
    | apply (preserves_bind evolves evolves_trans); [| intros ?]
    | apply (preserves_reduce evolves evolves_refl evolves_trans); intros ? ?
    | apply arith2_evolves; intros ? ?
    | match goal with
      | |- preserves _ (match ?x with _ => _ end) => destruct x
      | |- preserves _ (if ?x then _ else _) => destruct x
      end ].

Section BuildEvolves.
Variable ma : list Expr -> M Expr.
Hypothesis Hma : forall args, preserves evolves (ma args).
#[local] Hint Resolve Hma : evolves.

Lemma callFunc_evolves f a : preserves evolves (Open.callFunc ma f a).
Proof.
  destruct f as [[]|g|[] x|g|g x|[] x y];
    cbv [Open.callFunc Open.call1 Open.call2 Open.call3 Open.makeCar Open.makeCdr
         Open.builtinC Open.builtinB Open.builtinInc Open.builtinDec Open.builtinNeg
         Open.builtinI Open.builtinIsNil Open.builtinAdd Open.builtinMul Open.builtinDiv
         Open.builtinEq Open.builtinLt Open.builtinS];
    evolves_tac.
Qed.
#[local] Hint Resolve callFunc_evolves : evolves.

Lemma makeApplyStep_evolves lhs rhs : preserves evolves (Open.makeApplyStep ma lhs rhs).
Proof. unfold Open.makeApplyStep. evolves_tac. Qed.
#[local] Hint Resolve makeApplyStep_evolves : evolves.

Lemma makeApplyBody_evolves args : preserves evolves (Open.makeApplyBody ma args).
Proof. unfold Open.makeApplyBody. evolves_tac. Qed.
End BuildEvolves.
#[export] Hint Resolve callFunc_evolves makeApplyStep_evolves makeApplyBody_evolves : evolves.

Lemma makeApply_evolves fuel args : preserves evolves (makeApply fuel args).
Proof.
  revert args. induction fuel as [| n IH]; intros args.
  - apply preserves_timeout.
  - apply makeApplyBody_evolves, IH.
Qed.
#[export] Hint Resolve makeApply_evolves : evolves.

(** A thunk object that holds its recipe and no cache is inside the store. *)
Lemma thunkAt_func s l f : func (thunkAt s l) = Some f -> l < length (thunks s).
Proof.
  unfold thunkAt. destruct (thunks s !! l) eqn:E; simpl; [| discriminate].
  intros _. eapply lookup_lt_Some, E.
Qed.

Lemma thunkAt_lookup s l c : thunks s !! l = Some c -> thunkAt s l = c.
Proof. unfold thunkAt. now intros ->. Qed.

(** Storing the value of a thunk that held no cache. *)
Lemma writeThunk_evolves s0 s l c :
  evolves s0 s -> cache (thunkAt s0 l) = None ->
  forall s', finalStore (writeThunk l c s) = Some s' -> evolves s0 s'.
Proof.
  intros (L & C & F) Hnone s' [= <-]. repeat split; simpl.
  - rewrite length_insert. exact L.
  - exact C.
  - intros l' c' H Hc'. simpl. destruct (decide (l = l')) as [<- | Hne].
    + rewrite (thunkAt_lookup _ _ _ H) in Hnone. rewrite Hnone in Hc'.
      now destruct Hc'.
    + rewrite list_lookup_insert_ne; [apply F |]; assumption.
Qed.

Section ForceEvolves.
Variable ma : list Expr -> M Expr.
Variable ev : Expr -> M Value.
Hypothesis Hma : forall args, preserves evolves (ma args).
Hypothesis Hev : forall e, preserves evolves (ev e).
#[local] Hint Resolve Hma Hev : evolves.

Lemma apply_evolves lhs rhs : preserves evolves (Open.apply ma ev lhs rhs).
Proof. unfold Open.apply. evolves_tac. Qed.

Lemma isNilSlow_evolves v : preserves evolves (Open.isNilSlow ma ev v).
Proof. unfold Open.isNilSlow. evolves_tac. Qed.
#[local] Hint Resolve apply_evolves isNilSlow_evolves : evolves.

Lemma isNil_evolves e : preserves evolves (Open.isNil ma ev e).
Proof. unfold Open.isNil. evolves_tac. Qed.
#[local] Hint Resolve isNil_evolves : evolves.

Lemma runRecipe_evolves f : preserves evolves (Open.runRecipe ma ev f).
Proof. destruct f; unfold Open.runRecipe; evolves_tac. Qed.

Lemma evaluateBody_evolves e : preserves evolves (Open.evaluateBody ma ev e).
Proof.
  destruct e as [v | l]; [apply preserves_ret, evolves_refl |].
  intros s s'. unfold Open.evaluateBody, bind, readThunk.
  destruct (cache (thunkAt s l)) as [v |] eqn:Hc.
  { intros [= <-]. apply evolves_refl. }
  destruct (func (thunkAt s l)) as [f |].
  2: { intros [= <-]. apply evolves_refl. }
  simpl.
  pose proof (runRecipe_evolves f) as Hrun.
  match goal with |- context [Open.runRecipe ma ev f ?s1] => set (si := s1) end.
  assert (Hi : evolves s si).
  { apply incrEvalCounter_evolves. reflexivity. }
  specialize (Hrun si).
  destruct (Open.runRecipe ma ev f si) as [value s2 | e s2 |]; simpl.
  - intros H. eapply writeThunk_evolves; [| exact Hc | exact H].
    eapply evolves_trans; [exact Hi | now apply Hrun].
  - intros [= <-]. eapply evolves_trans; [exact Hi | now apply Hrun].
  - discriminate.
Qed.
End ForceEvolves.
#[export] Hint Resolve apply_evolves isNilSlow_evolves isNil_evolves runRecipe_evolves
  evaluateBody_evolves : evolves.

Lemma evaluate_evolves fuel e : preserves evolves (evaluate fuel e).
Proof.
  revert e. induction fuel as [| n IH]; intros e.
  - apply preserves_timeout.
  - apply evaluateBody_evolves; [apply makeApply_evolves | apply IH].
Qed.
#[export] Hint Resolve evaluate_evolves : evolves.

Lemma finishCons_evolves elems : preserves evolves (Open.finishCons elems).
Proof.
  unfold Open.finishCons. destruct (reduceRight ConsData elems);
    first [apply preserves_ret | apply preserves_throw]; apply evolves_refl.
Qed.
#[export] Hint Resolve finishCons_evolves : evolves.

Section StaticEvolves.
Variable ma : list Expr -> M Expr.
Variable ev : Expr -> M Value.
Variable loop : list StaticData -> Value -> M StaticData.
Hypothesis Hma : forall args, preserves evolves (ma args).
Hypothesis Hev : forall e, preserves evolves (ev e).
Hypothesis Hloop : forall elems cur, preserves evolves (loop elems cur).
#[local] Hint Resolve Hma Hev Hloop : evolves.

Lemma exprToStaticData_body_evolves e :
  preserves evolves (Open.exprToStaticData ev loop e).
Proof. unfold Open.exprToStaticData. evolves_tac. Qed.
#[local] Hint Resolve exprToStaticData_body_evolves : evolves.

Lemma exprToStaticDataLoop_body_evolves elems cur :
  preserves evolves (Open.exprToStaticDataLoop ma ev loop elems cur).
Proof.
  unfold Open.exprToStaticDataLoop, Open.makeCar, Open.makeCdr. evolves_tac.
Qed.
End StaticEvolves.

Lemma exprToStaticDataLoop_evolves fuel elems cur :
  preserves evolves (exprToStaticDataLoop fuel elems cur).
Proof.
  revert elems cur. induction fuel as [| n IH]; intros elems cur.
  - apply preserves_timeout.
  - apply exprToStaticDataLoop_body_evolves; auto with evolves.
Qed.

Lemma exprToStaticData_evolves fuel e : preserves evolves (exprToStaticData fuel e).
Proof.
  apply exprToStaticData_body_evolves;
    [apply evaluate_evolves | apply exprToStaticDataLoop_evolves].
Qed.

Lemma makeReference_evolves env name : preserves evolves (makeReference env name).
Proof. unfold makeReference. evolves_tac. Qed.

Lemma newEnvironment_evolves parent : preserves evolves (newEnvironment parent).
Proof.
  intros s s' [= <-]. repeat split; simpl; [lia | lia | intros l c H _; exact H].
Qed.

Lemma define_evolves env name e : preserves evolves (define env name e).
Proof.
  intros s s'. unfold define. destruct env as [defs_ parent_].
  destruct (mapAt s defs_ !! name); intros [= <-]; [apply evolves_refl |].
  repeat split; simpl; [lia | lia | intros l c H _; exact H].
Qed.

Lemma step_evolves s s' : step s s' -> evolves s s'.
Proof.
  intros [fuel e s0 s1 H | fuel args s0 s1 H | fuel e s0 s1 H | fuel e s0 s1 H
         | env name s0 s1 H | parent s0 s1 H | env name e s0 s1 H].
  - eapply evaluate_evolves, H.
  - eapply makeApply_evolves, H.
  - eapply (isNil_evolves _ _ (makeApply_evolves fuel) (evaluate_evolves fuel)), H.
  - eapply exprToStaticData_evolves, H.
  - eapply makeReference_evolves, H.
  - eapply newEnvironment_evolves, H.
  - eapply define_evolves, H.
Qed.

Lemma steps_evolves s s' : rtc step s s' -> evolves s s'.
Proof.
  induction 1 as [| s1 s2 s3 H12 _ IH]; [apply evolves_refl |].
  eapply evolves_trans; [apply step_evolves, H12 | exact IH].
Qed.

(** The memoization hit: a thunk that holds a cache is read, nothing is
    written and nothing runs. *)
Lemma evaluate_hit fuel l s c v :
  thunks s !! l = Some c -> cache c = Some v ->
  evaluate (S fuel) (Thunk l) s = Ret v s.
Proof.
  intros Hl Hc. simpl. unfold Open.evaluateBody, bind, readThunk.
  now rewrite (thunkAt_lookup _ _ _ Hl), Hc.
Qed.

(** The first force: the counter is stepped, the recipe runs, the value is
    stored and the recipe dropped. *)
Lemma evaluate_miss fuel l s f v s1 :
  thunkAt s l = suspended f ->
  evaluate fuel (Thunk l) s = Ret v s1 ->
  exists n s0,
    fuel = S n /\
    (let* _ := incrEvalCounter in runRecipe n f) s = Ret v s0 /\
    writeThunk l (forced v) s0 = Ret tt s1 /\
    thunks s1 !! l = Some (forced v) /\
    evalCounter s < evalCounter s1.
Proof.
  intros Hcell Hrun. destruct fuel as [| n]; [discriminate |].
  assert (Hlen : l < length (thunks s)).
  { apply (thunkAt_func s l f). now rewrite Hcell. }
  change (Open.evaluateBody (makeApply n) (evaluate n) (Thunk l) s = Ret v s1) in Hrun.
  unfold Open.evaluateBody, bind, readThunk in Hrun.
  rewrite Hcell in Hrun. simpl in Hrun.
  pose proof (runRecipe_evolves _ _ (makeApply_evolves n) (evaluate_evolves n) f) as Hr.
  match type of Hrun with
  | context [Open.runRecipe ?a ?b f ?si] =>
      specialize (Hr si);
      destruct (Open.runRecipe a b f si) as [value s0 | e s0 |] eqn:Er
  end; try discriminate.
  injection Hrun as <- <-. destruct (Hr s0 eq_refl) as (L & C & _).
  simpl in L, C.
  exists n, s0. split; [reflexivity |]. split; [exact Er |].
  split; [reflexivity |]. split; simpl.
  - apply list_lookup_insert_eq. lia.
  - lia.
Qed.

(** ** Pairs hand their components to the argument *)

Lemma evaluate_monotone e : monotone (fun fuel => evaluate fuel e).
Proof. intros fuel. apply evaluate_mono_S. Qed.

Lemma makeApply_monotone args : monotone (fun fuel => makeApply fuel args).
Proof. intros fuel. apply makeApply_mono_S. Qed.

Lemma isNil_monotone e : monotone (fun fuel => isNil fuel e).
Proof. intros fuel. apply isNil_mono. lia. Qed.

Lemma isNilProbe_monotone v : monotone (fun fuel => isNilProbe fuel v).
Proof.
  apply (monotone_bind (fun fuel => makeApply fuel _) (fun e fuel => evaluate fuel e)).
  - apply makeApply_monotone.
  - intros e. apply evaluate_monotone.
Qed.

(** [makeApply(makeApply(f, a), b)] builds what [makeApply(f, a, b)] builds. *)
Lemma makeApply_nested fuel f a b s :
  (let* fa := makeApply (S fuel) [f; a] in makeApply (S fuel) [fa; b]) s =
  makeApply (S fuel) [f; a; b] s.
Proof.
  simpl. unfold Open.makeApplyBody, bind, ret. simpl. unfold bind, ret.
  destruct (Open.makeApplyStep (makeApply fuel) f a s) as [fa s1 | e s1 |];
    [| reflexivity | reflexivity].
  now destruct (Open.makeApplyStep (makeApply fuel) fa b s1).
Qed.

(** Applying an argument to a Pair builds the application of the argument to
    the two components. *)
Lemma makeApply_cons fuel a b f s :
  makeApply (S (S fuel)) [Val (makeCons a b); f] s = makeApply (S fuel) [f; a; b] s.
Proof. rewrite makeApply_pair. reflexivity. Qed.

Lemma pair_destructuring_fn a b f s r :
  finishes (fun fuel => let* e := makeApply fuel [Val (makeCons a b); f] in
                        evaluate fuel e) s r <->
  finishes (fun fuel => let* fa := makeApply fuel [f; a] in
                        let* e := makeApply fuel [fa; b] in
                        evaluate fuel e) s r.
Proof.
  assert (Hl : forall k, (let* e := makeApply (S (S k)) [Val (makeCons a b); f] in
                          evaluate (S (S k)) e) s =
                         (let* e := makeApply (S k) [f; a; b] in evaluate (S (S k)) e) s).
  { intros k. apply bind_cong_l, makeApply_cons. }
  assert (Hr : forall k, (let* fa := makeApply (S k) [f; a] in
                          let* e := makeApply (S k) [fa; b] in
                          evaluate (S k) e) s =
                         (let* e := makeApply (S k) [f; a; b] in evaluate (S k) e) s).
  { intros k. rewrite <- bind_assoc. apply bind_cong_l, makeApply_nested. }
  split; intros [Hne [n Hn]]; (split; [exact Hne |]).
  - destruct n as [| [| k]]; [cbv in Hn; congruence | cbv in Hn; congruence |].
    exists (S (S k)). rewrite Hr. rewrite Hl in Hn.
    eapply approx_run; [| exact Hn | exact Hne].
    apply approx_bind; [apply makeApply_mono_S | intros; apply approx_refl].
  - destruct n as [| k]; [cbv in Hn; congruence |].
    exists (S (S k)). rewrite Hl. rewrite Hr in Hn.
    eapply approx_run; [| exact Hn | exact Hne].
    apply approx_bind; [apply approx_refl | intros; apply evaluate_mono_S].
Qed.

(** ** Nil or Pair? *)

Lemma isNil_tagged fuel e s v s' :
  evaluate fuel e s = Ret v s' ->
  isNil fuel e s =
  match v with
  | NilValue => Ret true s'
  | ConsValue _ _ | NumberValue _ => Ret false s'
  | FuncValue _ => isNilSlow fuel v s'
  end.
Proof.
  intros H. unfold isNil, Open.isNil, bind. rewrite H. now destruct v.
Qed.

(** The slow path is the probe followed by the reading of its result. *)
Lemma isNilSlow_probe fuel v s :
  isNilSlow (S fuel) v s =
  (let* result := isNilProbe (S fuel) v in
   match result with
   | NumberValue n =>
       if Z.eqb n 123 then ret true
       else if Z.eqb n 456 then ret false
       else throw NotNilCons
   | _ => throw NotNilCons
   end) s.
Proof.
  unfold isNilProbe. rewrite bind_assoc. reflexivity.
Qed.

(** A pair and a nil built from combinators alone, the identity, and a
    function that answers 7 whatever it is given: probed, the first is a
    pair, the second is nil, the other two are neither. *)
Example isNil_probe_examples :
  let pairLike :=
    FuncValue (Lam3ab FC (Val (FuncValue (Lam3ab FC (Val (makeFunc FI))
                                            (Val (makeNumber 1)))))
                 (Val (makeNumber 2))) in
  let nilLike := FuncValue (Lam2a FFirst (Val theTrue)) in
  let seven :=
    FuncValue (Lam2a FFirst (Val (FuncValue (Lam2a FFirst
                 (Val (FuncValue (Lam2a FFirst (Val (makeNumber 7))))))))) in
  isNil 3 (Val pairLike) emptyState = Ret false emptyState /\
  isNil 2 (Val nilLike) emptyState = Ret true emptyState /\
  isNil 2 (Val (makeFunc FI)) emptyState = Throw NotNilCons emptyState /\
  isNil 2 (Val seven) emptyState = Throw NotNilCons emptyState /\
  exprToStaticData 6 (Val pairLike) emptyState =
    Ret (ConsData (NumberData 1) (NumberData 2)) emptyState.
Proof. repeat split. Qed.

(** ** References *)

(** [lookup] reads the maps only. *)
Lemma lookup_maps env name s s' : maps s = maps s' -> lookup env name s = lookup env name s'.
Proof.
  intros H. revert env. fix IH 1. intros [d parent]. simpl. unfold mapAt. rewrite H.
  destruct (default ∅ (maps s' !! d) !! name); [reflexivity |].
  destruct parent as [parent |]; [apply IH | reflexivity].
Qed.

Lemma makeReference_bound env name s resolved :
  lookup env name s = Some resolved -> makeReference env name s = Ret resolved s.
Proof. intros H. unfold makeReference, bind, envLookup. now rewrite H. Qed.

Lemma makeReference_unbound env name s :
  lookup env name s = None ->
  makeReference env name s =
  Ret (Thunk (length (thunks s)))
      {| thunks := thunks s ++ [suspended (RReference env name)];
         maps := maps s; evalCounter := evalCounter s |}.
Proof. intros H. unfold makeReference, bind, envLookup. now rewrite H. Qed.

Lemma evaluate_reference_unbound fuel l env name s :
  thunkAt s l = suspended (RReference env name) ->
  lookup env name s = None ->
  evaluate (S fuel) (Thunk l) s =
  Throw (UndefinedReference name)
        {| thunks := thunks s; maps := maps s; evalCounter := S (evalCounter s) |}.
Proof.
  intros Hcell Hnone. simpl. unfold Open.evaluateBody, bind, readThunk.
  rewrite Hcell. simpl. unfold envLookup, bind.
  rewrite <- (lookup_maps env name s) by reflexivity. now rewrite Hnone.
Qed.

Lemma evaluate_reference_bound fuel l env name s resolved :
  thunkAt s l = suspended (RReference env name) ->
  lookup env name s = Some resolved ->
  evaluate (S fuel) (Thunk l) s =
  (let* _ := incrEvalCounter in
   let* value := evaluate fuel resolved in
   let* _ := writeThunk l (forced value) in
   ret value) s.
Proof.
  intros Hcell Hsome. simpl. unfold Open.evaluateBody, bind, readThunk.
  rewrite Hcell. simpl. unfold envLookup, bind.
  rewrite <- (lookup_maps env name s) by reflexivity. now rewrite Hsome.
Qed.

Lemma define_lookup env name e s s' :
  envAllocated s env -> define env name e s = Ret tt s' -> lookup env name s' = Some e.
Proof.
  destruct env as [d parent]. simpl. intros Hd. unfold define.
  destruct (mapAt s d !! name); [discriminate |]. intros [= <-].
  unfold mapAt at 1. simpl. rewrite list_lookup_insert_eq by exact Hd. simpl.
  now rewrite lookup_insert_eq.
Qed.

Lemma define_thunks env name e s s' :
  define env name e s = Ret tt s' -> thunks s' = thunks s.
Proof.
  destruct env as [d parent]. unfold define.
  destruct (mapAt s d !! name); [discriminate |]. now intros [= <-].
Qed.

(** A reference made before the definition resolves once the definition
    exists. *)
Lemma forward_reference_fn fuel env name e s l s1 s2 :
  lookup env name s = None ->
  makeReference env name s = Ret (Thunk l) s1 ->
  envAllocated s1 env ->
  define env name e s1 = Ret tt s2 ->
  evaluate (S fuel) (Thunk l) s2 =
  (let* _ := incrEvalCounter in
   let* value := evaluate fuel e in
   let* _ := writeThunk l (forced value) in
   ret value) s2.
Proof.
  intros Hnone Href Halloc Hdef.
  rewrite (makeReference_unbound _ _ _ Hnone) in Href. injection Href as <- <-.
  apply (evaluate_reference_bound fuel _ env name).
  - unfold thunkAt. rewrite (define_thunks _ _ _ _ _ Hdef). simpl.
    now rewrite lookup_snoc.
  - eapply define_lookup; eassumption.
Qed.

(** ** Arithmetic *)

Example stdEnv_loaded :
  exists s, newStandardEnvironment emptyState = Ret stdEnv s /\ s = stdState.
Proof. eexists. split; [vm_compute; reflexivity | vm_compute; reflexivity]. Qed.

Lemma stdEnv_add : lookup stdEnv "add" stdState = Some (Val (makeFunc2 FAdd)).
Proof. vm_compute. reflexivity. Qed.

Lemma stdEnv_div : lookup stdEnv "div" stdState = Some (Val (makeFunc2 FDiv)).
Proof. vm_compute. reflexivity. Qed.

(** Forcing a thunk right after its allocation. *)
Lemma evaluate_fresh fuel f s :
  (let* e := makeThunk f in evaluate (S fuel) e) s =
  match runRecipe fuel f {| thunks := thunks s ++ [suspended f]; maps := maps s;
                            evalCounter := S (evalCounter s) |} with
  | Ret v s' =>
      Ret v {| thunks := <[length (thunks s) := forced v]> (thunks s');
               maps := maps s'; evalCounter := evalCounter s' |}
  | Throw e s' => Throw e s'
  | Timeout => Timeout
  end.
Proof.
  unfold bind at 1, makeThunk. simpl. unfold Open.evaluateBody, bind at 1, readThunk.
  unfold thunkAt. simpl. rewrite lookup_snoc. simpl. reflexivity.
Qed.

Lemma add_numbers fuel x y s :
  (let* e := makeApply (S fuel) [Val (makeFunc2 FAdd); Val (makeNumber x); Val (makeNumber y)] in
   evaluate (S (S fuel)) e) s =
  Ret (NumberValue (x + y))
      {| thunks := thunks s ++ [forced (NumberValue (x + y))];
         maps := maps s; evalCounter := S (evalCounter s) |}.
Proof.
  change (makeApply (S fuel) [Val (makeFunc2 FAdd); Val (makeNumber x); Val (makeNumber y)])
    with (let* e := makeThunk (RAdd (Val (makeNumber x)) (Val (makeNumber y))) in @ret State _ e).
  rewrite bind_assoc.
  change (bind (makeThunk ?f) (fun a => bind (ret a) ?k) s) with (bind (makeThunk f) k s).
  rewrite evaluate_fresh. simpl. now rewrite insert_snoc.
Qed.

Lemma div_numbers fuel x y s :
  y <> 0%Z ->
  (let* e := makeApply (S fuel) [Val (makeFunc2 FDiv); Val (makeNumber x); Val (makeNumber y)] in
   evaluate (S (S fuel)) e) s =
  Ret (NumberValue (Z.quot x y))
      {| thunks := thunks s ++ [forced (NumberValue (Z.quot x y))];
         maps := maps s; evalCounter := S (evalCounter s) |}.
Proof.
  intros Hy.
  change (makeApply (S fuel) [Val (makeFunc2 FDiv); Val (makeNumber x); Val (makeNumber y)])
    with (let* e := makeThunk (RDiv (Val (makeNumber x)) (Val (makeNumber y))) in @ret State _ e).
  rewrite bind_assoc.
  change (bind (makeThunk ?f) (fun a => bind (ret a) ?k) s) with (bind (makeThunk f) k s).
  rewrite evaluate_fresh. simpl. unfold Open.bigintDiv, bind, ret. simpl.
  destruct (Z.eqb_spec y 0) as [-> | _]; [congruence |]. simpl. now rewrite insert_snoc.
Qed.

Lemma div_by_zero fuel x s :
  (let* e := makeApply (S fuel) [Val (makeFunc2 FDiv); Val (makeNumber x); Val (makeNumber 0)] in
   evaluate (S (S fuel)) e) s =
  Throw DivisionByZero
      {| thunks := thunks s ++ [suspended (RDiv (Val (makeNumber x)) (Val (makeNumber 0)))];
         maps := maps s; evalCounter := S (evalCounter s) |}.
Proof.
  change (makeApply (S fuel) [Val (makeFunc2 FDiv); Val (makeNumber x); Val (makeNumber 0)])
    with (let* e := makeThunk (RDiv (Val (makeNumber x)) (Val (makeNumber 0))) in @ret State _ e).
  rewrite bind_assoc.
  change (bind (makeThunk ?f) (fun a => bind (ret a) ?k) s) with (bind (makeThunk f) k s).
  rewrite evaluate_fresh. reflexivity.
Qed.

(** ** Canonicalization *)

Section StaticMono.
Variables ma ma' : list Expr -> M Expr.
Variables ev ev' : Expr -> M Value.
Variables loop loop' : list StaticData -> Value -> M StaticData.
Hypothesis Hma : forall args, approx (ma args) (ma' args).
Hypothesis Hev : forall e, approx (ev e) (ev' e).
Hypothesis Hloop : forall elems cur, approx (loop elems cur) (loop' elems cur).
#[local] Hint Resolve Hma Hev Hloop : approx.

Lemma exprToStaticData_body_approx e :
  approx (Open.exprToStaticData ev loop e) (Open.exprToStaticData ev' loop' e).
Proof. unfold Open.exprToStaticData. approx_tac. Qed.
#[local] Hint Resolve exprToStaticData_body_approx : approx.

Lemma exprToStaticDataLoop_body_approx elems cur :
  approx (Open.exprToStaticDataLoop ma ev loop elems cur)
         (Open.exprToStaticDataLoop ma' ev' loop' elems cur).
Proof.
  unfold Open.exprToStaticDataLoop, Open.makeCar, Open.makeCdr. approx_tac.
Qed.
End StaticMono.

Lemma exprToStaticDataLoop_mono_S fuel elems cur :
  approx (exprToStaticDataLoop fuel elems cur) (exprToStaticDataLoop (S fuel) elems cur).
Proof.
  revert elems cur. induction fuel as [| n IH]; intros elems cur.
  - apply approx_timeout.
  - apply exprToStaticDataLoop_body_approx;
      [apply makeApply_mono_S | apply evaluate_mono_S | apply IH].
Qed.

Lemma exprToStaticData_monotone e : monotone (fun fuel => exprToStaticData fuel e).
Proof.
  intros fuel. apply exprToStaticData_body_approx;
    [apply evaluate_mono_S | apply exprToStaticDataLoop_mono_S].
Qed.

Lemma exprToStaticDataLoop_S fuel elems cur :
  exprToStaticDataLoop (S fuel) elems cur =
  Open.exprToStaticDataLoop (makeApply fuel) (evaluate fuel) (exprToStaticDataLoop fuel)
    elems cur.
Proof. reflexivity. Qed.

(** One iteration of the loop, by the tag of [cur]. *)
Lemma exprToStaticDataLoop_number fuel elems n s :
  exprToStaticDataLoop (S (S fuel)) elems (NumberValue n) s =
  Ret (fold_right ConsData (NumberData n) elems) s.
Proof.
  rewrite exprToStaticDataLoop_S.
  unfold Open.exprToStaticDataLoop, Open.exprToStaticData, bind. simpl.
  unfold Open.finishCons. now rewrite reduceRight_snoc.
Qed.

Lemma exprToStaticDataLoop_nil fuel elems s :
  exprToStaticDataLoop (S (S fuel)) elems NilValue s = Ret (ListData elems) s.
Proof. reflexivity. Qed.

Lemma exprToStaticDataLoop_cons fuel elems car cdr s :
  exprToStaticDataLoop (S (S (S fuel))) elems (ConsValue car cdr) s =
  (let* d := exprToStaticData (S (S fuel)) car in
   let* next := evaluate (S (S fuel)) cdr in
   exprToStaticDataLoop (S (S fuel)) (elems ++ [d]) next) s.
Proof. reflexivity. Qed.

(** The walk of [exprToStaticData] over tagged data: alone, and continuing a
    spine with the elements [elems] already walked. *)
Lemma exprToStaticData_forcesTo s e t s' :
  forcesTo s e t s' ->
  exists fuel0, forall fuel, fuel0 <= fuel ->
    exprToStaticData fuel e s = Ret (canon t) s' /\
    forall elems,
      (let* cur := evaluate fuel e in exprToStaticDataLoop fuel elems cur) s =
      Ret (onto elems (canon t)) s'.
Proof.
  induction 1 as [s e n s' He | s e s' He
                 | s e car cdr s1 tcar s2 tcdr s3 He _ IHcar _ IHcdr].
  - destruct (finishes_from _ _ _ (evaluate_monotone e) He) as [n1 Hn1].
    exists (2 + n1). intros fuel Hle.
    destruct fuel as [| [| k]]; [lia | lia |].
    unfold exprToStaticData, Open.exprToStaticData, bind.
    rewrite Hn1 by lia. split; [reflexivity |].
    intros elems. apply (exprToStaticDataLoop_number k).
  - destruct (finishes_from _ _ _ (evaluate_monotone e) He) as [n1 Hn1].
    exists (2 + n1). intros fuel Hle.
    destruct fuel as [| [| k]]; [lia | lia |].
    unfold exprToStaticData, Open.exprToStaticData, bind.
    rewrite Hn1 by lia. split; [reflexivity |].
    intros elems. rewrite (exprToStaticDataLoop_nil k). simpl.
    now rewrite app_nil_r.
  - destruct (finishes_from _ _ _ (evaluate_monotone e) He) as [n1 Hn1].
    destruct IHcar as [na Hna]. destruct IHcdr as [nb Hnb].
    exists (4 + n1 + na + nb). intros fuel Hle.
    assert (Hloop : forall elems,
      (let* cur := evaluate fuel e in exprToStaticDataLoop fuel elems cur) s =
      Ret (onto elems (canon (TCons tcar tcdr))) s3).
    { intros elems. unfold bind at 1. rewrite Hn1 by lia.
      destruct fuel as [| [| [| k]]]; [lia | lia | lia |].
      rewrite (exprToStaticDataLoop_cons k). unfold bind at 1.
      destruct (Hna (S (S k))) as [-> _]; [lia |].
      destruct (Hnb (S (S k))) as [_ ->]; [lia |].
      simpl canon. now rewrite onto_prepend. }
    split; [| exact Hloop].
    specialize (Hloop []). rewrite onto_nil in Hloop.
    unfold exprToStaticData, Open.exprToStaticData, bind.
    unfold bind in Hloop. rewrite Hn1 in * by lia. exact Hloop.
Qed.

Lemma evaluate_value v s : finishes (fun fuel => evaluate fuel (Val v)) s (Ret v s).
Proof. apply (finishes_at _ _ _ 1); [reflexivity | discriminate]. Qed.

(** A chain of pairs of numbers is tagged data, and walking it forces
    nothing. *)
Lemma chain_forcesTo zs last tlast s :
  forcesTo s last tlast s -> forcesTo s (chain zs last) (taggedChain zs tlast) s.
Proof.
  intros Hlast. induction zs as [| z zs IH]; simpl; [exact Hlast |].
  eapply forces_cons; [apply evaluate_value | | exact IH].
  apply forces_number, evaluate_value.
Qed.

Lemma embed_forcesTo t s : forcesTo s (embed t) t s.
Proof.
  induction t as [n | | car IHcar cdr IHcdr]; simpl.
  - apply forces_number, evaluate_value.
  - apply forces_nil, evaluate_value.
  - eapply forces_cons; [apply evaluate_value | exact IHcar | exact IHcdr].
Qed.

(** Memoization: the first force of a thunk stores its value, and from then
    on, whatever else runs, forcing it is reading that value. *)
Lemma evaluate_memoized l f s fuel v s1 :
  thunkAt s l = suspended f ->
  evaluate fuel (Thunk l) s = Ret v s1 ->
  (exists n s0,
     fuel = S n /\
     (let* _ := incrEvalCounter in runRecipe n f) s = Ret v s0 /\
     writeThunk l (forced v) s0 = Ret tt s1) /\
  thunkAt s1 l = forced v /\
  evalCounter s < evalCounter s1 /\
  forall s2, rtc step s1 s2 ->
    thunkAt s2 l = forced v /\
    forall fuel', evaluate (S fuel') (Thunk l) s2 = Ret v s2.
Proof.
  intros Hcell Hrun.
  destruct (evaluate_miss _ _ _ _ _ _ Hcell Hrun) as (n & s0 & -> & Hr & Hw & Hl & Hc).
  split; [now exists n, s0 |].
  split; [now apply thunkAt_lookup |].
  split; [exact Hc |].
  intros s2 Hsteps. apply steps_evolves in Hsteps. destruct Hsteps as (_ & _ & Hfrozen).
  assert (Hl2 : thunks s2 !! l = Some (forced v)).
  { apply Hfrozen; [exact Hl | now exists v]. }
  split; [now apply thunkAt_lookup |].
  intros fuel'. now apply (evaluate_hit fuel' l s2 (forced v)).
Qed.

(** Sharing: a pair whose two fields are the same unforced thunk of [inc 1]
    is canonicalized; the recipe runs once, for the car, and the cdr reads
    the cache. *)
Example shared_thunk_forced_once :
  exprToStaticData 5 (Val (ConsValue (Thunk 0) (Thunk 0)))
    (oneThunk (RInc (Val (NumberValue 1)))) =
  Ret (ConsData (NumberData 2) (NumberData 2))
      {| thunks := [forced (NumberValue 2)]; maps := []; evalCounter := 1 |}.
Proof. reflexivity. Qed.

Lemma exprToStaticData_tagged s e t s' :
  forcesTo s e t s' ->
  finishes (fun fuel => exprToStaticData fuel e) s (Ret (canon t) s').
Proof.
  intros H. destruct (exprToStaticData_forcesTo _ _ _ _ H) as [n Hn].
  apply (finishes_at _ _ _ n); [apply Hn; lia | discriminate].
Qed.

End FnProps.

(** ** The object-oriented variant *)
Module OOProps.
Import OO.

(** *** More fuel never changes a result *)

Section BuildMono.
Variables ap ap' : Expr -> Expr -> M Expr.
Hypothesis Hap : forall e arg, approx (ap e arg) (ap' e arg).
#[local] Hint Resolve Hap : approx.

Lemma callFunc_approx_oo f a : approx (Open.callFunc ap f a) (Open.callFunc ap' f a).
Proof.
  destruct f as [[]|g|[] x|g|g x|[] x y];
    cbv [Open.callFunc Open.call1 Open.call2 Open.call3 Open.builtinC Open.builtinB];
    approx_tac.
Qed.
#[local] Hint Resolve callFunc_approx_oo : approx.

Lemma valueApply_approx v arg : approx (Open.valueApply ap v arg) (Open.valueApply ap' v arg).
Proof. unfold Open.valueApply. approx_tac. Qed.
#[local] Hint Resolve valueApply_approx : approx.

Lemma applyBody_approx e arg : approx (Open.applyBody ap e arg) (Open.applyBody ap' e arg).
Proof. unfold Open.applyBody. approx_tac. Qed.
End BuildMono.
#[export] Hint Resolve callFunc_approx_oo valueApply_approx applyBody_approx : approx.

Lemma applyTo_mono_S fuel e arg : approx (applyTo fuel e arg) (applyTo (S fuel) e arg).
Proof.
  revert e arg. induction fuel as [| n IH]; intros e arg.
  - apply approx_timeout.
  - apply applyBody_approx, IH.
Qed.

Lemma applyTo_monotone e arg : monotone (fun fuel => applyTo fuel e arg).
Proof. intros fuel. apply applyTo_mono_S. Qed.

Section ForceMono.
Variables ap ap' : Expr -> Expr -> M Expr.
Variables fv fv' : Expr -> M Value.
Hypothesis Hap : forall e arg, approx (ap e arg) (ap' e arg).
Hypothesis Hfv : forall e, approx (fv e) (fv' e).
#[local] Hint Resolve Hap Hfv : approx.

Lemma runRecipe_approx_oo f : approx (Open.runRecipe ap fv f) (Open.runRecipe ap' fv' f).
Proof. destruct f; unfold Open.runRecipe; approx_tac. Qed.
#[local] Hint Resolve runRecipe_approx_oo : approx.

Lemma forceValueBody_approx e :
  approx (Open.forceValueBody ap fv e) (Open.forceValueBody ap' fv' e).
Proof. unfold Open.forceValueBody. approx_tac. Qed.
End ForceMono.

Lemma forceValue_mono_S fuel e : approx (forceValue fuel e) (forceValue (S fuel) e).
Proof.
  revert e. induction fuel as [| n IH]; intros e.
  - apply approx_timeout.
  - apply forceValueBody_approx; [intros; apply applyTo_mono_S | apply IH].
Qed.

Lemma forceValue_monotone e : monotone (fun fuel => forceValue fuel e).
Proof. intros fuel. apply forceValue_mono_S. Qed.

Section StaticMono.
Variables fv fv' : Expr -> M Value.
Variables loop loop' : list Modulatable -> Value -> M Modulatable.
Hypothesis Hfv : forall e, approx (fv e) (fv' e).
Hypothesis Hloop : forall elems cur, approx (loop elems cur) (loop' elems cur).
#[local] Hint Resolve Hfv Hloop : approx.

Lemma forceModulatable_body_approx e :
  approx (Open.forceModulatable fv loop e) (Open.forceModulatable fv' loop' e).
Proof. unfold Open.forceModulatable. approx_tac. Qed.
#[local] Hint Resolve forceModulatable_body_approx : approx.

Lemma forceModulatableLoop_body_approx elems cur :
  approx (Open.forceModulatableLoop fv loop elems cur)
         (Open.forceModulatableLoop fv' loop' elems cur).
Proof. unfold Open.forceModulatableLoop. approx_tac. Qed.
End StaticMono.

Lemma forceModulatableLoop_mono_S fuel elems cur :
  approx (forceModulatableLoop fuel elems cur) (forceModulatableLoop (S fuel) elems cur).
Proof.
  revert elems cur. induction fuel as [| n IH]; intros elems cur.
  - apply approx_timeout.
  - apply forceModulatableLoop_body_approx; [apply forceValue_mono_S | apply IH].
Qed.

Lemma forceModulatable_monotone e : monotone (fun fuel => forceModulatable fuel e).
Proof.
  intros fuel. apply forceModulatable_body_approx;
    [apply forceValue_mono_S | apply forceModulatableLoop_mono_S].
Qed.

(** *** Forced thunks are never touched again *)

Lemma evolves_refl_oo s : evolves s s.
Proof. repeat split; [lia | lia | intros l c H _; exact H]. Qed.

Lemma evolves_trans_oo s1 s2 s3 : evolves s1 s2 -> evolves s2 s3 -> evolves s1 s3.
Proof.
  intros (L12 & C12 & F12) (L23 & C23 & F23). repeat split; [lia | lia |].
  intros l c H Hc. apply F23; [apply F12 |]; assumption.
Qed.

Lemma newThunk_evolves f : preserves evolves (newThunk f).
Proof.
  intros s s' [= <-]. repeat split; simpl.
  - rewrite length_app. lia.
  - lia.
  - intros l c H _. simpl. rewrite lookup_app_l; [exact H |].
    eapply lookup_lt_Some, H.
Qed.

Lemma readThunk_evolves_oo l : preserves evolves (readThunk l).
Proof. intros s s' [= <-]. apply evolves_refl_oo. Qed.

Lemma envLookup_evolves_oo env name : preserves evolves (envLookup env name).
Proof. intros s s' [= <-]. apply evolves_refl_oo. Qed.

Lemma incrCounter_evolves : preserves evolves incrCounter.
Proof.
  intros s s' [= <-]. repeat split; simpl; [lia | lia | intros l c H _; exact H].
Qed.

Lemma arith1_evolves_oo op f x : preserves evolves (Open.arith1 op f x).
Proof.
  destruct x; first [apply preserves_ret | apply preserves_throw]; apply evolves_refl_oo.
Qed.

Lemma arith2_evolves_oo op f x y :
  (forall n m, preserves evolves (f n m)) -> preserves evolves (Open.arith2 op f x y).
Proof.
  intros Hf. destruct x, y; simpl;
    first [apply Hf | apply preserves_throw; apply evolves_refl_oo].
Qed.

Lemma bigintDiv_evolves_oo x y : preserves evolves (Open.bigintDiv x y).
Proof.
  unfold Open.bigintDiv. destruct (Z.eqb y 0);
    first [apply preserves_ret | apply preserves_throw]; apply evolves_refl_oo.
Qed.

Lemma valueUncons_evolves v : preserves evolves (Open.valueUncons v).
Proof.
  destruct v; first [apply preserves_ret | apply preserves_throw]; apply evolves_refl_oo.
Qed.

Lemma valueIsNil_evolves v : preserves evolves (Open.valueIsNil v).
Proof.
  destruct v; first [apply preserves_ret | apply preserves_throw]; apply evolves_refl_oo.
Qed.

Lemma finishCons_evolves_oo elems : preserves evolves (finishCons elems).
Proof.
  unfold finishCons. destruct (reduceRight ConsModulatable elems);
    first [apply preserves_ret | apply preserves_throw]; apply evolves_refl_oo.
Qed.

Create HintDb oo_evolves.
#[export] Hint Resolve newThunk_evolves readThunk_evolves_oo envLookup_evolves_oo
  incrCounter_evolves arith1_evolves_oo bigintDiv_evolves_oo valueUncons_evolves
  valueIsNil_evolves finishCons_evolves_oo : oo_evolves.

(** Splits a goal [preserves evolves m] along the structure of [m]. *)
Ltac evolves_tac :=
  repeat first
    [ solve [auto with oo_evolves]
    | apply preserves_ret; apply evolves_refl_oo
    | apply preserves_throw; apply evolves_refl_oo
    | apply (preserves_bind evolves evolves_trans_oo); [| intros ?]
    | apply arith2_evolves_oo; intros ? ?
    | match goal with
      | |- preserves _ (match ?x with _ => _ end) => destruct x
      | |- preserves _ (if ?x then _ else _) => destruct x
      end ].

Lemma uncons_evolves e : preserves evolves (Open.uncons e).
Proof. unfold Open.uncons. evolves_tac. Qed.
#[export] Hint Resolve uncons_evolves : oo_evolves.

Section BuildEvolves.
Variable ap : Expr -> Expr -> M Expr.
Hypothesis Hap : forall e arg, preserves evolves (ap e arg).
#[local] Hint Resolve Hap : oo_evolves.

Lemma callFunc_evolves_oo f a : preserves evolves (Open.callFunc ap f a).
Proof.
  destruct f as [[]|g|[] x|g|g x|[] x y];
    cbv [Open.callFunc Open.call1 Open.call2 Open.call3 Open.builtinC Open.builtinB
         Open.builtinInc Open.builtinDec Open.builtinNeg Open.builtinI Open.builtinIsNil
         Open.builtinAdd Open.builtinMul Open.builtinDiv Open.builtinEq Open.builtinLt
         Open.builtinS Open.builtinCons Open.builtinCar Open.builtinCdr];
    evolves_tac.
Qed.
#[local] Hint Resolve callFunc_evolves_oo : oo_evolves.

Lemma valueApply_evolves v arg : preserves evolves (Open.valueApply ap v arg).
Proof. unfold Open.valueApply. evolves_tac. Qed.
#[local] Hint Resolve valueApply_evolves : oo_evolves.

Lemma applyBody_evolves e arg : preserves evolves (Open.applyBody ap e arg).
Proof. unfold Open.applyBody. evolves_tac. Qed.
End BuildEvolves.
#[export] Hint Resolve callFunc_evolves_oo valueApply_evolves applyBody_evolves : oo_evolves.

Lemma applyTo_evolves fuel e arg : preserves evolves (applyTo fuel e arg).
Proof.
  revert e arg. induction fuel as [| n IH]; intros e arg.
  - apply preserves_timeout.
  - apply applyBody_evolves, IH.
Qed.
#[export] Hint Resolve applyTo_evolves : oo_evolves.

Lemma thunkAt_func_oo s l f : func (thunkAt s l) = Some f -> l < length (thunks s).
Proof.
  unfold thunkAt. destruct (thunks s !! l) eqn:E; simpl; [| discriminate].
  intros _. eapply lookup_lt_Some, E.
Qed.

Lemma thunkAt_lookup_oo s l c : thunks s !! l = Some c -> thunkAt s l = c.
Proof. unfold thunkAt. now intros ->. Qed.

Lemma writeThunk_evolves_oo s0 s l c :
  evolves s0 s -> cache (thunkAt s0 l) = None ->
  forall s', finalStore (writeThunk l c s) = Some s' -> evolves s0 s'.
Proof.
  intros (L & C & F) Hnone s' [= <-]. repeat split; simpl.
  - rewrite length_insert. exact L.
  - exact C.
  - intros l' c' H Hc'. simpl. destruct (decide (l = l')) as [<- | Hne].
    + rewrite (thunkAt_lookup_oo _ _ _ H) in Hnone. rewrite Hnone in Hc'.
      now destruct Hc'.
    + rewrite list_lookup_insert_ne; [apply F |]; assumption.
Qed.

Section ForceEvolves.
Variable ap : Expr -> Expr -> M Expr.
Variable fv : Expr -> M Value.
Hypothesis Hap : forall e arg, preserves evolves (ap e arg).
Hypothesis Hfv : forall e, preserves evolves (fv e).
#[local] Hint Resolve Hap Hfv : oo_evolves.

Lemma runRecipe_evolves_oo f : preserves evolves (Open.runRecipe ap fv f).
Proof. destruct f; unfold Open.runRecipe; evolves_tac. Qed.

Lemma forceValueBody_evolves e : preserves evolves (Open.forceValueBody ap fv e).
Proof.
  destruct e as [v | l]; [apply preserves_ret, evolves_refl_oo |].
  intros s s'. unfold Open.forceValueBody, bind, readThunk.
  destruct (cache (thunkAt s l)) as [v |] eqn:Hc.
  { intros [= <-]. apply evolves_refl_oo. }
  destruct (func (thunkAt s l)) as [f |].
  2: { intros [= <-]. apply evolves_refl_oo. }
  simpl.
  pose proof (runRecipe_evolves_oo f) as Hrun.
  match goal with |- context [Open.runRecipe ap fv f ?s1] => set (si := s1) end.
  assert (Hi : evolves s si).
  { apply incrCounter_evolves. reflexivity. }
  specialize (Hrun si).
  destruct (Open.runRecipe ap fv f si) as [value s2 | e s2 |]; simpl.
  - intros H. eapply writeThunk_evolves_oo; [| exact Hc | exact H].
    eapply evolves_trans_oo; [exact Hi | now apply Hrun].
  - intros [= <-]. eapply evolves_trans_oo; [exact Hi | now apply Hrun].
  - discriminate.
Qed.
End ForceEvolves.

Lemma forceValue_evolves fuel e : preserves evolves (forceValue fuel e).
Proof.
  revert e. induction fuel as [| n IH]; intros e.
  - apply preserves_timeout.
  - apply forceValueBody_evolves; [intros; apply applyTo_evolves | apply IH].
Qed.
#[export] Hint Resolve forceValue_evolves : oo_evolves.

Section StaticEvolves.
Variable fv : Expr -> M Value.
Variable loop : list Modulatable -> Value -> M Modulatable.
Hypothesis Hfv : forall e, preserves evolves (fv e).
Hypothesis Hloop : forall elems cur, preserves evolves (loop elems cur).
#[local] Hint Resolve Hfv Hloop : oo_evolves.

Lemma forceModulatable_body_evolves e :
  preserves evolves (Open.forceModulatable fv loop e).
Proof. unfold Open.forceModulatable. evolves_tac. Qed.
#[local] Hint Resolve forceModulatable_body_evolves : oo_evolves.

Lemma forceModulatableLoop_body_evolves elems cur :
  preserves evolves (Open.forceModulatableLoop fv loop elems cur).
Proof. unfold Open.forceModulatableLoop. evolves_tac. Qed.
End StaticEvolves.

Lemma forceModulatableLoop_evolves fuel elems cur :
  preserves evolves (forceModulatableLoop fuel elems cur).
Proof.
  revert elems cur. induction fuel as [| n IH]; intros elems cur.
  - apply preserves_timeout.
  - apply forceModulatableLoop_body_evolves; auto with oo_evolves.
Qed.

Lemma forceModulatable_evolves fuel e : preserves evolves (forceModulatable fuel e).
Proof.
  apply forceModulatable_body_evolves;
    [apply forceValue_evolves | apply forceModulatableLoop_evolves].
Qed.

Lemma makeReference_evolves_oo env name : preserves evolves (makeReference env name).
Proof. unfold makeReference. evolves_tac. Qed.

Lemma newEnvironment_evolves_oo parent : preserves evolves (newEnvironment parent).
Proof.
  intros s s' [= <-]. repeat split; simpl; [lia | lia | intros l c H _; exact H].
Qed.

Lemma define_evolves_oo env name e : preserves evolves (define env name e).
Proof.
  intros s s'. unfold define. destruct env as [defs_ parent_].
  destruct (mapAt s defs_ !! name); intros [= <-]; [apply evolves_refl_oo |].
  repeat split; simpl; [lia | lia | intros l c H _; exact H].
Qed.

Lemma step_evolves_oo s s' : step s s' -> evolves s s'.
Proof.
  intros [fuel e s0 s1 H | fuel e arg s0 s1 H | e s0 s1 H | fuel e s0 s1 H
         | env name s0 s1 H | parent s0 s1 H | env name e s0 s1 H].
  - eapply forceValue_evolves, H.
  - eapply applyTo_evolves, H.
  - eapply uncons_evolves, H.
  - eapply forceModulatable_evolves, H.
  - eapply makeReference_evolves_oo, H.
  - eapply newEnvironment_evolves_oo, H.
  - eapply define_evolves_oo, H.
Qed.

Lemma steps_evolves_oo s s' : rtc step s s' -> evolves s s'.
Proof.
  induction 1 as [| s1 s2 s3 H12 _ IH]; [apply evolves_refl_oo |].
  eapply evolves_trans_oo; [apply step_evolves_oo, H12 | exact IH].
Qed.

Lemma forceValue_hit fuel l s c v :
  thunks s !! l = Some c -> cache c = Some v ->
  forceValue (S fuel) (Thunk l) s = Ret v s.
Proof.
  intros Hl Hc. simpl. unfold Open.forceValueBody, bind, readThunk.
  now rewrite (thunkAt_lookup_oo _ _ _ Hl), Hc.
Qed.

Lemma forceValue_miss fuel l s f v s1 :
  thunkAt s l = suspended f ->
  forceValue fuel (Thunk l) s = Ret v s1 ->
  exists n s0,
    fuel = S n /\
    (let* _ := incrCounter in runRecipe n f) s = Ret v s0 /\
    writeThunk l (forced v) s0 = Ret tt s1 /\
    thunks s1 !! l = Some (forced v) /\
    counter s < counter s1.
Proof.
  intros Hcell Hrun. destruct fuel as [| n]; [discriminate |].
  assert (Hlen : l < length (thunks s)).
  { apply (thunkAt_func_oo s l f). now rewrite Hcell. }
  change (Open.forceValueBody (applyTo n) (forceValue n) (Thunk l) s = Ret v s1) in Hrun.
  unfold Open.forceValueBody, bind, readThunk in Hrun.
  rewrite Hcell in Hrun. simpl in Hrun.
  pose proof (runRecipe_evolves_oo _ _ (applyTo_evolves n) (forceValue_evolves n) f) as Hr.
  match type of Hrun with
  | context [Open.runRecipe ?a ?b f ?si] =>
      specialize (Hr si);
      destruct (Open.runRecipe a b f si) as [value s0 | e s0 |] eqn:Er
  end; try discriminate.
  injection Hrun as <- <-. destruct (Hr s0 eq_refl) as (L & C & _).
  simpl in L, C.
  exists n, s0. split; [reflexivity |]. split; [exact Er |].
  split; [reflexivity |]. split; simpl.
  - apply list_lookup_insert_eq. lia.
  - lia.
Qed.

(** *** Application *)

Lemma applyTo_nil fuel f s :
  applyTo (S fuel) (Val NilValue) f s = Ret (Val (makeBoolean true)) s.
Proof. reflexivity. Qed.

Lemma applyTo_true fuel x y s :
  (let* tx := applyTo (S fuel) (Val (makeBoolean true)) x in applyTo (S fuel) tx y) s =
  Ret x s.
Proof. reflexivity. Qed.

Lemma applyTo_number fuel k arg s :
  applyTo (S fuel) (Val (NumberValue k)) arg s = Throw NotAFunc s.
Proof. reflexivity. Qed.

Lemma applyTo_cons fuel a b f s :
  applyTo (S fuel) (Val (ConsValue a b)) f s =
  (let* x := applyTo fuel f a in applyTo fuel x b) s.
Proof. reflexivity. Qed.

Lemma pair_destructuring_oo a b f s r :
  finishes (fun fuel => let* e := applyTo fuel (Val (ConsValue a b)) f in
                        forceValue fuel e) s r <->
  finishes (fun fuel => let* fa := applyTo fuel f a in
                        let* e := applyTo fuel fa b in
                        forceValue fuel e) s r.
Proof.
  assert (Hl : forall k, (let* e := applyTo (S k) (Val (ConsValue a b)) f in
                          forceValue (S k) e) s =
                         (let* fa := applyTo k f a in
                          let* e := applyTo k fa b in
                          forceValue (S k) e) s).
  { intros k. rewrite <- bind_assoc. apply bind_cong_l, applyTo_cons. }
  split; intros [Hne [n Hn]]; (split; [exact Hne |]).
  - destruct n as [| k]; [cbv in Hn; congruence |].
    exists (S k). rewrite Hl in Hn.
    eapply approx_run; [| exact Hn | exact Hne].
    apply approx_bind; [apply applyTo_mono_S | intros fa].
    apply approx_bind; [apply applyTo_mono_S | intros; apply approx_refl].
  - exists (S n). rewrite Hl.
    eapply approx_run; [| exact Hn | exact Hne].
    apply approx_bind; [apply approx_refl | intros fa].
    apply approx_bind; [apply approx_refl | intros; apply forceValue_mono_S].
Qed.

(** Where a throw of [e.apply(arg)] comes from, by the shape of [e]. *)
Lemma valueApply_throw fuel v arg s err s' :
  valueApply fuel v arg s = Throw err s' ->
  match v with
  | NumberValue _ => err = NotAFunc /\ s' = s
  | NilValue => False
  | ConsValue car cdr =>
      (let* x := applyTo fuel arg car in applyTo fuel x cdr) s = Throw err s'
  | FuncValue f => callFunc fuel f arg s = Throw err s'
  end.
Proof.
  destruct v as [k | f | | car cdr]; cbv [valueApply Open.valueApply].
  - now intros [= <- <-].
  - trivial.
  - discriminate.
  - trivial.
Qed.

Lemma applyTo_thunk_throw fuel l arg s err s' :
  applyTo (S fuel) (Thunk l) arg s = Throw err s' ->
  exists v, cache (thunkAt s l) = Some v /\ valueApply fuel v arg s = Throw err s'.
Proof.
  simpl. unfold Open.applyBody, bind, readThunk.
  destruct (cache (thunkAt s l)) as [v |]; [| discriminate].
  intros H. now exists v.
Qed.

(** *** References *)

Lemma lookup_maps_oo env name s s' : maps s = maps s' -> lookup env name s = lookup env name s'.
Proof.
  intros H. revert env. fix IH 1. intros [d parent]. simpl. unfold mapAt. rewrite H.
  destruct (default ∅ (maps s' !! d) !! name); [reflexivity |].
  destruct parent as [parent |]; [apply IH | reflexivity].
Qed.

Lemma makeReference_bound_oo env name s resolved :
  lookup env name s = Some resolved -> makeReference env name s = Ret resolved s.
Proof. intros H. unfold makeReference, bind, envLookup. now rewrite H. Qed.

Lemma makeReference_unbound_oo env name s :
  lookup env name s = None ->
  makeReference env name s =
  Ret (Thunk (length (thunks s)))
      {| thunks := thunks s ++ [suspended (RReference env name)];
         maps := maps s; counter := counter s |}.
Proof. intros H. unfold makeReference, bind, envLookup. now rewrite H. Qed.

Lemma forceValue_reference_unbound fuel l env name s :
  thunkAt s l = suspended (RReference env name) ->
  lookup env name s = None ->
  forceValue (S fuel) (Thunk l) s =
  Throw (UndefinedReference name)
        {| thunks := thunks s; maps := maps s; counter := S (counter s) |}.
Proof.
  intros Hcell Hnone. simpl. unfold Open.forceValueBody, bind, readThunk.
  rewrite Hcell. simpl. unfold envLookup, bind.
  rewrite <- (lookup_maps_oo env name s) by reflexivity. now rewrite Hnone.
Qed.

Lemma forceValue_reference_bound fuel l env name s resolved :
  thunkAt s l = suspended (RReference env name) ->
  lookup env name s = Some resolved ->
  forceValue (S fuel) (Thunk l) s =
  (let* _ := incrCounter in
   let* value := forceValue fuel resolved in
   let* _ := writeThunk l (forced value) in
   ret value) s.
Proof.
  intros Hcell Hsome. simpl. unfold Open.forceValueBody, bind, readThunk.
  rewrite Hcell. simpl. unfold envLookup, bind.
  rewrite <- (lookup_maps_oo env name s) by reflexivity. now rewrite Hsome.
Qed.

Lemma define_lookup_oo env name e s s' :
  envAllocated s env -> define env name e s = Ret tt s' -> lookup env name s' = Some e.
Proof.
  destruct env as [d parent]. simpl. intros Hd. unfold define.
  destruct (mapAt s d !! name); [discriminate |]. intros [= <-].
  unfold mapAt at 1. simpl. rewrite list_lookup_insert_eq by exact Hd. simpl.
  now rewrite lookup_insert_eq.
Qed.

Lemma define_thunks_oo env name e s s' :
  define env name e s = Ret tt s' -> thunks s' = thunks s.
Proof.
  destruct env as [d parent]. unfold define.
  destruct (mapAt s d !! name); [discriminate |]. now intros [= <-].
Qed.

Lemma forward_reference_oo fuel env name e s l s1 s2 :
  lookup env name s = None ->
  makeReference env name s = Ret (Thunk l) s1 ->
  envAllocated s1 env ->
  define env name e s1 = Ret tt s2 ->
  forceValue (S fuel) (Thunk l) s2 =
  (let* _ := incrCounter in
   let* value := forceValue fuel e in
   let* _ := writeThunk l (forced value) in
   ret value) s2.
Proof.
  intros Hnone Href Halloc Hdef.
  rewrite (makeReference_unbound_oo _ _ _ Hnone) in Href. injection Href as <- <-.
  apply (forceValue_reference_bound fuel _ env name).
  - unfold thunkAt. rewrite (define_thunks_oo _ _ _ _ _ Hdef). simpl.
    now rewrite lookup_snoc.
  - eapply define_lookup_oo; eassumption.
Qed.

(** *** Arithmetic *)

Lemma stdEnv_add_oo : lookup stdEnv "add" stdState = Some (Val (FuncValue (Lam2 FAdd))).
Proof. vm_compute. reflexivity. Qed.

Lemma stdEnv_div_oo : lookup stdEnv "div" stdState = Some (Val (FuncValue (Lam2 FDiv))).
Proof. vm_compute. reflexivity. Qed.

Lemma forceValue_fresh fuel f s :
  (let* e := newThunk f in forceValue (S fuel) e) s =
  match runRecipe fuel f {| thunks := thunks s ++ [suspended f]; maps := maps s;
                            counter := S (counter s) |} with
  | Ret v s' =>
      Ret v {| thunks := <[length (thunks s) := forced v]> (thunks s');
               maps := maps s'; counter := counter s' |}
  | Throw e s' => Throw e s'
  | Timeout => Timeout
  end.
Proof.
  unfold bind at 1, newThunk. simpl. unfold Open.forceValueBody, bind at 1, readThunk.
  unfold thunkAt. simpl. rewrite lookup_snoc. simpl. reflexivity.
Qed.

Lemma add_numbers_oo fuel x y s :
  (let* ax := applyTo (S fuel) (Val (FuncValue (Lam2 FAdd))) (Val (NumberValue x)) in
   let* e := applyTo (S fuel) ax (Val (NumberValue y)) in
   forceValue (S (S fuel)) e) s =
  Ret (NumberValue (x + y))
      {| thunks := thunks s ++ [forced (NumberValue (x + y))];
         maps := maps s; counter := S (counter s) |}.
Proof.
  change ((let* e := newThunk (RAdd (Val (NumberValue x)) (Val (NumberValue y))) in
           forceValue (S (S fuel)) e) s = Ret (NumberValue (x + y))
      {| thunks := thunks s ++ [forced (NumberValue (x + y))];
         maps := maps s; counter := S (counter s) |}).
  rewrite forceValue_fresh. simpl. now rewrite insert_snoc.
Qed.

Lemma div_numbers_oo fuel x y s :
  y <> 0%Z ->
  (let* dx := applyTo (S fuel) (Val (FuncValue (Lam2 FDiv))) (Val (NumberValue x)) in
   let* e := applyTo (S fuel) dx (Val (NumberValue y)) in
   forceValue (S (S fuel)) e) s =
  Ret (NumberValue (Z.quot x y))
      {| thunks := thunks s ++ [forced (NumberValue (Z.quot x y))];
         maps := maps s; counter := S (counter s) |}.
Proof.
  intros Hy.
  change ((let* e := newThunk (RDiv (Val (NumberValue x)) (Val (NumberValue y))) in
           forceValue (S (S fuel)) e) s = Ret (NumberValue (Z.quot x y))
      {| thunks := thunks s ++ [forced (NumberValue (Z.quot x y))];
         maps := maps s; counter := S (counter s) |}).
  rewrite forceValue_fresh. simpl. unfold Open.bigintDiv, bind, ret. simpl.
  destruct (Z.eqb_spec y 0) as [-> | _]; [congruence |]. simpl. now rewrite insert_snoc.
Qed.

(** *** Canonicalization *)

Lemma asStaticData_prepend x d :
  asStaticData (prependModulatable x d) = prepend (asStaticData x) (asStaticData d).
Proof. now destruct d. Qed.

Lemma asStaticData_canon t : asStaticData (canonModulatable t) = canon t.
Proof.
  induction t as [n | | car IHcar cdr IHcdr]; simpl; [reflexivity | reflexivity |].
  now rewrite asStaticData_prepend, IHcar, IHcdr.
Qed.

Lemma canonModulatable_spine_nil ts :
  canonModulatable (fold_right TCons TNil ts) = ListModulatable (map canonModulatable ts).
Proof.
  induction ts as [| t ts IH]; simpl; [reflexivity |]. now rewrite IH.
Qed.

Lemma canonModulatable_spine_number ts n :
  canonModulatable (fold_right TCons (TNumber n) ts) =
  fold_right ConsModulatable (NumberModulatable n) (map canonModulatable ts).
Proof.
  induction ts as [| t ts IH]; simpl; [reflexivity |]. rewrite IH.
  now destruct ts.
Qed.

Lemma canonModulatable_taggedChain_nil zs :
  canonModulatable (taggedChain zs TNil) = ListModulatable (map NumberModulatable zs).
Proof.
  rewrite taggedChain_spine, canonModulatable_spine_nil, map_map. reflexivity.
Qed.

Lemma canonModulatable_taggedChain_number zs n :
  canonModulatable (taggedChain zs (TNumber n)) =
  fold_right ConsModulatable (NumberModulatable n) (map NumberModulatable zs).
Proof.
  rewrite taggedChain_spine, canonModulatable_spine_number, map_map. reflexivity.
Qed.

Lemma ontoModulatable_nil d : ontoModulatable [] d = d.
Proof. now destruct d. Qed.

Lemma ontoModulatable_prepend elems x d : ontoModulatable (elems ++ [x]) d = ontoModulatable elems (prependModulatable x d).
Proof.
  destruct d as [n | rest | car cdr]; simpl.
  - now rewrite fold_right_app.
  - now rewrite <- app_assoc.
  - now rewrite fold_right_app.
Qed.

Lemma forceModulatableLoop_number fuel elems n s :
  forceModulatableLoop (S fuel) elems (NumberValue n) s =
  Ret (fold_right ConsModulatable (NumberModulatable n) elems) s.
Proof.
  simpl. unfold Open.forceModulatableLoop, finishCons. now rewrite reduceRight_snoc.
Qed.

Lemma forceModulatableLoop_nil fuel elems s :
  forceModulatableLoop (S fuel) elems NilValue s = Ret (ListModulatable elems) s.
Proof. reflexivity. Qed.

Lemma forceModulatableLoop_cons fuel elems car cdr s :
  forceModulatableLoop (S fuel) elems (ConsValue car cdr) s =
  (let* d := forceModulatable fuel car in
   let* next := forceValue fuel cdr in
   forceModulatableLoop fuel (elems ++ [d]) next) s.
Proof. reflexivity. Qed.

Lemma forceModulatable_forcesTo s e t s' :
  forcesTo s e t s' ->
  exists fuel0, forall fuel, fuel0 <= fuel ->
    forall elems,
      (let* cur := forceValue fuel e in forceModulatableLoop fuel elems cur) s =
      Ret (ontoModulatable elems (canonModulatable t)) s'.
Proof.
  induction 1 as [s e n s' He | s e s' He
                 | s e car cdr s1 tcar s2 tcdr s3 He _ IHcar _ IHcdr].
  - destruct (finishes_from _ _ _ (forceValue_monotone e) He) as [n1 Hn1].
    exists (1 + n1). intros fuel Hle elems.
    destruct fuel as [| k]; [lia |].
    unfold bind. rewrite Hn1 by lia. apply forceModulatableLoop_number.
  - destruct (finishes_from _ _ _ (forceValue_monotone e) He) as [n1 Hn1].
    exists (1 + n1). intros fuel Hle elems.
    destruct fuel as [| k]; [lia |].
    unfold bind. rewrite Hn1 by lia. rewrite forceModulatableLoop_nil. simpl.
    now rewrite app_nil_r.
  - destruct (finishes_from _ _ _ (forceValue_monotone e) He) as [n1 Hn1].
    destruct IHcar as [na Hna]. destruct IHcdr as [nb Hnb].
    exists (1 + n1 + na + nb). intros fuel Hle elems.
    unfold bind at 1. rewrite Hn1 by lia.
    destruct fuel as [| k]; [lia |].
    rewrite forceModulatableLoop_cons. unfold bind at 1.
    change (forceModulatable k car s1)
      with ((let* cur := forceValue k car in forceModulatableLoop k [] cur) s1).
    rewrite Hna by lia. rewrite ontoModulatable_nil.
    rewrite Hnb by lia. simpl canonModulatable. now rewrite ontoModulatable_prepend.
Qed.

Lemma forceValue_value v s : finishes (fun fuel => forceValue fuel (Val v)) s (Ret v s).
Proof. apply (finishes_at _ _ _ 1); [reflexivity | discriminate]. Qed.

Lemma chain_forcesTo_oo zs last tlast s :
  forcesTo s last tlast s -> forcesTo s (chain zs last) (taggedChain zs tlast) s.
Proof.
  intros Hlast. induction zs as [| z zs IH]; simpl; [exact Hlast |].
  eapply forces_cons; [apply forceValue_value | | exact IH].
  apply forces_number, forceValue_value.
Qed.

Lemma embed_forcesTo_oo t s : forcesTo s (embed t) t s.
Proof.
  induction t as [n | | car IHcar cdr IHcdr]; simpl.
  - apply forces_number, forceValue_value.
  - apply forces_nil, forceValue_value.
  - eapply forces_cons; [apply forceValue_value | exact IHcar | exact IHcdr].
Qed.

Lemma forceValue_memoized l f s fuel v s1 :
  thunkAt s l = suspended f ->
  forceValue fuel (Thunk l) s = Ret v s1 ->
  (exists n s0,
     fuel = S n /\
     (let* _ := incrCounter in runRecipe n f) s = Ret v s0 /\
     writeThunk l (forced v) s0 = Ret tt s1) /\
  thunkAt s1 l = forced v /\
  counter s < counter s1 /\
  forall s2, rtc step s1 s2 ->
    thunkAt s2 l = forced v /\
    forall fuel', forceValue (S fuel') (Thunk l) s2 = Ret v s2.
Proof.
  intros Hcell Hrun.
  destruct (forceValue_miss _ _ _ _ _ _ Hcell Hrun) as (n & s0 & -> & Hr & Hw & Hl & Hc).
  split; [now exists n, s0 |].
  split; [now apply thunkAt_lookup_oo |].
  split; [exact Hc |].
  intros s2 Hsteps. apply steps_evolves_oo in Hsteps. destruct Hsteps as (_ & _ & Hfrozen).
  assert (Hl2 : thunks s2 !! l = Some (forced v)).
  { apply Hfrozen; [exact Hl | now exists v]. }
  split; [now apply thunkAt_lookup_oo |].
  intros fuel'. now apply (forceValue_hit fuel' l s2 (forced v)).
Qed.

Lemma forceModulatable_tagged s e t s' :
  forcesTo s e t s' ->
  finishes (fun fuel => forceModulatable fuel e) s (Ret (canonModulatable t) s').
Proof.
  intros H. destruct (forceModulatable_forcesTo _ _ _ _ H) as [n Hn].
  apply (finishes_at _ _ _ n); [| discriminate].
  unfold forceModulatable, Open.forceModulatable.
  rewrite Hn by lia. now rewrite ontoModulatable_nil.
Qed.

End OOProps.

(** * The claims *)

(** C1. Forcing is memoized and idempotent.  Take a thunk node that holds a
    recipe and no cache, and a first force of it that returns [v]: the force
    stepped the evaluation counter once for the node, ran the recipe and
    stored [v]; the node then holds the cache [v] and no recipe.  Whatever
    runs afterwards ([rtc step]: any calls of the evaluator's functions,
    through any parents of the node), the node stays so, and forcing it again
    returns the same [v] and leaves the whole store as it is: no recipe runs
    and the counter is not stepped.  Both variants. *)
Theorem forcing_is_memoized :
  (forall l f s fuel v s1,
     Fn.thunkAt s l = Fn.suspended f ->
     Fn.evaluate fuel (Fn.Thunk l) s = Ret v s1 ->
     (exists n s0,
        fuel = S n /\
        (let* _ := Fn.incrEvalCounter in Fn.runRecipe n f) s = Ret v s0 /\
        Fn.writeThunk l (Fn.forced v) s0 = Ret tt s1) /\
     Fn.thunkAt s1 l = Fn.forced v /\
     Fn.evalCounter s < Fn.evalCounter s1 /\
     forall s2, rtc Fn.step s1 s2 ->
       Fn.thunkAt s2 l = Fn.forced v /\
       forall fuel', Fn.evaluate (S fuel') (Fn.Thunk l) s2 = Ret v s2) /\
  (forall l f s fuel v s1,
     OO.thunkAt s l = OO.suspended f ->
     OO.forceValue fuel (OO.Thunk l) s = Ret v s1 ->
     (exists n s0,
        fuel = S n /\
        (let* _ := OO.incrCounter in OO.runRecipe n f) s = Ret v s0 /\
        OO.writeThunk l (OO.forced v) s0 = Ret tt s1) /\
     OO.thunkAt s1 l = OO.forced v /\
     OO.counter s < OO.counter s1 /\
     forall s2, rtc OO.step s1 s2 ->
       OO.thunkAt s2 l = OO.forced v /\
       forall fuel', OO.forceValue (S fuel') (OO.Thunk l) s2 = Ret v s2).
Proof.
  split.
  - exact FnProps.evaluate_memoized.
  - exact OOProps.forceValue_memoized.
Qed.

(** The thunk of [inc 1], forced, then shared by the two fields of a pair that
    is canonicalized, then forced again: the value is 2 each time and the
    counter stays at 1. *)
Lemma forcing_is_memoized_witness :
  let s := Fn.oneThunk (Fn.RInc (Fn.Val (Fn.NumberValue 1))) in
  let s1 := {| Fn.thunks := [Fn.forced (Fn.NumberValue 2)]; Fn.maps := [];
               Fn.evalCounter := 1 |} in
  Fn.evaluate 2 (Fn.Thunk 0) s = Ret (Fn.NumberValue 2) s1 /\
  Fn.exprToStaticData 5 (Fn.Val (Fn.ConsValue (Fn.Thunk 0) (Fn.Thunk 0))) s1 =
    Ret (ConsData (NumberData 2) (NumberData 2)) s1 /\
  Fn.thunkAt s1 0 = Fn.forced (Fn.NumberValue 2) /\
  Fn.evaluate 1 (Fn.Thunk 0) s1 = Ret (Fn.NumberValue 2) s1.
Proof.
  intros s s1.
  assert (Hrun : Fn.evaluate 2 (Fn.Thunk 0) s = Ret (Fn.NumberValue 2) s1) by reflexivity.
  assert (Hwalk : Fn.exprToStaticData 5 (Fn.Val (Fn.ConsValue (Fn.Thunk 0) (Fn.Thunk 0))) s1 =
                  Ret (ConsData (NumberData 2) (NumberData 2)) s1) by reflexivity.
  destruct (proj1 forcing_is_memoized 0 _ s 2 _ s1 eq_refl Hrun) as (_ & _ & _ & Hlater).
  destruct (Hlater s1 (rtc_once _ _ (Fn.step_exprToStaticData 5 _ s1 s1
                         (f_equal finalStore Hwalk)))) as [Hcell Hagain].
  split; [exact Hrun |]. split; [exact Hwalk |].
  split; [exact Hcell | exact (Hagain 0)].
Defined.

(** C2. Pair destructuring.  For all expressions [a], [b], [f]: forcing the
    application of [f] to the Pair of [a] and [b] finishes exactly when
    forcing the application of [f] to [a] and then to [b] does, with the same
    result (the same value and store, or the same error).  Both variants. *)
Theorem pair_destructuring :
  (forall a b f s r,
     finishes (fun fuel => let* e := Fn.makeApply fuel [Fn.Val (Fn.makeCons a b); f] in
                           Fn.evaluate fuel e) s r <->
     finishes (fun fuel => let* fa := Fn.makeApply fuel [f; a] in
                           let* e := Fn.makeApply fuel [fa; b] in
                           Fn.evaluate fuel e) s r) /\
  (forall a b f s r,
     finishes (fun fuel => let* e := OO.applyTo fuel (OO.Val (OO.ConsValue a b)) f in
                           OO.forceValue fuel e) s r <->
     finishes (fun fuel => let* fa := OO.applyTo fuel f a in
                           let* e := OO.applyTo fuel fa b in
                           OO.forceValue fuel e) s r).
Proof.
  split.
  - exact FnProps.pair_destructuring_fn.
  - exact OOProps.pair_destructuring_oo.
Qed.

(** The pair of 3 and 4 applied to [add]: both sides force to 7. *)
Lemma pair_destructuring_witness :
  let a := Fn.Val (Fn.makeNumber 3) in
  let b := Fn.Val (Fn.makeNumber 4) in
  let f := Fn.Val (Fn.makeFunc2 Fn.FAdd) in
  let s1 := {| Fn.thunks := [Fn.forced (Fn.NumberValue 7)]; Fn.maps := [];
               Fn.evalCounter := 1 |} in
  finishes (fun fuel => let* fa := Fn.makeApply fuel [f; a] in
                        let* e := Fn.makeApply fuel [fa; b] in
                        Fn.evaluate fuel e) Fn.emptyState (Ret (Fn.NumberValue 7) s1).
Proof.
  intros a b f s1. apply (proj1 pair_destructuring a b f).
  apply (finishes_at _ _ _ 3); [reflexivity | discriminate].
Defined.

(** C3. Behavioral nil/pair discrimination on opaque Functions.  When the
    expression forces to a Function, [isNil] decides by the probe, the
    application of the function to the two-argument constant-false function
    and to the sentinels 123 and 456, forced: if the probe forces to Number
    123, [isNil] returns true; if to Number 456, false; if to any other value,
    a Number or not, [isNil] throws 'Not nil/cons' (AmbiguousValue). *)
Theorem isNil_behavioral_probe :
  forall e f s s1 v s2,
    finishes (fun fuel => Fn.evaluate fuel e) s (Ret (Fn.FuncValue f) s1) ->
    finishes (fun fuel => Fn.isNilProbe fuel (Fn.FuncValue f)) s1 (Ret v s2) ->
    (v = Fn.NumberValue 123 -> finishes (fun fuel => Fn.isNil fuel e) s (Ret true s2)) /\
    (v = Fn.NumberValue 456 -> finishes (fun fuel => Fn.isNil fuel e) s (Ret false s2)) /\
    (v <> Fn.NumberValue 123 -> v <> Fn.NumberValue 456 ->
     finishes (fun fuel => Fn.isNil fuel e) s (Throw NotNilCons s2)).
Proof.
  intros e f s s1 v s2.
  intros He Hp.
  destruct (finishes_from _ _ _ (FnProps.evaluate_monotone e) He) as [n1 Hn1].
  destruct (finishes_from _ _ _ (FnProps.isNilProbe_monotone _) Hp) as [n2 Hn2].
  set (n := S (Nat.max n1 n2)).
  assert (Hrun : Fn.isNil n e s =
                 match v with
                 | Fn.NumberValue k =>
                     if Z.eqb k 123 then Ret true s2
                     else if Z.eqb k 456 then Ret false s2
                     else Throw NotNilCons s2
                 | _ => Throw NotNilCons s2
                 end).
  { rewrite (FnProps.isNil_tagged n e s (Fn.FuncValue f) s1) by (apply Hn1; lia).
    unfold n. rewrite FnProps.isNilSlow_probe. unfold bind.
    rewrite Hn2 by lia. now destruct v as [k | | |]; [destruct (Z.eqb k 123), (Z.eqb k 456) | | |]. }
  repeat split; try discriminate.
  - exists n. now rewrite Hrun, H.
  - exists n. now rewrite Hrun, H.
  - exists n. rewrite Hrun. destruct v as [k | | |]; try reflexivity.
    destruct (Z.eqb_spec k 123) as [-> | _]; [congruence |].
    destruct (Z.eqb_spec k 456) as [-> | _]; [congruence | reflexivity].
Qed.

(** [t t] answers [t] to every argument, as nil does: the probe lands on 123. *)
Lemma isNil_behavioral_probe_witness :
  let f := Fn.Lam2a Fn.FFirst (Fn.Val Fn.theTrue) in
  finishes (fun fuel => Fn.isNil fuel (Fn.Val (Fn.FuncValue f))) Fn.emptyState
    (Ret true Fn.emptyState).
Proof.
  intros f.
  apply (isNil_behavioral_probe (Fn.Val (Fn.FuncValue f)) f Fn.emptyState Fn.emptyState
           (Fn.NumberValue 123) Fn.emptyState).
  - apply (finishes_at _ _ _ 1); [reflexivity | discriminate].
  - apply (finishes_at _ _ _ 2); [reflexivity | discriminate].
  - reflexivity.
Defined.

(** C4. Canonicalization round-trip.  For every finite sequence of integers,
    canonicalizing the nil-terminated chain of pairs of these integers yields
    the List of the corresponding Number leaves, in order; the chain of 1, -1,
    0 yields List[Number 1, Number (-1), Number 0].  A spine that ends in a
    Number yields the right-nested chain of Pair nodes over the canonical
    trees of its elements, ending in that Number.  This holds of
    [exprToStaticData] and of [Evaluator.forceModulatable], and the walk
    leaves the store as it is when the chain holds no thunk. *)
Theorem canonicalization_round_trip :
  (forall zs s,
     finishes (fun fuel => Fn.exprToStaticData fuel (Fn.chain zs (Fn.Val Fn.makeNil))) s
       (Ret (ListData (map NumberData zs)) s)) /\
  (forall s,
     Fn.exprToStaticData 5 (Fn.chain [1; -1; 0]%Z (Fn.Val Fn.makeNil)) s =
     Ret (ListData [NumberData 1; NumberData (-1); NumberData 0]) s) /\
  (forall zs n s,
     finishes
       (fun fuel => Fn.exprToStaticData fuel (Fn.chain zs (Fn.Val (Fn.makeNumber n)))) s
       (Ret (fold_right ConsData (NumberData n) (map NumberData zs)) s)) /\
  (forall ts n s e s',
     Fn.forcesTo s e (fold_right TCons (TNumber n) ts) s' ->
     finishes (fun fuel => Fn.exprToStaticData fuel e) s
       (Ret (fold_right ConsData (NumberData n) (map canon ts)) s')) /\
  (forall zs s,
     finishes (fun fuel => OO.forceModulatable fuel (OO.chain zs (OO.Val OO.NilValue))) s
       (Ret (OO.ListModulatable (map OO.NumberModulatable zs)) s)) /\
  (forall zs n s,
     finishes
       (fun fuel => OO.forceModulatable fuel (OO.chain zs (OO.Val (OO.NumberValue n)))) s
       (Ret (fold_right OO.ConsModulatable (OO.NumberModulatable n)
               (map OO.NumberModulatable zs)) s)).
Proof.
  repeat split; try discriminate.
  - destruct (FnProps.exprToStaticData_tagged s _ _ s
                (FnProps.chain_forcesTo zs _ TNil s
                   (Fn.forces_nil _ _ _ (FnProps.evaluate_value _ s)))) as [_ H].
    now rewrite canon_taggedChain_nil in H.
  - destruct (FnProps.exprToStaticData_tagged s _ _ s
                (FnProps.chain_forcesTo zs _ (TNumber n) s
                   (Fn.forces_number _ _ _ _ (FnProps.evaluate_value _ s)))) as [_ H].
    now rewrite canon_taggedChain_number in H.
  - apply FnProps.exprToStaticData_tagged in H. rewrite canon_spine_number in H.
    apply H.
  - destruct (OOProps.forceModulatable_tagged s _ _ s
                (OOProps.chain_forcesTo_oo zs _ TNil s
                   (OO.forces_nil _ _ _ (OOProps.forceValue_value _ s)))) as [_ H].
    now rewrite OOProps.canonModulatable_taggedChain_nil in H.
  - destruct (OOProps.forceModulatable_tagged s _ _ s
                (OOProps.chain_forcesTo_oo zs _ (TNumber n) s
                   (OO.forces_number _ _ _ _ (OOProps.forceValue_value _ s)))) as [_ H].
    now rewrite OOProps.canonModulatable_taggedChain_number in H.
Qed.

(** The pair of the one-element list of 1 and the Number 5: a spine that
    ends in a Number. *)
Lemma canonicalization_round_trip_witness :
  let e := Fn.Val (Fn.ConsValue (Fn.embed (TCons (TNumber 1) TNil)) (Fn.Val (Fn.NumberValue 5))) in
  finishes (fun fuel => Fn.exprToStaticData fuel e) Fn.emptyState
    (Ret (ConsData (ListData [NumberData 1]) (NumberData 5)) Fn.emptyState).
Proof.
  intros e.
  apply (proj1 (proj2 (proj2 (proj2 canonicalization_round_trip)))
           [TCons (TNumber 1) TNil] 5%Z Fn.emptyState e Fn.emptyState).
  apply (FnProps.embed_forcesTo (TCons (TCons (TNumber 1) TNil) (TNumber 5))).
Defined.

(** C5. Nil behaves as the constant-true selector.  For every argument [f],
    applying [f] to Nil returns the selector "true", which applied to two
    arguments returns the first; so for all [x] and [y], the application of
    Nil to [f], then to [x], then to [y], is the expression [x] itself, and
    forcing it is forcing [x].  Both variants. *)
Theorem nil_is_true_selector :
  (forall f x y fuel fuel' s,
     Fn.makeApply (S fuel) [Fn.Val Fn.makeNil; f] s = Ret (Fn.Val (Fn.makeBoolean true)) s /\
     Fn.makeApply (S fuel) [Fn.Val (Fn.makeBoolean true); x; y] s = Ret x s /\
     (let* t := Fn.makeApply (S fuel) [Fn.Val Fn.makeNil; f] in
      let* tx := Fn.makeApply (S fuel) [t; x] in
      let* e := Fn.makeApply (S fuel) [tx; y] in
      Fn.evaluate fuel' e) s = Fn.evaluate fuel' x s) /\
  (forall f x y fuel fuel' s,
     OO.applyTo (S fuel) (OO.Val OO.NilValue) f s = Ret (OO.Val (OO.makeBoolean true)) s /\
     (let* tx := OO.applyTo (S fuel) (OO.Val (OO.makeBoolean true)) x in
      OO.applyTo (S fuel) tx y) s = Ret x s /\
     (let* t := OO.applyTo (S fuel) (OO.Val OO.NilValue) f in
      let* tx := OO.applyTo (S fuel) t x in
      let* e := OO.applyTo (S fuel) tx y in
      OO.forceValue fuel' e) s = OO.forceValue fuel' x s).
Proof.
  split; intros f x y fuel fuel' s; repeat split.
Qed.

(** C6, as the code has it.  In the functional variant, [isNil] returns true
    when the expression forces to a tagged Nil and false when it forces to a
    tagged Pair or to a Number, without running the behavioral probe (the
    store is the one the forcing left).  In the object-oriented variant, the
    method [isNil] returns true on Nil and false on a Pair, and throws 'Not a
    nil/cons' on a Number, as it does on a Function: it has no probe. *)
Theorem isNil_tag_fast_path :
  (forall fuel e s s',
     (Fn.evaluate fuel e s = Ret Fn.NilValue s' -> Fn.isNil fuel e s = Ret true s') /\
     (forall car cdr, Fn.evaluate fuel e s = Ret (Fn.ConsValue car cdr) s' ->
                      Fn.isNil fuel e s = Ret false s') /\
     (forall n, Fn.evaluate fuel e s = Ret (Fn.NumberValue n) s' ->
                Fn.isNil fuel e s = Ret false s') /\
     (forall f, Fn.evaluate fuel e s = Ret (Fn.FuncValue f) s' ->
                Fn.isNil fuel e s = Fn.isNilSlow fuel (Fn.FuncValue f) s')) /\
  (forall s,
     OO.Open.valueIsNil OO.NilValue s = Ret true s /\
     (forall car cdr, OO.Open.valueIsNil (OO.ConsValue car cdr) s = Ret false s) /\
     (forall n, OO.Open.valueIsNil (OO.NumberValue n) s = Throw NotNilCons s) /\
     (forall f, OO.Open.valueIsNil (OO.FuncValue f) s = Throw NotNilCons s)).
Proof.
  split.
  - intros fuel e s s'. repeat split; intros;
      match goal with
      | H : Fn.evaluate _ _ _ = _ |- _ => now rewrite (FnProps.isNil_tagged _ _ _ _ _ H)
      end.
  - intros s. repeat split.
Qed.

Lemma isNil_tag_fast_path_witness :
  Fn.isNil 1 (Fn.Val Fn.NilValue) Fn.emptyState = Ret true Fn.emptyState /\
  Fn.isNil 1 (Fn.Val (Fn.NumberValue 7)) Fn.emptyState = Ret false Fn.emptyState.
Proof.
  destruct (proj1 isNil_tag_fast_path 1 (Fn.Val Fn.NilValue) Fn.emptyState Fn.emptyState)
    as (Hnil & _).
  destruct (proj1 isNil_tag_fast_path 1 (Fn.Val (Fn.NumberValue 7)) Fn.emptyState
              Fn.emptyState) as (_ & _ & Hnum & _).
  split; [apply Hnil | apply (Hnum 7%Z)]; reflexivity.
Defined.

(** C6 as stated fails in the object-oriented variant: the builtin [isnil]
    forces its argument and calls the method [isNil] on the value; on the
    Number 0 the method throws instead of returning false. *)
Lemma isNil_of_number_throws_oo :
  (let* v := OO.forceValue 1 (OO.Val (OO.NumberValue 0)) in OO.Open.valueIsNil v)
    OO.emptyState = Throw NotNilCons OO.emptyState /\
  (let* e := OO.applyTo 1 (OO.Val (OO.FuncValue (OO.Lam1 OO.FIsNil))) (OO.Val (OO.NumberValue 0)) in
   OO.forceValue 2 e) OO.emptyState =
  Throw NotNilCons
    {| OO.thunks := [OO.suspended (OO.RIsNil (OO.Val (OO.NumberValue 0)))];
       OO.maps := []; OO.counter := 1 |}.
Proof. split; reflexivity. Qed.

(** C7. Lazy reference resolution.  If the name resolves when [makeReference]
    is called, the result is the bound expression itself and nothing is
    allocated.  Otherwise the result is a fresh thunk that holds the
    re-resolving recipe; nothing is resolved or counted until it is forced.
    Forcing that thunk looks the name up in the store of that moment: still
    unbound, the force throws `Undefined reference`; bound, the force is the
    force of the bound expression, whose value it stores.  So a reference made
    before [define] gave the name its expression resolves once that
    definition exists.  Both variants. *)
Theorem lazy_reference_resolution :
  (forall env name,
     (forall s resolved,
        Fn.lookup env name s = Some resolved ->
        Fn.makeReference env name s = Ret resolved s) /\
     (forall s,
        Fn.lookup env name s = None ->
        exists l s1,
          Fn.makeReference env name s = Ret (Fn.Thunk l) s1 /\
          Fn.thunkAt s1 l = Fn.suspended (Fn.RReference env name) /\
          Fn.maps s1 = Fn.maps s /\ Fn.evalCounter s1 = Fn.evalCounter s) /\
     (forall l s fuel,
        Fn.thunkAt s l = Fn.suspended (Fn.RReference env name) ->
        Fn.lookup env name s = None ->
        exists s', Fn.evaluate (S fuel) (Fn.Thunk l) s = Throw (UndefinedReference name) s') /\
     (forall l s fuel resolved,
        Fn.thunkAt s l = Fn.suspended (Fn.RReference env name) ->
        Fn.lookup env name s = Some resolved ->
        Fn.evaluate (S fuel) (Fn.Thunk l) s =
        (let* _ := Fn.incrEvalCounter in
         let* value := Fn.evaluate fuel resolved in
         let* _ := Fn.writeThunk l (Fn.forced value) in
         ret value) s) /\
     (forall s l s1 e s2 fuel,
        Fn.lookup env name s = None ->
        Fn.makeReference env name s = Ret (Fn.Thunk l) s1 ->
        Fn.envAllocated s1 env ->
        Fn.define env name e s1 = Ret tt s2 ->
        Fn.evaluate (S fuel) (Fn.Thunk l) s2 =
        (let* _ := Fn.incrEvalCounter in
         let* value := Fn.evaluate fuel e in
         let* _ := Fn.writeThunk l (Fn.forced value) in
         ret value) s2)) /\
  (forall env name,
     (forall s resolved,
        OO.lookup env name s = Some resolved ->
        OO.makeReference env name s = Ret resolved s) /\
     (forall s,
        OO.lookup env name s = None ->
        exists l s1,
          OO.makeReference env name s = Ret (OO.Thunk l) s1 /\
          OO.thunkAt s1 l = OO.suspended (OO.RReference env name) /\
          OO.maps s1 = OO.maps s /\ OO.counter s1 = OO.counter s) /\
     (forall l s fuel,
        OO.thunkAt s l = OO.suspended (OO.RReference env name) ->
        OO.lookup env name s = None ->
        exists s', OO.forceValue (S fuel) (OO.Thunk l) s = Throw (UndefinedReference name) s') /\
     (forall l s fuel resolved,
        OO.thunkAt s l = OO.suspended (OO.RReference env name) ->
        OO.lookup env name s = Some resolved ->
        OO.forceValue (S fuel) (OO.Thunk l) s =
        (let* _ := OO.incrCounter in
         let* value := OO.forceValue fuel resolved in
         let* _ := OO.writeThunk l (OO.forced value) in
         ret value) s) /\
     (forall s l s1 e s2 fuel,
        OO.lookup env name s = None ->
        OO.makeReference env name s = Ret (OO.Thunk l) s1 ->
        OO.envAllocated s1 env ->
        OO.define env name e s1 = Ret tt s2 ->
        OO.forceValue (S fuel) (OO.Thunk l) s2 =
        (let* _ := OO.incrCounter in
         let* value := OO.forceValue fuel e in
         let* _ := OO.writeThunk l (OO.forced value) in
         ret value) s2)).
Proof.
  split; intros env name.
  - split; [| split; [| split; [| split]]].
    + intros s resolved. apply FnProps.makeReference_bound.
    + intros s Hnone. rewrite (FnProps.makeReference_unbound _ _ _ Hnone).
      eexists _, _. split; [reflexivity |]. split; [| split; reflexivity].
      unfold Fn.thunkAt. simpl. now rewrite lookup_snoc.
    + intros l s fuel Hcell Hnone. eexists.
      exact (FnProps.evaluate_reference_unbound fuel l env name s Hcell Hnone).
    + intros l s fuel resolved. apply FnProps.evaluate_reference_bound.
    + intros s l s1 e s2 fuel. apply FnProps.forward_reference_fn.
  - split; [| split; [| split; [| split]]].
    + intros s resolved. apply OOProps.makeReference_bound_oo.
    + intros s Hnone. rewrite (OOProps.makeReference_unbound_oo _ _ _ Hnone).
      eexists _, _. split; [reflexivity |]. split; [| split; reflexivity].
      unfold OO.thunkAt. simpl. now rewrite lookup_snoc.
    + intros l s fuel Hcell Hnone. eexists.
      exact (OOProps.forceValue_reference_unbound fuel l env name s Hcell Hnone).
    + intros l s fuel resolved. apply OOProps.forceValue_reference_bound.
    + intros s l s1 e s2 fuel. apply OOProps.forward_reference_oo.
Qed.

(** A forward reference: in an environment under the standard one, [f] is
    defined as a reference to [g], made while [g] is unbound; [g] is defined
    as 42 afterwards; the reference to [f] is then the thunk itself, and
    forcing it yields 42. *)
Lemma lazy_reference_resolution_witness :
  let env := Env 1 (Some Fn.stdEnv) in
  let s0 := {| Fn.thunks := []; Fn.maps := Fn.maps Fn.stdState ++ [∅];
               Fn.evalCounter := 0 |} in
  exists s1 s2 s3 s4,
    Fn.makeReference env "g" s0 = Ret (Fn.Thunk 0) s1 /\
    Fn.define env "f" (Fn.Thunk 0) s1 = Ret tt s2 /\
    Fn.define env "g" (Fn.Val (Fn.makeNumber 42)) s2 = Ret tt s3 /\
    Fn.makeReference env "f" s3 = Ret (Fn.Thunk 0) s3 /\
    Fn.evaluate 2 (Fn.Thunk 0) s3 = Ret (Fn.NumberValue 42) s4.
Proof.
  intros env s0.
  destruct (proj1 lazy_reference_resolution env "g"%string)
    as (_ & _ & _ & Hforce & _).
  destruct (proj1 lazy_reference_resolution env "f"%string) as (Hbound & _).
  assert (Hnone : Fn.lookup env "g" s0 = None) by (vm_compute; reflexivity).
  eexists _, _, _, _.
  split; [exact (FnProps.makeReference_unbound env "g" s0 Hnone) |].
  split; [vm_compute; reflexivity |].
  split; [vm_compute; reflexivity |].
  split; [apply Hbound; vm_compute; reflexivity |].
  rewrite (Hforce 0 _ 1 (Fn.Val (Fn.makeNumber 42)));
    [reflexivity | reflexivity | vm_compute; reflexivity].
Defined.

(** C8. Numbers are not callable.  Applying any argument to a Number throws
    (`Invalid function call`, `Not a func`: NotApplicable), also when the
    Number is what the left side of a suspended application forces to.  No
    other shape of the left side makes the application itself fail: on Nil
    and on an unforced thunk it returns, and when the application of a Pair
    or of a Function throws, the throw is the one of the application it
    delegates to (of the argument to the components, of the function's body);
    building an application never throws anything but NotApplicable.  Both
    variants. *)
Theorem numbers_are_not_callable :
  (forall k rhs fuel s,
     Fn.makeApply (S fuel) [Fn.Val (Fn.NumberValue k); rhs] s = Throw InvalidFunctionCall s) /\
  (forall lhs rhs k fuel s s',
     Fn.evaluate fuel lhs s = Ret (Fn.NumberValue k) s' ->
     Fn.apply fuel lhs rhs s = Throw InvalidFunctionCall s') /\
  (forall lhs rhs fuel s e s',
     Fn.makeApply (S fuel) [lhs; rhs] s = Throw e s' ->
     match lhs with
     | Fn.Val (Fn.NumberValue _) => e = InvalidFunctionCall /\ s' = s
     | Fn.Val Fn.NilValue | Fn.Thunk _ => False
     | Fn.Val (Fn.ConsValue car cdr) => Fn.makeApply fuel [rhs; car; cdr] s = Throw e s'
     | Fn.Val (Fn.FuncValue f) => Fn.callFunc fuel f rhs s = Throw e s'
     end) /\
  (forall args fuel s e s',
     args <> [] -> Fn.makeApply fuel args s = Throw e s' -> e = InvalidFunctionCall) /\
  (forall k arg fuel s,
     OO.applyTo (S fuel) (OO.Val (OO.NumberValue k)) arg s = Throw NotAFunc s) /\
  (forall v arg fuel s e s',
     OO.applyTo (S fuel) (OO.Val v) arg s = Throw e s' ->
     match v with
     | OO.NumberValue _ => e = NotAFunc /\ s' = s
     | OO.NilValue => False
     | OO.ConsValue car cdr =>
         (let* x := OO.applyTo fuel arg car in OO.applyTo fuel x cdr) s = Throw e s'
     | OO.FuncValue f => OO.callFunc fuel f arg s = Throw e s'
     end) /\
  (forall l arg fuel s e s',
     OO.applyTo (S fuel) (OO.Thunk l) arg s = Throw e s' ->
     exists v, OO.cache (OO.thunkAt s l) = Some v /\
               OO.applyTo (S fuel) (OO.Val v) arg s = Throw e s').
Proof.
  split; [| split; [| split; [| split; [| split; [| split]]]]].
  - intros. reflexivity.
  - intros lhs rhs k fuel s s' H. unfold Fn.apply, Fn.Open.apply, bind. now rewrite H.
  - intros lhs rhs fuel s e s'. rewrite FnProps.makeApply_pair.
    unfold Fn.makeApplyStep, Fn.Open.makeApplyStep.
    destruct lhs as [[k | f | | car cdr] | l]; try discriminate; try trivial.
    now intros [= <- <-].
  - intros args fuel s e s' Hne H. symmetry.
    exact (FnProps.makeApply_throws fuel args Hne s e s' H).
  - intros. reflexivity.
  - intros v arg fuel s e s'. apply OOProps.valueApply_throw.
  - intros l arg fuel s e s'. apply OOProps.applyTo_thunk_throw.
Qed.

(** The Pair of 1 and 2 applied to the Number 5: the throw is the one of
    applying 5 to the first component. *)
Lemma numbers_are_not_callable_witness :
  Fn.makeApply 2 [Fn.Val (Fn.ConsValue (Fn.Val (Fn.NumberValue 1)) (Fn.Val (Fn.NumberValue 2)));
                  Fn.Val (Fn.NumberValue 5)] Fn.emptyState =
    Throw InvalidFunctionCall Fn.emptyState /\
  Fn.makeApply 1 [Fn.Val (Fn.NumberValue 5); Fn.Val (Fn.NumberValue 1);
                  Fn.Val (Fn.NumberValue 2)] Fn.emptyState =
    Throw InvalidFunctionCall Fn.emptyState.
Proof.
  assert (H : Fn.makeApply 2
                [Fn.Val (Fn.ConsValue (Fn.Val (Fn.NumberValue 1)) (Fn.Val (Fn.NumberValue 2)));
                 Fn.Val (Fn.NumberValue 5)] Fn.emptyState =
              Throw InvalidFunctionCall Fn.emptyState) by reflexivity.
  split; [exact H |].
  exact (proj1 (proj2 (proj2 numbers_are_not_callable)) _ _ 1 _ _ _ H).
Defined.

(** C9. Arithmetic built-ins.  The standard environment binds [add] and [div]
    to the two-argument functions whose result, forced, is the sum and the
    quotient of the two Number operands over the unbounded integers; [div]
    truncates toward zero ([Z.quot]) for every nonzero divisor.  [add 3 4]
    forces to Number 7, [div 7 2] to Number 3 and [div (-7) 2] to Number (-3).
    Each force allocates one thunk, stores the value in it and steps the
    counter once.  Both variants. *)
Theorem arithmetic_builtins :
  (Fn.lookup Fn.stdEnv "add" Fn.stdState = Some (Fn.Val (Fn.makeFunc2 Fn.FAdd)) /\
   Fn.lookup Fn.stdEnv "div" Fn.stdState = Some (Fn.Val (Fn.makeFunc2 Fn.FDiv)) /\
   (forall fuel x y s,
      (let* e := Fn.makeApply (S fuel) [Fn.Val (Fn.makeFunc2 Fn.FAdd);
                                        Fn.Val (Fn.makeNumber x); Fn.Val (Fn.makeNumber y)] in
       Fn.evaluate (S (S fuel)) e) s =
      Ret (Fn.NumberValue (x + y))
          {| Fn.thunks := Fn.thunks s ++ [Fn.forced (Fn.NumberValue (x + y))];
             Fn.maps := Fn.maps s; Fn.evalCounter := S (Fn.evalCounter s) |}) /\
   (forall fuel x y s,
      y <> 0%Z ->
      (let* e := Fn.makeApply (S fuel) [Fn.Val (Fn.makeFunc2 Fn.FDiv);
                                        Fn.Val (Fn.makeNumber x); Fn.Val (Fn.makeNumber y)] in
       Fn.evaluate (S (S fuel)) e) s =
      Ret (Fn.NumberValue (Z.quot x y))
          {| Fn.thunks := Fn.thunks s ++ [Fn.forced (Fn.NumberValue (Z.quot x y))];
             Fn.maps := Fn.maps s; Fn.evalCounter := S (Fn.evalCounter s) |})) /\
  (OO.lookup OO.stdEnv "add" OO.stdState = Some (OO.Val (OO.FuncValue (OO.Lam2 OO.FAdd))) /\
   OO.lookup OO.stdEnv "div" OO.stdState = Some (OO.Val (OO.FuncValue (OO.Lam2 OO.FDiv))) /\
   (forall fuel x y s,
      (let* ax := OO.applyTo (S fuel) (OO.Val (OO.FuncValue (OO.Lam2 OO.FAdd)))
                    (OO.Val (OO.NumberValue x)) in
       let* e := OO.applyTo (S fuel) ax (OO.Val (OO.NumberValue y)) in
       OO.forceValue (S (S fuel)) e) s =
      Ret (OO.NumberValue (x + y))
          {| OO.thunks := OO.thunks s ++ [OO.forced (OO.NumberValue (x + y))];
             OO.maps := OO.maps s; OO.counter := S (OO.counter s) |}) /\
   (forall fuel x y s,
      y <> 0%Z ->
      (let* dx := OO.applyTo (S fuel) (OO.Val (OO.FuncValue (OO.Lam2 OO.FDiv)))
                    (OO.Val (OO.NumberValue x)) in
       let* e := OO.applyTo (S fuel) dx (OO.Val (OO.NumberValue y)) in
       OO.forceValue (S (S fuel)) e) s =
      Ret (OO.NumberValue (Z.quot x y))
          {| OO.thunks := OO.thunks s ++ [OO.forced (OO.NumberValue (Z.quot x y))];
             OO.maps := OO.maps s; OO.counter := S (OO.counter s) |})) /\
  (Z.quot 7 2 = 3 /\ Z.quot (-7) 2 = -3 /\ 3 + 4 = 7)%Z.
Proof.
  split; [| split].
  - split; [exact FnProps.stdEnv_add |]. split; [exact FnProps.stdEnv_div |].
    split; [exact FnProps.add_numbers | exact FnProps.div_numbers].
  - split; [exact OOProps.stdEnv_add_oo |]. split; [exact OOProps.stdEnv_div_oo |].
    split; [exact OOProps.add_numbers_oo | exact OOProps.div_numbers_oo].
  - repeat split.
Qed.

(** [div 7 2] and [div (-7) 2], with [div] looked up in the standard
    environment, force to 3 and to -3. *)
Lemma arithmetic_builtins_witness :
  let div := default (Fn.Val Fn.NilValue) (Fn.lookup Fn.stdEnv "div" Fn.stdState) in
  (exists s, (let* e := Fn.makeApply 1 [div; Fn.Val (Fn.makeNumber 7); Fn.Val (Fn.makeNumber 2)] in
              Fn.evaluate 2 e) Fn.stdState = Ret (Fn.NumberValue 3) s) /\
  (exists s, (let* e := Fn.makeApply 1 [div; Fn.Val (Fn.makeNumber (-7)); Fn.Val (Fn.makeNumber 2)] in
              Fn.evaluate 2 e) Fn.stdState = Ret (Fn.NumberValue (-3)) s).
Proof.
  intros div.
  destruct arithmetic_builtins as ((_ & Hdiv & _ & Hquot) & _ & _).
  unfold div. rewrite Hdiv. simpl default.
  split; eexists.
  - apply (Hquot 0 7%Z 2%Z Fn.stdState). discriminate.
  - apply (Hquot 0 (-7)%Z 2%Z Fn.stdState). discriminate.
Defined.

(** C10. The two canonicalization passes agree on tagged data.  Take an
    expression of each variant whose forced value graph is the same tagged
    data [t]: forcing it, and then the car and the cdr of every Pair reached,
    meets only Numbers, Nils and Pairs, no Function.  Then [exprToStaticData]
    and [Evaluator.forceModulatable] both finish, and the two canonical trees
    are structurally equal: the same tree, on which [staticDataEqual] answers
    true.  In particular this holds of data built with the constructors
    alone. *)
Theorem canonicalizations_agree :
  (forall t s e s1 s' e' s1',
     Fn.forcesTo s e t s1 ->
     OO.forcesTo s' e' t s1' ->
     exists d m,
       finishes (fun fuel => Fn.exprToStaticData fuel e) s (Ret d s1) /\
       finishes (fun fuel => OO.forceModulatable fuel e') s' (Ret m s1') /\
       OO.asStaticData m = d /\
       staticDataEqual d (OO.asStaticData m) = true) /\
  (forall t s s',
     exists d m,
       finishes (fun fuel => Fn.exprToStaticData fuel (Fn.embed t)) s (Ret d s) /\
       finishes (fun fuel => OO.forceModulatable fuel (OO.embed t)) s' (Ret m s') /\
       OO.asStaticData m = d /\
       staticDataEqual d (OO.asStaticData m) = true).
Proof.
  assert (Hgen : forall t s e s1 s' e' s1',
     Fn.forcesTo s e t s1 ->
     OO.forcesTo s' e' t s1' ->
     exists d m,
       finishes (fun fuel => Fn.exprToStaticData fuel e) s (Ret d s1) /\
       finishes (fun fuel => OO.forceModulatable fuel e') s' (Ret m s1') /\
       OO.asStaticData m = d /\
       staticDataEqual d (OO.asStaticData m) = true).
  { intros t s e s1 s' e' s1' Hfn Hoo.
    exists (canon t), (OO.canonModulatable t).
    split; [now apply FnProps.exprToStaticData_tagged |].
    split; [now apply OOProps.forceModulatable_tagged |].
    rewrite OOProps.asStaticData_canon.
    split; [reflexivity | apply staticDataEqual_refl]. }
  split; [exact Hgen |].
  intros t s s'. apply (Hgen t).
  - apply FnProps.embed_forcesTo.
  - apply OOProps.embed_forcesTo_oo.
Qed.

(** The thunk of [inc 1] in each variant: the forced value graph is the
    Number 2, and both passes give the leaf 2. *)
Lemma canonicalizations_agree_witness :
  exists d m,
    finishes (fun fuel => Fn.exprToStaticData fuel (Fn.Thunk 0))
      (Fn.oneThunk (Fn.RInc (Fn.Val (Fn.NumberValue 1))))
      (Ret d {| Fn.thunks := [Fn.forced (Fn.NumberValue 2)]; Fn.maps := [];
                Fn.evalCounter := 1 |}) /\
    finishes (fun fuel => OO.forceModulatable fuel (OO.Thunk 0))
      (OO.oneThunk (OO.RInc (OO.Val (OO.NumberValue 1))))
      (Ret m {| OO.thunks := [OO.forced (OO.NumberValue 2)]; OO.maps := [];
                OO.counter := 1 |}) /\
    OO.asStaticData m = d /\
    staticDataEqual d (OO.asStaticData m) = true.
Proof.
  apply (proj1 canonicalizations_agree (TNumber 2)).
  - apply Fn.forces_number. apply (finishes_at _ _ _ 2); [reflexivity | discriminate].
  - apply OO.forces_number. apply (finishes_at _ _ _ 2); [reflexivity | discriminate].
Defined.

(** * Further properties

    Facts about the rest of the code: the environments, the built-in
    functions, the list helpers, the static data and the shape of the
    store. *)

Lemma Environment_chain_ind (P : Environment -> Prop) :
  (forall d, P (Env d None)) ->
  (forall d parent, P parent -> P (Env d (Some parent))) ->
  forall env, P env.
Proof.
  intros Hroot Hchild. fix IH 1. intros [d [parent |]].
  - apply Hchild, IH.
  - apply Hroot.
Qed.

Section FinishFacts.
Context {St : Type}.

Lemma finishes_ret {A} (a : A) (s : St) : finishes (fun _ => ret a) s (Ret a s).
Proof. apply (finishes_at _ _ _ 0); [reflexivity | discriminate]. Qed.

Lemma finishes_bind {A B} (m : nat -> M St A) (k : A -> nat -> M St B) s a s1 r :
  monotone m -> (forall x, monotone (k x)) ->
  finishes m s (Ret a s1) -> finishes (k a) s1 r ->
  finishes (fun fuel => bind (m fuel) (fun x => k x fuel)) s r.
Proof.
  intros Hm Hk H1 H2.
  destruct (finishes_from m s _ Hm H1) as [n1 Hn1].
  destruct (finishes_from (k a) s1 _ (Hk a) H2) as [n2 Hn2].
  split; [apply H2 |]. exists (Nat.max n1 n2).
  unfold bind. rewrite Hn1 by lia. apply Hn2. lia.
Qed.

Lemma finishes_bind_throw {A B} (m : nat -> M St A) (k : A -> nat -> M St B) s e s1 :
  finishes m s (Throw e s1) ->
  finishes (fun fuel => bind (m fuel) (fun x => k x fuel)) s (Throw e s1).
Proof.
  intros [_ [n Hn]]. split; [discriminate |]. exists n. unfold bind. now rewrite Hn.
Qed.

(** What a computation that finishes did, a continuation does after it. *)
Lemma finishes_bind_inv {A B} (m : nat -> M St A) (k : A -> nat -> M St B) s r :
  finishes (fun fuel => bind (m fuel) (fun x => k x fuel)) s r ->
  (exists a s1, finishes m s (Ret a s1) /\ finishes (k a) s1 r) \/
  (exists e s1, finishes m s (Throw e s1) /\ r = Throw e s1).
Proof.
  intros [Hne [n Hn]]. unfold bind in Hn.
  destruct (m n s) as [a s1 | e s1 |] eqn:E.
  - left. exists a, s1. split.
    + apply (finishes_at _ _ _ n); [exact E | discriminate].
    + apply (finishes_at _ _ _ n); [exact Hn | exact Hne].
  - right. exists e, s1. split; [| now symmetry].
    apply (finishes_at _ _ _ n); [exact E | discriminate].
  - congruence.
Qed.

Lemma finishes_ext {A} (m m' : nat -> M St A) s r :
  (forall fuel, m fuel s = m' fuel s) -> finishes m s r -> finishes m' s r.
Proof. intros H [Hne [n Hn]]. split; [exact Hne |]. exists n. now rewrite <- H. Qed.

(** The same computation with its fuel shifted. *)
Lemma finishes_shift {A} (m : nat -> M St A) s r k :
  monotone m -> finishes (fun fuel => m (k + fuel)) s r <-> finishes m s r.
Proof.
  intros Hm. split; intros [Hne [n Hn]]; (split; [exact Hne |]).
  - now exists (k + n).
  - exists n. eapply approx_run; [| exact Hn | exact Hne].
    apply monotone_le; [exact Hm | lia].
Qed.
(** A computation that does at least what [m] does, given more fuel. *)
Lemma finishes_approx {A} (m m' : nat -> M St A) s r :
  (forall fuel, exists fuel', approx (m fuel) (m' fuel')) ->
  finishes m s r -> finishes m' s r.
Proof.
  intros H [Hne [n Hn]]. destruct (H n) as [n' Hn'].
  split; [exact Hne |]. exists n'. eapply approx_run; eassumption.
Qed.
End FinishFacts.

Lemma reduce_app {St A B} (f : B -> A -> M St B) (l1 l2 : list A) acc s :
  reduce f (l1 ++ l2) acc s = (let* acc' := reduce f l1 acc in reduce f l2 acc') s.
Proof.
  revert acc s. induction l1 as [| x l1 IH]; intros acc s; simpl.
  - reflexivity.
  - unfold bind in *. destruct (f acc x s) as [b s1 | |]; [apply IH | reflexivity | reflexivity].
Qed.

(** ** Static data *)

Lemma StaticData_nested_ind (P : StaticData -> Prop) :
  (forall n, P (NumberData n)) ->
  (forall elems, Forall P elems -> P (ListData elems)) ->
  (forall car cdr, P car -> P cdr -> P (ConsData car cdr)) ->
  forall d, P d.
Proof.
  intros Hn Hl Hc. fix IH 1. intros [n | elems | car cdr].
  - apply Hn.
  - apply Hl. induction elems as [| x elems IHl]; constructor; [apply IH | exact IHl].
  - apply Hc; apply IH.
Qed.

Lemma staticDataEqual_eq a b : staticDataEqual a b = true <-> a = b.
Proof.
  split; [| intros <-; apply staticDataEqual_refl].
  revert b. induction a as [n | elems IH | car cdr IHcar IHcdr] using StaticData_nested_ind;
    intros [m | elems' | car' cdr']; simpl; try discriminate.
  - intros H. apply Z.eqb_eq in H. now subst.
  - destruct (Nat.eqb (length elems) (length elems')) eqn:Hlen; [| discriminate]. simpl.
    apply Nat.eqb_eq in Hlen. intros H. f_equal. revert elems' Hlen H.
    induction IH as [| x xs Hx _ IHxs]; intros [| y ys] Hlen H; try discriminate.
    + reflexivity.
    + destruct (staticDataEqual x y) eqn:Exy; [| discriminate].
      f_equal; [now apply Hx | apply IHxs; [now injection Hlen | exact H]].
  - intros H. apply andb_true_iff in H as [H1 H2]. f_equal; [now apply IHcar | now apply IHcdr].
Qed.

Section ReturnsOnly.
Context {St : Type}.

Lemma returnsOnly_ret {A} (Q : A -> Prop) (a : A) : Q a -> returnsOnly Q (@ret St A a).
Proof. intros H s a' s' [= <- _]. exact H. Qed.

Lemma returnsOnly_throw {A} (Q : A -> Prop) e : returnsOnly Q (@throw St A e).
Proof. intros s a s' [=]. Qed.

Lemma returnsOnly_timeout {A} (Q : A -> Prop) : returnsOnly Q (@timeout St A).
Proof. intros s a s' [=]. Qed.

Lemma returnsOnly_bind {A B} (Q1 : A -> Prop) (Q : B -> Prop) (m : M St A) (k : A -> M St B) :
  returnsOnly Q1 m -> (forall a, Q1 a -> returnsOnly Q (k a)) -> returnsOnly Q (bind m k).
Proof.
  intros Hm Hk s b s'. unfold bind.
  destruct (m s) as [a s1 | e s1 |] eqn:E; intros H; try discriminate.
  eapply Hk; [eapply Hm, E | exact H].
Qed.

Lemma returnsOnly_any {A} (m : M St A) : returnsOnly (fun _ => True) m.
Proof. now intros s a s' _. Qed.
End ReturnsOnly.

Lemma canonical_chain elems n :
  Forall (fun d => canonical d = true) elems ->
  canonical (fold_right ConsData (NumberData n) elems) = true.
Proof.
  induction 1 as [| x elems Hx _ IH]; simpl; [reflexivity |].
  rewrite Hx, IH. simpl. now destruct elems.
Qed.

Lemma canonical_list elems :
  Forall (fun d => canonical d = true) elems -> canonical (ListData elems) = true.
Proof.
  intros H. simpl. induction H as [| x elems Hx _ IH]; simpl; [reflexivity |].
  now rewrite Hx.
Qed.

Lemma canonical_canon t : canonical (canon t) = true.
Proof.
  induction t as [n | | car IHcar cdr IHcdr]; simpl; try reflexivity.
  destruct (canon cdr) as [m | rest | a b]; simpl in *.
  - now rewrite IHcar.
  - now rewrite IHcar, IHcdr.
  - rewrite IHcar. simpl. rewrite IHcdr. reflexivity.
Qed.

(** ** The functional variant, continued *)
Module FnMore.
Import Fn.

(** ** Environments *)

Lemma mapAt_define_eq d parent name e s s' :
  d < length (maps s) ->
  define (Env d parent) name e s = Ret tt s' ->
  mapAt s' d = <[name := e]> (mapAt s d).
Proof.
  intros Hd. unfold define. destruct (mapAt s d !! name); [discriminate |].
  intros [= <-]. unfold mapAt at 1. simpl.
  now rewrite list_lookup_insert_eq by exact Hd.
Qed.

Lemma mapAt_define_ne d parent name e s s' d' :
  d' <> d ->
  define (Env d parent) name e s = Ret tt s' ->
  mapAt s' d' = mapAt s d'.
Proof.
  intros Hd. unfold define. destruct (mapAt s d !! name); [discriminate |].
  intros [= <-]. unfold mapAt at 1. simpl.
  now rewrite list_lookup_insert_ne by congruence.
Qed.

(** A definition changes no other name, whatever environment is asked. *)
Lemma define_other_names d parent name e s s' env' name' :
  name' <> name ->
  define (Env d parent) name e s = Ret tt s' ->
  lookup env' name' s' = lookup env' name' s.
Proof.
  intros Hne Hdef.
  assert (Hm : forall d', mapAt s' d' !! name' = mapAt s d' !! name').
  { intros d'. destruct (decide (d' = d)) as [-> | Hd].
    - destruct (decide (d < length (maps s))) as [Hlt | Hge].
      + rewrite (mapAt_define_eq _ _ _ _ _ _ Hlt Hdef).
        now rewrite lookup_insert_ne by congruence.
      + revert Hdef. unfold define. destruct (mapAt s d !! name); [discriminate |].
        intros [= <-]. unfold mapAt. simpl.
        rewrite list_insert_ge by lia. reflexivity.
    - now rewrite (mapAt_define_ne _ _ _ _ _ _ _ Hd Hdef). }
  induction env' as [d' | d' p IH] using Environment_chain_ind; simpl; rewrite Hm.
  - reflexivity.
  - now rewrite IH.
Qed.

(** An environment whose maps are all other objects than the one written. *)
Lemma define_other_env d parent name e s s' env' name' :
  envWithin d env' ->
  define (Env d parent) name e s = Ret tt s' ->
  lookup env' name' s' = lookup env' name' s.
Proof.
  intros Hw Hdef.
  induction env' as [d' | d' p IH] using Environment_chain_ind;
    simpl in *; destruct Hw as [Hd Hp];
    rewrite (mapAt_define_ne d parent name e s s' d') by (try lia; exact Hdef).
  - reflexivity.
  - now rewrite IH.
Qed.

Lemma define_fresh d parent name e s :
  mapAt s d !! name = None ->
  define (Env d parent) name e s =
  Ret tt {| thunks := thunks s;
            maps := <[d := <[name := e]> (mapAt s d)]> (maps s);
            evalCounter := evalCounter s |}.
Proof. intros H. unfold define. now rewrite H. Qed.

Lemma define_round_trip d parent name e s :
  d < length (maps s) ->
  mapAt s d !! name = None ->
  exists s',
    define (Env d parent) name e s = Ret tt s' /\
    lookup (Env d parent) name s' = Some e /\
    (forall env' name', name' <> name -> lookup env' name' s' = lookup env' name' s) /\
    thunks s' = thunks s /\ evalCounter s' = evalCounter s /\
    length (maps s') = length (maps s).
Proof.
  intros Hd Hfresh. pose proof (define_fresh d parent name e s Hfresh) as Hdef.
  eexists. split; [exact Hdef |].
  split; [| split; [| split; [| split]]].
  - exact (FnProps.define_lookup (Env d parent) name e s _ Hd Hdef).
  - intros env' name' Hne. exact (define_other_names _ _ _ _ _ _ env' name' Hne Hdef).
  - reflexivity.
  - reflexivity.
  - simpl. apply length_insert.
Qed.

Lemma define_duplicate d parent name e e' s s' :
  d < length (maps s) ->
  define (Env d parent) name e s = Ret tt s' ->
  define (Env d parent) name e' s' = Throw (DuplicatedDefinition name) s' /\
  lookup (Env d parent) name s' = Some e.
Proof.
  intros Hd Hdef.
  pose proof (FnProps.define_lookup (Env d parent) name e s s' Hd Hdef) as Hl.
  split; [| exact Hl].
  unfold define. rewrite (mapAt_define_eq _ _ _ _ _ _ Hd Hdef).
  now rewrite lookup_insert_eq.
Qed.

(** ** A child environment *)

Lemma mapAt_newEnvironment parent s env s1 d :
  newEnvironment parent s = Ret env s1 -> mapAt s1 d = mapAt s d.
Proof.
  intros [= <- <-]. unfold mapAt. simpl.
  destruct (Nat.lt_total d (length (maps s))) as [Hlt | [-> | Hgt]].
  - now rewrite lookup_app_l.
  - rewrite lookup_snoc. now rewrite (lookup_ge_None_2 (maps s)) by lia.
  - rewrite !lookup_ge_None_2; [reflexivity | lia |].
    rewrite length_app. simpl. lia.
Qed.

Lemma newEnvironment_lookup parent s env s1 env' name :
  newEnvironment parent s = Ret env s1 -> lookup env' name s1 = lookup env' name s.
Proof.
  intros Hnew.
  induction env' as [d' | d' p IH] using Environment_chain_ind; simpl;
    rewrite (mapAt_newEnvironment _ _ _ _ d' Hnew).
  - reflexivity.
  - now rewrite IH.
Qed.

Lemma child_environment parent s :
  envWithin (length (maps s)) parent ->
  exists child s1,
    newEnvironment (Some parent) s = Ret child s1 /\
    (forall env' name, lookup env' name s1 = lookup env' name s) /\
    (forall name, lookup child name s1 = lookup parent name s) /\
    forall name e, exists s2,
      define child name e s1 = Ret tt s2 /\
      lookup child name s2 = Some e /\
      (forall name', name' <> name -> lookup child name' s2 = lookup parent name' s) /\
      (forall name', lookup parent name' s2 = lookup parent name' s).
Proof.
  intros Hw.
  destruct (newEnvironment (Some parent) s) as [child s1 | |] eqn:Hnew; try discriminate.
  pose proof Hnew as Hshape. injection Hshape as Hchild Hs1.
  assert (Hempty : mapAt s1 (length (maps s)) = ∅).
  { rewrite <- Hs1. unfold mapAt. simpl. now rewrite lookup_snoc. }
  assert (Hinherit : forall name, lookup child name s1 = lookup parent name s).
  { intros name. rewrite <- Hchild. simpl. rewrite Hempty, lookup_empty.
    apply (newEnvironment_lookup _ _ _ _ _ _ Hnew). }
  exists child, s1. split; [reflexivity |].
  split; [intros env' name; apply (newEnvironment_lookup _ _ _ _ _ _ Hnew) |].
  split; [exact Hinherit |].
  intros name e. rewrite <- Hchild.
  assert (Hlen : length (maps s) < length (maps s1)).
  { rewrite <- Hs1. simpl. rewrite length_app. simpl. lia. }
  destruct (define_round_trip (length (maps s)) (Some parent) name e s1 Hlen)
    as (s2 & Hdef & Hl & Hother & _).
  { now rewrite Hempty, lookup_empty. }
  exists s2. split; [exact Hdef |]. split; [exact Hl |]. split.
  - intros name' Hne. rewrite (Hother _ _ Hne). rewrite Hchild. apply Hinherit.
  - intros name'. rewrite (define_other_env _ _ _ _ _ _ parent name' Hw Hdef).
    apply (newEnvironment_lookup _ _ _ _ _ _ Hnew).
Qed.

(** ** [defineAll] *)

Lemma defineAll_app env xs ys s :
  defineAll env (xs ++ ys) s = (let* _ := defineAll env xs in defineAll env ys) s.
Proof.
  revert s. induction xs as [| [name e] xs IH]; intros s; simpl.
  - reflexivity.
  - unfold bind in *.
    destruct (define env name e s) as [[] s1 | |]; [apply IH | reflexivity | reflexivity].
Qed.

Lemma defineAll_fresh d parent defs s :
  d < length (maps s) ->
  NoDup defs.*1 ->
  (forall name, name ∈ defs.*1 -> mapAt s d !! name = None) ->
  exists s',
    defineAll (Env d parent) defs s = Ret tt s' /\
    (forall name e, (name, e) ∈ defs -> lookup (Env d parent) name s' = Some e) /\
    (forall env' name, name ∉ defs.*1 -> lookup env' name s' = lookup env' name s) /\
    thunks s' = thunks s /\ evalCounter s' = evalCounter s /\
    length (maps s') = length (maps s).
Proof.
  revert s. induction defs as [| [name e] defs IH]; intros s Hd Hnd Hfresh.
  - exists s. split; [reflexivity |]. split; [intros ? ? H; inversion H |].
    repeat split; reflexivity.
  - simpl in Hnd. apply NoDup_cons in Hnd as [Hnotin Hnd].
    destruct (define_round_trip d parent name e s Hd) as (s1 & Hdef & Hl & Hother & Ht & Hc & Hlen).
    { apply Hfresh. simpl. left. }
    destruct (IH s1) as (s' & Hall & Hin & Hout & Ht' & Hc' & Hlen').
    + lia.
    + exact Hnd.
    + intros name' Hin. rewrite (mapAt_define_eq _ _ _ _ _ _ Hd Hdef).
      rewrite lookup_insert_ne by (intros ->; contradiction).
      apply Hfresh. simpl. now right.
    + exists s'. split; [simpl; unfold bind; now rewrite Hdef |].
      split; [| split; [| repeat split; congruence]].
      * intros name' e' Hmem. apply elem_of_cons in Hmem as [[= -> ->] | Hmem].
        -- rewrite (Hout _ _ Hnotin). exact Hl.
        -- apply Hin, Hmem.
      * intros env' name' Hnot. simpl in Hnot. apply not_elem_of_cons in Hnot as [Hne Hnot].
        rewrite (Hout _ _ Hnot). apply Hother, Hne.
Qed.

Lemma defineAll_duplicate d parent before name e after s s1 e0 :
  defineAll (Env d parent) before s = Ret tt s1 ->
  mapAt s1 d !! name = Some e0 ->
  defineAll (Env d parent) (before ++ (name, e) :: after) s =
  Throw (DuplicatedDefinition name) s1.
Proof.
  intros Hbefore Hbound. rewrite defineAll_app. unfold bind. rewrite Hbefore.
  simpl. unfold bind, define. now rewrite Hbound.
Qed.

(** ** Evaluation leaves the environments alone *)

Lemma sameMaps_refl s : sameMaps s s.
Proof. reflexivity. Qed.

Lemma sameMaps_trans s1 s2 s3 : sameMaps s1 s2 -> sameMaps s2 s3 -> sameMaps s1 s3.
Proof. unfold sameMaps. congruence. Qed.

Lemma makeThunk_sameMaps f : preserves sameMaps (makeThunk f).
Proof. intros s s' [= <-]. reflexivity. Qed.

Lemma readThunk_sameMaps l : preserves sameMaps (readThunk l).
Proof. intros s s' [= <-]. reflexivity. Qed.

Lemma writeThunk_sameMaps l c : preserves sameMaps (writeThunk l c).
Proof. intros s s' [= <-]. reflexivity. Qed.

Lemma envLookup_sameMaps env name : preserves sameMaps (envLookup env name).
Proof. intros s s' [= <-]. reflexivity. Qed.

Lemma incrEvalCounter_sameMaps : preserves sameMaps incrEvalCounter.
Proof. intros s s' [= <-]. reflexivity. Qed.

Create HintDb sameMaps.
#[export] Hint Resolve makeThunk_sameMaps readThunk_sameMaps writeThunk_sameMaps
  envLookup_sameMaps incrEvalCounter_sameMaps : sameMaps.

Ltac maps_tac :=
  repeat first
    [ solve [auto with sameMaps]
    | apply preserves_ret; apply sameMaps_refl
    | apply preserves_throw; apply sameMaps_refl
    | apply (preserves_bind sameMaps sameMaps_trans); [| intros ?]
    | apply (preserves_reduce sameMaps sameMaps_refl sameMaps_trans); intros ? ?
    | match goal with
      | |- preserves _ (match ?x with _ => _ end) => destruct x
      | |- preserves _ (if ?x then _ else _) => destruct x
      end ].

Lemma arith1_sameMaps op f x : preserves sameMaps (Open.arith1 op f x).
Proof. unfold Open.arith1. maps_tac. Qed.

Lemma arith2_sameMaps op f x y :
  (forall n m, preserves sameMaps (f n m)) -> preserves sameMaps (Open.arith2 op f x y).
Proof. intros Hf. unfold Open.arith2. destruct x, y; maps_tac; apply Hf. Qed.

Lemma bigintDiv_sameMaps x y : preserves sameMaps (Open.bigintDiv x y).
Proof. unfold Open.bigintDiv. maps_tac. Qed.

Lemma finishCons_sameMaps elems : preserves sameMaps (Open.finishCons elems).
Proof. unfold Open.finishCons. maps_tac. Qed.
#[export] Hint Resolve arith1_sameMaps bigintDiv_sameMaps finishCons_sameMaps : sameMaps.

Section Build.
Variable ma : list Expr -> M Expr.
Hypothesis Hma : forall args, preserves sameMaps (ma args).
#[local] Hint Resolve Hma : sameMaps.

Lemma callFunc_sameMaps f a : preserves sameMaps (Open.callFunc ma f a).
Proof.
  destruct f as [[]|g|[] x|g|g x|[] x y];
    cbv [Open.callFunc Open.call1 Open.call2 Open.call3 Open.makeCar Open.makeCdr
         Open.builtinC Open.builtinB Open.builtinInc Open.builtinDec Open.builtinNeg
         Open.builtinI Open.builtinIsNil Open.builtinAdd Open.builtinMul Open.builtinDiv
         Open.builtinEq Open.builtinLt Open.builtinS];
    maps_tac.
Qed.
#[local] Hint Resolve callFunc_sameMaps : sameMaps.

Lemma makeApplyStep_sameMaps lhs rhs : preserves sameMaps (Open.makeApplyStep ma lhs rhs).
Proof. unfold Open.makeApplyStep. maps_tac. Qed.
#[local] Hint Resolve makeApplyStep_sameMaps : sameMaps.

Lemma makeApplyBody_sameMaps args : preserves sameMaps (Open.makeApplyBody ma args).
Proof. unfold Open.makeApplyBody. maps_tac. Qed.
End Build.
#[export] Hint Resolve callFunc_sameMaps makeApplyStep_sameMaps makeApplyBody_sameMaps : sameMaps.

Lemma makeApply_sameMaps fuel args : preserves sameMaps (makeApply fuel args).
Proof.
  revert args. induction fuel as [| n IH]; intros args.
  - apply preserves_timeout.
  - apply makeApplyBody_sameMaps, IH.
Qed.
#[export] Hint Resolve makeApply_sameMaps : sameMaps.

Section Force.
Variable ma : list Expr -> M Expr.
Variable ev : Expr -> M Value.
Hypothesis Hma : forall args, preserves sameMaps (ma args).
Hypothesis Hev : forall e, preserves sameMaps (ev e).
#[local] Hint Resolve Hma Hev : sameMaps.

Lemma apply_sameMaps lhs rhs : preserves sameMaps (Open.apply ma ev lhs rhs).
Proof. unfold Open.apply. maps_tac. Qed.

Lemma isNilSlow_sameMaps v : preserves sameMaps (Open.isNilSlow ma ev v).
Proof. unfold Open.isNilSlow. maps_tac. Qed.
#[local] Hint Resolve apply_sameMaps isNilSlow_sameMaps : sameMaps.

Lemma isNil_sameMaps e : preserves sameMaps (Open.isNil ma ev e).
Proof. unfold Open.isNil. maps_tac. Qed.
#[local] Hint Resolve isNil_sameMaps : sameMaps.

Lemma runRecipe_sameMaps f : preserves sameMaps (Open.runRecipe ma ev f).
Proof.
  destruct f; unfold Open.runRecipe; maps_tac;
    apply arith2_sameMaps; intros ? ?; maps_tac.
Qed.
#[local] Hint Resolve runRecipe_sameMaps : sameMaps.

Lemma evaluateBody_sameMaps e : preserves sameMaps (Open.evaluateBody ma ev e).
Proof. unfold Open.evaluateBody. maps_tac. Qed.
End Force.
#[export] Hint Resolve apply_sameMaps isNilSlow_sameMaps isNil_sameMaps runRecipe_sameMaps
  evaluateBody_sameMaps : sameMaps.

Lemma evaluate_sameMaps fuel e : preserves sameMaps (evaluate fuel e).
Proof.
  revert e. induction fuel as [| n IH]; intros e.
  - apply preserves_timeout.
  - apply evaluateBody_sameMaps; [apply makeApply_sameMaps | exact IH].
Qed.
#[export] Hint Resolve evaluate_sameMaps : sameMaps.

Lemma exprToStaticDataLoop_sameMaps fuel elems cur :
  preserves sameMaps (exprToStaticDataLoop fuel elems cur).
Proof.
  revert elems cur. induction fuel as [| n IH]; intros elems cur.
  - apply preserves_timeout.
  - simpl. unfold Open.exprToStaticDataLoop, Open.exprToStaticData, Open.makeCar, Open.makeCdr.
    maps_tac.
Qed.
#[export] Hint Resolve exprToStaticDataLoop_sameMaps : sameMaps.

Lemma exprToStaticData_sameMaps fuel e : preserves sameMaps (exprToStaticData fuel e).
Proof. unfold exprToStaticData, Open.exprToStaticData. maps_tac. Qed.

Lemma parseListLoop_sameMaps fuel elems cur :
  preserves sameMaps (parseListLoop fuel elems cur).
Proof.
  revert elems cur. induction fuel as [| n IH]; intros elems cur.
  - apply preserves_timeout.
  - simpl. unfold Open.parseListLoop, Open.makeCar, Open.makeCdr. maps_tac.
Qed.

Lemma parseList_sameMaps fuel e : preserves sameMaps (parseList fuel e).
Proof. apply parseListLoop_sameMaps. Qed.

Lemma makeReference_sameMaps env name : preserves sameMaps (makeReference env name).
Proof. unfold makeReference. maps_tac. Qed.

Lemma sameMaps_bindingsKept s s' : sameMaps s s' -> bindingsKept s s'.
Proof. intros H d name e. unfold mapAt. now rewrite H. Qed.

Lemma step_bindingsKept s s' : step s s' -> bindingsKept s s'.
Proof.
  intros [fuel e s0 s1 H | fuel args s0 s1 H | fuel e s0 s1 H | fuel e s0 s1 H
         | env name s0 s1 H | parent s0 s1 H | env name e s0 s1 H].
  - apply sameMaps_bindingsKept, (evaluate_sameMaps fuel e), H.
  - apply sameMaps_bindingsKept, (makeApply_sameMaps fuel args), H.
  - apply sameMaps_bindingsKept, (isNil_sameMaps _ _ (makeApply_sameMaps fuel) (evaluate_sameMaps fuel) e), H.
  - apply sameMaps_bindingsKept, (exprToStaticData_sameMaps fuel e), H.
  - apply sameMaps_bindingsKept, (makeReference_sameMaps env name), H.
  - intros d name e Hb. unfold mapAt in *. injection H as <-. simpl.
    destruct (maps s0 !! d) as [m |] eqn:Hm; [| simpl in Hb; now rewrite lookup_empty in Hb].
    now rewrite (lookup_app_l_Some _ _ _ _ Hm).
  - destruct env as [d0 parent]. unfold define in H.
    destruct (mapAt s0 d0 !! name) eqn:Hfresh; [injection H as <-; now intros ? ? ? |].
    injection H as <-. intros d name' e' Hb. unfold mapAt in *. simpl.
    destruct (decide (d = d0)) as [-> | Hne].
    + destruct (maps s0 !! d0) as [m |] eqn:Hm; [| simpl in Hb; now rewrite lookup_empty in Hb].
      rewrite list_lookup_insert_eq by (now apply lookup_lt_Some in Hm). simpl in *.
      rewrite lookup_insert_ne; [exact Hb | intros ->; congruence].
    + now rewrite list_lookup_insert_ne by congruence.
Qed.

Lemma steps_bindingsKept s s' : rtc step s s' -> bindingsKept s s'.
Proof.
  induction 1 as [s | s1 s2 s3 H12 _ IH]; [now intros ? ? ? |].
  intros d name e Hb. apply IH, (step_bindingsKept _ _ H12), Hb.
Qed.

(** ** Built-in operators *)

Lemma evaluateApply_monotone args : monotone (fun fuel => evaluateApply fuel args).
Proof.
  apply (monotone_bind (fun fuel => makeApply fuel args) (fun e fuel => evaluate fuel e)).
  - apply FnProps.makeApply_monotone.
  - intros e. apply FnProps.evaluate_monotone.
Qed.

Lemma runRecipe_monotone f : monotone (fun fuel => runRecipe fuel f).
Proof.
  intros fuel. apply FnProps.runRecipe_approx.
  - intros args. apply FnProps.makeApply_mono_S.
  - intros e. apply FnProps.evaluate_mono_S.
Qed.

(** A thunk forced right after its allocation: the recipe runs in the store
    that holds the new thunk, the counter stepped. *)
Lemma evaluate_new_thunk f s r :
  finishes (fun fuel => runRecipe fuel f) (entered s f) r ->
  finishes (fun fuel => let* e := makeThunk f in evaluate fuel e) s
           (outcome (length (thunks s)) r).
Proof.
  intros [Hne [n Hn]]. split; [destruct r; [discriminate | discriminate | congruence] |].
  exists (S n). rewrite FnProps.evaluate_fresh. fold (entered s f). rewrite Hn.
  now destruct r.
Qed.

Lemma evaluate_new_thunk_inv f s r :
  finishes (fun fuel => let* e := makeThunk f in evaluate fuel e) s r ->
  exists r0, finishes (fun fuel => runRecipe fuel f) (entered s f) r0 /\
             r = outcome (length (thunks s)) r0.
Proof.
  intros [Hne [n Hn]]. destruct n as [| n]; [cbv in Hn; congruence |].
  rewrite FnProps.evaluate_fresh in Hn. fold (entered s f) in Hn.
  exists (runRecipe n f (entered s f)). split.
  - apply (finishes_at _ _ _ n); [reflexivity |].
    intros E. rewrite E in Hn. congruence.
  - rewrite <- Hn. now destruct (runRecipe n f (entered s f)).
Qed.

(** An application that builds the thunk of [f], forced. *)
Lemma evaluateApply_thunk args f s r :
  (forall fuel s, makeApply (S fuel) args s = makeThunk f s) ->
  finishes (fun fuel => runRecipe fuel f) (entered s f) r ->
  finishes (fun fuel => evaluateApply fuel args) s (outcome (length (thunks s)) r).
Proof.
  intros Hbuild Hrun. apply (finishes_shift _ _ _ 1 (evaluateApply_monotone args)).
  apply evaluate_new_thunk in Hrun.
  apply (finishes_shift _ _ _ 1) in Hrun.
  2:{ apply (monotone_bind (fun _ => makeThunk f) (fun e fuel => evaluate fuel e)).
      - intros fuel. apply approx_refl.
      - intros e. apply FnProps.evaluate_monotone. }
  eapply finishes_ext; [| exact Hrun].
  intros fuel. unfold evaluateApply. simpl (1 + fuel). apply bind_cong_l.
  symmetry. apply Hbuild.
Qed.

Lemma runRecipe_unary (R : Expr -> Recipe) op g :
  (forall fuel a s, runRecipe fuel (R a) s =
     (let* x := evaluate fuel a in Open.arith1 op g x) s) ->
  forall a s0 v s1,
  finishes (fun fuel => evaluate fuel a) s0 (Ret v s1) ->
  finishes (fun fuel => runRecipe fuel (R a)) s0
    (match v with
     | NumberValue n => Ret (g n) s1
     | _ => Throw (WrongTypes op [kind v]) s1
     end).
Proof.
  intros HR a s0 v s1 [_ [n Hn]].
  apply (finishes_at _ _ _ n); [| now destruct v].
  rewrite HR. unfold bind. rewrite Hn. now destruct v.
Qed.

Lemma runRecipe_binary (R : Expr -> Expr -> Recipe) op g :
  (forall fuel a b s, runRecipe fuel (R a b) s =
     (let* x := evaluate fuel a in let* y := evaluate fuel b in Open.arith2 op g x y) s) ->
  (forall n m s, g n m s <> Timeout) ->
  forall a b s0 v s1 w s2,
  finishes (fun fuel => evaluate fuel a) s0 (Ret v s1) ->
  finishes (fun fuel => evaluate fuel b) s1 (Ret w s2) ->
  finishes (fun fuel => runRecipe fuel (R a b)) s0
    (match v, w with
     | NumberValue n, NumberValue m => g n m s2
     | _, _ => Throw (WrongTypes op [kind v; kind w]) s2
     end).
Proof.
  intros HR Hg a b s0 v s1 w s2 Ha Hb.
  destruct (finishes_from _ _ _ (FnProps.evaluate_monotone a) Ha) as [na Hna].
  destruct (finishes_from _ _ _ (FnProps.evaluate_monotone b) Hb) as [nb Hnb].
  apply (finishes_at _ _ _ (Nat.max na nb)).
  - rewrite HR. unfold bind. rewrite Hna by lia. rewrite Hnb by lia.
    destruct v, w; reflexivity.
  - destruct v; try discriminate. destruct w; try discriminate. apply Hg.
Qed.

Ltac table H :=
  repeat (destruct H as [H | H]; [injection H as <- <- <- <- |]); [.. | destruct H].

Lemma unary_operator f R op g :
  (forall fuel a s, makeApply (S fuel) [Val (makeFunc f); a] s = makeThunk (R a) s) ->
  (forall fuel a s, runRecipe fuel (R a) s =
     (let* x := evaluate fuel a in Open.arith1 op (fun n => NumberValue (g n)) x) s) ->
  forall a s v s1,
    finishes (fun fuel => evaluate fuel a) (entered s (R a)) (Ret v s1) ->
    finishes (fun fuel => evaluateApply fuel [Val (makeFunc f); a]) s
      (match v with
       | NumberValue n =>
           Ret (NumberValue (g n)) (settled (length (thunks s)) (NumberValue (g n)) s1)
       | _ => Throw (WrongTypes op [kind v]) s1
       end).
Proof.
  intros Hbuild Hrun a s v s1 Ha.
  assert (H : finishes (fun fuel => evaluateApply fuel [Val (makeFunc f); a]) s
                (outcome (length (thunks s))
                   (match v with
                    | NumberValue n => Ret (NumberValue (g n)) s1
                    | _ => Throw (WrongTypes op [kind v]) s1
                    end))); [| now destruct v].
  apply (evaluateApply_thunk _ (R a)); [intros; apply Hbuild |].
  exact (runRecipe_unary R op _ Hrun a _ v s1 Ha).
Qed.

Lemma unary_operators f R op g :
  In (f, R, op, g) [(FInc, RInc, "inc", fun n => n + 1); (FDec, RDec, "dec", fun n => n - 1);
                    (FNeg, RNeg, "neg", Z.opp)]%Z ->
  forall a s v s1,
    finishes (fun fuel => evaluate fuel a) (entered s (R a)) (Ret v s1) ->
    finishes (fun fuel => evaluateApply fuel [Val (makeFunc f); a]) s
      (match v with
       | NumberValue n =>
           Ret (NumberValue (g n)) (settled (length (thunks s)) (NumberValue (g n)) s1)
       | _ => Throw (WrongTypes op [kind v]) s1
       end).
Proof.
  intros Hin. table Hin; apply unary_operator; intros; reflexivity.
Qed.

Lemma binary_operator f R op g :
  (forall fuel a b s, makeApply (S fuel) [Val (makeFunc2 f); a; b] s = makeThunk (R a b) s) ->
  (forall fuel a b s, runRecipe fuel (R a b) s =
     (let* x := evaluate fuel a in
      let* y := evaluate fuel b in
      Open.arith2 op (fun n m => ret (g n m)) x y) s) ->
  forall a b s v s1 w s2,
    finishes (fun fuel => evaluate fuel a) (entered s (R a b)) (Ret v s1) ->
    finishes (fun fuel => evaluate fuel b) s1 (Ret w s2) ->
    finishes (fun fuel => evaluateApply fuel [Val (makeFunc2 f); a; b]) s
      (match v, w with
       | NumberValue n, NumberValue m =>
           Ret (g n m) (settled (length (thunks s)) (g n m) s2)
       | _, _ => Throw (WrongTypes op [kind v; kind w]) s2
       end).
Proof.
  intros Hbuild Hrun a b s v s1 w s2 Ha Hb.
  assert (H : finishes (fun fuel => evaluateApply fuel [Val (makeFunc2 f); a; b]) s
                (outcome (length (thunks s))
                   (match v, w with
                    | NumberValue n, NumberValue m => Ret (g n m) s2
                    | _, _ => Throw (WrongTypes op [kind v; kind w]) s2
                    end))); [| now destruct v, w].
  apply (evaluateApply_thunk _ (R a b)); [intros; apply Hbuild |].
  apply (runRecipe_binary R op _ Hrun) with (s1 := s1); [discriminate | exact Ha | exact Hb].
Qed.

Lemma binary_operators f R op g :
  In (f, R, op, g)
     [(FAdd, RAdd, "add", fun n m => NumberValue (n + m));
      (FMul, RMul, "mul", fun n m => NumberValue (n * m));
      (FEq, REq, "eq", fun n m => makeBoolean (Z.eqb n m));
      (FLt, RLt, "lt", fun n m => makeBoolean (Z.ltb n m))]%Z ->
  forall a b s v s1 w s2,
    finishes (fun fuel => evaluate fuel a) (entered s (R a b)) (Ret v s1) ->
    finishes (fun fuel => evaluate fuel b) s1 (Ret w s2) ->
    finishes (fun fuel => evaluateApply fuel [Val (makeFunc2 f); a; b]) s
      (match v, w with
       | NumberValue n, NumberValue m =>
           Ret (g n m) (settled (length (thunks s)) (g n m) s2)
       | _, _ => Throw (WrongTypes op [kind v; kind w]) s2
       end).
Proof.
  intros Hin. table Hin; apply binary_operator; intros; reflexivity.
Qed.

Lemma div_operator a b s v s1 w s2 :
  finishes (fun fuel => evaluate fuel a) (entered s (RDiv a b)) (Ret v s1) ->
  finishes (fun fuel => evaluate fuel b) s1 (Ret w s2) ->
  finishes (fun fuel => evaluateApply fuel [Val (makeFunc2 FDiv); a; b]) s
    (match v, w with
     | NumberValue n, NumberValue m =>
         if Z.eqb m 0 then Throw DivisionByZero s2
         else Ret (NumberValue (Z.quot n m))
                  (settled (length (thunks s)) (NumberValue (Z.quot n m)) s2)
     | _, _ => Throw (WrongTypes "div" [kind v; kind w]) s2
     end).
Proof.
  intros Ha Hb.
  assert (H : finishes (fun fuel => evaluateApply fuel [Val (makeFunc2 FDiv); a; b]) s
                (outcome (length (thunks s))
                   (match v, w with
                    | NumberValue n, NumberValue m => Open.bigintDiv n m s2
                    | _, _ => Throw (WrongTypes "div" [kind v; kind w]) s2
                    end))).
  { apply (evaluateApply_thunk _ (RDiv a b)); [intros; reflexivity |].
    apply (runRecipe_binary RDiv "div" Open.bigintDiv) with (s1 := s1);
      [intros; reflexivity | | exact Ha | exact Hb].
    intros n m s'. unfold Open.bigintDiv. now destruct (Z.eqb m 0). }
  destruct v as [n | | |]; try exact H. destruct w as [m | | |]; try exact H.
  unfold Open.bigintDiv in H. now destruct (Z.eqb m 0).
Qed.

(** ** Building applications *)

(** ** [makeApply] folds its arguments from the left *)

Lemma makeApply_left_fold fuel :
  (forall s, makeApply (S fuel) [] s = Throw ReduceOfEmptyArray s) /\
  (forall e s, makeApply (S fuel) [e] s = Ret e s) /\
  (forall f args x s,
     makeApply (S fuel) (f :: args ++ [x]) s =
     (let* g := makeApply (S fuel) (f :: args) in makeApply (S fuel) [g; x]) s).
Proof.
  split; [reflexivity |]. split; [reflexivity |].
  intros f args x s. simpl. unfold Open.makeApplyBody. rewrite reduce_app.
  unfold bind. destruct (reduce _ args f s) as [g s1 | |]; [| reflexivity | reflexivity].
  reflexivity.
Qed.

(** ** Deferred application *)

Lemma makeApply_value_step fuel v x s :
  makeApply (S fuel) [Val v; x] s = Open.makeApplyStep (makeApply fuel) (Val v) x s.
Proof.
  change (makeApply (S fuel) [Val v; x] s)
    with (bind (Open.makeApplyStep (makeApply fuel) (Val v) x) ret s).
  unfold bind, ret. now destruct (Open.makeApplyStep (makeApply fuel) (Val v) x s).
Qed.

Lemma apply_as_makeApply fuel lhs rhs s :
  apply (S fuel) lhs rhs s =
  (let* v := evaluate (S fuel) lhs in
   let* e := makeApply (S (S fuel)) [Val v; rhs] in
   evaluate (S fuel) e) s.
Proof.
  unfold apply, Open.apply, bind.
  destruct (evaluate (S fuel) lhs s) as [v s1 | |]; [| reflexivity | reflexivity].
  rewrite makeApply_value_step.
  destruct v as [n | f | | car cdr]; try reflexivity.
Qed.

Lemma deferred_application l x s v s1 r :
  finishes (fun fuel => evaluate fuel (Thunk l)) (entered s (RApply (Thunk l) x)) (Ret v s1) ->
  finishes (fun fuel => evaluateApply fuel [Val v; x]) s1 r ->
  finishes (fun fuel => evaluateApply fuel [Thunk l; x]) s (outcome (length (thunks s)) r).
Proof.
  intros Hl Hr. apply (evaluateApply_thunk _ (RApply (Thunk l) x)); [intros; reflexivity |].
  destruct (finishes_from _ _ _ (FnProps.evaluate_monotone _) Hl) as [n1 Hn1].
  destruct (finishes_from _ _ _ (evaluateApply_monotone _) Hr) as [n2 Hn2].
  apply (finishes_at _ _ _ (S (S (Nat.max n1 n2)))); [| apply Hr].
  change (runRecipe (S (S (Nat.max n1 n2))) (RApply (Thunk l) x))
    with (apply (S (S (Nat.max n1 n2))) (Thunk l) x).
  rewrite apply_as_makeApply. unfold bind at 1. rewrite Hn1 by lia.
  specialize (Hn2 (S (S (Nat.max n1 n2))) ltac:(lia)). unfold evaluateApply, bind in Hn2.
  unfold bind.
  destruct (FnProps.makeApply_mono_S (S (S (Nat.max n1 n2))) [Val v; x] s1) as [Ht | He].
  - rewrite Ht in Hn2. destruct Hr as [Hne _]. congruence.
  - rewrite <- He. exact Hn2.
Qed.

(** ** Combinators *)

Lemma combinators_build fuel s :
  (forall a, makeApply (S fuel) [Val (makeFunc FI); a] s = Ret a s) /\
  (forall x y, makeApply (S fuel) [Val (makeBoolean true); x; y] s = Ret x s) /\
  (forall x y, makeApply (S fuel) [Val (makeBoolean false); x; y] s = Ret y s) /\
  (forall a b c,
     makeApply (S fuel) [Val (makeFunc3 FC); a; b; c] s = makeApply fuel [a; c; b] s) /\
  (forall a b c,
     makeApply (S fuel) [Val (makeFunc3 FB); a; b; c] s =
     (let* bc := makeApply fuel [b; c] in makeApply fuel [a; bc]) s) /\
  (forall a b c,
     makeApply (S fuel) [Val (makeFunc3 FS); a; b; c] s = makeThunk (RS a b c) s).
Proof.
  repeat split; intros; try reflexivity.
  - change (makeApply (S fuel) [Val (makeFunc3 FC); a; b; c] s)
      with (bind (makeApply fuel [a; c; b]) ret s).
    unfold bind, ret. now destruct (makeApply fuel [a; c; b] s).
  - change (makeApply (S fuel) [Val (makeFunc3 FB); a; b; c] s)
      with (bind (let* bc := makeApply fuel [b; c] in makeApply fuel [a; bc]) ret s).
    unfold bind, ret. destruct (makeApply fuel [b; c] s) as [bc s1 | |]; try reflexivity.
    now destruct (makeApply fuel [a; bc] s1).
Qed.

Lemma combinator_S a b c s r :
  finishes (fun fuel => sBody fuel a b c) (entered s (RS a b c)) r ->
  finishes (fun fuel => evaluateApply fuel [Val (makeFunc3 FS); a; b; c]) s
           (outcome (length (thunks s)) r).
Proof.
  intros H. apply (evaluateApply_thunk _ (RS a b c)); [intros; reflexivity |]. exact H.
Qed.

(** ** Pairs and lists by name *)

Lemma list_primitives_build fuel s :
  (forall a b, makeApply (S fuel) [Val (makeFunc2 FCons); a; b] s = Ret (Val (makeCons a b)) s) /\
  (forall a b,
     makeApply (S (S (S fuel))) [Val (makeFunc FCar); Val (makeCons a b)] s = Ret a s /\
     makeApply (S (S (S fuel))) [Val (makeFunc FCdr); Val (makeCons a b)] s = Ret b s) /\
  (makeApply (S (S fuel)) [Val (makeFunc FCar); Val makeNil] s = Ret (Val (makeBoolean true)) s /\
   makeApply (S (S fuel)) [Val (makeFunc FCdr); Val makeNil] s = Ret (Val (makeBoolean true)) s) /\
  (forall n,
     makeApply (S (S fuel)) [Val (makeFunc FCar); Val (makeNumber n)] s =
       Throw InvalidFunctionCall s /\
     makeApply (S (S fuel)) [Val (makeFunc FCdr); Val (makeNumber n)] s =
       Throw InvalidFunctionCall s) /\
  (forall l,
     makeApply (S (S fuel)) [Val (makeFunc FCar); Thunk l] s =
       makeThunk (RApply (Thunk l) (Val (makeBoolean true))) s /\
     makeApply (S (S fuel)) [Val (makeFunc FCdr); Thunk l] s =
       makeThunk (RApply (Thunk l) (Val (makeBoolean false))) s).
Proof. repeat split; intros; reflexivity. Qed.

Lemma evaluateApply_value v s : finishes (fun fuel => evaluate fuel (Val v)) s (Ret v s).
Proof. apply (finishes_at _ _ _ 1); [reflexivity | discriminate]. Qed.

Lemma makeApply_projection fuel (sel : bool) e s :
  makeApply (S fuel) [Val (makeFunc (if sel then FCar else FCdr)); e] s =
  makeApply fuel [e; Val (makeBoolean sel)] s.
Proof.
  destruct sel.
  - change (makeApply (S fuel) [Val (makeFunc FCar); e] s)
      with (bind (makeApply fuel [e; Val (makeBoolean true)]) ret s).
    unfold bind, ret. now destruct (makeApply fuel _ s).
  - change (makeApply (S fuel) [Val (makeFunc FCdr); e] s)
      with (bind (makeApply fuel [e; Val (makeBoolean false)]) ret s).
    unfold bind, ret. now destruct (makeApply fuel _ s).
Qed.

(** [car] and [cdr] of an expression that is not forced yet: the projection
    is deferred; forced, it forces the expression and then the component. *)
Lemma projection_of_thunk (sel : bool) l s a b s1 r :
  finishes (fun fuel => evaluate fuel (Thunk l))
           (entered s (RApply (Thunk l) (Val (makeBoolean sel)))) (Ret (ConsValue a b) s1) ->
  finishes (fun fuel => evaluate fuel (if sel then a else b)) s1 r ->
  finishes (fun fuel => evaluateApply fuel
                          [Val (makeFunc (if sel then FCar else FCdr)); Thunk l]) s
           (outcome (length (thunks s)) r).
Proof.
  intros Hl Hr.
  apply (finishes_approx (fun fuel => evaluateApply fuel [Thunk l; Val (makeBoolean sel)])).
  { intros fuel. exists (S fuel). unfold evaluateApply.
    apply approx_bind; [| intros e; apply FnProps.evaluate_mono_S].
    intros s0. right. symmetry. apply makeApply_projection. }
  eapply deferred_application; [exact Hl |].
  revert Hr. apply finishes_approx. intros fuel. exists (S (S fuel)).
  intros s0. destruct (FnProps.evaluate_mono fuel (S (S fuel)) (if sel then a else b)
                         ltac:(lia) s0) as [Ht | He]; [now left | right].
  rewrite He. now destruct sel.
Qed.

Lemma isnil_operator a s v s1 :
  finishes (fun fuel => evaluate fuel a) (entered s (RIsNil a)) (Ret v s1) ->
  kind v <> KFunc ->
  finishes (fun fuel => evaluateApply fuel [Val (makeFunc FIsNil); a]) s
    (let b := makeBoolean (match v with NilValue => true | _ => false end) in
     Ret b (settled (length (thunks s)) b s1)).
Proof.
  intros [_ [n Hn]] Hk.
  apply (evaluateApply_thunk _ (RIsNil a) s (Ret _ s1)); [intros; reflexivity |].
  apply (finishes_at _ _ _ n); [| discriminate].
  change (runRecipe n (RIsNil a)) with (let* r := isNil n a in @ret State _ (makeBoolean r)).
  unfold bind. rewrite (FnProps.isNil_tagged _ _ _ _ _ Hn).
  destruct v; try reflexivity. now contradiction Hk.
Qed.

(** ** Static data and lists *)

Section Canonical.
Variable ma : list Expr -> M Expr.
Variable ev : Expr -> M Value.
Variable loop : list StaticData -> Value -> M StaticData.
Hypothesis Hev : forall v, returnsOnly (eq v) (ev (Val v)).
Hypothesis Hloop : forall elems cur,
  Forall (fun d => canonical d = true) elems ->
  returnsOnly (fun d => canonical d = true) (loop elems cur).

Lemma exprToStaticData_body_canonical e :
  returnsOnly (fun d => canonical d = true) (Open.exprToStaticData ev loop e).
Proof.
  unfold Open.exprToStaticData.
  apply (returnsOnly_bind (fun _ => True)); [apply returnsOnly_any |].
  intros [n | f | | car cdr] _; try (apply Hloop; constructor).
  now apply returnsOnly_ret.
Qed.

Lemma exprToStaticDataLoop_body_canonical elems cur :
  Forall (fun d => canonical d = true) elems ->
  returnsOnly (fun d => canonical d = true)
    (Open.exprToStaticDataLoop ma ev loop elems cur).
Proof.
  intros Helems.
  assert (Hnext : returnsOnly (fun d => canonical d = true)
            (let* nil := Open.isNil ma ev (Val cur) in
             if nil then ret (ListData elems)
             else
               let* car := Open.makeCar ma (Val cur) in
               let* d := Open.exprToStaticData ev loop car in
               let* cdr := Open.makeCdr ma (Val cur) in
               let* next := ev cdr in
               loop (elems ++ [d]) next)).
  { apply (returnsOnly_bind (fun _ => True)); [apply returnsOnly_any |].
    intros [|] _; [apply returnsOnly_ret, canonical_list, Helems |].
    apply (returnsOnly_bind (fun _ => True)); [apply returnsOnly_any |]. intros car _.
    apply (returnsOnly_bind (fun d => canonical d = true));
      [apply exprToStaticData_body_canonical |]. intros d Hd.
    apply (returnsOnly_bind (fun _ => True)); [apply returnsOnly_any |]. intros cdr _.
    apply (returnsOnly_bind (fun _ => True)); [apply returnsOnly_any |]. intros next _.
    apply Hloop. apply Forall_app. split; [exact Helems | now constructor]. }
  destruct cur as [n | f | | car cdr]; try exact Hnext.
  unfold Open.exprToStaticDataLoop.
  apply (returnsOnly_bind (fun d => d = NumberData n)).
  - unfold Open.exprToStaticData. apply (returnsOnly_bind (eq (NumberValue n))); [apply Hev |].
    intros v <-. now apply returnsOnly_ret.
  - intros d ->. unfold Open.finishCons. rewrite reduceRight_snoc.
    apply returnsOnly_ret, canonical_chain, Helems.
Qed.
End Canonical.

Lemma evaluate_of_value fuel v : returnsOnly (eq v) (evaluate fuel (Val v)).
Proof. destruct fuel; intros s a s' [=]. now subst. Qed.

Lemma exprToStaticDataLoop_canonical fuel elems cur :
  Forall (fun d => canonical d = true) elems ->
  returnsOnly (fun d => canonical d = true) (exprToStaticDataLoop fuel elems cur).
Proof.
  revert elems cur. induction fuel as [| n IH]; intros elems cur Helems.
  - apply returnsOnly_timeout.
  - apply exprToStaticDataLoop_body_canonical; [apply evaluate_of_value | exact IH | exact Helems].
Qed.

Lemma exprToStaticData_canonical fuel e s d s' :
  exprToStaticData fuel e s = Ret d s' -> canonical d = true.
Proof.
  apply (exprToStaticData_body_canonical (evaluate fuel) (exprToStaticDataLoop fuel)).
  apply exprToStaticDataLoop_canonical.
Qed.

(** ** [parseList] *)

Lemma parseListLoop_spine_nil es : forall elems fuel s,
  parseListLoop (3 + length es + fuel) elems (spine es (Val makeNil)) s = Ret (elems ++ es) s.
Proof.
  induction es as [| e es IH]; intros elems fuel s.
  - simpl. now rewrite app_nil_r.
  - change (3 + length (e :: es) + fuel) with (S (3 + length es + fuel)).
    change (parseListLoop (S (3 + length es + fuel)) elems (spine (e :: es) (Val makeNil)) s)
      with (parseListLoop (3 + length es + fuel) (elems ++ [e]) (spine es (Val makeNil)) s).
    rewrite IH. now rewrite <- app_assoc.
Qed.

Lemma parseListLoop_spine_number es n : forall elems fuel s,
  parseListLoop (3 + length es + fuel) elems (spine es (Val (makeNumber n))) s =
  Throw InvalidFunctionCall s.
Proof.
  induction es as [| e es IH]; intros elems fuel s.
  - reflexivity.
  - change (3 + length (e :: es) + fuel) with (S (3 + length es + fuel)).
    change (parseListLoop (S (3 + length es + fuel)) elems
              (spine (e :: es) (Val (makeNumber n))) s)
      with (parseListLoop (3 + length es + fuel) (elems ++ [e])
              (spine es (Val (makeNumber n))) s).
    apply IH.
Qed.

(** ** Well-formed stores *)

Scheme Value_mut := Induction for Value Sort Prop
  with Expr_mut := Induction for Expr Sort Prop
  with Closure_mut := Induction for Closure Sort Prop.
Combined Scheme Value_Expr_Closure_ind from Value_mut, Expr_mut, Closure_mut.

Lemma closed_mono n m :
  n <= m ->
  (forall v, closedValue n v = true -> closedValue m v = true) /\
  (forall e, closedExpr n e = true -> closedExpr m e = true) /\
  (forall c, closedClosure n c = true -> closedClosure m c = true).
Proof.
  intros Hle. apply Value_Expr_Closure_ind; simpl; try tauto.
  - intros car IHcar cdr IHcdr H. apply andb_true_iff in H as [H1 H2].
    now rewrite IHcar, IHcdr.
  - intros l H. apply Nat.ltb_lt in H. apply Nat.ltb_lt. lia.
  - intros f a IHa b IHb H. apply andb_true_iff in H as [H1 H2].
    now rewrite IHa, IHb.
Qed.

Lemma closedValue_mono n m v : n <= m -> closedValue n v = true -> closedValue m v = true.
Proof. intros H. apply (closed_mono n m H). Qed.

Lemma closedExpr_mono n m e : n <= m -> closedExpr n e = true -> closedExpr m e = true.
Proof. intros H. apply (closed_mono n m H). Qed.

Lemma closedClosure_mono n m c : n <= m -> closedClosure n c = true -> closedClosure m c = true.
Proof. intros H. apply (closed_mono n m H). Qed.

Lemma closedRecipe_mono n m f : n <= m -> closedRecipe n f = true -> closedRecipe m f = true.
Proof.
  intros Hle. destruct f; simpl; try tauto;
    rewrite ?andb_true_iff; intuition eauto using closedExpr_mono.
Qed.

Lemma cellOk_mono n m c : n <= m -> cellOk n c = true -> cellOk m c = true.
Proof.
  intros Hle. unfold cellOk. destruct (func c), (cache c); try discriminate.
  - now apply closedRecipe_mono.
  - now apply closedValue_mono.
Qed.

Lemma wellFormed_emptyState : wellFormed emptyState.
Proof. split; constructor. Qed.

(** ** The triple *)

Lemma safe_ret {A} (C : nat -> A -> bool) n (a : A) :
  (forall m, n <= m -> C m a = true) -> safe C n (ret a).
Proof. intros H s Hwf Hn. simpl. auto. Qed.

Lemma safe_throw {A} (C : nat -> A -> bool) n e :
  e <> BrokenThunk -> safe C n (throw e).
Proof. intros H s Hwf Hn. simpl. auto. Qed.

Lemma safe_timeout {A} (C : nat -> A -> bool) n : safe C n timeout.
Proof. now intros s Hwf Hn. Qed.

Lemma safe_bind {A B} (C1 : nat -> A -> bool) (C2 : nat -> B -> bool) n m k :
  safe C1 n m ->
  (forall a n', n <= n' -> C1 n' a = true -> safe C2 n' (k a)) ->
  safe C2 n (bind m k).
Proof.
  intros Hm Hk s Hwf Hn. unfold bind. specialize (Hm s Hwf Hn).
  destruct (m s) as [a s1 | e s1 |]; [| exact Hm | exact I].
  destruct Hm as (Hwf1 & Hlen & Ha).
  specialize (Hk a (length (thunks s1)) ltac:(lia) Ha s1 Hwf1 ltac:(lia)).
  destruct (k a s1) as [b s2 | e s2 |]; [| | exact I].
  - destruct Hk as (? & ? & ?). split; [assumption | split; [lia | assumption]].
  - destruct Hk as (? & ? & ?). split; [assumption | split; [lia | assumption]].
Qed.

Lemma safe_weaken {A} (C C' : nat -> A -> bool) n m :
  safe C n m -> (forall k a, C k a = true -> C' k a = true) -> safe C' n m.
Proof.
  intros H HC s Hwf Hn. specialize (H s Hwf Hn).
  destruct (m s); intuition auto.
Qed.

Lemma safe_reduce (f : Expr -> Expr -> M Expr) :
  (forall n b a, closedExpr n b = true -> closedExpr n a = true -> safe closedExpr n (f b a)) ->
  forall l n acc,
    closedList n l = true -> closedExpr n acc = true -> safe closedExpr n (reduce f l acc).
Proof.
  intros Hf l. induction l as [| x l IH]; intros n acc Hl Hacc; simpl.
  - apply safe_ret. intros m Hle. eapply closedExpr_mono; eassumption.
  - simpl in Hl. apply andb_true_iff in Hl as [Hx Hl].
    apply (safe_bind closedExpr); [now apply Hf |].
    intros acc' n' Hle Hacc'. apply IH; [| exact Hacc'].
    unfold closedList in *. rewrite forallb_forall in *.
    intros a Ha. eapply closedExpr_mono; [exact Hle | now apply Hl].
Qed.

(** ** Primitives *)

Lemma wellFormed_grow s c :
  wellFormed s -> cellOk (length (thunks s)) c = true ->
  wellFormed {| thunks := thunks s ++ [c]; maps := maps s; evalCounter := evalCounter s |}.
Proof.
  intros [Ht Hm] Hc. unfold wellFormed. simpl. rewrite length_app. simpl. split.
  - apply Forall_app. split.
    + eapply Forall_impl; [exact Ht |]. intros c0. apply cellOk_mono. lia.
    + constructor; [| constructor]. eapply cellOk_mono; [| exact Hc]. lia.
  - eapply Forall_impl; [exact Hm |]. intros m Hmf.
    eapply map_Forall_impl; [exact Hmf |].
    intros k e. apply closedExpr_mono. lia.
Qed.

Lemma makeThunk_safe n f : closedRecipe n f = true -> safe closedExpr n (makeThunk f).
Proof.
  intros Hf s Hwf Hn. simpl. split; [| split].
  - apply wellFormed_grow; [exact Hwf |]. unfold cellOk. simpl.
    eapply closedRecipe_mono; eassumption.
  - rewrite length_app. lia.
  - rewrite length_app. simpl. apply Nat.ltb_lt. lia.
Qed.

Lemma readThunk_safe n l : l < n -> safe cellOk n (readThunk l).
Proof.
  intros Hl s Hwf Hn. simpl. split; [exact Hwf |]. split; [lia |].
  destruct (lookup_lt_is_Some_2 (thunks s) l ltac:(lia)) as [c E].
  rewrite (FnProps.thunkAt_lookup _ _ _ E).
  destruct Hwf as [Ht _]. rewrite Forall_lookup in Ht. eapply Ht, E.
Qed.

Lemma writeThunk_safe n l v :
  closedValue n v = true -> safe anything n (writeThunk l (forced v)).
Proof.
  intros Hv s [Ht Hm] Hn. simpl. unfold wellFormed. simpl. rewrite length_insert.
  split; [| split; [lia | reflexivity]]. split; [| exact Hm].
  apply Forall_insert; [exact Ht |]. unfold cellOk. simpl.
  eapply closedValue_mono; eassumption.
Qed.

Lemma incrEvalCounter_safe n : safe anything n incrEvalCounter.
Proof. intros s Hwf Hn. simpl. split; [exact Hwf | split; [lia | reflexivity]]. Qed.

Lemma lookup_closed env name s e :
  wellFormed s -> lookup env name s = Some e -> closedExpr (length (thunks s)) e = true.
Proof.
  intros [_ Hm]. rewrite Forall_lookup in Hm.
  induction env as [d | d p IH] using Environment_chain_ind; simpl; unfold mapAt;
    destruct (maps s !! d) as [m |] eqn:Ed; simpl.
  - destruct (m !! name) as [e' |] eqn:En; [| discriminate].
    intros [= <-]. exact (Hm d m Ed name e' En).
  - rewrite lookup_empty. discriminate.
  - destruct (m !! name) as [e' |] eqn:En; [| exact IH].
    intros [= <-]. exact (Hm d m Ed name e' En).
  - rewrite lookup_empty. exact IH.
Qed.

Lemma envLookup_safe n env name : safe closedOption n (envLookup env name).
Proof.
  intros s Hwf Hn. simpl. split; [exact Hwf |]. split; [lia |].
  destruct (lookup env name s) as [e |] eqn:He; [| reflexivity].
  simpl. eapply lookup_closed; eassumption.
Qed.

(** ** The functions *)

Ltac closed_side :=
  simpl in *;
  repeat match goal with
         | H : _ && _ = true |- _ => apply andb_true_iff in H as [? ?]
         end;
  rewrite ?andb_true_iff; repeat split;
  first [ assumption
        | reflexivity
        | eapply closedExpr_mono; [| eassumption]; lia
        | eapply closedValue_mono; [| eassumption]; lia
        | eapply closedClosure_mono; [| eassumption]; lia ].

Ltac safe_tac :=
  repeat first
    [ match goal with
      | |- safe _ _ (ret _) => apply safe_ret; intros; solve [closed_side]
      | |- safe _ _ (throw _) => apply safe_throw; discriminate
      | |- safe _ _ (makeThunk _) => apply makeThunk_safe; solve [closed_side]
      | |- safe _ _ (bind incrEvalCounter _) =>
          apply (safe_bind anything); [apply incrEvalCounter_safe | intros ? ? ? ?]
      | |- safe _ _ (match ?x with _ => _ end) => destruct x
      | |- safe _ _ (if ?x then _ else _) => destruct x
      end ].

Section Build.
Variable ma : list Expr -> M Expr.
Hypothesis Hma : forall n args, closedList n args = true -> safe closedExpr n (ma args).

Lemma callFunc_safe n f a :
  closedClosure n f = true -> closedExpr n a = true ->
  safe closedExpr n (Open.callFunc ma f a).
Proof.
  intros Hf Ha.
  destruct f as [[]|g|[] x|g|g x|[] x y];
    cbv [Open.callFunc Open.call1 Open.call2 Open.call3 Open.makeCar Open.makeCdr
         Open.builtinC Open.builtinB Open.builtinInc Open.builtinDec Open.builtinNeg
         Open.builtinI Open.builtinIsNil Open.builtinAdd Open.builtinMul Open.builtinDiv
         Open.builtinEq Open.builtinLt Open.builtinS];
    safe_tac; try (apply Hma; solve [closed_side]).
  apply (safe_bind closedExpr); [apply Hma; closed_side |].
  intros bc n' Hle Hbc. apply Hma. closed_side.
Qed.

Lemma makeApplyStep_safe n lhs rhs :
  closedExpr n lhs = true -> closedExpr n rhs = true ->
  safe closedExpr n (Open.makeApplyStep ma lhs rhs).
Proof.
  intros Hl Hr. unfold Open.makeApplyStep.
  destruct lhs as [[k | f | | car cdr] | l]; safe_tac.
  - now apply callFunc_safe.
  - apply Hma. closed_side.
Qed.

Lemma makeApplyBody_safe n args :
  closedList n args = true -> safe closedExpr n (Open.makeApplyBody ma args).
Proof.
  intros Hargs. unfold Open.makeApplyBody. destruct args as [| first rest]; safe_tac.
  simpl in Hargs. apply andb_true_iff in Hargs as [H1 H2].
  apply safe_reduce; [| exact H2 | exact H1].
  intros; now apply makeApplyStep_safe.
Qed.
End Build.

Lemma makeApply_safe fuel : forall n args,
  closedList n args = true -> safe closedExpr n (makeApply fuel args).
Proof.
  induction fuel as [| k IH]; intros n args Hargs.
  - apply safe_timeout.
  - apply makeApplyBody_safe; [exact IH | exact Hargs].
Qed.

Lemma arith1_safe n op f x :
  (forall k m, closedValue m (f k) = true) -> safe closedValue n (Open.arith1 op f x).
Proof.
  intros Hf. unfold Open.arith1. destruct x; safe_tac.
  apply safe_ret. intros; apply Hf.
Qed.

Lemma arith2_safe n op f x y :
  (forall k m, safe closedValue n (f k m)) -> safe closedValue n (Open.arith2 op f x y).
Proof. intros Hf. unfold Open.arith2. destruct x, y; safe_tac. apply Hf. Qed.

Lemma makeBoolean_closed n b : closedValue n (makeBoolean b) = true.
Proof. now destruct b. Qed.

Lemma bigintDiv_safe n x y : safe closedValue n (Open.bigintDiv x y).
Proof. unfold Open.bigintDiv. safe_tac. Qed.

Section Force.
Variable ma : list Expr -> M Expr.
Variable ev : Expr -> M Value.
Hypothesis Hma : forall n args, closedList n args = true -> safe closedExpr n (ma args).
Hypothesis Hev : forall n e, closedExpr n e = true -> safe closedValue n (ev e).

Lemma apply_safe n lhs rhs :
  closedExpr n lhs = true -> closedExpr n rhs = true ->
  safe closedValue n (Open.apply ma ev lhs rhs).
Proof.
  intros Hl Hr. unfold Open.apply.
  apply (safe_bind closedValue); [now apply Hev |].
  intros func n' Hle Hfunc. destruct func as [k | f | | car cdr]; safe_tac.
  - apply (safe_bind closedExpr); [apply callFunc_safe; [exact Hma | closed_side..] |].
    intros e n'' Hle' He. now apply Hev.
  - apply (safe_bind closedExpr); [apply Hma; closed_side |].
    intros e n'' Hle' He. now apply Hev.
Qed.

Lemma isNilSlow_safe n value :
  closedValue n value = true -> safe anything n (Open.isNilSlow ma ev value).
Proof.
  intros Hv. unfold Open.isNilSlow.
  apply (safe_bind closedValue); [apply Hev; reflexivity |].
  intros bool n1 Hle1 Hbool.
  apply (safe_bind closedExpr); [apply Hma; closed_side |].
  intros e n2 Hle2 He.
  apply (safe_bind closedValue); [now apply Hev |].
  intros result n3 Hle3 Hres. safe_tac.
Qed.

Lemma isNil_safe n expr :
  closedExpr n expr = true -> safe anything n (Open.isNil ma ev expr).
Proof.
  intros He. unfold Open.isNil.
  apply (safe_bind closedValue); [now apply Hev |].
  intros value n1 Hle1 Hv. destruct value; safe_tac.
  now apply isNilSlow_safe.
Qed.

Lemma runRecipe_safe n f :
  closedRecipe n f = true -> safe closedValue n (Open.runRecipe ma ev f).
Proof.
  intros Hf. destruct f; simpl in Hf; unfold Open.runRecipe.
  - apply andb_true_iff in Hf as [? ?]. now apply apply_safe.
  - apply (safe_bind closedOption); [apply envLookup_safe |].
    intros [resolved |] n1 Hle1 Hr; safe_tac. now apply Hev.
  - apply (safe_bind closedValue); [now apply Hev |]. intros x n1 _ _.
    apply arith1_safe. reflexivity.
  - apply (safe_bind closedValue); [now apply Hev |]. intros x n1 _ _.
    apply arith1_safe. reflexivity.
  - apply andb_true_iff in Hf as [? ?].
    apply (safe_bind closedValue); [now apply Hev |]. intros x n1 Hle1 _.
    apply (safe_bind closedValue); [apply Hev; closed_side |]. intros y n2 _ _.
    apply arith2_safe. intros; safe_tac.
  - apply andb_true_iff in Hf as [? ?].
    apply (safe_bind closedValue); [now apply Hev |]. intros x n1 Hle1 _.
    apply (safe_bind closedValue); [apply Hev; closed_side |]. intros y n2 _ _.
    apply arith2_safe. intros; safe_tac.
  - apply andb_true_iff in Hf as [? ?].
    apply (safe_bind closedValue); [now apply Hev |]. intros x n1 Hle1 _.
    apply (safe_bind closedValue); [apply Hev; closed_side |]. intros y n2 _ _.
    apply arith2_safe. intros; apply bigintDiv_safe.
  - apply andb_true_iff in Hf as [? ?].
    apply (safe_bind closedValue); [now apply Hev |]. intros x n1 Hle1 _.
    apply (safe_bind closedValue); [apply Hev; closed_side |]. intros y n2 _ _.
    apply arith2_safe. intros; apply safe_ret; intros; apply makeBoolean_closed.
  - apply andb_true_iff in Hf as [? ?].
    apply (safe_bind closedValue); [now apply Hev |]. intros x n1 Hle1 _.
    apply (safe_bind closedValue); [apply Hev; closed_side |]. intros y n2 _ _.
    apply arith2_safe. intros; apply safe_ret; intros; apply makeBoolean_closed.
  - apply (safe_bind closedValue); [now apply Hev |]. intros x n1 _ _.
    apply arith1_safe. reflexivity.
  - apply andb_true_iff in Hf as [Hab Hc]. apply andb_true_iff in Hab as [Ha Hb].
    apply (safe_bind closedExpr); [apply Hma; closed_side |]. intros ac n1 Hle1 Hac.
    apply (safe_bind closedExpr); [apply Hma; closed_side |]. intros bc n2 Hle2 Hbc.
    apply (safe_bind closedExpr); [apply Hma; closed_side |]. intros e n3 Hle3 He.
    now apply Hev.
  - apply (safe_bind anything); [now apply isNil_safe |]. intros r n1 _ _.
    apply safe_ret. intros; apply makeBoolean_closed.
Qed.

Lemma evaluateBody_safe n expr :
  closedExpr n expr = true -> safe closedValue n (Open.evaluateBody ma ev expr).
Proof.
  intros He. unfold Open.evaluateBody. destruct expr as [v | l]; [safe_tac |].
  simpl in He. apply Nat.ltb_lt in He.
  apply (safe_bind cellOk); [now apply readThunk_safe |].
  intros t n1 Hle1 Ht. unfold cellOk in Ht.
  destruct (cache t) as [v |], (func t) as [f |]; try discriminate.
  - safe_tac.
  - apply (safe_bind anything); [apply incrEvalCounter_safe |]. intros _ n2 Hle2 _.
    apply (safe_bind closedValue);
      [apply runRecipe_safe; eapply closedRecipe_mono; eassumption |].
    intros value n3 Hle3 Hvalue.
    apply (safe_bind anything); [now apply writeThunk_safe |]. intros _ n4 Hle4 _.
    safe_tac.
Qed.
End Force.

Lemma evaluate_safe fuel : forall n e,
  closedExpr n e = true -> safe closedValue n (evaluate fuel e).
Proof.
  induction fuel as [| k IH]; intros n e He.
  - apply safe_timeout.
  - apply evaluateBody_safe; [apply makeApply_safe | exact IH | exact He].
Qed.

Lemma isNil_safe_fuel fuel n e :
  closedExpr n e = true -> safe anything n (isNil fuel e).
Proof. apply isNil_safe; [apply makeApply_safe | apply evaluate_safe]. Qed.

Lemma finishCons_safe n elems : safe anything n (Open.finishCons elems).
Proof. unfold Open.finishCons. safe_tac. Qed.

Section Static.
Variable ma : list Expr -> M Expr.
Variable ev : Expr -> M Value.
Variable loop : list StaticData -> Value -> M StaticData.
Hypothesis Hma : forall n args, closedList n args = true -> safe closedExpr n (ma args).
Hypothesis Hev : forall n e, closedExpr n e = true -> safe closedValue n (ev e).
Hypothesis Hloop : forall n elems cur,
  closedValue n cur = true -> safe anything n (loop elems cur).

Lemma exprToStaticData_body_safe n e :
  closedExpr n e = true -> safe anything n (Open.exprToStaticData ev loop e).
Proof.
  intros He. unfold Open.exprToStaticData.
  apply (safe_bind closedValue); [now apply Hev |].
  intros value n1 Hle1 Hv. destruct value; safe_tac; now apply Hloop.
Qed.

Lemma exprToStaticDataLoop_body_safe n elems cur :
  closedValue n cur = true ->
  safe anything n (Open.exprToStaticDataLoop ma ev loop elems cur).
Proof.
  intros Hcur.
  assert (Hnext : safe anything n
            (let* nil := Open.isNil ma ev (Val cur) in
             if nil then ret (ListData elems)
             else
               let* car := Open.makeCar ma (Val cur) in
               let* d := Open.exprToStaticData ev loop car in
               let* cdr := Open.makeCdr ma (Val cur) in
               let* next := ev cdr in
               loop (elems ++ [d]) next)).
  { apply (safe_bind anything); [now apply isNil_safe |].
    intros [|] n1 Hle1 _; safe_tac.
    apply (safe_bind closedExpr); [apply Hma; closed_side |]. intros car n2 Hle2 Hcar.
    apply (safe_bind anything); [now apply exprToStaticData_body_safe |]. intros d n3 Hle3 _.
    apply (safe_bind closedExpr); [apply Hma; closed_side |]. intros cdr n4 Hle4 Hcdr.
    apply (safe_bind closedValue); [now apply Hev |]. intros next n5 Hle5 Hnext.
    now apply Hloop. }
  destruct cur as [k | f | | car cdr]; try exact Hnext.
  unfold Open.exprToStaticDataLoop.
  apply (safe_bind anything); [now apply exprToStaticData_body_safe |].
  intros d n1 _ _. apply finishCons_safe.
Qed.
End Static.

Lemma exprToStaticDataLoop_safe fuel : forall n elems cur,
  closedValue n cur = true -> safe anything n (exprToStaticDataLoop fuel elems cur).
Proof.
  induction fuel as [| k IH]; intros n elems cur Hcur.
  - apply safe_timeout.
  - apply exprToStaticDataLoop_body_safe;
      [apply makeApply_safe | apply evaluate_safe | exact IH | exact Hcur].
Qed.

Lemma exprToStaticData_safe fuel n e :
  closedExpr n e = true -> safe anything n (exprToStaticData fuel e).
Proof.
  apply exprToStaticData_body_safe; [apply evaluate_safe | apply exprToStaticDataLoop_safe].
Qed.

Lemma closedList_app n es e :
  closedList n es = true -> closedExpr n e = true -> closedList n (es ++ [e]) = true.
Proof.
  unfold closedList. rewrite forallb_app. simpl. intros -> ->. reflexivity.
Qed.

Lemma closedList_mono n m es : n <= m -> closedList n es = true -> closedList m es = true.
Proof.
  intros Hle. unfold closedList. rewrite !forallb_forall.
  intros H e He. eapply closedExpr_mono; [exact Hle | now apply H].
Qed.

Lemma parseListLoop_safe fuel : forall n elems cur,
  closedList n elems = true -> closedExpr n cur = true ->
  safe closedList n (parseListLoop fuel elems cur).
Proof.
  induction fuel as [| k IH]; intros n elems cur Helems Hcur.
  - apply safe_timeout.
  - simpl. unfold Open.parseListLoop.
    apply (safe_bind anything); [now apply isNil_safe_fuel |].
    intros [|] n1 Hle1 _.
    + apply safe_ret. intros m Hle. eapply closedList_mono; [| exact Helems]. lia.
    + apply (safe_bind closedExpr); [apply makeApply_safe; closed_side |].
      intros car n2 Hle2 Hcar.
      apply (safe_bind closedExpr); [apply makeApply_safe; closed_side |].
      intros cdr n3 Hle3 Hcdr.
      apply IH; [| exact Hcdr]. apply closedList_app.
      * eapply closedList_mono; [| exact Helems]. lia.
      * eapply closedExpr_mono; [| exact Hcar]. lia.
Qed.

Lemma parseList_safe fuel n e :
  closedExpr n e = true -> safe closedList n (parseList fuel e).
Proof. intros He. now apply parseListLoop_safe. Qed.

Lemma makeReference_safe n env name : safe closedExpr n (makeReference env name).
Proof.
  unfold makeReference.
  apply (safe_bind closedOption); [apply envLookup_safe |].
  intros [resolved |] n1 Hle1 Hr; safe_tac.
Qed.

Lemma newEnvironment_safe n parent : safe anything n (newEnvironment parent).
Proof.
  intros s [Ht Hm] Hn. simpl. split; [| split; [lia | reflexivity]].
  split; [exact Ht |]. simpl. apply Forall_app. split; [exact Hm |].
  constructor; [apply map_Forall_empty | constructor].
Qed.

Lemma define_safe n env name e :
  closedExpr n e = true -> safe anything n (define env name e).
Proof.
  intros He s [Ht Hm] Hn. destruct env as [d parent]. unfold define.
  destruct (mapAt s d !! name) eqn:Hfresh.
  - split; [now split | split; [lia | discriminate]].
  - split; [| split; [simpl; lia | reflexivity]].
    split; [exact Ht |]. simpl. apply Forall_insert; [exact Hm |].
    apply map_Forall_insert_2.
    + eapply closedExpr_mono; eassumption.
    + unfold mapAt. destruct (maps s !! d) as [m |] eqn:Ed; simpl.
      * rewrite Forall_lookup in Hm. exact (Hm d m Ed).
      * apply map_Forall_empty.
Qed.

Lemma defineAll_safe n env defs :
  closedList n defs.*2 = true -> safe anything n (defineAll env defs).
Proof.
  revert n. induction defs as [| [name e] defs IH]; intros n Hdefs; simpl.
  - now apply safe_ret.
  - simpl in Hdefs. apply andb_true_iff in Hdefs as [He Hdefs].
    apply (safe_bind anything); [now apply define_safe |].
    intros _ n1 Hle1 _. apply IH. eapply closedList_mono; eassumption.
Qed.

Lemma newStandardEnvironment_safe n : safe anything n newStandardEnvironment.
Proof.
  unfold newStandardEnvironment.
  apply (safe_bind anything); [apply newEnvironment_safe |]. intros env n0 _ _.
  repeat (apply (safe_bind anything); [now apply define_safe |]; intros _ ? _ _).
  now apply safe_ret.
Qed.

Lemma wellFormed_stdState : wellFormed stdState.
Proof.
  pose proof (newStandardEnvironment_safe 0 emptyState wellFormed_emptyState (Nat.le_refl 0)) as H.
  pose proof FnProps.stdEnv_loaded as (s & Hs & ->). rewrite Hs in H. apply H.
Qed.

(** The error of a force from a well-formed store is never 'Broken thunk'. *)
Lemma broken_thunk_unreachable fuel e s err s' :
  wellFormed s -> closedExpr (length (thunks s)) e = true ->
  evaluate fuel e s = Throw err s' ->
  err <> BrokenThunk /\ wellFormed s'.
Proof.
  intros Hwf He Hrun.
  pose proof (evaluate_safe fuel _ e He s Hwf (Nat.le_refl _)) as H.
  rewrite Hrun in H. tauto.
Qed.

End FnMore.

(** ** The object-oriented variant, continued *)
Module OOMore.
Import OO.

(** ** Environments *)

Lemma mapAt_define_eq_oo d parent name e s s' :
  d < length (maps s) ->
  define (Env d parent) name e s = Ret tt s' ->
  mapAt s' d = <[name := e]> (mapAt s d).
Proof.
  intros Hd. unfold define. destruct (mapAt s d !! name); [discriminate |].
  intros [= <-]. unfold mapAt at 1. simpl.
  now rewrite list_lookup_insert_eq by exact Hd.
Qed.

Lemma mapAt_define_ne_oo d parent name e s s' d' :
  d' <> d ->
  define (Env d parent) name e s = Ret tt s' ->
  mapAt s' d' = mapAt s d'.
Proof.
  intros Hd. unfold define. destruct (mapAt s d !! name); [discriminate |].
  intros [= <-]. unfold mapAt at 1. simpl.
  now rewrite list_lookup_insert_ne by congruence.
Qed.

(** A definition changes no other name, whatever environment is asked. *)
Lemma define_other_names_oo d parent name e s s' env' name' :
  name' <> name ->
  define (Env d parent) name e s = Ret tt s' ->
  lookup env' name' s' = lookup env' name' s.
Proof.
  intros Hne Hdef.
  assert (Hm : forall d', mapAt s' d' !! name' = mapAt s d' !! name').
  { intros d'. destruct (decide (d' = d)) as [-> | Hd].
    - destruct (decide (d < length (maps s))) as [Hlt | Hge].
      + rewrite (mapAt_define_eq_oo _ _ _ _ _ _ Hlt Hdef).
        now rewrite lookup_insert_ne by congruence.
      + revert Hdef. unfold define. destruct (mapAt s d !! name); [discriminate |].
        intros [= <-]. unfold mapAt. simpl.
        rewrite list_insert_ge by lia. reflexivity.
    - now rewrite (mapAt_define_ne_oo _ _ _ _ _ _ _ Hd Hdef). }
  induction env' as [d' | d' p IH] using Environment_chain_ind; simpl; rewrite Hm.
  - reflexivity.
  - now rewrite IH.
Qed.

(** An environment whose maps are all other objects than the one written. *)
Lemma define_other_env_oo d parent name e s s' env' name' :
  envWithin d env' ->
  define (Env d parent) name e s = Ret tt s' ->
  lookup env' name' s' = lookup env' name' s.
Proof.
  intros Hw Hdef.
  induction env' as [d' | d' p IH] using Environment_chain_ind;
    simpl in *; destruct Hw as [Hd Hp];
    rewrite (mapAt_define_ne_oo d parent name e s s' d') by (try lia; exact Hdef).
  - reflexivity.
  - now rewrite IH.
Qed.

Lemma define_fresh_oo d parent name e s :
  mapAt s d !! name = None ->
  define (Env d parent) name e s =
  Ret tt {| thunks := thunks s;
            maps := <[d := <[name := e]> (mapAt s d)]> (maps s);
            counter := counter s |}.
Proof. intros H. unfold define. now rewrite H. Qed.

Lemma define_round_trip_oo d parent name e s :
  d < length (maps s) ->
  mapAt s d !! name = None ->
  exists s',
    define (Env d parent) name e s = Ret tt s' /\
    lookup (Env d parent) name s' = Some e /\
    (forall env' name', name' <> name -> lookup env' name' s' = lookup env' name' s) /\
    thunks s' = thunks s /\ counter s' = counter s /\
    length (maps s') = length (maps s).
Proof.
  intros Hd Hfresh. pose proof (define_fresh_oo d parent name e s Hfresh) as Hdef.
  eexists. split; [exact Hdef |].
  split; [| split; [| split; [| split]]].
  - exact (OOProps.define_lookup_oo (Env d parent) name e s _ Hd Hdef).
  - intros env' name' Hne. exact (define_other_names_oo _ _ _ _ _ _ env' name' Hne Hdef).
  - reflexivity.
  - reflexivity.
  - simpl. apply length_insert.
Qed.

Lemma define_duplicate_oo d parent name e e' s s' :
  d < length (maps s) ->
  define (Env d parent) name e s = Ret tt s' ->
  define (Env d parent) name e' s' = Throw (DuplicatedDefinition name) s' /\
  lookup (Env d parent) name s' = Some e.
Proof.
  intros Hd Hdef.
  pose proof (OOProps.define_lookup_oo (Env d parent) name e s s' Hd Hdef) as Hl.
  split; [| exact Hl].
  unfold define. rewrite (mapAt_define_eq_oo _ _ _ _ _ _ Hd Hdef).
  now rewrite lookup_insert_eq.
Qed.

(** ** A child environment *)

Lemma mapAt_newEnvironment_oo parent s env s1 d :
  newEnvironment parent s = Ret env s1 -> mapAt s1 d = mapAt s d.
Proof.
  intros [= <- <-]. unfold mapAt. simpl.
  destruct (Nat.lt_total d (length (maps s))) as [Hlt | [-> | Hgt]].
  - now rewrite lookup_app_l.
  - rewrite lookup_snoc. now rewrite (lookup_ge_None_2 (maps s)) by lia.
  - rewrite !lookup_ge_None_2; [reflexivity | lia |].
    rewrite length_app. simpl. lia.
Qed.

Lemma newEnvironment_lookup_oo parent s env s1 env' name :
  newEnvironment parent s = Ret env s1 -> lookup env' name s1 = lookup env' name s.
Proof.
  intros Hnew.
  induction env' as [d' | d' p IH] using Environment_chain_ind; simpl;
    rewrite (mapAt_newEnvironment_oo _ _ _ _ d' Hnew).
  - reflexivity.
  - now rewrite IH.
Qed.

Lemma child_environment_oo parent s :
  envWithin (length (maps s)) parent ->
  exists child s1,
    newEnvironment (Some parent) s = Ret child s1 /\
    (forall env' name, lookup env' name s1 = lookup env' name s) /\
    (forall name, lookup child name s1 = lookup parent name s) /\
    forall name e, exists s2,
      define child name e s1 = Ret tt s2 /\
      lookup child name s2 = Some e /\
      (forall name', name' <> name -> lookup child name' s2 = lookup parent name' s) /\
      (forall name', lookup parent name' s2 = lookup parent name' s).
Proof.
  intros Hw.
  destruct (newEnvironment (Some parent) s) as [child s1 | |] eqn:Hnew; try discriminate.
  pose proof Hnew as Hshape. injection Hshape as Hchild Hs1.
  assert (Hempty : mapAt s1 (length (maps s)) = ∅).
  { rewrite <- Hs1. unfold mapAt. simpl. now rewrite lookup_snoc. }
  assert (Hinherit : forall name, lookup child name s1 = lookup parent name s).
  { intros name. rewrite <- Hchild. simpl. rewrite Hempty, lookup_empty.
    apply (newEnvironment_lookup_oo _ _ _ _ _ _ Hnew). }
  exists child, s1. split; [reflexivity |].
  split; [intros env' name; apply (newEnvironment_lookup_oo _ _ _ _ _ _ Hnew) |].
  split; [exact Hinherit |].
  intros name e. rewrite <- Hchild.
  assert (Hlen : length (maps s) < length (maps s1)).
  { rewrite <- Hs1. simpl. rewrite length_app. simpl. lia. }
  destruct (define_round_trip_oo (length (maps s)) (Some parent) name e s1 Hlen)
    as (s2 & Hdef & Hl & Hother & _).
  { now rewrite Hempty, lookup_empty. }
  exists s2. split; [exact Hdef |]. split; [exact Hl |]. split.
  - intros name' Hne. rewrite (Hother _ _ Hne). rewrite Hchild. apply Hinherit.
  - intros name'. rewrite (define_other_env_oo _ _ _ _ _ _ parent name' Hw Hdef).
    apply (newEnvironment_lookup_oo _ _ _ _ _ _ Hnew).
Qed.

(** ** [defineAll] *)

Lemma defineAll_app_oo env xs ys s :
  defineAll env (xs ++ ys) s = (let* _ := defineAll env xs in defineAll env ys) s.
Proof.
  revert s. induction xs as [| [name e] xs IH]; intros s; simpl.
  - reflexivity.
  - unfold bind in *.
    destruct (define env name e s) as [[] s1 | |]; [apply IH | reflexivity | reflexivity].
Qed.

Lemma defineAll_fresh_oo d parent defs s :
  d < length (maps s) ->
  NoDup defs.*1 ->
  (forall name, name ∈ defs.*1 -> mapAt s d !! name = None) ->
  exists s',
    defineAll (Env d parent) defs s = Ret tt s' /\
    (forall name e, (name, e) ∈ defs -> lookup (Env d parent) name s' = Some e) /\
    (forall env' name, name ∉ defs.*1 -> lookup env' name s' = lookup env' name s) /\
    thunks s' = thunks s /\ counter s' = counter s /\
    length (maps s') = length (maps s).
Proof.
  revert s. induction defs as [| [name e] defs IH]; intros s Hd Hnd Hfresh.
  - exists s. split; [reflexivity |]. split; [intros ? ? H; inversion H |].
    repeat split; reflexivity.
  - simpl in Hnd. apply NoDup_cons in Hnd as [Hnotin Hnd].
    destruct (define_round_trip_oo d parent name e s Hd) as (s1 & Hdef & Hl & Hother & Ht & Hc & Hlen).
    { apply Hfresh. simpl. left. }
    destruct (IH s1) as (s' & Hall & Hin & Hout & Ht' & Hc' & Hlen').
    + lia.
    + exact Hnd.
    + intros name' Hin. rewrite (mapAt_define_eq_oo _ _ _ _ _ _ Hd Hdef).
      rewrite lookup_insert_ne by (intros ->; contradiction).
      apply Hfresh. simpl. now right.
    + exists s'. split; [simpl; unfold bind; now rewrite Hdef |].
      split; [| split; [| repeat split; congruence]].
      * intros name' e' Hmem. apply elem_of_cons in Hmem as [[= -> ->] | Hmem].
        -- rewrite (Hout _ _ Hnotin). exact Hl.
        -- apply Hin, Hmem.
      * intros env' name' Hnot. simpl in Hnot. apply not_elem_of_cons in Hnot as [Hne Hnot].
        rewrite (Hout _ _ Hnot). apply Hother, Hne.
Qed.

Lemma defineAll_duplicate_oo d parent before name e after s s1 e0 :
  defineAll (Env d parent) before s = Ret tt s1 ->
  mapAt s1 d !! name = Some e0 ->
  defineAll (Env d parent) (before ++ (name, e) :: after) s =
  Throw (DuplicatedDefinition name) s1.
Proof.
  intros Hbefore Hbound. rewrite defineAll_app_oo. unfold bind. rewrite Hbefore.
  simpl. unfold bind, define. now rewrite Hbound.
Qed.

(** ** Evaluation leaves the environments alone *)

Lemma sameMaps_refl_oo s : sameMaps s s.
Proof. reflexivity. Qed.

Lemma sameMaps_trans_oo s1 s2 s3 : sameMaps s1 s2 -> sameMaps s2 s3 -> sameMaps s1 s3.
Proof. unfold sameMaps. congruence. Qed.

Lemma newThunk_sameMaps f : preserves sameMaps (newThunk f).
Proof. intros s s' [= <-]. reflexivity. Qed.

Lemma readThunk_sameMaps_oo l : preserves sameMaps (readThunk l).
Proof. intros s s' [= <-]. reflexivity. Qed.

Lemma writeThunk_sameMaps_oo l c : preserves sameMaps (writeThunk l c).
Proof. intros s s' [= <-]. reflexivity. Qed.

Lemma envLookup_sameMaps_oo env name : preserves sameMaps (envLookup env name).
Proof. intros s s' [= <-]. reflexivity. Qed.

Lemma incrCounter_sameMaps : preserves sameMaps incrCounter.
Proof. intros s s' [= <-]. reflexivity. Qed.

Create HintDb oo_sameMaps.
#[export] Hint Resolve newThunk_sameMaps readThunk_sameMaps_oo writeThunk_sameMaps_oo
  envLookup_sameMaps_oo incrCounter_sameMaps : oo_sameMaps.

Ltac maps_tac :=
  repeat first
    [ solve [auto with oo_sameMaps]
    | apply preserves_ret; apply sameMaps_refl_oo
    | apply preserves_throw; apply sameMaps_refl_oo
    | apply (preserves_bind sameMaps sameMaps_trans_oo); [| intros ?]
    | match goal with
      | |- preserves _ (match ?x with _ => _ end) => destruct x
      | |- preserves _ (if ?x then _ else _) => destruct x
      end ].

Lemma arith1_sameMaps_oo op f x : preserves sameMaps (Open.arith1 op f x).
Proof. unfold Open.arith1. maps_tac. Qed.

Lemma arith2_sameMaps_oo op f x y :
  (forall n m, preserves sameMaps (f n m)) -> preserves sameMaps (Open.arith2 op f x y).
Proof. intros Hf. unfold Open.arith2. destruct x, y; maps_tac; apply Hf. Qed.

Lemma bigintDiv_sameMaps_oo x y : preserves sameMaps (Open.bigintDiv x y).
Proof. unfold Open.bigintDiv. maps_tac. Qed.

Lemma finishCons_sameMaps_oo elems : preserves sameMaps (finishCons elems).
Proof. unfold finishCons. maps_tac. Qed.

Lemma valueUncons_sameMaps v : preserves sameMaps (Open.valueUncons v).
Proof. unfold Open.valueUncons. maps_tac. Qed.

Lemma valueIsNil_sameMaps v : preserves sameMaps (Open.valueIsNil v).
Proof. unfold Open.valueIsNil. maps_tac. Qed.
#[export] Hint Resolve arith1_sameMaps_oo bigintDiv_sameMaps_oo finishCons_sameMaps_oo
  valueUncons_sameMaps valueIsNil_sameMaps : oo_sameMaps.

Lemma uncons_sameMaps e : preserves sameMaps (Open.uncons e).
Proof. unfold Open.uncons. maps_tac. Qed.
#[export] Hint Resolve uncons_sameMaps : oo_sameMaps.

Section Build.
Variable ap : Expr -> Expr -> M Expr.
Hypothesis Hap : forall e arg, preserves sameMaps (ap e arg).
#[local] Hint Resolve Hap : oo_sameMaps.

Lemma callFunc_sameMaps_oo f a : preserves sameMaps (Open.callFunc ap f a).
Proof.
  destruct f as [[]|g|[] x|g|g x|[] x y];
    cbv [Open.callFunc Open.call1 Open.call2 Open.call3 Open.builtinCar Open.builtinCdr
         Open.builtinCons Open.builtinC Open.builtinB Open.builtinInc Open.builtinDec
         Open.builtinNeg Open.builtinI Open.builtinIsNil Open.builtinAdd Open.builtinMul
         Open.builtinDiv Open.builtinEq Open.builtinLt Open.builtinS];
    maps_tac.
Qed.
#[local] Hint Resolve callFunc_sameMaps_oo : oo_sameMaps.

Lemma valueApply_sameMaps v arg : preserves sameMaps (Open.valueApply ap v arg).
Proof. unfold Open.valueApply. maps_tac. Qed.
#[local] Hint Resolve valueApply_sameMaps : oo_sameMaps.

Lemma applyBody_sameMaps e arg : preserves sameMaps (Open.applyBody ap e arg).
Proof. unfold Open.applyBody. maps_tac. Qed.
End Build.
#[export] Hint Resolve callFunc_sameMaps_oo valueApply_sameMaps applyBody_sameMaps : oo_sameMaps.

Lemma applyTo_sameMaps fuel e arg : preserves sameMaps (applyTo fuel e arg).
Proof.
  revert e arg. induction fuel as [| n IH]; intros e arg.
  - apply preserves_timeout.
  - apply applyBody_sameMaps, IH.
Qed.
#[export] Hint Resolve applyTo_sameMaps : oo_sameMaps.

Section Force.
Variable ap : Expr -> Expr -> M Expr.
Variable fv : Expr -> M Value.
Hypothesis Hap : forall e arg, preserves sameMaps (ap e arg).
Hypothesis Hfv : forall e, preserves sameMaps (fv e).
#[local] Hint Resolve Hap Hfv : oo_sameMaps.

Lemma runRecipe_sameMaps_oo f : preserves sameMaps (Open.runRecipe ap fv f).
Proof.
  destruct f; unfold Open.runRecipe; maps_tac;
    apply arith2_sameMaps_oo; intros ? ?; maps_tac.
Qed.
#[local] Hint Resolve runRecipe_sameMaps_oo : oo_sameMaps.

Lemma forceValueBody_sameMaps e : preserves sameMaps (Open.forceValueBody ap fv e).
Proof. unfold Open.forceValueBody. maps_tac. Qed.
End Force.
#[export] Hint Resolve runRecipe_sameMaps_oo forceValueBody_sameMaps : oo_sameMaps.

Lemma forceValue_sameMaps fuel e : preserves sameMaps (forceValue fuel e).
Proof.
  revert e. induction fuel as [| n IH]; intros e.
  - apply preserves_timeout.
  - apply forceValueBody_sameMaps; [apply applyTo_sameMaps | exact IH].
Qed.
#[export] Hint Resolve forceValue_sameMaps : oo_sameMaps.

Lemma forceModulatableLoop_sameMaps fuel elems cur :
  preserves sameMaps (forceModulatableLoop fuel elems cur).
Proof.
  revert elems cur. induction fuel as [| n IH]; intros elems cur.
  - apply preserves_timeout.
  - simpl. unfold Open.forceModulatableLoop, Open.forceModulatable. maps_tac.
Qed.
#[export] Hint Resolve forceModulatableLoop_sameMaps : oo_sameMaps.

Lemma forceModulatable_sameMaps fuel e : preserves sameMaps (forceModulatable fuel e).
Proof. unfold forceModulatable, Open.forceModulatable. maps_tac. Qed.

Lemma forceListLoop_sameMaps fuel elems cur :
  preserves sameMaps (forceListLoop fuel elems cur).
Proof.
  revert elems cur. induction fuel as [| n IH]; intros elems cur.
  - apply preserves_timeout.
  - simpl. unfold Open.forceListLoop. maps_tac.
Qed.
#[export] Hint Resolve forceListLoop_sameMaps : oo_sameMaps.

Lemma forceList_sameMaps fuel e : preserves sameMaps (forceList fuel e).
Proof. unfold forceList, Open.forceList. maps_tac. Qed.

Lemma makeReference_sameMaps_oo env name : preserves sameMaps (makeReference env name).
Proof. unfold makeReference. maps_tac. Qed.

Lemma sameMaps_bindingsKept_oo s s' : sameMaps s s' -> bindingsKept s s'.
Proof. intros H d name e. unfold mapAt. now rewrite H. Qed.

Lemma step_bindingsKept_oo s s' : step s s' -> bindingsKept s s'.
Proof.
  intros [fuel e s0 s1 H | fuel e arg s0 s1 H | e s0 s1 H | fuel e s0 s1 H
         | env name s0 s1 H | parent s0 s1 H | env name e s0 s1 H].
  - apply sameMaps_bindingsKept_oo, (forceValue_sameMaps fuel e), H.
  - apply sameMaps_bindingsKept_oo, (applyTo_sameMaps fuel e arg), H.
  - apply sameMaps_bindingsKept_oo, (uncons_sameMaps e), H.
  - apply sameMaps_bindingsKept_oo, (forceModulatable_sameMaps fuel e), H.
  - apply sameMaps_bindingsKept_oo, (makeReference_sameMaps_oo env name), H.
  - intros d name e Hb. unfold mapAt in *. injection H as <-. simpl.
    destruct (maps s0 !! d) as [m |] eqn:Hm; [| simpl in Hb; now rewrite lookup_empty in Hb].
    now rewrite (lookup_app_l_Some _ _ _ _ Hm).
  - destruct env as [d0 parent]. unfold define in H.
    destruct (mapAt s0 d0 !! name) eqn:Hfresh; [injection H as <-; now intros ? ? ? |].
    injection H as <-. intros d name' e' Hb. unfold mapAt in *. simpl.
    destruct (decide (d = d0)) as [-> | Hne].
    + destruct (maps s0 !! d0) as [m |] eqn:Hm; [| simpl in Hb; now rewrite lookup_empty in Hb].
      rewrite list_lookup_insert_eq by (now apply lookup_lt_Some in Hm). simpl in *.
      rewrite lookup_insert_ne; [exact Hb | intros ->; congruence].
    + now rewrite list_lookup_insert_ne by congruence.
Qed.

Lemma steps_bindingsKept_oo s s' : rtc step s s' -> bindingsKept s s'.
Proof.
  induction 1 as [s | s1 s2 s3 H12 _ IH]; [now intros ? ? ? |].
  intros d name e Hb. apply IH, (step_bindingsKept_oo _ _ H12), Hb.
Qed.

(** ** Built-in operators *)

Lemma applyAll_monotone f args : monotone (fun fuel => applyAll fuel f args).
Proof.
  intros fuel. unfold applyAll. apply approx_reduce. intros b a.
  apply OOProps.applyTo_mono_S.
Qed.

Lemma forceApply_monotone f args : monotone (fun fuel => forceApply fuel f args).
Proof.
  apply (monotone_bind (fun fuel => applyAll fuel f args) (fun e fuel => forceValue fuel e)).
  - apply applyAll_monotone.
  - intros e. apply OOProps.forceValue_monotone.
Qed.

Lemma runRecipe_monotone_oo f : monotone (fun fuel => runRecipe fuel f).
Proof.
  intros fuel. apply OOProps.runRecipe_approx_oo.
  - intros e arg. apply OOProps.applyTo_mono_S.
  - intros e. apply OOProps.forceValue_mono_S.
Qed.

Lemma forceValue_new_thunk f s r :
  finishes (fun fuel => runRecipe fuel f) (entered s f) r ->
  finishes (fun fuel => let* e := newThunk f in forceValue fuel e) s
           (outcome (length (thunks s)) r).
Proof.
  intros [Hne [n Hn]]. split; [destruct r; [discriminate | discriminate | congruence] |].
  exists (S n). rewrite OOProps.forceValue_fresh. fold (entered s f). rewrite Hn.
  now destruct r.
Qed.

Lemma forceApply_thunk g args f s r :
  (forall fuel s, applyAll (S fuel) g args s = newThunk f s) ->
  finishes (fun fuel => runRecipe fuel f) (entered s f) r ->
  finishes (fun fuel => forceApply fuel g args) s (outcome (length (thunks s)) r).
Proof.
  intros Hbuild Hrun. apply (finishes_shift _ _ _ 1 (forceApply_monotone g args)).
  apply forceValue_new_thunk in Hrun.
  apply (finishes_shift _ _ _ 1) in Hrun.
  2:{ apply (monotone_bind (fun _ => newThunk f) (fun e fuel => forceValue fuel e)).
      - intros fuel. apply approx_refl.
      - intros e. apply OOProps.forceValue_monotone. }
  eapply finishes_ext; [| exact Hrun].
  intros fuel. unfold forceApply. simpl (1 + fuel). apply bind_cong_l.
  symmetry. apply Hbuild.
Qed.

Lemma runRecipe_unary_oo (R : Expr -> Recipe) op g :
  (forall fuel a s, runRecipe fuel (R a) s =
     (let* x := forceValue fuel a in Open.arith1 op g x) s) ->
  forall a s0 v s1,
  finishes (fun fuel => forceValue fuel a) s0 (Ret v s1) ->
  finishes (fun fuel => runRecipe fuel (R a)) s0
    (match v with
     | NumberValue n => Ret (g n) s1
     | _ => Throw (WrongTypes op [kind v]) s1
     end).
Proof.
  intros HR a s0 v s1 [_ [n Hn]].
  apply (finishes_at _ _ _ n); [| now destruct v].
  rewrite HR. unfold bind. rewrite Hn. now destruct v.
Qed.

Lemma runRecipe_binary_oo (R : Expr -> Expr -> Recipe) op g :
  (forall fuel a b s, runRecipe fuel (R a b) s =
     (let* x := forceValue fuel a in let* y := forceValue fuel b in Open.arith2 op g x y) s) ->
  (forall n m s, g n m s <> Timeout) ->
  forall a b s0 v s1 w s2,
  finishes (fun fuel => forceValue fuel a) s0 (Ret v s1) ->
  finishes (fun fuel => forceValue fuel b) s1 (Ret w s2) ->
  finishes (fun fuel => runRecipe fuel (R a b)) s0
    (match v, w with
     | NumberValue n, NumberValue m => g n m s2
     | _, _ => Throw (WrongTypes op [kind v; kind w]) s2
     end).
Proof.
  intros HR Hg a b s0 v s1 w s2 Ha Hb.
  destruct (finishes_from _ _ _ (OOProps.forceValue_monotone a) Ha) as [na Hna].
  destruct (finishes_from _ _ _ (OOProps.forceValue_monotone b) Hb) as [nb Hnb].
  apply (finishes_at _ _ _ (Nat.max na nb)).
  - rewrite HR. unfold bind. rewrite Hna by lia. rewrite Hnb by lia.
    destruct v, w; reflexivity.
  - destruct v; try discriminate. destruct w; try discriminate. apply Hg.
Qed.

Ltac table H :=
  repeat (destruct H as [H | H]; [injection H as <- <- <- <- |]); [.. | destruct H].

Lemma unary_operator_oo f R op g :
  (forall fuel a s, applyAll (S fuel) (Val (FuncValue (Lam1 f))) [a] s = newThunk (R a) s) ->
  (forall fuel a s, runRecipe fuel (R a) s =
     (let* x := forceValue fuel a in Open.arith1 op (fun n => NumberValue (g n)) x) s) ->
  forall a s v s1,
    finishes (fun fuel => forceValue fuel a) (entered s (R a)) (Ret v s1) ->
    finishes (fun fuel => forceApply fuel (Val (FuncValue (Lam1 f))) [a]) s
      (match v with
       | NumberValue n =>
           Ret (NumberValue (g n)) (settled (length (thunks s)) (NumberValue (g n)) s1)
       | _ => Throw (WrongTypes op [kind v]) s1
       end).
Proof.
  intros Hbuild Hrun a s v s1 Ha.
  assert (H : finishes (fun fuel => forceApply fuel (Val (FuncValue (Lam1 f))) [a]) s
                (outcome (length (thunks s))
                   (match v with
                    | NumberValue n => Ret (NumberValue (g n)) s1
                    | _ => Throw (WrongTypes op [kind v]) s1
                    end))); [| now destruct v].
  apply (forceApply_thunk _ _ (R a)); [intros; apply Hbuild |].
  exact (runRecipe_unary_oo R op _ Hrun a _ v s1 Ha).
Qed.

Lemma unary_operators_oo f R op g :
  In (f, R, op, g) [(FInc, RInc, "inc", fun n => n + 1); (FDec, RDec, "dec", fun n => n - 1);
                    (FNeg, RNeg, "neg", Z.opp)]%Z ->
  forall a s v s1,
    finishes (fun fuel => forceValue fuel a) (entered s (R a)) (Ret v s1) ->
    finishes (fun fuel => forceApply fuel (Val (FuncValue (Lam1 f))) [a]) s
      (match v with
       | NumberValue n =>
           Ret (NumberValue (g n)) (settled (length (thunks s)) (NumberValue (g n)) s1)
       | _ => Throw (WrongTypes op [kind v]) s1
       end).
Proof.
  intros Hin. table Hin; apply unary_operator_oo; intros; reflexivity.
Qed.

Lemma binary_operator_oo f R op g :
  (forall fuel a b s,
     applyAll (S fuel) (Val (FuncValue (Lam2 f))) [a; b] s = newThunk (R a b) s) ->
  (forall fuel a b s, runRecipe fuel (R a b) s =
     (let* x := forceValue fuel a in
      let* y := forceValue fuel b in
      Open.arith2 op (fun n m => ret (g n m)) x y) s) ->
  forall a b s v s1 w s2,
    finishes (fun fuel => forceValue fuel a) (entered s (R a b)) (Ret v s1) ->
    finishes (fun fuel => forceValue fuel b) s1 (Ret w s2) ->
    finishes (fun fuel => forceApply fuel (Val (FuncValue (Lam2 f))) [a; b]) s
      (match v, w with
       | NumberValue n, NumberValue m =>
           Ret (g n m) (settled (length (thunks s)) (g n m) s2)
       | _, _ => Throw (WrongTypes op [kind v; kind w]) s2
       end).
Proof.
  intros Hbuild Hrun a b s v s1 w s2 Ha Hb.
  assert (H : finishes (fun fuel => forceApply fuel (Val (FuncValue (Lam2 f))) [a; b]) s
                (outcome (length (thunks s))
                   (match v, w with
                    | NumberValue n, NumberValue m => Ret (g n m) s2
                    | _, _ => Throw (WrongTypes op [kind v; kind w]) s2
                    end))); [| now destruct v, w].
  apply (forceApply_thunk _ _ (R a b)); [intros; apply Hbuild |].
  apply (runRecipe_binary_oo R op _ Hrun) with (s1 := s1); [discriminate | exact Ha | exact Hb].
Qed.

Lemma binary_operators_oo f R op g :
  In (f, R, op, g)
     [(FAdd, RAdd, "add", fun n m => NumberValue (n + m));
      (FMul, RMul, "mul", fun n m => NumberValue (n * m));
      (FEq, REq, "eq", fun n m => makeBoolean (Z.eqb n m));
      (FLt, RLt, "lt", fun n m => makeBoolean (Z.ltb n m))]%Z ->
  forall a b s v s1 w s2,
    finishes (fun fuel => forceValue fuel a) (entered s (R a b)) (Ret v s1) ->
    finishes (fun fuel => forceValue fuel b) s1 (Ret w s2) ->
    finishes (fun fuel => forceApply fuel (Val (FuncValue (Lam2 f))) [a; b]) s
      (match v, w with
       | NumberValue n, NumberValue m =>
           Ret (g n m) (settled (length (thunks s)) (g n m) s2)
       | _, _ => Throw (WrongTypes op [kind v; kind w]) s2
       end).
Proof.
  intros Hin. table Hin; apply binary_operator_oo; intros; reflexivity.
Qed.

Lemma div_operator_oo a b s v s1 w s2 :
  finishes (fun fuel => forceValue fuel a) (entered s (RDiv a b)) (Ret v s1) ->
  finishes (fun fuel => forceValue fuel b) s1 (Ret w s2) ->
  finishes (fun fuel => forceApply fuel (Val (FuncValue (Lam2 FDiv))) [a; b]) s
    (match v, w with
     | NumberValue n, NumberValue m =>
         if Z.eqb m 0 then Throw DivisionByZero s2
         else Ret (NumberValue (Z.quot n m))
                  (settled (length (thunks s)) (NumberValue (Z.quot n m)) s2)
     | _, _ => Throw (WrongTypes "div" [kind v; kind w]) s2
     end).
Proof.
  intros Ha Hb.
  assert (H : finishes (fun fuel => forceApply fuel (Val (FuncValue (Lam2 FDiv))) [a; b]) s
                (outcome (length (thunks s))
                   (match v, w with
                    | NumberValue n, NumberValue m => Open.bigintDiv n m s2
                    | _, _ => Throw (WrongTypes "div" [kind v; kind w]) s2
                    end))).
  { apply (forceApply_thunk _ _ (RDiv a b)); [intros; reflexivity |].
    apply (runRecipe_binary_oo RDiv "div" Open.bigintDiv) with (s1 := s1);
      [intros; reflexivity | | exact Ha | exact Hb].
    intros n m s'. unfold Open.bigintDiv. now destruct (Z.eqb m 0). }
  destruct v as [n | | |]; try exact H. destruct w as [m | | |]; try exact H.
  unfold Open.bigintDiv in H. now destruct (Z.eqb m 0).
Qed.

(** ** Combinators *)

Lemma combinators_build_oo fuel s :
  (forall a, applyAll (S fuel) (Val (FuncValue (Lam1 FI))) [a] s = Ret a s) /\
  (forall x y, applyAll (S fuel) (Val (makeBoolean true)) [x; y] s = Ret x s) /\
  (forall x y, applyAll (S fuel) (Val (makeBoolean false)) [x; y] s = Ret y s) /\
  (forall a b c,
     applyAll (S fuel) (Val (FuncValue (Lam3 FC))) [a; b; c] s = applyAll fuel a [c; b] s) /\
  (forall a b c,
     applyAll (S fuel) (Val (FuncValue (Lam3 FB))) [a; b; c] s =
     (let* bc := applyTo fuel b c in applyTo fuel a bc) s) /\
  (forall a b c,
     applyAll (S fuel) (Val (FuncValue (Lam3 FS))) [a; b; c] s = newThunk (RS a b c) s).
Proof.
  repeat split; intros; try reflexivity.
  - unfold applyAll. simpl. unfold Open.applyBody, bind, ret. simpl.
    unfold Open.builtinC, bind.
    now destruct (applyTo fuel a c s).
  - unfold applyAll. simpl. unfold Open.applyBody, bind, ret. simpl.
    unfold Open.builtinB, bind.
    destruct (applyTo fuel b c s) as [bc s1 | |]; try reflexivity.
    now destruct (applyTo fuel a bc s1).
Qed.

Lemma combinator_S_oo a b c s r :
  finishes (fun fuel => sBody fuel a b c) (entered s (RS a b c)) r ->
  finishes (fun fuel => forceApply fuel (Val (FuncValue (Lam3 FS))) [a; b; c]) s
           (outcome (length (thunks s)) r).
Proof.
  intros H. apply (forceApply_thunk _ _ (RS a b c)); [intros; reflexivity |]. exact H.
Qed.

(** ** Pairs and lists by name *)

Lemma list_primitives_build_oo fuel s :
  (forall a b,
     applyAll (S fuel) (Val (FuncValue (Lam2 FCons))) [a; b] s = Ret (Val (ConsValue a b)) s) /\
  (forall a b,
     applyTo (S fuel) (Val (FuncValue (Lam1 FCar))) (Val (ConsValue a b)) s = Ret a s /\
     applyTo (S fuel) (Val (FuncValue (Lam1 FCdr))) (Val (ConsValue a b)) s = Ret b s) /\
  (forall f v, In f [FCar; FCdr] -> kind v <> KCons ->
     applyTo (S fuel) (Val (FuncValue (Lam1 f))) (Val v) s = Throw NotACons s) /\
  (forall l a b, thunkAt s l = forced (ConsValue a b) ->
     applyTo (S fuel) (Val (FuncValue (Lam1 FCar))) (Thunk l) s = Ret a s /\
     applyTo (S fuel) (Val (FuncValue (Lam1 FCdr))) (Thunk l) s = Ret b s) /\
  (forall l f, thunkAt s l = suspended f ->
     let s' := {| thunks := thunks s ++ [suspended (RUncons0 l); suspended (RUncons1 l)];
                  maps := maps s; counter := counter s |} in
     applyTo (S fuel) (Val (FuncValue (Lam1 FCar))) (Thunk l) s =
       Ret (Thunk (length (thunks s))) s' /\
     applyTo (S fuel) (Val (FuncValue (Lam1 FCdr))) (Thunk l) s =
       Ret (Thunk (S (length (thunks s)))) s').
Proof.
  split; [reflexivity |]. split; [intros; split; reflexivity |].
  split; [| split].
  - intros f v [<- | [<- | []]] Hk; destruct v; try reflexivity; now contradiction Hk.
  - intros l a b Hl. simpl. unfold Open.applyBody, Open.valueApply, Open.callFunc, Open.call1,
      Open.builtinCar, Open.builtinCdr, Open.uncons, bind, readThunk. rewrite Hl. simpl.
    split; reflexivity.
  - intros l f Hl s'. simpl. unfold Open.applyBody, Open.valueApply, Open.callFunc, Open.call1,
      Open.builtinCar, Open.builtinCdr, Open.uncons, bind, readThunk. rewrite Hl. simpl.
    unfold s'. rewrite <- app_assoc, length_app. simpl.
    rewrite Nat.add_1_r. split; reflexivity.
Qed.

Lemma isnil_operator_oo a s v s1 :
  finishes (fun fuel => forceValue fuel a) (entered s (RIsNil a)) (Ret v s1) ->
  finishes (fun fuel => forceApply fuel (Val (FuncValue (Lam1 FIsNil))) [a]) s
    (match v with
     | NilValue => Ret (makeBoolean true) (settled (length (thunks s)) (makeBoolean true) s1)
     | ConsValue _ _ =>
         Ret (makeBoolean false) (settled (length (thunks s)) (makeBoolean false) s1)
     | _ => Throw NotNilCons s1
     end).
Proof.
  intros [_ [n Hn]].
  assert (H : finishes (fun fuel => forceApply fuel (Val (FuncValue (Lam1 FIsNil))) [a]) s
                (outcome (length (thunks s))
                   (match v with
                    | NilValue => Ret (makeBoolean true) s1
                    | ConsValue _ _ => Ret (makeBoolean false) s1
                    | _ => Throw NotNilCons s1
                    end))); [| now destruct v].
  apply (forceApply_thunk _ _ (RIsNil a)); [intros; reflexivity |].
  apply (finishes_at _ _ _ n); [| now destruct v].
  change (runRecipe n (RIsNil a))
    with (let* v := forceValue n a in let* r := Open.valueIsNil v in
          @ret State _ (makeBoolean r)).
  unfold bind. rewrite Hn. now destruct v.
Qed.

(** ** Static data and lists *)

Lemma asStaticData_chain elems n :
  asStaticData (fold_right ConsModulatable (NumberModulatable n) elems) =
  fold_right ConsData (NumberData n) (map asStaticData elems).
Proof. induction elems as [| x elems IH]; simpl; [reflexivity | now rewrite IH]. Qed.

Section Canonical.
Variable fv : Expr -> M Value.
Variable loop : list Modulatable -> Value -> M Modulatable.
Hypothesis Hloop : forall elems cur,
  Forall canonicalModulatable elems ->
  returnsOnly canonicalModulatable (loop elems cur).

Lemma forceModulatable_body_canonical e :
  returnsOnly canonicalModulatable (Open.forceModulatable fv loop e).
Proof.
  unfold Open.forceModulatable.
  apply (returnsOnly_bind (fun _ => True)); [apply returnsOnly_any |].
  intros cur _. apply Hloop. constructor.
Qed.

Lemma forceModulatableLoop_body_canonical elems cur :
  Forall canonicalModulatable elems ->
  returnsOnly canonicalModulatable (Open.forceModulatableLoop fv loop elems cur).
Proof.
  intros Helems. destruct cur as [n | f | | car cdr]; unfold Open.forceModulatableLoop.
  - unfold finishCons. rewrite reduceRight_snoc. apply returnsOnly_ret.
    unfold canonicalModulatable. rewrite asStaticData_chain.
    apply canonical_chain. apply Forall_map. exact Helems.
  - apply returnsOnly_throw.
  - apply returnsOnly_ret. unfold canonicalModulatable. simpl.
    apply canonical_list. apply Forall_map. exact Helems.
  - apply (returnsOnly_bind (fun _ => True)); [apply returnsOnly_any |]. intros p _.
    apply (returnsOnly_bind canonicalModulatable); [apply forceModulatable_body_canonical |].
    intros d Hd.
    apply (returnsOnly_bind (fun _ => True)); [apply returnsOnly_any |]. intros next _.
    apply Hloop. apply Forall_app. split; [exact Helems | now constructor].
Qed.
End Canonical.

Lemma forceModulatableLoop_canonical fuel elems cur :
  Forall canonicalModulatable elems ->
  returnsOnly canonicalModulatable (forceModulatableLoop fuel elems cur).
Proof.
  revert elems cur. induction fuel as [| n IH]; intros elems cur Helems.
  - apply returnsOnly_timeout.
  - apply forceModulatableLoop_body_canonical; [exact IH | exact Helems].
Qed.

Lemma forceModulatable_canonical fuel e s m s' :
  forceModulatable fuel e s = Ret m s' -> canonical (asStaticData m) = true.
Proof.
  apply (forceModulatable_body_canonical (forceValue fuel) (forceModulatableLoop fuel)).
  apply forceModulatableLoop_canonical.
Qed.

(** ** [forceList] *)

Lemma forceListLoop_monotone elems cur : monotone (fun fuel => forceListLoop fuel elems cur).
Proof.
  intros fuel. revert elems cur. induction fuel as [| n IH]; intros elems cur.
  - apply approx_timeout.
  - simpl. unfold Open.forceListLoop. approx_tac; first [apply OOProps.forceValue_mono_S | apply IH].
Qed.

Lemma forceListLoop_walk s v es last s' :
  spineWalk s v es last s' ->
  forall elems,
    finishes (fun fuel => forceListLoop fuel elems v) s (forceListResult (elems ++ es) last s').
Proof.
  induction 1 as [s v Hk | s car cdr next s1 es last s2 Hcdr _ IH]; intros elems.
  - rewrite app_nil_r. apply (finishes_at _ _ _ 1).
    + destruct v; try reflexivity. now contradiction Hk.
    + destruct v; discriminate.
  - specialize (IH (elems ++ [car])). rewrite <- app_assoc in IH. simpl in IH.
    destruct (finishes_from _ _ _ (OOProps.forceValue_monotone cdr) Hcdr) as [n1 Hn1].
    destruct (finishes_from _ _ _ (forceListLoop_monotone _ _) IH) as [n2 Hn2].
    apply (finishes_at _ _ _ (S (Nat.max n1 n2))); [| apply IH].
    simpl. unfold Open.forceListLoop, bind. simpl. rewrite Hn1 by lia. apply Hn2. lia.
Qed.

Lemma forceList_walk e s v s1 es last s2 :
  finishes (fun fuel => forceValue fuel e) s (Ret v s1) ->
  spineWalk s1 v es last s2 ->
  finishes (fun fuel => forceList fuel e) s (forceListResult es last s2).
Proof.
  intros He Hwalk.
  apply (finishes_bind (fun fuel => forceValue fuel e)
           (fun cur fuel => forceListLoop fuel [] cur) s v s1).
  - apply OOProps.forceValue_monotone.
  - intros cur. apply forceListLoop_monotone.
  - exact He.
  - exact (forceListLoop_walk _ _ _ _ _ Hwalk []).
Qed.

Lemma spineWalk_spine es last s :
  kind last <> KCons ->
  forall v, Val v = spine es (Val last) -> spineWalk s v es last s.
Proof.
  intros Hk. induction es as [| e es IH]; intros v Hv; simpl in Hv.
  - injection Hv as ->. now constructor.
  - injection Hv as ->.
    destruct es as [| e' es'].
    + apply (walk_cons s e _ last s); [apply OOProps.forceValue_value | now constructor].
    + apply (walk_cons s e _ (ConsValue e' (spine es' (Val last))) s);
        [apply OOProps.forceValue_value | now apply IH].
Qed.

Lemma forceList_spine es last s :
  kind last <> KCons ->
  finishes (fun fuel => forceList fuel (spine es (Val last))) s (forceListResult es last s).
Proof.
  intros Hk. destruct es as [| e es].
  - apply (forceList_walk _ s last s); [apply OOProps.forceValue_value | now constructor].
  - apply (forceList_walk _ s (ConsValue e (spine es (Val last))) s);
      [apply OOProps.forceValue_value | now apply spineWalk_spine].
Qed.

(** ** Well-formed stores *)

Scheme Value_mut := Induction for Value Sort Prop
  with Expr_mut := Induction for Expr Sort Prop
  with Closure_mut := Induction for Closure Sort Prop.
Combined Scheme Value_Expr_Closure_ind from Value_mut, Expr_mut, Closure_mut.

Lemma closed_mono_oo n m :
  n <= m ->
  (forall v, closedValue n v = true -> closedValue m v = true) /\
  (forall e, closedExpr n e = true -> closedExpr m e = true) /\
  (forall c, closedClosure n c = true -> closedClosure m c = true).
Proof.
  intros Hle. apply Value_Expr_Closure_ind; simpl; try tauto.
  - intros car IHcar cdr IHcdr H. apply andb_true_iff in H as [H1 H2].
    now rewrite IHcar, IHcdr.
  - intros l H. apply Nat.ltb_lt in H. apply Nat.ltb_lt. lia.
  - intros f a IHa b IHb H. apply andb_true_iff in H as [H1 H2].
    now rewrite IHa, IHb.
Qed.

Lemma closedValue_mono_oo n m v : n <= m -> closedValue n v = true -> closedValue m v = true.
Proof. intros H. apply (closed_mono_oo n m H). Qed.

Lemma closedExpr_mono_oo n m e : n <= m -> closedExpr n e = true -> closedExpr m e = true.
Proof. intros H. apply (closed_mono_oo n m H). Qed.

Lemma closedClosure_mono_oo n m c : n <= m -> closedClosure n c = true -> closedClosure m c = true.
Proof. intros H. apply (closed_mono_oo n m H). Qed.

Lemma closedRecipe_mono_oo n m f : n <= m -> closedRecipe n f = true -> closedRecipe m f = true.
Proof.
  intros Hle. destruct f; simpl; try tauto;
    rewrite ?andb_true_iff, ?Nat.ltb_lt; intuition eauto using closedExpr_mono_oo; lia.
Qed.

Lemma cellOk_mono_oo n m c : n <= m -> cellOk n c = true -> cellOk m c = true.
Proof.
  intros Hle. unfold cellOk. destruct (func c), (cache c); try discriminate.
  - now apply closedRecipe_mono_oo.
  - now apply closedValue_mono_oo.
Qed.

Lemma wellFormed_emptyState_oo : wellFormed emptyState.
Proof. split; constructor. Qed.

(** ** The triple *)

Lemma safe_ret_oo {A} (C : nat -> A -> bool) n (a : A) :
  (forall m, n <= m -> C m a = true) -> safe C n (ret a).
Proof. intros H s Hwf Hn. simpl. auto. Qed.

Lemma safe_throw_oo {A} (C : nat -> A -> bool) n e :
  e <> BrokenThunk -> safe C n (throw e).
Proof. intros H s Hwf Hn. simpl. auto. Qed.

Lemma safe_timeout_oo {A} (C : nat -> A -> bool) n : safe C n timeout.
Proof. now intros s Hwf Hn. Qed.

Lemma safe_bind_oo {A B} (C1 : nat -> A -> bool) (C2 : nat -> B -> bool) n m k :
  safe C1 n m ->
  (forall a n', n <= n' -> C1 n' a = true -> safe C2 n' (k a)) ->
  safe C2 n (bind m k).
Proof.
  intros Hm Hk s Hwf Hn. unfold bind. specialize (Hm s Hwf Hn).
  destruct (m s) as [a s1 | e s1 |]; [| exact Hm | exact I].
  destruct Hm as (Hwf1 & Hlen & Ha).
  specialize (Hk a (length (thunks s1)) ltac:(lia) Ha s1 Hwf1 ltac:(lia)).
  destruct (k a s1) as [b s2 | e s2 |]; [| | exact I].
  - destruct Hk as (? & ? & ?). split; [assumption | split; [lia | assumption]].
  - destruct Hk as (? & ? & ?). split; [assumption | split; [lia | assumption]].
Qed.

Lemma safe_weaken_oo {A} (C C' : nat -> A -> bool) n m :
  safe C n m -> (forall k a, C k a = true -> C' k a = true) -> safe C' n m.
Proof.
  intros H HC s Hwf Hn. specialize (H s Hwf Hn).
  destruct (m s); intuition auto.
Qed.

Lemma safe_reduce_oo (f : Expr -> Expr -> M Expr) :
  (forall n b a, closedExpr n b = true -> closedExpr n a = true -> safe closedExpr n (f b a)) ->
  forall l n acc,
    closedList n l = true -> closedExpr n acc = true -> safe closedExpr n (reduce f l acc).
Proof.
  intros Hf l. induction l as [| x l IH]; intros n acc Hl Hacc; simpl.
  - apply safe_ret_oo. intros m Hle. eapply closedExpr_mono_oo; eassumption.
  - simpl in Hl. apply andb_true_iff in Hl as [Hx Hl].
    apply (safe_bind_oo closedExpr); [now apply Hf |].
    intros acc' n' Hle Hacc'. apply IH; [| exact Hacc'].
    unfold closedList in *. rewrite forallb_forall in *.
    intros a Ha. eapply closedExpr_mono_oo; [exact Hle | now apply Hl].
Qed.

(** ** Primitives *)

Lemma wellFormed_grow_oo s c :
  wellFormed s -> cellOk (length (thunks s)) c = true ->
  wellFormed {| thunks := thunks s ++ [c]; maps := maps s; counter := counter s |}.
Proof.
  intros [Ht Hm] Hc. unfold wellFormed. simpl. rewrite length_app. simpl. split.
  - apply Forall_app. split.
    + eapply Forall_impl; [exact Ht |]. intros c0. apply cellOk_mono_oo. lia.
    + constructor; [| constructor]. eapply cellOk_mono_oo; [| exact Hc]. lia.
  - eapply Forall_impl; [exact Hm |]. intros m Hmf.
    eapply map_Forall_impl; [exact Hmf |].
    intros k e. apply closedExpr_mono_oo. lia.
Qed.

Lemma newThunk_safe_oo n f : closedRecipe n f = true -> safe closedExpr n (newThunk f).
Proof.
  intros Hf s Hwf Hn. simpl. split; [| split].
  - apply wellFormed_grow_oo; [exact Hwf |]. unfold cellOk. simpl.
    eapply closedRecipe_mono_oo; eassumption.
  - rewrite length_app. lia.
  - rewrite length_app. simpl. apply Nat.ltb_lt. lia.
Qed.

Lemma readThunk_safe_oo n l : l < n -> safe cellOk n (readThunk l).
Proof.
  intros Hl s Hwf Hn. simpl. split; [exact Hwf |]. split; [lia |].
  destruct (lookup_lt_is_Some_2 (thunks s) l ltac:(lia)) as [c E].
  rewrite (OOProps.thunkAt_lookup_oo _ _ _ E).
  destruct Hwf as [Ht _]. rewrite Forall_lookup in Ht. eapply Ht, E.
Qed.

Lemma writeThunk_safe_oo n l v :
  closedValue n v = true -> safe anything n (writeThunk l (forced v)).
Proof.
  intros Hv s [Ht Hm] Hn. simpl. unfold wellFormed. simpl. rewrite length_insert.
  split; [| split; [lia | reflexivity]]. split; [| exact Hm].
  apply Forall_insert; [exact Ht |]. unfold cellOk. simpl.
  eapply closedValue_mono_oo; eassumption.
Qed.

Lemma incrCounter_safe_oo n : safe anything n incrCounter.
Proof. intros s Hwf Hn. simpl. split; [exact Hwf | split; [lia | reflexivity]]. Qed.

Lemma lookup_closed_oo env name s e :
  wellFormed s -> lookup env name s = Some e -> closedExpr (length (thunks s)) e = true.
Proof.
  intros [_ Hm]. rewrite Forall_lookup in Hm.
  induction env as [d | d p IH] using Environment_chain_ind; simpl; unfold mapAt;
    destruct (maps s !! d) as [m |] eqn:Ed; simpl.
  - destruct (m !! name) as [e' |] eqn:En; [| discriminate].
    intros [= <-]. exact (Hm d m Ed name e' En).
  - rewrite lookup_empty. discriminate.
  - destruct (m !! name) as [e' |] eqn:En; [| exact IH].
    intros [= <-]. exact (Hm d m Ed name e' En).
  - rewrite lookup_empty. exact IH.
Qed.

Lemma envLookup_safe_oo n env name : safe closedOption n (envLookup env name).
Proof.
  intros s Hwf Hn. simpl. split; [exact Hwf |]. split; [lia |].
  destruct (lookup env name s) as [e |] eqn:He; [| reflexivity].
  simpl. eapply lookup_closed_oo; eassumption.
Qed.

(** ** The methods *)

Ltac closed_side :=
  simpl in *;
  repeat match goal with
         | H : _ && _ = true |- _ => apply andb_true_iff in H as [? ?]
         | H : Nat.ltb _ _ = true |- _ => apply Nat.ltb_lt in H
         end;
  rewrite ?andb_true_iff, ?Nat.ltb_lt; repeat split;
  first [ assumption
        | reflexivity
        | lia
        | eapply closedExpr_mono_oo; [| eassumption]; lia
        | eapply closedValue_mono_oo; [| eassumption]; lia
        | eapply closedClosure_mono_oo; [| eassumption]; lia ].

Ltac safe_tac :=
  repeat first
    [ match goal with
      | |- safe _ _ (ret _) => apply safe_ret_oo; intros; solve [closed_side]
      | |- safe _ _ (throw _) => apply safe_throw_oo; discriminate
      | |- safe _ _ (newThunk _) => apply newThunk_safe_oo; solve [closed_side]
      | |- safe _ _ (match ?x with _ => _ end) => destruct x
      | |- safe _ _ (if ?x then _ else _) => destruct x
      end ].

Lemma valueUncons_safe n v :
  closedValue n v = true -> safe closedPair n (Open.valueUncons v).
Proof.
  intros Hv. unfold Open.valueUncons. destruct v; safe_tac.
  apply safe_ret_oo. intros m Hle. unfold closedPair. closed_side.
Qed.

Lemma valueIsNil_safe n v : safe anything n (Open.valueIsNil v).
Proof. unfold Open.valueIsNil. safe_tac. Qed.

Lemma uncons_safe n e : closedExpr n e = true -> safe closedPair n (Open.uncons e).
Proof.
  intros He. unfold Open.uncons. destruct e as [v | l]; [now apply valueUncons_safe |].
  simpl in He. apply Nat.ltb_lt in He.
  apply (safe_bind_oo cellOk); [now apply readThunk_safe_oo |].
  intros t n1 Hle1 Ht. unfold cellOk in Ht.
  destruct (cache t) as [v |], (func t) as [f |]; try discriminate.
  - now apply valueUncons_safe.
  - apply (safe_bind_oo closedExpr); [apply newThunk_safe_oo; closed_side |].
    intros first n2 Hle2 Hfirst.
    apply (safe_bind_oo closedExpr); [apply newThunk_safe_oo; closed_side |].
    intros second n3 Hle3 Hsecond.
    apply safe_ret_oo. intros m Hle. unfold closedPair. closed_side.
Qed.

Section Build.
Variable ap : Expr -> Expr -> M Expr.
Hypothesis Hap : forall n e arg,
  closedExpr n e = true -> closedExpr n arg = true -> safe closedExpr n (ap e arg).

Lemma callFunc_safe_oo n f a :
  closedClosure n f = true -> closedExpr n a = true ->
  safe closedExpr n (Open.callFunc ap f a).
Proof.
  intros Hf Ha.
  destruct f as [[]|g|[] x|g|g x|[] x y];
    cbv [Open.callFunc Open.call1 Open.call2 Open.call3 Open.builtinCar Open.builtinCdr
         Open.builtinCons Open.builtinC Open.builtinB Open.builtinInc Open.builtinDec
         Open.builtinNeg Open.builtinI Open.builtinIsNil Open.builtinAdd Open.builtinMul
         Open.builtinDiv Open.builtinEq Open.builtinLt Open.builtinS];
    safe_tac.
  - apply (safe_bind_oo closedPair); [now apply uncons_safe |].
    intros p n1 Hle1 Hp. apply safe_ret_oo. intros m Hle. unfold closedPair in Hp. closed_side.
  - apply (safe_bind_oo closedPair); [now apply uncons_safe |].
    intros p n1 Hle1 Hp. apply safe_ret_oo. intros m Hle. unfold closedPair in Hp. closed_side.
  - apply (safe_bind_oo closedExpr); [apply Hap; closed_side |].
    intros ac n1 Hle1 Hac. apply Hap; closed_side.
  - apply (safe_bind_oo closedExpr); [apply Hap; closed_side |].
    intros bc n1 Hle1 Hbc. apply Hap; closed_side.
Qed.

Lemma valueApply_safe n v arg :
  closedValue n v = true -> closedExpr n arg = true ->
  safe closedExpr n (Open.valueApply ap v arg).
Proof.
  intros Hv Harg. unfold Open.valueApply. destruct v as [k | f | | car cdr]; safe_tac.
  - now apply callFunc_safe_oo.
  - apply (safe_bind_oo closedExpr); [apply Hap; closed_side |].
    intros x n1 Hle1 Hx. apply Hap; closed_side.
Qed.

Lemma applyBody_safe n e arg :
  closedExpr n e = true -> closedExpr n arg = true ->
  safe closedExpr n (Open.applyBody ap e arg).
Proof.
  intros He Harg. unfold Open.applyBody. destruct e as [v | l]; [now apply valueApply_safe |].
  simpl in He. apply Nat.ltb_lt in He.
  apply (safe_bind_oo cellOk); [now apply readThunk_safe_oo |].
  intros t n1 Hle1 Ht. unfold cellOk in Ht.
  destruct (cache t) as [v |], (func t) as [f |]; try discriminate.
  - apply valueApply_safe; [exact Ht | closed_side].
  - apply newThunk_safe_oo. closed_side.
Qed.
End Build.

Lemma applyTo_safe fuel : forall n e arg,
  closedExpr n e = true -> closedExpr n arg = true -> safe closedExpr n (applyTo fuel e arg).
Proof.
  induction fuel as [| k IH]; intros n e arg He Harg.
  - apply safe_timeout_oo.
  - apply applyBody_safe; [exact IH | exact He | exact Harg].
Qed.

Lemma arith1_safe_oo n op f x :
  (forall k m, closedValue m (f k) = true) -> safe closedValue n (Open.arith1 op f x).
Proof.
  intros Hf. unfold Open.arith1. destruct x; safe_tac.
  apply safe_ret_oo. intros; apply Hf.
Qed.

Lemma arith2_safe_oo n op f x y :
  (forall k m, safe closedValue n (f k m)) -> safe closedValue n (Open.arith2 op f x y).
Proof. intros Hf. unfold Open.arith2. destruct x, y; safe_tac. apply Hf. Qed.

Lemma makeBoolean_closed_oo n b : closedValue n (makeBoolean b) = true.
Proof. now destruct b. Qed.

Lemma bigintDiv_safe_oo n x y : safe closedValue n (Open.bigintDiv x y).
Proof. unfold Open.bigintDiv. safe_tac. Qed.

Section Force.
Variable ap : Expr -> Expr -> M Expr.
Variable fv : Expr -> M Value.
Hypothesis Hap : forall n e arg,
  closedExpr n e = true -> closedExpr n arg = true -> safe closedExpr n (ap e arg).
Hypothesis Hfv : forall n e, closedExpr n e = true -> safe closedValue n (fv e).

Lemma runRecipe_safe_oo n f :
  closedRecipe n f = true -> safe closedValue n (Open.runRecipe ap fv f).
Proof.
  intros Hf. destruct f; simpl in Hf; unfold Open.runRecipe.
  - apply andb_true_iff in Hf as [Hthis Harg].
    apply (safe_bind_oo closedValue); [now apply Hfv |]. intros v n1 Hle1 Hv.
    apply (safe_bind_oo closedExpr); [apply valueApply_safe; [exact Hap | closed_side..] |].
    intros e n2 Hle2 He. now apply Hfv.
  - apply (safe_bind_oo closedValue); [now apply Hfv |]. intros v n1 Hle1 Hv.
    apply (safe_bind_oo closedPair); [now apply valueUncons_safe |]. intros p n2 Hle2 Hp.
    apply Hfv. unfold closedPair in Hp. closed_side.
  - apply (safe_bind_oo closedValue); [now apply Hfv |]. intros v n1 Hle1 Hv.
    apply (safe_bind_oo closedPair); [now apply valueUncons_safe |]. intros p n2 Hle2 Hp.
    apply Hfv. unfold closedPair in Hp. closed_side.
  - apply (safe_bind_oo closedOption); [apply envLookup_safe_oo |].
    intros [resolved |] n1 Hle1 Hr; safe_tac. now apply Hfv.
  - apply (safe_bind_oo closedValue); [now apply Hfv |]. intros x n1 _ _.
    apply arith1_safe_oo. reflexivity.
  - apply (safe_bind_oo closedValue); [now apply Hfv |]. intros x n1 _ _.
    apply arith1_safe_oo. reflexivity.
  - apply andb_true_iff in Hf as [? ?].
    apply (safe_bind_oo closedValue); [now apply Hfv |]. intros x n1 Hle1 _.
    apply (safe_bind_oo closedValue); [apply Hfv; closed_side |]. intros y n2 _ _.
    apply arith2_safe_oo. intros; safe_tac.
  - apply andb_true_iff in Hf as [? ?].
    apply (safe_bind_oo closedValue); [now apply Hfv |]. intros x n1 Hle1 _.
    apply (safe_bind_oo closedValue); [apply Hfv; closed_side |]. intros y n2 _ _.
    apply arith2_safe_oo. intros; safe_tac.
  - apply andb_true_iff in Hf as [? ?].
    apply (safe_bind_oo closedValue); [now apply Hfv |]. intros x n1 Hle1 _.
    apply (safe_bind_oo closedValue); [apply Hfv; closed_side |]. intros y n2 _ _.
    apply arith2_safe_oo. intros; apply bigintDiv_safe_oo.
  - apply andb_true_iff in Hf as [? ?].
    apply (safe_bind_oo closedValue); [now apply Hfv |]. intros x n1 Hle1 _.
    apply (safe_bind_oo closedValue); [apply Hfv; closed_side |]. intros y n2 _ _.
    apply arith2_safe_oo. intros; apply safe_ret_oo; intros; apply makeBoolean_closed_oo.
  - apply andb_true_iff in Hf as [? ?].
    apply (safe_bind_oo closedValue); [now apply Hfv |]. intros x n1 Hle1 _.
    apply (safe_bind_oo closedValue); [apply Hfv; closed_side |]. intros y n2 _ _.
    apply arith2_safe_oo. intros; apply safe_ret_oo; intros; apply makeBoolean_closed_oo.
  - apply (safe_bind_oo closedValue); [now apply Hfv |]. intros x n1 _ _.
    apply arith1_safe_oo. reflexivity.
  - apply andb_true_iff in Hf as [Hab Hc]. apply andb_true_iff in Hab as [Ha Hb].
    apply (safe_bind_oo closedExpr); [apply Hap; closed_side |]. intros ac n1 Hle1 Hac.
    apply (safe_bind_oo closedExpr); [apply Hap; closed_side |]. intros bc n2 Hle2 Hbc.
    apply (safe_bind_oo closedExpr); [apply Hap; closed_side |]. intros e n3 Hle3 He.
    now apply Hfv.
  - apply (safe_bind_oo closedValue); [now apply Hfv |]. intros v n1 _ _.
    apply (safe_bind_oo anything); [apply valueIsNil_safe |]. intros r n2 _ _.
    apply safe_ret_oo. intros; apply makeBoolean_closed_oo.
Qed.

Lemma forceValueBody_safe n expr :
  closedExpr n expr = true -> safe closedValue n (Open.forceValueBody ap fv expr).
Proof.
  intros He. unfold Open.forceValueBody. destruct expr as [v | l]; [safe_tac |].
  simpl in He. apply Nat.ltb_lt in He.
  apply (safe_bind_oo cellOk); [now apply readThunk_safe_oo |].
  intros t n1 Hle1 Ht. unfold cellOk in Ht.
  destruct (cache t) as [v |], (func t) as [f |]; try discriminate.
  - safe_tac.
  - apply (safe_bind_oo anything); [apply incrCounter_safe_oo |]. intros _ n2 Hle2 _.
    apply (safe_bind_oo closedValue);
      [apply runRecipe_safe_oo; eapply closedRecipe_mono_oo; eassumption |].
    intros value n3 Hle3 Hvalue.
    apply (safe_bind_oo anything); [now apply writeThunk_safe_oo |]. intros _ n4 Hle4 _.
    safe_tac.
Qed.
End Force.

Lemma forceValue_safe fuel : forall n e,
  closedExpr n e = true -> safe closedValue n (forceValue fuel e).
Proof.
  induction fuel as [| k IH]; intros n e He.
  - apply safe_timeout_oo.
  - apply forceValueBody_safe; [apply applyTo_safe | exact IH | exact He].
Qed.

Lemma finishCons_safe_oo n elems : safe anything n (finishCons elems).
Proof. unfold finishCons. safe_tac. Qed.

Lemma forceModulatableLoop_safe fuel : forall n elems cur,
  closedValue n cur = true -> safe anything n (forceModulatableLoop fuel elems cur).
Proof.
  induction fuel as [| k IH]; intros n elems cur Hcur.
  - apply safe_timeout_oo.
  - simpl. unfold Open.forceModulatableLoop.
    destruct cur as [m | f | | car cdr]; safe_tac; [apply finishCons_safe_oo |].
    apply (safe_bind_oo closedPair); [now apply valueUncons_safe |]. intros p n1 Hle1 Hp.
    unfold closedPair in Hp. apply andb_true_iff in Hp as [Hp1 Hp2].
    apply (safe_bind_oo anything).
    { unfold Open.forceModulatable.
      apply (safe_bind_oo closedValue); [now apply forceValue_safe |].
      intros c n2 Hle2 Hc. now apply IH. }
    intros d n2 Hle2 _.
    apply (safe_bind_oo closedValue); [apply forceValue_safe; closed_side |].
    intros next n3 Hle3 Hnext. now apply IH.
Qed.

Lemma forceModulatable_safe fuel n e :
  closedExpr n e = true -> safe anything n (forceModulatable fuel e).
Proof.
  intros He. unfold forceModulatable, Open.forceModulatable.
  apply (safe_bind_oo closedValue); [now apply forceValue_safe |].
  intros cur n1 Hle1 Hcur. now apply forceModulatableLoop_safe.
Qed.

Lemma closedList_app_oo n es e :
  closedList n es = true -> closedExpr n e = true -> closedList n (es ++ [e]) = true.
Proof.
  unfold closedList. rewrite forallb_app. simpl. intros -> ->. reflexivity.
Qed.

Lemma closedList_mono_oo n m es : n <= m -> closedList n es = true -> closedList m es = true.
Proof.
  intros Hle. unfold closedList. rewrite !forallb_forall.
  intros H e He. eapply closedExpr_mono_oo; [exact Hle | now apply H].
Qed.

Lemma forceListLoop_safe fuel : forall n elems cur,
  closedList n elems = true -> closedValue n cur = true ->
  safe closedList n (forceListLoop fuel elems cur).
Proof.
  induction fuel as [| k IH]; intros n elems cur Helems Hcur.
  - apply safe_timeout_oo.
  - simpl. unfold Open.forceListLoop.
    apply (safe_bind_oo anything); [apply valueIsNil_safe |].
    intros [|] n1 Hle1 _.
    + apply safe_ret_oo. intros m Hle. eapply closedList_mono_oo; [| exact Helems]. lia.
    + apply (safe_bind_oo closedPair);
        [apply valueUncons_safe; eapply closedValue_mono_oo; eassumption |].
      intros p n2 Hle2 Hp. unfold closedPair in Hp. apply andb_true_iff in Hp as [Hp1 _].
      apply (safe_bind_oo closedPair);
        [apply valueUncons_safe; eapply closedValue_mono_oo; [| exact Hcur]; lia |].
      intros q n3 Hle3 Hq. unfold closedPair in Hq. apply andb_true_iff in Hq as [_ Hq2].
      apply (safe_bind_oo closedValue); [now apply forceValue_safe |].
      intros next n4 Hle4 Hnext.
      apply IH; [| exact Hnext]. apply closedList_app_oo.
      * eapply closedList_mono_oo; [| exact Helems]. lia.
      * eapply closedExpr_mono_oo; [| exact Hp1]. lia.
Qed.

Lemma forceList_safe fuel n e :
  closedExpr n e = true -> safe closedList n (forceList fuel e).
Proof.
  intros He. unfold forceList, Open.forceList.
  apply (safe_bind_oo closedValue); [now apply forceValue_safe |].
  intros cur n1 Hle1 Hcur. now apply forceListLoop_safe.
Qed.

Lemma makeReference_safe_oo n env name : safe closedExpr n (makeReference env name).
Proof.
  unfold makeReference.
  apply (safe_bind_oo closedOption); [apply envLookup_safe_oo |].
  intros [resolved |] n1 Hle1 Hr; safe_tac.
Qed.

Lemma newEnvironment_safe_oo n parent : safe anything n (newEnvironment parent).
Proof.
  intros s [Ht Hm] Hn. simpl. split; [| split; [lia | reflexivity]].
  split; [exact Ht |]. simpl. apply Forall_app. split; [exact Hm |].
  constructor; [apply map_Forall_empty | constructor].
Qed.

Lemma define_safe_oo n env name e :
  closedExpr n e = true -> safe anything n (define env name e).
Proof.
  intros He s [Ht Hm] Hn. destruct env as [d parent]. unfold define.
  destruct (mapAt s d !! name) eqn:Hfresh.
  - split; [now split | split; [lia | discriminate]].
  - split; [| split; [simpl; lia | reflexivity]].
    split; [exact Ht |]. simpl. apply Forall_insert; [exact Hm |].
    apply map_Forall_insert_2.
    + eapply closedExpr_mono_oo; eassumption.
    + unfold mapAt. destruct (maps s !! d) as [m |] eqn:Ed; simpl.
      * rewrite Forall_lookup in Hm. exact (Hm d m Ed).
      * apply map_Forall_empty.
Qed.

Lemma defineAll_safe_oo n env defs :
  closedList n defs.*2 = true -> safe anything n (defineAll env defs).
Proof.
  revert n. induction defs as [| [name e] defs IH]; intros n Hdefs; simpl.
  - now apply safe_ret_oo.
  - simpl in Hdefs. apply andb_true_iff in Hdefs as [He Hdefs].
    apply (safe_bind_oo anything); [now apply define_safe_oo |].
    intros _ n1 Hle1 _. apply IH. eapply closedList_mono_oo; eassumption.
Qed.

Lemma newStandardEnvironment_safe_oo n : safe anything n newStandardEnvironment.
Proof.
  unfold newStandardEnvironment.
  apply (safe_bind_oo anything); [apply newEnvironment_safe_oo |]. intros env n0 _ _.
  repeat (apply (safe_bind_oo anything); [now apply define_safe_oo |]; intros _ ? _ _).
  now apply safe_ret_oo.
Qed.

(** The standard store is well formed. *)
Lemma wellFormed_stdState_oo : wellFormed stdState.
Proof.
  pose proof (newStandardEnvironment_safe_oo 0 emptyState
                wellFormed_emptyState_oo (Nat.le_refl 0)) as H.
  unfold stdState.
  destruct (newStandardEnvironment emptyState) as [env s | e s |];
    [apply H | apply wellFormed_emptyState_oo..].
Qed.

End OOMore.

(** ** Numerals, tokens and trimming *)
Module TokenFacts.
Local Open Scope string_scope.

Lemma numberOf_cons c r :
  numberOf (String c r) =
  if Ascii.eqb c "-" then option_map (fun d => Z.opp (Z.of_uint d)) (digitsOf r)
  else option_map Z.of_uint (digitsOf (String c r)).
Proof. destruct c as [[] [] [] [] [] [] [] []]; reflexivity. Qed.

Lemma string_of_uint_digits d : allChars isDigit (NilEmpty.string_of_uint d) = true.
Proof. induction d; simpl; auto. Qed.

Lemma string_of_uint_nonempty d :
  d <> Decimal.Nil -> NilEmpty.string_of_uint d <> "".
Proof. destruct d; simpl; congruence. Qed.

Lemma digitsOf_string_of_uint d :
  d <> Decimal.Nil -> digitsOf (NilEmpty.string_of_uint d) = Some d.
Proof.
  intros Hd. unfold digitsOf.
  pose proof (string_of_uint_nonempty d Hd) as Hne.
  destruct (NilEmpty.string_of_uint d) eqn:E; [congruence |].
  rewrite <- E. apply NilEmpty.usu.
Qed.

Lemma numberOf_digits s :
  allChars isDigit s = true -> numberOf s = option_map Z.of_uint (digitsOf s).
Proof.
  destruct s as [| c r]; [reflexivity |].
  intros H. simpl in H. apply andb_prop in H as [Hc _].
  rewrite numberOf_cons.
  destruct (Ascii.eqb c "-") eqn:E; [| reflexivity].
  apply Ascii.eqb_eq in E. subst c. discriminate.
Qed.

Lemma bigintToString_pos p :
  bigintToString (Z.pos p) = NilEmpty.string_of_uint (Pos.to_uint p).
Proof.
  unfold bigintToString. simpl.
  pose proof (Unsigned.to_uint_nonnil p) as Hne.
  destruct (Pos.to_uint p); [congruence | reflexivity ..].
Qed.

Lemma bigintToString_neg p :
  bigintToString (Z.neg p) = String "-" (NilEmpty.string_of_uint (Pos.to_uint p)).
Proof.
  unfold bigintToString. simpl.
  pose proof (Unsigned.to_uint_nonnil p) as Hne.
  destruct (Pos.to_uint p); [congruence | reflexivity ..].
Qed.

Lemma of_uint_to_uint p : Z.of_uint (Pos.to_uint p) = Z.pos p.
Proof. unfold Z.of_uint. now rewrite Unsigned.of_to. Qed.

(** Reading back the numeral of a bigint gives the bigint. *)
Lemma numberOf_bigintToString z : numberOf (bigintToString z) = Some z.
Proof.
  destruct z as [| p | p].
  - reflexivity.
  - rewrite bigintToString_pos.
    rewrite numberOf_digits by apply string_of_uint_digits.
    rewrite digitsOf_string_of_uint by apply Unsigned.to_uint_nonnil.
    simpl. now rewrite of_uint_to_uint.
  - rewrite bigintToString_neg, numberOf_cons. simpl.
    rewrite digitsOf_string_of_uint by apply Unsigned.to_uint_nonnil.
    simpl. now rewrite of_uint_to_uint.
Qed.

Lemma bigintToString_chars z : allChars isNumeralChar (bigintToString z) = true.
Proof.
  assert (H : forall d, allChars isNumeralChar (NilEmpty.string_of_uint d) = true).
  { induction d; simpl; auto. }
  destruct z as [| p | p].
  - reflexivity.
  - rewrite bigintToString_pos. apply H.
  - rewrite bigintToString_neg. simpl. apply H.
Qed.

Lemma bigintToString_nonempty z : bigintToString z <> "".
Proof.
  destruct z as [| p | p].
  - discriminate.
  - rewrite bigintToString_pos. apply string_of_uint_nonempty, Unsigned.to_uint_nonnil.
  - rewrite bigintToString_neg. discriminate.
Qed.

(** *** Splitting at the spaces *)

Lemma splitSpaces_nonempty s : splitSpaces s <> [].
Proof.
  destruct s as [| c r]; simpl; [discriminate |].
  destruct (Ascii.eqb c " "); [discriminate |].
  destruct (splitSpaces r); discriminate.
Qed.

Lemma splitSpaces_token s : allChars notSpace s = true -> splitSpaces s = [s].
Proof.
  induction s as [| c r IH]; simpl; [reflexivity |].
  intros H. apply andb_prop in H as [Hc Hr].
  unfold notSpace in Hc. apply negb_true_iff in Hc. rewrite Hc.
  now rewrite (IH Hr).
Qed.

Lemma splitSpaces_app a b :
  splitSpaces (a ++ String " " b) = (splitSpaces a ++ splitSpaces b)%list.
Proof.
  induction a as [| c r IH]; simpl; [reflexivity |].
  destruct (Ascii.eqb c " "); rewrite IH; [reflexivity |].
  pose proof (splitSpaces_nonempty r) as Hne.
  destruct (splitSpaces r); [congruence | reflexivity].
Qed.

Lemma allChars_impl (p q : ascii -> bool) s :
  (forall c, p c = true -> q c = true) ->
  allChars p s = true -> allChars q s = true.
Proof.
  intros Hpq. induction s as [| c r IH]; simpl; [reflexivity |].
  intros H. apply andb_prop in H as [Hc Hr].
  rewrite (Hpq c Hc), (IH Hr). reflexivity.
Qed.

Lemma numeral_notSpace c : isNumeralChar c = true -> notSpace c = true.
Proof. destruct c as [[] [] [] [] [] [] [] []]; simpl; intros H; try reflexivity; discriminate. Qed.

Lemma numeral_notWhite c : isNumeralChar c = true -> negb (isWhiteSpace c) = true.
Proof. destruct c as [[] [] [] [] [] [] [] []]; simpl; intros H; try reflexivity; discriminate. Qed.

Lemma splitSpaces_render t : splitSpaces (render t) = tokensOf (termOf t).
Proof.
  induction t as [n | | car IHcar cdr IHcdr]; simpl tokensOf.
  - simpl. apply splitSpaces_token.
    apply (allChars_impl isNumeralChar); [apply numeral_notSpace |].
    apply bigintToString_chars.
  - reflexivity.
  - change (render (TCons car cdr))
      with ("ap" ++ String " " ("ap" ++ String " " ("cons" ++ String " "
              (render car ++ String " " (render cdr))))).
    rewrite !splitSpaces_app, IHcar, IHcdr. reflexivity.
Qed.

(** *** Trimming *)

Lemma reverse_reverse s a b : reverse (reverse s a) b = reverse a (s ++ b).
Proof.
  revert a b. induction s as [| c r IH]; intros a b; simpl; [reflexivity |].
  now rewrite IH.
Qed.

Lemma append_assoc (a b c : string) : (a ++ b) ++ c = a ++ (b ++ c).
Proof.
  induction a as [| x r IH]; [reflexivity |].
  change (String x ((r ++ b) ++ c) = String x (r ++ (b ++ c))). now rewrite IH.
Qed.

Lemma append_nil_r (a : string) : a ++ "" = a.
Proof.
  induction a as [| x r IH]; [reflexivity |].
  change (String x (r ++ "") = String x r). now rewrite IH.
Qed.

Lemma reverse_acc s acc : reverse s acc = reverse s "" ++ acc.
Proof.
  revert acc. induction s as [| c r IH]; intros acc; simpl; [reflexivity |].
  rewrite (IH (String c acc)), (IH (String c "")).
  rewrite append_assoc. reflexivity.
Qed.

Lemma reverse_append a b acc : reverse (a ++ b) acc = reverse b (reverse a acc).
Proof.
  revert acc. induction a as [| c r IH]; intros acc; simpl; [reflexivity |].
  apply IH.
Qed.

Lemma trimStart_id s : startsNonWhite s = true -> trimStart s = s.
Proof.
  destruct s as [| c r]; simpl; [discriminate |].
  intros H. apply negb_true_iff in H. now rewrite H.
Qed.

Lemma trim_id s : startsNonWhite s = true -> endsNonWhite s = true -> trim s = s.
Proof.
  intros Hs He. unfold trim. rewrite (trimStart_id s Hs).
  unfold trimEnd. rewrite (trimStart_id _ He).
  rewrite reverse_reverse. simpl. apply append_nil_r.
Qed.

Lemma startsNonWhite_app a b :
  startsNonWhite a = true -> startsNonWhite (a ++ b) = true.
Proof. destruct a; simpl; [discriminate | auto]. Qed.

Lemma endsNonWhite_app a b :
  endsNonWhite b = true -> endsNonWhite (a ++ b) = true.
Proof.
  unfold endsNonWhite. intros H.
  rewrite reverse_append, (reverse_acc b (reverse a "")).
  now apply startsNonWhite_app.
Qed.

Lemma allChars_reverse p s acc :
  allChars p (reverse s acc) = allChars p s && allChars p acc.
Proof.
  revert acc. induction s as [| c r IH]; intros acc; simpl; [reflexivity |].
  rewrite IH. simpl. destruct (p c), (allChars p r); reflexivity.
Qed.

Lemma allChars_starts p s :
  (forall c, p c = true -> negb (isWhiteSpace c) = true) ->
  allChars p s = true -> s <> "" -> startsNonWhite s = true.
Proof.
  intros Hp. destruct s as [| c r]; simpl; [congruence |].
  intros H _. apply andb_prop in H as [Hc _]. auto.
Qed.

Lemma allChars_ends p s :
  (forall c, p c = true -> negb (isWhiteSpace c) = true) ->
  allChars p s = true -> s <> "" -> endsNonWhite s = true.
Proof.
  intros Hp Hs Hne. unfold endsNonWhite.
  apply (allChars_starts p); [exact Hp | |].
  - rewrite allChars_reverse, Hs. reflexivity.
  - destruct s as [| c r]; [congruence |]. simpl.
    rewrite reverse_acc. destruct (reverse r ""); discriminate.
Qed.

Lemma render_ends t : startsNonWhite (render t) = true /\ endsNonWhite (render t) = true.
Proof.
  induction t as [n | | car [_ IHcar] cdr [_ IHcdr]].
  - simpl. split.
    + apply (allChars_starts isNumeralChar);
        [apply numeral_notWhite | apply bigintToString_chars | apply bigintToString_nonempty].
    + apply (allChars_ends isNumeralChar);
        [apply numeral_notWhite | apply bigintToString_chars | apply bigintToString_nonempty].
  - split; reflexivity.
  - split; [reflexivity |].
    change (render (TCons car cdr))
      with ("ap ap cons " ++ (render car ++ (" " ++ render cdr))).
    now do 3 apply endsNonWhite_app.
Qed.

(** What [debugString] prints is split into the tokens of its term. *)
Lemma tokens_of_render t : splitSpaces (trim (render t)) = tokensOf (termOf t).
Proof.
  destruct (render_ends t) as [Hs He].
  rewrite (trim_id _ Hs He). apply splitSpaces_render.
Qed.

Lemma trimStart_blank s : allChars isWhiteSpace s = true -> trimStart s = "".
Proof.
  induction s as [| c r IH]; simpl; [reflexivity |].
  intros H. apply andb_prop in H as [Hc Hr]. rewrite Hc. now apply IH.
Qed.

(** Code made of white space alone is trimmed to nothing, which splits into
    one empty token. *)
Lemma tokens_of_blank s : allChars isWhiteSpace s = true -> splitSpaces (trim s) = [""].
Proof. intros H. unfold trim. now rewrite (trimStart_blank s H). Qed.

End TokenFacts.

(** ** The parser and the printer of the functional variant *)
Module FnParse.
Import Fn FnProps FnMore TokenFacts.
Local Open Scope string_scope.

(** ** The printer *)

Section PrintMono.
Variables ma ma' : list Expr -> M Expr.
Variables ev ev' : Expr -> M Value.
Variables ds ds' : Expr -> M string.
Hypothesis Hma : forall args, approx (ma args) (ma' args).
Hypothesis Hev : forall e, approx (ev e) (ev' e).
Hypothesis Hds : forall e, approx (ds e) (ds' e).
#[local] Hint Resolve Hma Hev Hds : approx.

Lemma debugStringBody_approx e :
  approx (Open.debugStringBody ma ev ds e) (Open.debugStringBody ma' ev' ds' e).
Proof.
  unfold Open.debugStringBody, Open.makeCar, Open.makeCdr. approx_tac.
Qed.
End PrintMono.

Lemma debugString_mono_S fuel e : approx (debugString fuel e) (debugString (S fuel) e).
Proof.
  revert e. induction fuel as [| n IH]; intros e.
  - apply approx_timeout.
  - apply debugStringBody_approx;
      [apply makeApply_mono_S | apply evaluate_mono_S | apply IH].
Qed.

Lemma debugString_monotone e : monotone (fun fuel => debugString fuel e).
Proof. intros fuel. apply debugString_mono_S. Qed.

Lemma debugString_S fuel e :
  debugString (S fuel) e =
  Open.debugStringBody (makeApply fuel) (evaluate fuel) (debugString fuel) e.
Proof. reflexivity. Qed.

(** [debugString] walks tagged data as the canonicalization does and prints
    it in prefix notation. *)
Lemma debugString_forcesTo s e t s' :
  forcesTo s e t s' ->
  finishes (fun fuel => debugString fuel e) s (Ret (render t) s').
Proof.
  induction 1 as [s e n s' He | s e s' He
                 | s e car cdr s1 tcar s2 tcdr s3 He _ IHcar _ IHcdr].
  - destruct (finishes_from _ _ _ (evaluate_monotone e) He) as [n1 Hn1].
    apply (finishes_at _ _ _ (S n1)); [| discriminate].
    rewrite debugString_S. unfold Open.debugStringBody, bind.
    now rewrite Hn1 by lia.
  - destruct (finishes_from _ _ _ (evaluate_monotone e) He) as [n1 Hn1].
    apply (finishes_at _ _ _ (S (S n1))); [| discriminate].
    rewrite debugString_S. unfold Open.debugStringBody, bind.
    now rewrite Hn1 by lia.
  - destruct (finishes_from _ _ _ (evaluate_monotone e) He) as [n1 Hn1].
    destruct (finishes_from _ _ _ (debugString_monotone car) IHcar) as [na Hna].
    destruct (finishes_from _ _ _ (debugString_monotone cdr) IHcdr) as [nb Hnb].
    apply (finishes_at _ _ _ (S (S (S (n1 + na + nb))))); [| discriminate].
    rewrite debugString_S. unfold Open.debugStringBody, bind.
    rewrite Hn1 by lia.
    change (Open.isNil (makeApply ?k) (evaluate ?k)) with (isNil k).
    rewrite (isNil_tagged _ _ _ (ConsValue car cdr) s1) by reflexivity.
    change (Open.makeCar (makeApply ?k)) with (makeCar k).
    change (Open.makeCdr (makeApply ?k)) with (makeCdr k).
    rewrite makeCar_cons. rewrite Hna by lia.
    rewrite makeCdr_cons. rewrite Hnb by lia. reflexivity.
Qed.

(** ** The parser *)

Lemma parseExprIter_mono_S fuel env tokens :
  approx (parseExprIter fuel env tokens) (parseExprIter (S fuel) env tokens).
Proof.
  revert tokens. induction fuel as [| n IH]; intros tokens.
  - apply approx_timeout.
  - change (parseExprIter (S n) env tokens) with
      (match tokens with
       | [] => ret (Failed NoToken)
       | token :: rest =>
           if String.eqb token "ap" then
             let* r1 := parseExprIter n env rest in
             match r1 with
             | Failed why => ret (Failed why)
             | Parsed (lhs, rest1) =>
                 let* r2 := parseExprIter n env rest1 in
                 match r2 with
                 | Failed why => ret (Failed why)
                 | Parsed (rhs, rest2) =>
                     let* e := makeApply n [lhs; rhs] in
                     ret (Parsed (e, rest2))
                 end
             end
           else
             match numberOf token with
             | Some k => ret (Parsed (Val (makeNumber k), rest))
             | None =>
                 let* e := makeReference env token in
                 ret (Parsed (e, rest))
             end
       end).
    remember (S n) as m eqn:Em. simpl. subst m.
    pose proof (makeApply_mono_S n) as Hma.
    destruct tokens as [| token rest]; [apply approx_refl |].
    destruct (String.eqb token "ap"); [| apply approx_refl].
    approx_tac.
Qed.

Lemma parseExprIter_monotone env tokens :
  monotone (fun fuel => parseExprIter fuel env tokens).
Proof. intros fuel. apply parseExprIter_mono_S. Qed.

Lemma parseExpr_monotone env code : monotone (fun fuel => parseExpr fuel env code).
Proof.
  intros fuel. unfold parseExpr.
  apply approx_bind; [apply parseExprIter_mono_S | intros r; apply approx_refl].
Qed.

Lemma build_mono_S fuel env t : approx (build fuel env t) (build (S fuel) env t).
Proof.
  induction t as [f IHf x IHx | n | name]; simpl.
  - apply approx_bind; [exact IHf | intros lhs].
    apply approx_bind; [exact IHx | intros rhs]. apply makeApply_mono_S.
  - apply approx_refl.
  - apply approx_refl.
Qed.

Lemma build_monotone env t : monotone (fun fuel => build fuel env t).
Proof. intros fuel. apply build_mono_S. Qed.

Lemma not_ap_of_number token n : numberOf token = Some n -> String.eqb token "ap" = false.
Proof.
  intros H. destruct (String.eqb token "ap") eqn:E; [| reflexivity].
  apply String.eqb_eq in E. subst token. discriminate.
Qed.

Lemma parseExprIter_tokensOf env t :
  namesOk t ->
  forall rest s r,
    finishes (fun fuel => build fuel env t) s r ->
    exists fuel0, forall fuel, fuel0 <= fuel ->
      parseExprIter fuel env (tokensOf t ++ rest)%list s = leaving rest r.
Proof.
  induction t as [f IHf x IHx | n | name]; intros Hok rest s r [Hne [n0 Hn0]].
  - destruct Hok as [Hokf Hokx]. simpl in Hn0. unfold bind in Hn0.
    destruct (build n0 env f s) as [lhs s1 | err s1 |] eqn:Ef; [| | congruence].
    + destruct (IHf Hokf (tokensOf x ++ rest)%list s (Ret lhs s1)) as [nf Hnf].
      { apply (finishes_at _ _ _ n0); [exact Ef | discriminate]. }
      destruct (build n0 env x s1) as [rhs s2 | err s2 |] eqn:Ex; [| | congruence].
      * destruct (IHx Hokx rest s1 (Ret rhs s2)) as [nx Hnx].
        { apply (finishes_at _ _ _ n0); [exact Ex | discriminate]. }
        exists (S (n0 + nf + nx)). intros [| k] Hle; [lia |].
        simpl tokensOf. rewrite <- app_comm_cons, <- app_assoc.
        simpl. unfold bind. rewrite Hnf by lia. simpl.
        rewrite Hnx by lia. simpl.
        rewrite (makeApply_fuel n0 k _ _ r Hn0 Hne) by lia.
        now destruct r.
      * destruct (IHx Hokx rest s1 (Throw err s2)) as [nx Hnx].
        { apply (finishes_at _ _ _ n0); [exact Ex | discriminate]. }
        exists (S (n0 + nf + nx)). intros [| k] Hle; [lia |].
        simpl tokensOf. rewrite <- app_comm_cons, <- app_assoc.
        simpl. unfold bind. rewrite Hnf by lia. simpl.
        rewrite Hnx by lia. simpl. now subst r.
    + destruct (IHf Hokf (tokensOf x ++ rest)%list s (Throw err s1)) as [nf Hnf].
      { apply (finishes_at _ _ _ n0); [exact Ef | discriminate]. }
      exists (S nf). intros [| k] Hle; [lia |].
      simpl tokensOf. rewrite <- app_comm_cons, <- app_assoc.
      simpl. unfold bind. rewrite Hnf by lia. simpl. now subst r.
  - exists 1. intros [| k] Hle; [lia |]. simpl in Hn0. subst r.
    simpl tokensOf. simpl app.
    cbn [parseExprIter].
    rewrite (not_ap_of_number _ n (numberOf_bigintToString n)).
    now rewrite numberOf_bigintToString.
  - exists 1. intros [| k] Hle; [lia |]. simpl in Hn0, Hok.
    destruct Hok as [Hap Hnum].
    simpl tokensOf. simpl app. cbn [parseExprIter].
    apply String.eqb_neq in Hap. rewrite Hap, Hnum.
    unfold bind. rewrite Hn0. now destruct r.
Qed.

(** ** Parsing what was printed *)

Lemma namesOk_termOf t : namesOk (termOf t).
Proof.
  induction t as [n | | car IHcar cdr IHcdr]; simpl.
  - exact I.
  - split; [discriminate | reflexivity].
  - split; [split; [split; [discriminate | reflexivity] | exact IHcar] | exact IHcdr].
Qed.

(** With [cons] and [nil] bound to the constructors, building the term of
    tagged data gives the data, already evaluated, and leaves the store. *)
Lemma build_termOf env t s fuel :
  lookup env "cons" s = Some (Val (makeFunc2 FCons)) ->
  lookup env "nil" s = Some (Val makeNil) ->
  build (S fuel) env (termOf t) s = Ret (embed t) s.
Proof.
  intros Hcons Hnil.
  induction t as [n | | car IHcar cdr IHcdr].
  - reflexivity.
  - apply makeReference_bound, Hnil.
  - cbn [termOf build]. unfold bind.
    rewrite (makeReference_bound _ _ _ _ Hcons), IHcar.
    change (makeApply (S fuel) [Val (makeFunc2 FCons); embed car] s)
      with (Ret (Val (FuncValue (Lam2a FCons (embed car)))) s).
    cbv beta iota. rewrite IHcdr. reflexivity.
Qed.

(** ** The parser, the printer and the store *)







(** ** The printed form determines the data *)

Lemma embed_injective t1 t2 : embed t1 = embed t2 -> t1 = t2.
Proof.
  revert t2. induction t1 as [n | | car IHcar cdr IHcdr]; intros [m | | car2 cdr2] H;
    try discriminate; try reflexivity.
  - now injection H as ->.
  - injection H as Hcar Hcdr. now rewrite (IHcar _ Hcar), (IHcdr _ Hcdr).
Qed.

(** Two renderings are the same string only for the same data: the parser
    reads the data back from either. *)
Lemma render_injective t1 t2 : render t1 = render t2 -> t1 = t2.
Proof.
  intros H. apply embed_injective.
  assert (Hback : forall t, exists n,
            parseExprIter n stdEnv (splitSpaces (render t)) stdState
            = Ret (Parsed (embed t, [])) stdState).
  { intros t.
    assert (Hbuild : finishes (fun fuel => build fuel stdEnv (termOf t)) stdState
                       (Ret (embed t) stdState)).
    { apply (finishes_at _ _ _ 1); [| discriminate].
      now apply build_termOf. }
    destruct (parseExprIter_tokensOf stdEnv (termOf t) (namesOk_termOf t)
                [] stdState _ Hbuild) as [n Hn].
    exists n. rewrite splitSpaces_render.
    rewrite <- (app_nil_r (tokensOf (termOf t))). now apply Hn. }
  destruct (Hback t1) as [n1 Hn1]. destruct (Hback t2) as [n2 Hn2].
  rewrite H in Hn1.
  pose proof (approx_run _ _ _ _
                (monotone_le _ n1 (Nat.max n1 n2)
                   (parseExprIter_monotone stdEnv (splitSpaces (render t2))) (Nat.le_max_l _ _))
                Hn1) as E1.
  pose proof (approx_run _ _ _ _
                (monotone_le _ n2 (Nat.max n1 n2)
                   (parseExprIter_monotone stdEnv (splitSpaces (render t2))) (Nat.le_max_r _ _))
                Hn2) as E2.
  cbv beta in E1, E2.
  rewrite E1 in E2 by discriminate.
  assert (E : Ret (Parsed (embed t1, [])) stdState
              = Ret (Parsed (embed t2, @nil string)) stdState)
    by (apply E2; discriminate).
  exact (f_equal (fun r : Res State (Parse (Expr * list string)) =>
                    match r with
                    | Ret (Parsed (e, _)) _ => e
                    | _ => embed t1
                    end) E).
Qed.

End FnParse.

(** * Further properties of the code *)

(** X1. Define, then look up.  In an environment whose Map is in the store
    and does not hold [name], [define] returns, and then [lookup] of [name]
    in that environment gives the expression just defined; the lookup of
    every other name, in every environment, is what it was, and neither the
    thunks nor the counter nor the number of Maps changed.  Both variants. *)
Theorem define_then_lookup :
  (forall d parent name e s,
     d < length (Fn.maps s) ->
     Fn.mapAt s d !! name = None ->
     exists s',
       Fn.define (Env d parent) name e s = Ret tt s' /\
       Fn.lookup (Env d parent) name s' = Some e /\
       (forall env' name', name' <> name ->
          Fn.lookup env' name' s' = Fn.lookup env' name' s) /\
       Fn.thunks s' = Fn.thunks s /\
       Fn.evalCounter s' = Fn.evalCounter s /\
       length (Fn.maps s') = length (Fn.maps s)) /\
  (forall d parent name e s,
     d < length (OO.maps s) ->
     OO.mapAt s d !! name = None ->
     exists s',
       OO.define (Env d parent) name e s = Ret tt s' /\
       OO.lookup (Env d parent) name s' = Some e /\
       (forall env' name', name' <> name ->
          OO.lookup env' name' s' = OO.lookup env' name' s) /\
       OO.thunks s' = OO.thunks s /\
       OO.counter s' = OO.counter s /\
       length (OO.maps s') = length (OO.maps s)).
Proof.
  split.
  - exact FnMore.define_round_trip.
  - exact OOMore.define_round_trip_oo.
Qed.

(** [galaxy] defined in the standard environment, which does not hold it:
    it is found, and [add] is still the addition. *)
Lemma define_then_lookup_witness :
  exists s',
    Fn.define Fn.stdEnv "galaxy" (Fn.Val (Fn.makeNumber 42)) Fn.stdState = Ret tt s' /\
    Fn.lookup Fn.stdEnv "galaxy" s' = Some (Fn.Val (Fn.makeNumber 42)) /\
    Fn.lookup Fn.stdEnv "add" s' = Some (Fn.Val (Fn.makeFunc2 Fn.FAdd)).
Proof.
  assert (Hd : 0 < length (Fn.maps Fn.stdState)) by (vm_compute; lia).
  assert (Hfresh : Fn.mapAt Fn.stdState 0 !! "galaxy" = None) by (vm_compute; reflexivity).
  destruct (proj1 define_then_lookup 0 None "galaxy" (Fn.Val (Fn.makeNumber 42))
              Fn.stdState Hd Hfresh) as (s' & Hdef & Hl & Hother & _).
  exists s'. split; [exact Hdef |]. split; [exact Hl |].
  rewrite (Hother Fn.stdEnv "add"); [vm_compute; reflexivity | discriminate].
Defined.

(** X2. A name is defined once.  After a [define] that returned, a second
    [define] of the same name in the same environment throws 'Duplicated
    definition' and changes nothing: the name is still bound to the first
    expression.  Both variants. *)
Theorem duplicate_definition_rejected :
  (forall d parent name e e' s s',
     d < length (Fn.maps s) ->
     Fn.define (Env d parent) name e s = Ret tt s' ->
     Fn.define (Env d parent) name e' s' = Throw (DuplicatedDefinition name) s' /\
     Fn.lookup (Env d parent) name s' = Some e) /\
  (forall d parent name e e' s s',
     d < length (OO.maps s) ->
     OO.define (Env d parent) name e s = Ret tt s' ->
     OO.define (Env d parent) name e' s' = Throw (DuplicatedDefinition name) s' /\
     OO.lookup (Env d parent) name s' = Some e).
Proof.
  split.
  - exact FnMore.define_duplicate.
  - exact OOMore.define_duplicate_oo.
Qed.

(** [x] defined as 1 in a new environment, then as 2: the second definition
    throws and [x] is still 1. *)
Lemma duplicate_definition_rejected_witness :
  let s := {| Fn.thunks := []; Fn.maps := [∅]; Fn.evalCounter := 0 |} in
  exists s',
    Fn.define (Env 0 None) "x" (Fn.Val (Fn.makeNumber 1)) s = Ret tt s' /\
    Fn.define (Env 0 None) "x" (Fn.Val (Fn.makeNumber 2)) s' =
      Throw (DuplicatedDefinition "x") s' /\
    Fn.lookup (Env 0 None) "x" s' = Some (Fn.Val (Fn.makeNumber 1)).
Proof.
  intros s. eexists. split; [reflexivity |].
  apply (proj1 duplicate_definition_rejected 0 None "x" _ _ s); [simpl; lia | reflexivity].
Defined.

(** X3. A child environment inherits and shadows.  [new Environment(parent)]
    returns an environment with a Map of its own, and changes the lookups of
    no environment.  The child resolves every name as its parent does.  A
    definition in the child always returns, even of a name that the parent
    binds; afterwards the child resolves that name to the new expression and
    every other name as the parent does, and the parent resolves every name
    as before.  Both variants. *)
Theorem child_environment_shadows :
  (forall parent s,
     Fn.envWithin (length (Fn.maps s)) parent ->
     exists child s1,
       Fn.newEnvironment (Some parent) s = Ret child s1 /\
       (forall env' name, Fn.lookup env' name s1 = Fn.lookup env' name s) /\
       (forall name, Fn.lookup child name s1 = Fn.lookup parent name s) /\
       forall name e, exists s2,
         Fn.define child name e s1 = Ret tt s2 /\
         Fn.lookup child name s2 = Some e /\
         (forall name', name' <> name ->
            Fn.lookup child name' s2 = Fn.lookup parent name' s) /\
         (forall name', Fn.lookup parent name' s2 = Fn.lookup parent name' s)) /\
  (forall parent s,
     OO.envWithin (length (OO.maps s)) parent ->
     exists child s1,
       OO.newEnvironment (Some parent) s = Ret child s1 /\
       (forall env' name, OO.lookup env' name s1 = OO.lookup env' name s) /\
       (forall name, OO.lookup child name s1 = OO.lookup parent name s) /\
       forall name e, exists s2,
         OO.define child name e s1 = Ret tt s2 /\
         OO.lookup child name s2 = Some e /\
         (forall name', name' <> name ->
            OO.lookup child name' s2 = OO.lookup parent name' s) /\
         (forall name', OO.lookup parent name' s2 = OO.lookup parent name' s)).
Proof.
  split.
  - exact FnMore.child_environment.
  - exact OOMore.child_environment_oo.
Qed.

(** A child of the standard environment that defines its own [add]: the
    child sees the new [add] and the old [mul], the standard environment its
    own [add]. *)
Lemma child_environment_shadows_witness :
  exists child s1 s2,
    Fn.newEnvironment (Some Fn.stdEnv) Fn.stdState = Ret child s1 /\
    Fn.define child "add" (Fn.Val (Fn.makeNumber 0)) s1 = Ret tt s2 /\
    Fn.lookup child "add" s2 = Some (Fn.Val (Fn.makeNumber 0)) /\
    Fn.lookup child "mul" s2 = Some (Fn.Val (Fn.makeFunc2 Fn.FMul)) /\
    Fn.lookup Fn.stdEnv "add" s2 = Some (Fn.Val (Fn.makeFunc2 Fn.FAdd)).
Proof.
  assert (Hw : Fn.envWithin (length (Fn.maps Fn.stdState)) Fn.stdEnv)
    by (vm_compute; split; [lia | exact I]).
  destruct (proj1 child_environment_shadows Fn.stdEnv Fn.stdState Hw)
    as (child & s1 & Hnew & _ & _ & Hdefine).
  destruct (Hdefine "add" (Fn.Val (Fn.makeNumber 0))) as (s2 & Hdef & Hl & Hother & Hparent).
  exists child, s1, s2. split; [exact Hnew |]. split; [exact Hdef |].
  split; [exact Hl |]. split.
  - rewrite (Hother "mul"); [vm_compute; reflexivity | discriminate].
  - rewrite (Hparent "add"). vm_compute. reflexivity.
Defined.

(** X4. [defineAll] defines the entries in order and stops at the first
    duplicate.  When the Map of the environment is in the store and holds
    none of the names of [defs], [defineAll] returns and every entry of
    [defs] is then found in the environment, the other names being resolved
    as before, in every environment.  When [defineAll] of the entries
    [before] returns and the next entry has a name that the Map then holds,
    [defineAll] throws 'Duplicated definition' of that name, and the entries
    [before] stay defined: the store is the one that [defineAll] of [before]
    alone leaves.  Both variants. *)
Theorem defineAll_in_order :
  ((forall d parent defs s,
      d < length (Fn.maps s) ->
      NoDup defs.*1 ->
      (forall name, name ∈ defs.*1 -> Fn.mapAt s d !! name = None) ->
      exists s',
        Fn.defineAll (Env d parent) defs s = Ret tt s' /\
        (forall name e, (name, e) ∈ defs -> Fn.lookup (Env d parent) name s' = Some e) /\
        (forall env' name, name ∉ defs.*1 ->
           Fn.lookup env' name s' = Fn.lookup env' name s) /\
        Fn.thunks s' = Fn.thunks s /\
        Fn.evalCounter s' = Fn.evalCounter s /\
        length (Fn.maps s') = length (Fn.maps s)) /\
   (forall d parent before name e after s s1 e0,
      Fn.defineAll (Env d parent) before s = Ret tt s1 ->
      Fn.mapAt s1 d !! name = Some e0 ->
      Fn.defineAll (Env d parent) (before ++ (name, e) :: after) s =
      Throw (DuplicatedDefinition name) s1)) /\
  ((forall d parent defs s,
      d < length (OO.maps s) ->
      NoDup defs.*1 ->
      (forall name, name ∈ defs.*1 -> OO.mapAt s d !! name = None) ->
      exists s',
        OO.defineAll (Env d parent) defs s = Ret tt s' /\
        (forall name e, (name, e) ∈ defs -> OO.lookup (Env d parent) name s' = Some e) /\
        (forall env' name, name ∉ defs.*1 ->
           OO.lookup env' name s' = OO.lookup env' name s) /\
        OO.thunks s' = OO.thunks s /\
        OO.counter s' = OO.counter s /\
        length (OO.maps s') = length (OO.maps s)) /\
   (forall d parent before name e after s s1 e0,
      OO.defineAll (Env d parent) before s = Ret tt s1 ->
      OO.mapAt s1 d !! name = Some e0 ->
      OO.defineAll (Env d parent) (before ++ (name, e) :: after) s =
      Throw (DuplicatedDefinition name) s1)).
Proof.
  split; split.
  - exact FnMore.defineAll_fresh.
  - exact FnMore.defineAll_duplicate.
  - exact OOMore.defineAll_fresh_oo.
  - exact OOMore.defineAll_duplicate_oo.
Qed.

(** [x], [add] and [y] handed to [defineAll] on the standard environment:
    [add] is a duplicate, [x] stays defined and [y] is not reached. *)
Lemma defineAll_in_order_witness :
  exists s1,
    Fn.defineAll Fn.stdEnv [("x", Fn.Val (Fn.makeNumber 1))] Fn.stdState = Ret tt s1 /\
    Fn.defineAll Fn.stdEnv
      [("x", Fn.Val (Fn.makeNumber 1)); ("add", Fn.Val (Fn.makeNumber 2));
       ("y", Fn.Val (Fn.makeNumber 3))] Fn.stdState =
      Throw (DuplicatedDefinition "add") s1 /\
    Fn.lookup Fn.stdEnv "x" s1 = Some (Fn.Val (Fn.makeNumber 1)) /\
    Fn.lookup Fn.stdEnv "y" s1 = None.
Proof.
  eexists. split; [vm_compute; reflexivity |]. split.
  - apply (proj2 (proj1 defineAll_in_order) 0 None [("x", Fn.Val (Fn.makeNumber 1))]
             "add" _ [("y", Fn.Val (Fn.makeNumber 3))] Fn.stdState _
             (Fn.Val (Fn.makeFunc2 Fn.FAdd))).
    + vm_compute. reflexivity.
    + vm_compute. reflexivity.
  - split; vm_compute; reflexivity.
Defined.

(** X5. Evaluation leaves the environments alone, and bindings are for
    good.  No call of [evaluate], [makeApply], [exprToStaticData] or
    [parseList] ([forceValue], [apply], [forceModulatable], [forceList])
    writes a Map, whether it returns or throws.  Through any sequence of
    calls of the evaluator, of [makeReference], [new Environment] and
    [define], a binding that a Map holds stays in that Map, bound to the
    same expression.  Both variants. *)
Theorem bindings_are_permanent :
  ((forall fuel e, preserves Fn.sameMaps (Fn.evaluate fuel e)) /\
   (forall fuel args, preserves Fn.sameMaps (Fn.makeApply fuel args)) /\
   (forall fuel e, preserves Fn.sameMaps (Fn.exprToStaticData fuel e)) /\
   (forall fuel e, preserves Fn.sameMaps (Fn.parseList fuel e)) /\
   (forall s s', rtc Fn.step s s' -> Fn.bindingsKept s s')) /\
  ((forall fuel e, preserves OO.sameMaps (OO.forceValue fuel e)) /\
   (forall fuel e arg, preserves OO.sameMaps (OO.applyTo fuel e arg)) /\
   (forall fuel e, preserves OO.sameMaps (OO.forceModulatable fuel e)) /\
   (forall fuel e, preserves OO.sameMaps (OO.forceList fuel e)) /\
   (forall s s', rtc OO.step s s' -> OO.bindingsKept s s')).
Proof.
  split.
  - split; [exact FnMore.evaluate_sameMaps |]. split; [exact FnMore.makeApply_sameMaps |].
    split; [exact FnMore.exprToStaticData_sameMaps |].
    split; [exact FnMore.parseList_sameMaps | exact FnMore.steps_bindingsKept].
  - split; [exact OOMore.forceValue_sameMaps |]. split; [exact OOMore.applyTo_sameMaps |].
    split; [exact OOMore.forceModulatable_sameMaps |].
    split; [exact OOMore.forceList_sameMaps | exact OOMore.steps_bindingsKept_oo].
Qed.

(** [add 3 4] forced in a store whose only Map binds [add]: the Maps are the
    same afterwards, and [add] is still bound after a definition of [x]. *)
Lemma bindings_are_permanent_witness :
  let add := Fn.Val (Fn.makeFunc2 Fn.FAdd) in
  let s := {| Fn.thunks := [Fn.suspended (Fn.RAdd (Fn.Val (Fn.makeNumber 3))
                                                  (Fn.Val (Fn.makeNumber 4)))];
              Fn.maps := [{[ "add" := add ]}]; Fn.evalCounter := 0 |} in
  let s1 := {| Fn.thunks := [Fn.forced (Fn.NumberValue 7)];
               Fn.maps := [{[ "add" := add ]}]; Fn.evalCounter := 1 |} in
  let s2 := {| Fn.thunks := [Fn.forced (Fn.NumberValue 7)];
               Fn.maps := [<[ "x" := Fn.Thunk 0 ]> {[ "add" := add ]}];
               Fn.evalCounter := 1 |} in
  Fn.evaluate 2 (Fn.Thunk 0) s = Ret (Fn.NumberValue 7) s1 /\
  Fn.define (Env 0 None) "x" (Fn.Thunk 0) s1 = Ret tt s2 /\
  Fn.maps s1 = Fn.maps s /\
  Fn.mapAt s2 0 !! "add" = Some add.
Proof.
  intros add s s1 s2.
  assert (H1 : Fn.evaluate 2 (Fn.Thunk 0) s = Ret (Fn.NumberValue 7) s1) by reflexivity.
  assert (H2 : Fn.define (Env 0 None) "x" (Fn.Thunk 0) s1 = Ret tt s2)
    by (vm_compute; reflexivity).
  destruct bindings_are_permanent as ((Hev & _ & _ & _ & Hkept) & _).
  split; [exact H1 |]. split; [exact H2 |]. split.
  - apply (Hev 2 _ _ _ (f_equal finalStore H1)).
  - apply (Hkept s).
    + eapply rtc_l; [exact (Fn.step_evaluate 2 _ _ _ (f_equal finalStore H1)) |].
      apply rtc_once. exact (Fn.step_define _ _ _ _ _ (f_equal finalStore H2)).
    + vm_compute. reflexivity.
Defined.

(** X6. [makeApply] folds its arguments from the left.  Without argument it
    throws the TypeError of [reduce] on an empty array; with one argument it
    returns that argument, whatever it is, a Number included; with more, it
    builds what applying the expression built from all arguments but the
    last to the last argument builds. *)
Theorem makeApply_folds_left :
  forall fuel,
    (forall s, Fn.makeApply (S fuel) [] s = Throw ReduceOfEmptyArray s) /\
    (forall e s, Fn.makeApply (S fuel) [e] s = Ret e s) /\
    (forall f args x s,
       Fn.makeApply (S fuel) (f :: args ++ [x]) s =
       (let* g := Fn.makeApply (S fuel) (f :: args) in Fn.makeApply (S fuel) [g; x]) s).
Proof. exact FnMore.makeApply_left_fold. Qed.

(** X7. A deferred application agrees with the direct one.  Applying an
    argument to a thunk only allocates a thunk.  When that thunk is forced
    and the thunk applied forces to the value [v], the result is the result
    of forcing the application of [v] itself to the argument: [apply], which
    runs then, and [makeApply] decide alike on Number, Nil, Pair and
    Function. *)
Theorem deferred_application_agrees :
  forall l x s v s1 r,
    finishes (fun fuel => Fn.evaluate fuel (Fn.Thunk l))
             (Fn.entered s (Fn.RApply (Fn.Thunk l) x)) (Ret v s1) ->
    finishes (fun fuel => Fn.evaluateApply fuel [Fn.Val v; x]) s1 r ->
    (forall fuel, Fn.makeApply (S fuel) [Fn.Thunk l; x] s =
                  Fn.makeThunk (Fn.RApply (Fn.Thunk l) x) s) /\
    finishes (fun fuel => Fn.evaluateApply fuel [Fn.Thunk l; x]) s
             (Fn.outcome (length (Fn.thunks s)) r).
Proof.
  intros l x s v s1 r Hl Hr. split; [reflexivity |].
  exact (FnMore.deferred_application l x s v s1 r Hl Hr).
Qed.

(** The thunk of [add 1], applied to 2 and forced: 3, as [add 1 2] gives when
    [add 1] is applied as a value. *)
Lemma deferred_application_agrees_witness :
  let s := Fn.oneThunk (Fn.RApply (Fn.Val (Fn.makeFunc2 Fn.FAdd)) (Fn.Val (Fn.makeNumber 1))) in
  exists s',
    finishes (fun fuel => Fn.evaluateApply fuel [Fn.Thunk 0; Fn.Val (Fn.makeNumber 2)]) s
             (Ret (Fn.NumberValue 3) s').
Proof.
  intros s.
  pose (x := Fn.Val (Fn.makeNumber 2)).
  pose (v := Fn.FuncValue (Fn.Lam2a Fn.FAdd (Fn.Val (Fn.makeNumber 1)))).
  assert (H1 : exists s1,
             finishes (fun fuel => Fn.evaluate fuel (Fn.Thunk 0))
               (Fn.entered s (Fn.RApply (Fn.Thunk 0) x)) (Ret v s1) /\
             exists s2, finishes (fun fuel => Fn.evaluateApply fuel [Fn.Val v; x]) s1
                          (Ret (Fn.NumberValue 3) s2)).
  { eexists. split.
    - apply (finishes_at _ _ _ 3); [vm_compute; reflexivity | discriminate].
    - eexists. apply (finishes_at _ _ _ 3); [vm_compute; reflexivity | discriminate]. }
  destruct H1 as (s1 & Hl & s2 & Hr).
  eexists. exact (proj2 (deferred_application_agrees 0 x s v s1 _ Hl Hr)).
Defined.

(** X8. The combinators.  [i a] is [a]; [t x y] is [x] and [f x y] is [y],
    the other argument being left as it is; [c a b c'] builds what [a c' b]
    builds and [b a b' c] what [a (b' c)] builds, at once.  [s a b c] builds
    nothing but a thunk; forced, the thunk gives what forcing [a c (b c)]
    gives in the store that holds the thunk, and stores a value in it.  Both
    variants. *)
Theorem combinator_laws :
  ((forall fuel s,
      (forall a, Fn.makeApply (S fuel) [Fn.Val (Fn.makeFunc Fn.FI); a] s = Ret a s) /\
      (forall x y, Fn.makeApply (S fuel) [Fn.Val (Fn.makeBoolean true); x; y] s = Ret x s) /\
      (forall x y, Fn.makeApply (S fuel) [Fn.Val (Fn.makeBoolean false); x; y] s = Ret y s) /\
      (forall a b c,
         Fn.makeApply (S fuel) [Fn.Val (Fn.makeFunc3 Fn.FC); a; b; c] s =
         Fn.makeApply fuel [a; c; b] s) /\
      (forall a b c,
         Fn.makeApply (S fuel) [Fn.Val (Fn.makeFunc3 Fn.FB); a; b; c] s =
         (let* bc := Fn.makeApply fuel [b; c] in Fn.makeApply fuel [a; bc]) s) /\
      (forall a b c,
         Fn.makeApply (S fuel) [Fn.Val (Fn.makeFunc3 Fn.FS); a; b; c] s =
         Fn.makeThunk (Fn.RS a b c) s)) /\
   (forall a b c s r,
      finishes (fun fuel => Fn.sBody fuel a b c) (Fn.entered s (Fn.RS a b c)) r ->
      finishes (fun fuel => Fn.evaluateApply fuel [Fn.Val (Fn.makeFunc3 Fn.FS); a; b; c]) s
               (Fn.outcome (length (Fn.thunks s)) r))) /\
  ((forall fuel s,
      (forall a, OO.applyAll (S fuel) (OO.Val (OO.FuncValue (OO.Lam1 OO.FI))) [a] s = Ret a s) /\
      (forall x y, OO.applyAll (S fuel) (OO.Val (OO.makeBoolean true)) [x; y] s = Ret x s) /\
      (forall x y, OO.applyAll (S fuel) (OO.Val (OO.makeBoolean false)) [x; y] s = Ret y s) /\
      (forall a b c,
         OO.applyAll (S fuel) (OO.Val (OO.FuncValue (OO.Lam3 OO.FC))) [a; b; c] s =
         OO.applyAll fuel a [c; b] s) /\
      (forall a b c,
         OO.applyAll (S fuel) (OO.Val (OO.FuncValue (OO.Lam3 OO.FB))) [a; b; c] s =
         (let* bc := OO.applyTo fuel b c in OO.applyTo fuel a bc) s) /\
      (forall a b c,
         OO.applyAll (S fuel) (OO.Val (OO.FuncValue (OO.Lam3 OO.FS))) [a; b; c] s =
         OO.newThunk (OO.RS a b c) s)) /\
   (forall a b c s r,
      finishes (fun fuel => OO.sBody fuel a b c) (OO.entered s (OO.RS a b c)) r ->
      finishes (fun fuel => OO.forceApply fuel (OO.Val (OO.FuncValue (OO.Lam3 OO.FS))) [a; b; c])
               s (OO.outcome (length (OO.thunks s)) r))).
Proof.
  split; split.
  - exact FnMore.combinators_build.
  - exact FnMore.combinator_S.
  - exact OOMore.combinators_build_oo.
  - exact OOMore.combinator_S_oo.
Qed.

(** [s t t 5] forces to 5: [t 5 (t 5)] is 5. *)
Lemma combinator_laws_witness :
  let t := Fn.Val (Fn.makeBoolean true) in
  let five := Fn.Val (Fn.makeNumber 5) in
  finishes (fun fuel => Fn.evaluateApply fuel [Fn.Val (Fn.makeFunc3 Fn.FS); t; t; five])
    Fn.emptyState
    (Ret (Fn.NumberValue 5)
         {| Fn.thunks := [Fn.forced (Fn.NumberValue 5)]; Fn.maps := [];
            Fn.evalCounter := 1 |}).
Proof.
  intros t five.
  apply (proj2 (proj1 combinator_laws) t t five Fn.emptyState
           (Ret (Fn.NumberValue 5) (Fn.entered Fn.emptyState (Fn.RS t t five)))).
  apply (finishes_at _ _ _ 2); [reflexivity | discriminate].
Defined.

(** X9. Pairs by name.  [cons a b] is the Pair of [a] and [b], built at
    once.  [car] and [cdr] of a Pair are its components, as they are.  In
    the functional variant [car] and [cdr] of Nil are [t], of a Number they
    throw 'Invalid function call' when the application is built, and of a
    thunk they are deferred: forced, the projection forces the thunk and,
    if that gives a Pair, the component.  In the object-oriented variant
    [car] and [cdr] of anything but a Pair throw 'Not a cons' when the
    application is built; of a thunk that holds a Pair they are its
    components; of a thunk not forced yet they allocate both projections and
    return one. *)
Theorem pairs_by_name :
  ((forall fuel s,
      (forall a b,
         Fn.makeApply (S fuel) [Fn.Val (Fn.makeFunc2 Fn.FCons); a; b] s =
         Ret (Fn.Val (Fn.makeCons a b)) s) /\
      (forall a b,
         Fn.makeApply (S (S (S fuel))) [Fn.Val (Fn.makeFunc Fn.FCar); Fn.Val (Fn.makeCons a b)] s
           = Ret a s /\
         Fn.makeApply (S (S (S fuel))) [Fn.Val (Fn.makeFunc Fn.FCdr); Fn.Val (Fn.makeCons a b)] s
           = Ret b s) /\
      (Fn.makeApply (S (S fuel)) [Fn.Val (Fn.makeFunc Fn.FCar); Fn.Val Fn.makeNil] s =
         Ret (Fn.Val (Fn.makeBoolean true)) s /\
       Fn.makeApply (S (S fuel)) [Fn.Val (Fn.makeFunc Fn.FCdr); Fn.Val Fn.makeNil] s =
         Ret (Fn.Val (Fn.makeBoolean true)) s) /\
      (forall n,
         Fn.makeApply (S (S fuel)) [Fn.Val (Fn.makeFunc Fn.FCar); Fn.Val (Fn.makeNumber n)] s =
           Throw InvalidFunctionCall s /\
         Fn.makeApply (S (S fuel)) [Fn.Val (Fn.makeFunc Fn.FCdr); Fn.Val (Fn.makeNumber n)] s =
           Throw InvalidFunctionCall s) /\
      (forall l,
         Fn.makeApply (S (S fuel)) [Fn.Val (Fn.makeFunc Fn.FCar); Fn.Thunk l] s =
           Fn.makeThunk (Fn.RApply (Fn.Thunk l) (Fn.Val (Fn.makeBoolean true))) s /\
         Fn.makeApply (S (S fuel)) [Fn.Val (Fn.makeFunc Fn.FCdr); Fn.Thunk l] s =
           Fn.makeThunk (Fn.RApply (Fn.Thunk l) (Fn.Val (Fn.makeBoolean false))) s)) /\
   (forall (sel : bool) l s a b s1 r,
      finishes (fun fuel => Fn.evaluate fuel (Fn.Thunk l))
               (Fn.entered s (Fn.RApply (Fn.Thunk l) (Fn.Val (Fn.makeBoolean sel))))
               (Ret (Fn.ConsValue a b) s1) ->
      finishes (fun fuel => Fn.evaluate fuel (if sel then a else b)) s1 r ->
      finishes (fun fuel => Fn.evaluateApply fuel
                              [Fn.Val (Fn.makeFunc (if sel then Fn.FCar else Fn.FCdr));
                               Fn.Thunk l]) s
               (Fn.outcome (length (Fn.thunks s)) r))) /\
  (forall fuel s,
     (forall a b,
        OO.applyAll (S fuel) (OO.Val (OO.FuncValue (OO.Lam2 OO.FCons))) [a; b] s =
        Ret (OO.Val (OO.ConsValue a b)) s) /\
     (forall a b,
        OO.applyTo (S fuel) (OO.Val (OO.FuncValue (OO.Lam1 OO.FCar)))
                   (OO.Val (OO.ConsValue a b)) s = Ret a s /\
        OO.applyTo (S fuel) (OO.Val (OO.FuncValue (OO.Lam1 OO.FCdr)))
                   (OO.Val (OO.ConsValue a b)) s = Ret b s) /\
     (forall f v, In f [OO.FCar; OO.FCdr] -> OO.kind v <> KCons ->
        OO.applyTo (S fuel) (OO.Val (OO.FuncValue (OO.Lam1 f))) (OO.Val v) s =
        Throw NotACons s) /\
     (forall l a b, OO.thunkAt s l = OO.forced (OO.ConsValue a b) ->
        OO.applyTo (S fuel) (OO.Val (OO.FuncValue (OO.Lam1 OO.FCar))) (OO.Thunk l) s = Ret a s /\
        OO.applyTo (S fuel) (OO.Val (OO.FuncValue (OO.Lam1 OO.FCdr))) (OO.Thunk l) s = Ret b s) /\
     (forall l f, OO.thunkAt s l = OO.suspended f ->
        let s' := {| OO.thunks := OO.thunks s ++ [OO.suspended (OO.RUncons0 l);
                                                  OO.suspended (OO.RUncons1 l)];
                     OO.maps := OO.maps s; OO.counter := OO.counter s |} in
        OO.applyTo (S fuel) (OO.Val (OO.FuncValue (OO.Lam1 OO.FCar))) (OO.Thunk l) s =
          Ret (OO.Thunk (length (OO.thunks s))) s' /\
        OO.applyTo (S fuel) (OO.Val (OO.FuncValue (OO.Lam1 OO.FCdr))) (OO.Thunk l) s =
          Ret (OO.Thunk (S (length (OO.thunks s)))) s')).
Proof.
  split; [split |].
  - exact FnMore.list_primitives_build.
  - exact FnMore.projection_of_thunk.
  - exact OOMore.list_primitives_build_oo.
Qed.

(** The thunk of [cons 1 2] (the pair, through the identity): its [car],
    forced, is 1. *)
Lemma pairs_by_name_witness :
  let pair := Fn.ConsValue (Fn.Val (Fn.makeNumber 1)) (Fn.Val (Fn.makeNumber 2)) in
  let s := Fn.oneThunk (Fn.RApply (Fn.Val (Fn.makeFunc Fn.FI)) (Fn.Val pair)) in
  exists s',
    finishes (fun fuel => Fn.evaluateApply fuel [Fn.Val (Fn.makeFunc Fn.FCar); Fn.Thunk 0]) s
             (Ret (Fn.NumberValue 1) s').
Proof.
  intros pair s.
  assert (H1 : exists s1,
             finishes (fun fuel => Fn.evaluate fuel (Fn.Thunk 0))
               (Fn.entered s (Fn.RApply (Fn.Thunk 0) (Fn.Val (Fn.makeBoolean true))))
               (Ret pair s1)).
  { eexists. apply (finishes_at _ _ _ 3); [vm_compute; reflexivity | discriminate]. }
  destruct H1 as (s1 & Hl).
  eexists.
  exact (proj2 (proj1 pairs_by_name) true 0 s _ _ s1 (Ret (Fn.NumberValue 1) s1) Hl
           (FnProps.evaluate_value _ s1)).
Defined.

(** X10. [isnil].  [isnil a] builds a thunk.  Forced, it forces [a]: in the
    functional variant a Nil gives [t] and a Pair or a Number gives [f]; in
    the object-oriented variant a Nil gives [t], a Pair gives [f], and a
    Number or a Function throws 'Not a nil/cons'.  The boolean is stored in
    the thunk. *)
Theorem isnil_by_name :
  (forall a s v s1,
     finishes (fun fuel => Fn.evaluate fuel a) (Fn.entered s (Fn.RIsNil a)) (Ret v s1) ->
     Fn.kind v <> KFunc ->
     finishes (fun fuel => Fn.evaluateApply fuel [Fn.Val (Fn.makeFunc Fn.FIsNil); a]) s
       (let b := Fn.makeBoolean (match v with Fn.NilValue => true | _ => false end) in
        Ret b (Fn.settled (length (Fn.thunks s)) b s1))) /\
  (forall a s v s1,
     finishes (fun fuel => OO.forceValue fuel a) (OO.entered s (OO.RIsNil a)) (Ret v s1) ->
     finishes (fun fuel => OO.forceApply fuel (OO.Val (OO.FuncValue (OO.Lam1 OO.FIsNil))) [a]) s
       (match v with
        | OO.NilValue =>
            Ret (OO.makeBoolean true)
                (OO.settled (length (OO.thunks s)) (OO.makeBoolean true) s1)
        | OO.ConsValue _ _ =>
            Ret (OO.makeBoolean false)
                (OO.settled (length (OO.thunks s)) (OO.makeBoolean false) s1)
        | _ => Throw NotNilCons s1
        end)).
Proof.
  split.
  - exact FnMore.isnil_operator.
  - exact OOMore.isnil_operator_oo.
Qed.

(** [isnil nil] forces to [t] in the functional variant; [isnil 0] throws in
    the object-oriented one. *)
Lemma isnil_by_name_witness :
  (exists s', finishes (fun fuel => Fn.evaluateApply fuel
                                      [Fn.Val (Fn.makeFunc Fn.FIsNil); Fn.Val Fn.makeNil])
                Fn.emptyState (Ret (Fn.makeBoolean true) s')) /\
  (exists s', finishes (fun fuel => OO.forceApply fuel (OO.Val (OO.FuncValue (OO.Lam1 OO.FIsNil)))
                                      [OO.Val (OO.NumberValue 0)])
                OO.emptyState (Throw NotNilCons s')).
Proof.
  split; eexists.
  - apply (proj1 isnil_by_name (Fn.Val Fn.makeNil) Fn.emptyState Fn.NilValue);
      [apply FnProps.evaluate_value | discriminate].
  - apply (proj2 isnil_by_name (OO.Val (OO.NumberValue 0)) OO.emptyState (OO.NumberValue 0)).
    apply OOProps.forceValue_value.
Defined.

(** X11. [inc], [dec] and [neg].  Each builds a thunk.  Forced, the thunk
    forces the operand in the store that holds the thunk; a Number [n] gives
    the Number [n + 1], [n - 1] or [- n], which is stored in the thunk; any
    other value throws '<op>: wrong types: <kind>'.  Both variants. *)
Theorem unary_arithmetic :
  (forall f R op g,
     In (f, R, op, g) [(Fn.FInc, Fn.RInc, "inc", fun n => n + 1);
                       (Fn.FDec, Fn.RDec, "dec", fun n => n - 1);
                       (Fn.FNeg, Fn.RNeg, "neg", Z.opp)]%Z ->
     forall a s v s1,
       finishes (fun fuel => Fn.evaluate fuel a) (Fn.entered s (R a)) (Ret v s1) ->
       finishes (fun fuel => Fn.evaluateApply fuel [Fn.Val (Fn.makeFunc f); a]) s
         (match v with
          | Fn.NumberValue n =>
              Ret (Fn.NumberValue (g n))
                  (Fn.settled (length (Fn.thunks s)) (Fn.NumberValue (g n)) s1)
          | _ => Throw (WrongTypes op [Fn.kind v]) s1
          end)) /\
  (forall f R op g,
     In (f, R, op, g) [(OO.FInc, OO.RInc, "inc", fun n => n + 1);
                       (OO.FDec, OO.RDec, "dec", fun n => n - 1);
                       (OO.FNeg, OO.RNeg, "neg", Z.opp)]%Z ->
     forall a s v s1,
       finishes (fun fuel => OO.forceValue fuel a) (OO.entered s (R a)) (Ret v s1) ->
       finishes (fun fuel => OO.forceApply fuel (OO.Val (OO.FuncValue (OO.Lam1 f))) [a]) s
         (match v with
          | OO.NumberValue n =>
              Ret (OO.NumberValue (g n))
                  (OO.settled (length (OO.thunks s)) (OO.NumberValue (g n)) s1)
          | _ => Throw (WrongTypes op [OO.kind v]) s1
          end)).
Proof.
  split.
  - exact FnMore.unary_operators.
  - exact OOMore.unary_operators_oo.
Qed.

(** [neg 5] forces to -5, and [dec nil] throws 'dec: wrong types: nil'. *)
Lemma unary_arithmetic_witness :
  (exists s', finishes (fun fuel => Fn.evaluateApply fuel
                                      [Fn.Val (Fn.makeFunc Fn.FNeg); Fn.Val (Fn.makeNumber 5)])
                Fn.emptyState (Ret (Fn.NumberValue (-5)) s')) /\
  (exists s', finishes (fun fuel => Fn.evaluateApply fuel
                                      [Fn.Val (Fn.makeFunc Fn.FDec); Fn.Val Fn.makeNil])
                Fn.emptyState (Throw (WrongTypes "dec" [KNil]) s')).
Proof.
  split; eexists.
  - apply (proj1 unary_arithmetic Fn.FNeg Fn.RNeg "neg" Z.opp
             ltac:(simpl; tauto) (Fn.Val (Fn.makeNumber 5)) Fn.emptyState (Fn.NumberValue 5)).
    apply FnProps.evaluate_value.
  - apply (proj1 unary_arithmetic Fn.FDec Fn.RDec "dec" (fun n => n - 1)%Z
             ltac:(simpl; tauto) (Fn.Val Fn.makeNil) Fn.emptyState Fn.NilValue).
    apply FnProps.evaluate_value.
Defined.

(** X12. [add], [mul], [eq] and [lt].  Each builds a thunk.  Forced, the
    thunk forces the first operand, then the second, both before it looks at
    either; two Numbers give their sum or product, or the boolean [t] or [f]
    of their comparison, which is stored in the thunk; if one of the two
    values is not a Number the thunk throws '<op>: wrong types: <kind>
    <kind>'.  Both variants. *)
Theorem binary_arithmetic :
  (forall f R op g,
     In (f, R, op, g)
        [(Fn.FAdd, Fn.RAdd, "add", fun n m => Fn.NumberValue (n + m));
         (Fn.FMul, Fn.RMul, "mul", fun n m => Fn.NumberValue (n * m));
         (Fn.FEq, Fn.REq, "eq", fun n m => Fn.makeBoolean (Z.eqb n m));
         (Fn.FLt, Fn.RLt, "lt", fun n m => Fn.makeBoolean (Z.ltb n m))]%Z ->
     forall a b s v s1 w s2,
       finishes (fun fuel => Fn.evaluate fuel a) (Fn.entered s (R a b)) (Ret v s1) ->
       finishes (fun fuel => Fn.evaluate fuel b) s1 (Ret w s2) ->
       finishes (fun fuel => Fn.evaluateApply fuel [Fn.Val (Fn.makeFunc2 f); a; b]) s
         (match v, w with
          | Fn.NumberValue n, Fn.NumberValue m =>
              Ret (g n m) (Fn.settled (length (Fn.thunks s)) (g n m) s2)
          | _, _ => Throw (WrongTypes op [Fn.kind v; Fn.kind w]) s2
          end)) /\
  (forall f R op g,
     In (f, R, op, g)
        [(OO.FAdd, OO.RAdd, "add", fun n m => OO.NumberValue (n + m));
         (OO.FMul, OO.RMul, "mul", fun n m => OO.NumberValue (n * m));
         (OO.FEq, OO.REq, "eq", fun n m => OO.makeBoolean (Z.eqb n m));
         (OO.FLt, OO.RLt, "lt", fun n m => OO.makeBoolean (Z.ltb n m))]%Z ->
     forall a b s v s1 w s2,
       finishes (fun fuel => OO.forceValue fuel a) (OO.entered s (R a b)) (Ret v s1) ->
       finishes (fun fuel => OO.forceValue fuel b) s1 (Ret w s2) ->
       finishes (fun fuel => OO.forceApply fuel (OO.Val (OO.FuncValue (OO.Lam2 f))) [a; b]) s
         (match v, w with
          | OO.NumberValue n, OO.NumberValue m =>
              Ret (g n m) (OO.settled (length (OO.thunks s)) (g n m) s2)
          | _, _ => Throw (WrongTypes op [OO.kind v; OO.kind w]) s2
          end)).
Proof.
  split.
  - exact FnMore.binary_operators.
  - exact OOMore.binary_operators_oo.
Qed.

(** [mul 6 7] forces to 42, [lt 1 2] to [t], and [eq nil 1] throws
    'eq: wrong types: nil number'. *)
Lemma binary_arithmetic_witness :
  (exists s', finishes (fun fuel => Fn.evaluateApply fuel
                          [Fn.Val (Fn.makeFunc2 Fn.FMul); Fn.Val (Fn.makeNumber 6);
                           Fn.Val (Fn.makeNumber 7)])
                Fn.emptyState (Ret (Fn.NumberValue 42) s')) /\
  (exists s', finishes (fun fuel => Fn.evaluateApply fuel
                          [Fn.Val (Fn.makeFunc2 Fn.FLt); Fn.Val (Fn.makeNumber 1);
                           Fn.Val (Fn.makeNumber 2)])
                Fn.emptyState (Ret (Fn.makeBoolean true) s')) /\
  (exists s', finishes (fun fuel => Fn.evaluateApply fuel
                          [Fn.Val (Fn.makeFunc2 Fn.FEq); Fn.Val Fn.makeNil;
                           Fn.Val (Fn.makeNumber 1)])
                Fn.emptyState (Throw (WrongTypes "eq" [KNil; KNumber]) s')).
Proof.
  split; [| split]; eexists.
  - eapply (proj1 binary_arithmetic Fn.FMul Fn.RMul "mul" (fun n m => Fn.NumberValue (n * m))
             ltac:(simpl; tauto) (Fn.Val (Fn.makeNumber 6)) (Fn.Val (Fn.makeNumber 7))
             Fn.emptyState (Fn.NumberValue 6) _ (Fn.NumberValue 7));
      apply FnProps.evaluate_value.
  - eapply (proj1 binary_arithmetic Fn.FLt Fn.RLt "lt"
             (fun n m => Fn.makeBoolean (Z.ltb n m))
             ltac:(simpl; tauto) (Fn.Val (Fn.makeNumber 1)) (Fn.Val (Fn.makeNumber 2))
             Fn.emptyState (Fn.NumberValue 1) _ (Fn.NumberValue 2));
      apply FnProps.evaluate_value.
  - eapply (proj1 binary_arithmetic Fn.FEq Fn.REq "eq"
             (fun n m => Fn.makeBoolean (Z.eqb n m))
             ltac:(simpl; tauto) (Fn.Val Fn.makeNil) (Fn.Val (Fn.makeNumber 1))
             Fn.emptyState Fn.NilValue _ (Fn.NumberValue 1));
      apply FnProps.evaluate_value.
Defined.

(** X13. [div].  [div a b] builds a thunk.  Forced, it forces [a], then [b];
    two Numbers with a nonzero divisor give the quotient truncated toward
    zero, stored in the thunk; a zero divisor throws the RangeError of the
    division; a value that is not a Number throws 'div: wrong types: <kind>
    <kind>'.  Both variants. *)
Theorem division_by_name :
  (forall a b s v s1 w s2,
     finishes (fun fuel => Fn.evaluate fuel a) (Fn.entered s (Fn.RDiv a b)) (Ret v s1) ->
     finishes (fun fuel => Fn.evaluate fuel b) s1 (Ret w s2) ->
     finishes (fun fuel => Fn.evaluateApply fuel [Fn.Val (Fn.makeFunc2 Fn.FDiv); a; b]) s
       (match v, w with
        | Fn.NumberValue n, Fn.NumberValue m =>
            if Z.eqb m 0 then Throw DivisionByZero s2
            else Ret (Fn.NumberValue (Z.quot n m))
                     (Fn.settled (length (Fn.thunks s)) (Fn.NumberValue (Z.quot n m)) s2)
        | _, _ => Throw (WrongTypes "div" [Fn.kind v; Fn.kind w]) s2
        end)) /\
  (forall a b s v s1 w s2,
     finishes (fun fuel => OO.forceValue fuel a) (OO.entered s (OO.RDiv a b)) (Ret v s1) ->
     finishes (fun fuel => OO.forceValue fuel b) s1 (Ret w s2) ->
     finishes (fun fuel => OO.forceApply fuel (OO.Val (OO.FuncValue (OO.Lam2 OO.FDiv))) [a; b]) s
       (match v, w with
        | OO.NumberValue n, OO.NumberValue m =>
            if Z.eqb m 0 then Throw DivisionByZero s2
            else Ret (OO.NumberValue (Z.quot n m))
                     (OO.settled (length (OO.thunks s)) (OO.NumberValue (Z.quot n m)) s2)
        | _, _ => Throw (WrongTypes "div" [OO.kind v; OO.kind w]) s2
        end)).
Proof.
  split.
  - exact FnMore.div_operator.
  - exact OOMore.div_operator_oo.
Qed.

(** [div (-7) 2] forces to -3 and [div 1 0] throws. *)
Lemma division_by_name_witness :
  (exists s', finishes (fun fuel => Fn.evaluateApply fuel
                          [Fn.Val (Fn.makeFunc2 Fn.FDiv); Fn.Val (Fn.makeNumber (-7));
                           Fn.Val (Fn.makeNumber 2)])
                Fn.emptyState (Ret (Fn.NumberValue (-3)) s')) /\
  (exists s', finishes (fun fuel => Fn.evaluateApply fuel
                          [Fn.Val (Fn.makeFunc2 Fn.FDiv); Fn.Val (Fn.makeNumber 1);
                           Fn.Val (Fn.makeNumber 0)])
                Fn.emptyState (Throw DivisionByZero s')).
Proof.
  split; eexists.
  - eapply (proj1 division_by_name (Fn.Val (Fn.makeNumber (-7))) (Fn.Val (Fn.makeNumber 2))
             Fn.emptyState (Fn.NumberValue (-7)) _ (Fn.NumberValue 2));
      apply FnProps.evaluate_value.
  - eapply (proj1 division_by_name (Fn.Val (Fn.makeNumber 1)) (Fn.Val (Fn.makeNumber 0))
             Fn.emptyState (Fn.NumberValue 1) _ (Fn.NumberValue 0));
      apply FnProps.evaluate_value.
Defined.

(** X14. [parseList] of a list built with [makeCons].  On the pairs
    [makeCons(e1, makeCons(e2, ... nil))] it returns the elements [e1, e2,
    ...] themselves, in order, and forces none of them: the store is
    untouched.  When the spine ends in a Number instead of Nil it throws
    'Invalid function call': the Number is not nil, and its [car] cannot be
    built. *)
Theorem parseList_of_pairs :
  (forall es fuel s,
     Fn.parseList (3 + length es + fuel) (Fn.spine es (Fn.Val Fn.makeNil)) s = Ret es s) /\
  (forall es n fuel s,
     Fn.parseList (3 + length es + fuel) (Fn.spine es (Fn.Val (Fn.makeNumber n))) s =
     Throw InvalidFunctionCall s).
Proof.
  split.
  - intros es fuel s. apply (FnMore.parseListLoop_spine_nil es []).
  - intros es n fuel s. apply (FnMore.parseListLoop_spine_number es n []).
Qed.

(** X15. [forceList] walks the spine and leaves the elements alone.  It
    forces the expression, then the cdr of each Pair it reaches, and stops at
    the first value that is not a Pair: on Nil it returns the cars of the
    Pairs, as they are, in order; on a Number or a Function it throws 'Not a
    nil/cons'.  In particular, on Pairs built with [new ConsValue] it
    returns the elements and leaves the store untouched. *)
Theorem forceList_walks_spine :
  (forall e s v s1 es last s2,
     finishes (fun fuel => OO.forceValue fuel e) s (Ret v s1) ->
     OO.spineWalk s1 v es last s2 ->
     finishes (fun fuel => OO.forceList fuel e) s (OO.forceListResult es last s2)) /\
  (forall es last s,
     OO.kind last <> KCons ->
     finishes (fun fuel => OO.forceList fuel (OO.spine es (OO.Val last))) s
              (OO.forceListResult es last s)).
Proof.
  split.
  - exact OOMore.forceList_walk.
  - exact OOMore.forceList_spine.
Qed.

(** The list of an unforced thunk and the Number 2: both elements come back
    as they are, the thunk still unforced; with a Number at the end of the
    spine, [forceList] throws. *)
Lemma forceList_walks_spine_witness :
  let s := OO.oneThunk (OO.RInc (OO.Val (OO.NumberValue 0))) in
  let es := [OO.Thunk 0; OO.Val (OO.NumberValue 2)] in
  finishes (fun fuel => OO.forceList fuel (OO.spine es (OO.Val OO.NilValue))) s (Ret es s) /\
  finishes (fun fuel => OO.forceList fuel (OO.spine es (OO.Val (OO.NumberValue 3)))) s
           (Throw NotNilCons s).
Proof.
  intros s es. split.
  - apply (proj2 forceList_walks_spine es OO.NilValue s). discriminate.
  - apply (proj2 forceList_walks_spine es (OO.NumberValue 3) s). discriminate.
Defined.

(** X16. [staticDataEqual] decides structural equality: it answers true
    exactly on two trees that are the same tree. *)
Theorem staticDataEqual_decides_equality :
  forall a b, staticDataEqual a b = true <-> a = b.
Proof. exact staticDataEqual_eq. Qed.

(** X17. The static data built is in canonical form.  Whatever expression
    [exprToStaticData] or [forceModulatable] is given, the tree it returns
    has no pair whose cdr is a list: a spine that ends in Nil is always
    returned as one list, and a spine that ends in a Number as right-nested
    pairs.  The canonical tree of tagged data is of that form.  Both
    variants. *)
Theorem static_data_is_canonical :
  (forall fuel e s d s', Fn.exprToStaticData fuel e s = Ret d s' -> canonical d = true) /\
  (forall fuel e s m s',
     OO.forceModulatable fuel e s = Ret m s' -> canonical (OO.asStaticData m) = true) /\
  (forall t, canonical (canon t) = true).
Proof.
  split; [exact FnMore.exprToStaticData_canonical |].
  split; [exact OOMore.forceModulatable_canonical | exact canonical_canon].
Qed.

(** The list of 1 and of the pair of 2 and 3. *)
Lemma static_data_is_canonical_witness :
  let e := Fn.spine [Fn.Val (Fn.makeNumber 1);
                     Fn.Val (Fn.makeCons (Fn.Val (Fn.makeNumber 2)) (Fn.Val (Fn.makeNumber 3)))]
                    (Fn.Val Fn.makeNil) in
  let d := ListData [NumberData 1; ConsData (NumberData 2) (NumberData 3)] in
  Fn.exprToStaticData 9 e Fn.emptyState = Ret d Fn.emptyState /\ canonical d = true.
Proof.
  intros e d.
  assert (H : Fn.exprToStaticData 9 e Fn.emptyState = Ret d Fn.emptyState) by reflexivity.
  split; [exact H |]. exact (proj1 static_data_is_canonical 9 e _ d _ H).
Defined.

(** X18. The store stays well formed, and 'Broken thunk' is never thrown
    (functional variant).  The store of a fresh program and the store that
    holds the standard environment are well formed: every thunk object holds
    either its recipe or its value, and every thunk address held anywhere is
    the address of a thunk object.  From a well-formed store and arguments
    that hold only addresses of the store, every function ([evaluate],
    [makeApply], [isNil], [exprToStaticData], [parseList], [makeReference],
    [new Environment], [define], [defineAll]) ends in a well-formed store
    that lost no thunk, whether it returns or throws; what it returns holds
    only addresses of that store; and what it throws is never 'Broken
    thunk'. *)
Theorem stores_stay_well_formed :
  Fn.wellFormed Fn.emptyState /\
  Fn.wellFormed Fn.stdState /\
  (forall fuel n e,
     Fn.closedExpr n e = true -> Fn.safe Fn.closedValue n (Fn.evaluate fuel e)) /\
  (forall fuel n args,
     Fn.closedList n args = true -> Fn.safe Fn.closedExpr n (Fn.makeApply fuel args)) /\
  (forall fuel n e,
     Fn.closedExpr n e = true -> Fn.safe Fn.anything n (Fn.isNil fuel e)) /\
  (forall fuel n e,
     Fn.closedExpr n e = true -> Fn.safe Fn.anything n (Fn.exprToStaticData fuel e)) /\
  (forall fuel n e,
     Fn.closedExpr n e = true -> Fn.safe Fn.closedList n (Fn.parseList fuel e)) /\
  (forall n env name, Fn.safe Fn.closedExpr n (Fn.makeReference env name)) /\
  (forall n parent, Fn.safe Fn.anything n (Fn.newEnvironment parent)) /\
  (forall n env name e,
     Fn.closedExpr n e = true -> Fn.safe Fn.anything n (Fn.define env name e)) /\
  (forall n env defs,
     Fn.closedList n defs.*2 = true -> Fn.safe Fn.anything n (Fn.defineAll env defs)) /\
  (forall fuel e s err s',
     Fn.wellFormed s -> Fn.closedExpr (length (Fn.thunks s)) e = true ->
     Fn.evaluate fuel e s = Throw err s' ->
     err <> BrokenThunk /\ Fn.wellFormed s').
Proof.
  split; [exact FnMore.wellFormed_emptyState |].
  split; [exact FnMore.wellFormed_stdState |].
  split; [exact FnMore.evaluate_safe |].
  split; [exact FnMore.makeApply_safe |].
  split; [exact FnMore.isNil_safe_fuel |].
  split; [exact FnMore.exprToStaticData_safe |].
  split; [exact FnMore.parseList_safe |].
  split; [exact FnMore.makeReference_safe |].
  split; [exact FnMore.newEnvironment_safe |].
  split; [exact FnMore.define_safe |].
  split; [exact FnMore.defineAll_safe | exact FnMore.broken_thunk_unreachable].
Qed.

(** The thunk of [dec nil], forced in a store that holds it alone: the error
    is the type error, and the store left is well formed. *)
Lemma stores_stay_well_formed_witness :
  let s := Fn.oneThunk (Fn.RDec (Fn.Val Fn.makeNil)) in
  let s' := {| Fn.thunks := Fn.thunks s; Fn.maps := []; Fn.evalCounter := 1 |} in
  Fn.evaluate 2 (Fn.Thunk 0) s = Throw (WrongTypes "dec" [KNil]) s' /\
  WrongTypes "dec" [KNil] <> BrokenThunk /\
  Fn.wellFormed s'.
Proof.
  intros s s'.
  assert (Hrun : Fn.evaluate 2 (Fn.Thunk 0) s = Throw (WrongTypes "dec" [KNil]) s')
    by reflexivity.
  assert (Hwf : Fn.wellFormed s) by (split; repeat constructor).
  split; [exact Hrun |].
  exact (proj2 (proj2 (proj2 (proj2 (proj2 (proj2 (proj2 (proj2 (proj2 (proj2 (proj2
           stores_stay_well_formed)))))))))) 2 (Fn.Thunk 0) s _ s' Hwf eq_refl Hrun).
Defined.

(** X19. The store stays well formed, and 'Broken thunk' is never thrown
    (object-oriented variant).  As for the functional variant, for the
    methods [apply] and [uncons] and for [forceValue], [forceModulatable],
    [forceList], [makeReference], [new Environment], [define] and
    [defineAll]. *)
Theorem stores_stay_well_formed_oo :
  OO.wellFormed OO.emptyState /\
  OO.wellFormed OO.stdState /\
  (forall fuel n e,
     OO.closedExpr n e = true -> OO.safe OO.closedValue n (OO.forceValue fuel e)) /\
  (forall fuel n e arg,
     OO.closedExpr n e = true -> OO.closedExpr n arg = true ->
     OO.safe OO.closedExpr n (OO.applyTo fuel e arg)) /\
  (forall n e, OO.closedExpr n e = true -> OO.safe OO.closedPair n (OO.Open.uncons e)) /\
  (forall fuel n e,
     OO.closedExpr n e = true -> OO.safe OO.anything n (OO.forceModulatable fuel e)) /\
  (forall fuel n e,
     OO.closedExpr n e = true -> OO.safe OO.closedList n (OO.forceList fuel e)) /\
  (forall n env name, OO.safe OO.closedExpr n (OO.makeReference env name)) /\
  (forall n parent, OO.safe OO.anything n (OO.newEnvironment parent)) /\
  (forall n env name e,
     OO.closedExpr n e = true -> OO.safe OO.anything n (OO.define env name e)) /\
  (forall n env defs,
     OO.closedList n defs.*2 = true -> OO.safe OO.anything n (OO.defineAll env defs)) /\
  (forall fuel e s err s',
     OO.wellFormed s -> OO.closedExpr (length (OO.thunks s)) e = true ->
     OO.forceValue fuel e s = Throw err s' ->
     err <> BrokenThunk /\ OO.wellFormed s').
Proof.
  split; [exact OOMore.wellFormed_emptyState_oo |].
  split; [exact OOMore.wellFormed_stdState_oo |].
  split; [exact OOMore.forceValue_safe |].
  split; [exact OOMore.applyTo_safe |].
  split; [exact OOMore.uncons_safe |].
  split; [exact OOMore.forceModulatable_safe |].
  split; [exact OOMore.forceList_safe |].
  split; [exact OOMore.makeReference_safe_oo |].
  split; [exact OOMore.newEnvironment_safe_oo |].
  split; [exact OOMore.define_safe_oo |].
  split; [exact OOMore.defineAll_safe_oo |].
  intros fuel e s err s' Hwf He Hrun.
  pose proof (OOMore.forceValue_safe fuel _ e He s Hwf (Nat.le_refl _)) as H.
  rewrite Hrun in H. tauto.
Qed.

(** [isnil 0] forced in the object-oriented variant: the error is 'Not a
    nil/cons', and the store left is well formed. *)
Lemma stores_stay_well_formed_oo_witness :
  let s := OO.oneThunk (OO.RIsNil (OO.Val (OO.NumberValue 0))) in
  let s' := {| OO.thunks := OO.thunks s; OO.maps := []; OO.counter := 1 |} in
  OO.forceValue 2 (OO.Thunk 0) s = Throw NotNilCons s' /\
  NotNilCons <> BrokenThunk /\
  OO.wellFormed s'.
Proof.
  intros s s'.
  assert (Hrun : OO.forceValue 2 (OO.Thunk 0) s = Throw NotNilCons s') by reflexivity.
  assert (Hwf : OO.wellFormed s) by (split; repeat constructor).
  split; [exact Hrun |].
  exact (proj2 (proj2 (proj2 (proj2 (proj2 (proj2 (proj2 (proj2 (proj2 (proj2 (proj2
           stores_stay_well_formed_oo)))))))))) 2 (OO.Thunk 0) s _ s' Hwf eq_refl Hrun).
Defined.

(** X20. The parser reads one term in prefix notation and leaves the tokens
    that follow it.  For a term [t] whose names are neither [ap] nor
    numerals, [parseExprIter] on the tokens of [t] followed by any tokens
    [rest] does what building [t] does: the operator is built before the
    operand, a numeral (as [String] prints a bigint) becomes that Number, a
    name goes through [makeReference], and [makeApply] joins the two.  It
    returns the expression built together with [rest]; and when the build
    throws (as for [ap 1 2], 'Invalid function call'), so does the parse. *)
Theorem parseExprIter_reads_one_term env t rest s :
  Fn.namesOk t ->
  (forall e s',
     finishes (fun fuel => Fn.build fuel env t) s (Ret e s') ->
     finishes (fun fuel => Fn.parseExprIter fuel env (tokensOf t ++ rest)%list) s
       (Ret (Parsed (e, rest)) s')) /\
  (forall err s',
     finishes (fun fuel => Fn.build fuel env t) s (Throw err s') ->
     finishes (fun fuel => Fn.parseExprIter fuel env (tokensOf t ++ rest)%list) s
       (Throw err s')).
Proof.
  intros Hok. split.
  - intros e s' H.
    destruct (FnParse.parseExprIter_tokensOf env t Hok rest s _ H) as [n Hn].
    apply (finishes_at _ _ _ n); [now apply Hn | discriminate].
  - intros err s' H.
    destruct (FnParse.parseExprIter_tokensOf env t Hok rest s _ H) as [n Hn].
    apply (finishes_at _ _ _ n); [now apply Hn | discriminate].
Qed.

(** The tokens of [ap ap add 1 -2] followed by [nil], in the standard
    environment: the parse allocates the thunk of the sum and leaves [nil]. *)
Lemma parseExprIter_reads_one_term_witness :
  let s' := {| Fn.thunks := [Fn.suspended (Fn.RAdd (Fn.Val (Fn.makeNumber 1))
                                                    (Fn.Val (Fn.makeNumber (-2))))];
               Fn.maps := Fn.maps Fn.stdState;
               Fn.evalCounter := 0 |} in
  finishes
    (fun fuel => Fn.parseExprIter fuel Fn.stdEnv ["ap"; "ap"; "add"; "1"; "-2"; "nil"]%string)
    Fn.stdState (Ret (Parsed (Fn.Thunk 0, ["nil"%string])) s').
Proof.
  intros s'.
  assert (Hok : Fn.namesOk (TAp (TAp (TRef "add") (TNum 1)) (TNum (-2)))).
  { split; [split; [split; [discriminate | reflexivity] | exact I] | exact I]. }
  assert (Hbuild : finishes
            (fun fuel => Fn.build fuel Fn.stdEnv (TAp (TAp (TRef "add") (TNum 1)) (TNum (-2))))
            Fn.stdState (Ret (Fn.Thunk 0) s')).
  { apply (finishes_at _ _ _ 1); [reflexivity | discriminate]. }
  exact (proj1 (parseExprIter_reads_one_term Fn.stdEnv _ ["nil"%string] Fn.stdState Hok)
           _ _ Hbuild).
Defined.

(** X21. [parseExpr] accepts exactly one term.  When the code, trimmed and
    split at the spaces, is the tokens of a term [t] followed by [extra],
    [parseExpr] builds [t]; it then returns the expression if [extra] is
    empty and ends with 'Excess token' otherwise, in the store that the build
    left (the thunks it allocated stay).  An error of the build comes before
    'Excess token'. *)
Theorem parseExpr_accepts_one_term env code t extra s :
  splitSpaces (trim code) = (tokensOf t ++ extra)%list ->
  Fn.namesOk t ->
  (forall e s',
     finishes (fun fuel => Fn.build fuel env t) s (Ret e s') ->
     finishes (fun fuel => Fn.parseExpr fuel env code) s
       (Ret (match extra with [] => Parsed e | _ :: _ => Failed ExcessToken end) s')) /\
  (forall err s',
     finishes (fun fuel => Fn.build fuel env t) s (Throw err s') ->
     finishes (fun fuel => Fn.parseExpr fuel env code) s (Throw err s')).
Proof.
  intros Hcode Hok. split.
  - intros e s' H.
    destruct (FnParse.parseExprIter_tokensOf env t Hok extra s _ H) as [n Hn].
    apply (finishes_at _ _ _ n); [| discriminate].
    unfold Fn.parseExpr, bind. rewrite Hcode, Hn by lia. simpl.
    now destruct extra.
  - intros err s' H.
    destruct (FnParse.parseExprIter_tokensOf env t Hok extra s _ H) as [n Hn].
    apply (finishes_at _ _ _ n); [| discriminate].
    unfold Fn.parseExpr, bind. now rewrite Hcode, Hn by lia.
Qed.

(** [ap inc 7 8], with spaces around: the thunk of [inc 7] is allocated, then
    the token [8] is in excess. *)
Lemma parseExpr_accepts_one_term_witness :
  let s' := {| Fn.thunks := [Fn.suspended (Fn.RInc (Fn.Val (Fn.makeNumber 7)))];
               Fn.maps := Fn.maps Fn.stdState;
               Fn.evalCounter := 0 |} in
  finishes (fun fuel => Fn.parseExpr fuel Fn.stdEnv "  ap inc 7 8 ") Fn.stdState
    (Ret (Failed ExcessToken) s').
Proof.
  intros s'.
  assert (Hcode : splitSpaces (trim "  ap inc 7 8 ")
                  = (tokensOf (TAp (TRef "inc") (TNum 7)) ++ ["8"%string])%list) by reflexivity.
  assert (Hok : Fn.namesOk (TAp (TRef "inc") (TNum 7))).
  { split; [split; [discriminate | reflexivity] | exact I]. }
  assert (Hbuild : finishes
            (fun fuel => Fn.build fuel Fn.stdEnv (TAp (TRef "inc") (TNum 7)))
            Fn.stdState (Ret (Fn.Thunk 0) s')).
  { apply (finishes_at _ _ _ 1); [reflexivity | discriminate]. }
  exact (proj1 (parseExpr_accepts_one_term Fn.stdEnv _ _ ["8"%string] Fn.stdState Hcode Hok)
           _ _ Hbuild).
Defined.

(** X22. [debugString] prints tagged data in the notation of the parser.
    When forcing [expr], then the car and the cdr of every Cons reached,
    meets only Number, Nil and Cons values, which make up the data [t],
    [debugString(expr)] returns the rendering of [t]: the decimal numeral of
    a number, [nil], and [ap ap cons] before the renderings of the car and of
    the cdr.  It ends in the store that this walk leaves. *)
Theorem debugString_renders_data s expr t s' :
  Fn.forcesTo s expr t s' ->
  finishes (fun fuel => Fn.debugString fuel expr) s (Ret (render t) s').
Proof. apply FnParse.debugString_forcesTo. Qed.

(** The list of -1 and 20. *)
Lemma debugString_renders_data_witness :
  finishes
    (fun fuel =>
       Fn.debugString fuel
         (Fn.Val (Fn.makeCons (Fn.Val (Fn.makeNumber (-1)))
                    (Fn.Val (Fn.makeCons (Fn.Val (Fn.makeNumber 20)) (Fn.Val Fn.makeNil))))))
    Fn.emptyState (Ret "ap ap cons -1 ap ap cons 20 nil" Fn.emptyState).
Proof.
  exact (debugString_renders_data Fn.emptyState _
           (TCons (TNumber (-1)) (TCons (TNumber 20) TNil)) Fn.emptyState
           (FnProps.embed_forcesTo _ _)).
Defined.

(** X23. Printing, then parsing, gives the data back.  In an environment
    where [cons] and [nil] are the constructors (as in the standard
    environment), [parseExpr(env, debugString(expr))] for [expr] that forces
    to the tagged data [t] returns [t] built from values alone: the parse
    allocates no thunk and leaves the store as [debugString] left it. *)
Theorem print_then_parse env s expr t s' :
  Fn.forcesTo s expr t s' ->
  Fn.lookup env "cons" s' = Some (Fn.Val (Fn.makeFunc2 Fn.FCons)) ->
  Fn.lookup env "nil" s' = Some (Fn.Val Fn.makeNil) ->
  finishes
    (fun fuel => let* code := Fn.debugString fuel expr in Fn.parseExpr fuel env code)
    s (Ret (Parsed (Fn.embed t)) s').
Proof.
  intros Hwalk Hcons Hnil.
  apply (finishes_bind (fun fuel => Fn.debugString fuel expr)
           (fun code fuel => Fn.parseExpr fuel env code) s (render t) s').
  - apply FnParse.debugString_monotone.
  - intros code. apply FnParse.parseExpr_monotone.
  - now apply FnParse.debugString_forcesTo.
  - assert (Hbuild : finishes (fun fuel => Fn.build fuel env (termOf t)) s'
                       (Ret (Fn.embed t) s')).
    { apply (finishes_at _ _ _ 1); [| discriminate].
      now apply FnParse.build_termOf. }
    destruct (FnParse.parseExprIter_tokensOf env (termOf t) (FnParse.namesOk_termOf t)
                [] s' _ Hbuild) as [n Hn].
    apply (finishes_at _ _ _ n); [| discriminate].
    unfold Fn.parseExpr, bind. rewrite TokenFacts.tokens_of_render.
    rewrite <- (app_nil_r (tokensOf (termOf t))). now rewrite Hn by lia.
Qed.

(** The list of -1 and 20 in the standard environment. *)
Lemma print_then_parse_witness :
  let data := Fn.Val (Fn.makeCons (Fn.Val (Fn.makeNumber (-1)))
                (Fn.Val (Fn.makeCons (Fn.Val (Fn.makeNumber 20)) (Fn.Val Fn.makeNil)))) in
  finishes
    (fun fuel => let* code := Fn.debugString fuel data in Fn.parseExpr fuel Fn.stdEnv code)
    Fn.stdState (Ret (Parsed data) Fn.stdState).
Proof.
  intros data.
  exact (print_then_parse Fn.stdEnv Fn.stdState data
           (TCons (TNumber (-1)) (TCons (TNumber 20) TNil)) Fn.stdState
           (FnProps.embed_forcesTo (TCons (TNumber (-1)) (TCons (TNumber 20) TNil))
              Fn.stdState)
           eq_refl eq_refl).
Defined.

(** X24. Empty code is not a syntax error.  Code that is empty or made of
    white space alone is trimmed to the empty string, which splits into one
    empty token; the parser reads it as the reference to the name with no
    character.  With that name unbound, [parseExpr] returns a fresh thunk, and
    the error, 'Undefined reference ' with nothing after it, comes only when
    the thunk is forced. *)
Theorem blank_code_parses_as_empty_name env code s fuel :
  allChars isWhiteSpace code = true ->
  Fn.lookup env "" s = None ->
  Fn.parseExpr (S fuel) env code s =
  Ret (Parsed (Fn.Thunk (length (Fn.thunks s))))
      {| Fn.thunks := Fn.thunks s ++ [Fn.suspended (Fn.RReference env "")];
         Fn.maps := Fn.maps s; Fn.evalCounter := Fn.evalCounter s |} /\
  Fn.evaluate (S fuel) (Fn.Thunk (length (Fn.thunks s)))
      {| Fn.thunks := Fn.thunks s ++ [Fn.suspended (Fn.RReference env "")];
         Fn.maps := Fn.maps s; Fn.evalCounter := Fn.evalCounter s |} =
  Throw (UndefinedReference "")
      {| Fn.thunks := Fn.thunks s ++ [Fn.suspended (Fn.RReference env "")];
         Fn.maps := Fn.maps s; Fn.evalCounter := S (Fn.evalCounter s) |}.
Proof.
  intros Hblank Hnone. split.
  - unfold Fn.parseExpr, bind. rewrite (TokenFacts.tokens_of_blank code Hblank).
    cbn [Fn.parseExprIter]. unfold bind.
    change (String.eqb "" "ap") with false. cbv iota.
    change (numberOf "") with (@None Z). cbv iota.
    cbv beta. now rewrite (FnProps.makeReference_unbound env "" s Hnone).
  - pose (s1 := {| Fn.thunks := Fn.thunks s ++ [Fn.suspended (Fn.RReference env "")];
                   Fn.maps := Fn.maps s; Fn.evalCounter := Fn.evalCounter s |}).
    assert (Hcell : Fn.thunkAt s1 (length (Fn.thunks s))
                    = Fn.suspended (Fn.RReference env "")).
    { unfold Fn.thunkAt. simpl. now rewrite lookup_snoc. }
    assert (Hlook : Fn.lookup env "" s1 = None).
    { rewrite <- Hnone. now apply FnProps.lookup_maps. }
    exact (FnProps.evaluate_reference_unbound fuel _ env "" s1 Hcell Hlook).
Qed.

(** A space and a line feed, in the standard environment. *)
Lemma blank_code_parses_as_empty_name_witness :
  Fn.parseExpr 1 Fn.stdEnv (String " " (String "010" EmptyString)) Fn.stdState =
  Ret (Parsed (Fn.Thunk 0))
      {| Fn.thunks := [Fn.suspended (Fn.RReference Fn.stdEnv "")];
         Fn.maps := Fn.maps Fn.stdState; Fn.evalCounter := 0 |} /\
  Fn.evaluate 1 (Fn.Thunk 0)
      {| Fn.thunks := [Fn.suspended (Fn.RReference Fn.stdEnv "")];
         Fn.maps := Fn.maps Fn.stdState; Fn.evalCounter := 0 |} =
  Throw (UndefinedReference "")
      {| Fn.thunks := [Fn.suspended (Fn.RReference Fn.stdEnv "")];
         Fn.maps := Fn.maps Fn.stdState; Fn.evalCounter := 1 |}.
Proof.
  exact (blank_code_parses_as_empty_name Fn.stdEnv (String " " (String "010" EmptyString))
           Fn.stdState 0 eq_refl eq_refl).
Defined.



(** X26. What [debugString] prints determines the data.  When two
    expressions force to tagged data and [debugString] returns the same
    string for both, in whatever stores, the data are the same. *)
Theorem debugString_determines_data s1 e1 t1 s1' s2 e2 t2 s2' r1 r2 code :
  Fn.forcesTo s1 e1 t1 s1' ->
  Fn.forcesTo s2 e2 t2 s2' ->
  finishes (fun fuel => Fn.debugString fuel e1) s1 (Ret code r1) ->
  finishes (fun fuel => Fn.debugString fuel e2) s2 (Ret code r2) ->
  t1 = t2.
Proof.
  intros H1 H2 P1 P2.
  pose proof (finishes_unique _ _ _ _ (FnParse.debugString_monotone e1)
                (FnParse.debugString_forcesTo _ _ _ _ H1) P1) as E1.
  pose proof (finishes_unique _ _ _ _ (FnParse.debugString_monotone e2)
                (FnParse.debugString_forcesTo _ _ _ _ H2) P2) as E2.
  apply FnParse.render_injective. congruence.
Qed.

(** The number 7 as a value, and as the thunk of [inc 6] that the walk
    forces. *)
Lemma debugString_determines_data_witness :
  let s := Fn.oneThunk (Fn.RInc (Fn.Val (Fn.makeNumber 6))) in
  let s' := {| Fn.thunks := [Fn.forced (Fn.NumberValue 7)]; Fn.maps := [];
               Fn.evalCounter := 1 |} in
  finishes (fun fuel => Fn.debugString fuel (Fn.Val (Fn.makeNumber 7))) Fn.emptyState
    (Ret "7"%string Fn.emptyState) /\
  finishes (fun fuel => Fn.debugString fuel (Fn.Thunk 0)) s (Ret "7"%string s') /\
  TNumber 7 = TNumber 7.
Proof.
  intros s s'.
  assert (P1 : finishes (fun fuel => Fn.debugString fuel (Fn.Val (Fn.makeNumber 7)))
                 Fn.emptyState (Ret "7"%string Fn.emptyState)).
  { apply (finishes_at _ _ _ 2); [reflexivity | discriminate]. }
  assert (P2 : finishes (fun fuel => Fn.debugString fuel (Fn.Thunk 0)) s
                 (Ret "7"%string s')).
  { apply (finishes_at _ _ _ 3); [reflexivity | discriminate]. }
  assert (H1 : Fn.forcesTo Fn.emptyState (Fn.Val (Fn.makeNumber 7)) (TNumber 7)
                 Fn.emptyState).
  { apply Fn.forces_number. apply (finishes_at _ _ _ 1); [reflexivity | discriminate]. }
  assert (H2 : Fn.forcesTo s (Fn.Thunk 0) (TNumber 7) s').
  { apply Fn.forces_number. apply (finishes_at _ _ _ 2); [reflexivity | discriminate]. }
  split; [exact P1 |]. split; [exact P2 |].
  exact (debugString_determines_data _ _ _ _ _ _ _ _ _ _ _ H1 H2 P1 P2).
Defined.
